(** * Concat optimisation passes of the TorchScript JIT

    A shallow embedding of [torch/csrc/jit/passes/concat_opt.cpp]:
    the common-input eliminator, the concat expander with its buffer
    reuse, the variadic-cat updater and the driver that alternates it
    with list-mutation removal.

    The graph IR is a tree: a block is a sequence of nodes, a node owns
    nested blocks.  Nodes and values are named by numbers (the C++ uses
    pointers); a fresh number is drawn from the graph's counter whenever
    the C++ calls [Graph::create]. *)

From Stdlib Require Import List ZArith Bool Lia PeanoNat Arith Permutation.
Import ListNotations.

Set Implicit Arguments.

(* ------------------------------------------------------------------ *)
(** ** The graph IR

    Modelled from the spec: the IR ([ir/ir.h]) is a collaborator of
    these passes and its code is not in this file of the repository.
    Values, nodes and blocks follow the data model of the
    specification; the operations on the graph ([replaceAllUsesWith],
    [insertBefore], [destroy], the producer and the type of a value,
    the uses of a value) do what the specification says of them. *)

Module IR.

(** Node kinds ([Symbol]s) the passes distinguish. *)
Inductive Symbol : Set :=
| aten_cat
| prim_Concat
| prim_ListConstruct
| aten_empty
| aten_slice
| aten_copy_
| prim_Constant
| prim_Param
| other_kind (n : nat).

Definition Symbol_eqb (a b : Symbol) : bool :=
  match a, b with
  | aten_cat, aten_cat
  | prim_Concat, prim_Concat
  | prim_ListConstruct, prim_ListConstruct
  | aten_empty, aten_empty
  | aten_slice, aten_slice
  | aten_copy_, aten_copy_
  | prim_Constant, prim_Constant
  | prim_Param, prim_Param => true
  | other_kind n, other_kind m => Nat.eqb n m
  | _, _ => false
  end.

(** Constant payloads the passes create or read. *)
Inductive IValue : Set :=
| IV_None
| IV_Int (z : Z).

(** [TensorType]: an optional rank with optional sizes per axis
    ([VaryingShape]), and whether the remaining properties that
    [isComplete] asks for (dtype, device, strides) are known. *)
Record TensorType : Set := mkTensorType {
  tt_sizes : option (list (option Z));
  tt_rest_complete : bool
}.

Inductive Type_ : Set :=
| Tensor (t : TensorType)
| IntType
| NoneType
| ListType (elem : Type_)
| OtherType.

(** A value is named by its unique number. *)
Definition Value := nat.

Inductive Node : Set :=
  mkNode {
    n_id : nat;
    n_kind : Symbol;
    n_inputs : list Value;
    n_outputs : list (Value * Type_);
    n_attr : option IValue;
    n_blocks : list Block
  }
with Block : Set :=
  mkBlock {
    b_params : list (Value * Type_);
    b_nodes : list Node;
    b_returns : list Value
  }.

(** A graph: its top-level block (parameters are the graph inputs,
    returns the graph outputs) and the next unused number. *)
Record Graph : Set := mkGraph {
  g_block : Block;
  g_next : nat
}.

(** *** Induction over the tree *)

Section NodeInd.
Variable P : Node -> Prop.
Variable Q : Block -> Prop.
Hypothesis HN : forall i k ins outs a bs,
      Forall Q bs -> P (mkNode i k ins outs a bs).
Hypothesis HB : forall ps ns rs,
      Forall P ns -> Q (mkBlock ps ns rs).

Fixpoint Node_tree_ind (n : Node) : P n :=
    match n with
    | mkNode i k ins outs a bs =>
        HN i k ins outs a
          ((fix blocks (l : list Block) : Forall Q l :=
              match l with
              | [] => Forall_nil Q
              | b :: l' => Forall_cons b (Block_tree_ind b) (blocks l')
              end) bs)
    end
  with Block_tree_ind (b : Block) : Q b :=
    match b with
    | mkBlock ps ns rs =>
        HB ps rs
          ((fix nodes (l : list Node) : Forall P l :=
              match l with
              | [] => Forall_nil P
              | n :: l' => Forall_cons n (Node_tree_ind n) (nodes l')
              end) ns)
    end.
End NodeInd.

(** *** Traversal *)

(** All nodes of a block in the order [for (node : block->nodes())]
    with recursion into [node->blocks()] visits them. *)
Fixpoint nodes_of_node (n : Node) : list Node :=
  n :: flat_map nodes_of_block (n_blocks n)
with nodes_of_block (b : Block) : list Node :=
  flat_map nodes_of_node (b_nodes b).

(** Generic rewriting: every node (nested blocks first) is replaced by
    the nodes [f] gives for it; block returns are mapped by [r]. *)
Section Rewrite.
Variable f : Node -> list Node.
Variable r : list Value -> list Value.

Fixpoint rw_node (n : Node) : list Node :=
    match n with
    | mkNode i k ins outs a bs =>
        f (mkNode i k ins outs a (map rw_block bs))
    end
  with rw_block (b : Block) : Block :=
    match b with
    | mkBlock ps ns rs => mkBlock ps (flat_map rw_node ns) (r rs)
    end.
End Rewrite.

Definition replace_value (v w x : Value) : Value :=
  if Nat.eqb x v then w else x.

Definition subst_node (v w : Value) (n : Node) : Node :=
  mkNode (n_id n) (n_kind n) (map (replace_value v w) (n_inputs n))
         (n_outputs n) (n_attr n) (n_blocks n).

(** Modelled from the spec: [v->replaceAllUsesWith(w)], every consumer
    of [v] among the nodes placed in the graph, and every block return,
    reads [w] instead. *)
Definition replaceAllUsesWith (v w : Value) (b : Block) : Block :=
  rw_block (fun n => [subst_node v w n]) (map (replace_value v w)) b.

(** Modelled from the spec: [new->insertBefore(target)]. *)
Definition insertBefore (new : Node) (target : nat) (b : Block) : Block :=
  rw_block (fun n => if Nat.eqb (n_id n) target then [new; n] else [n])
           (fun rs => rs) b.

(** Several nodes inserted in order at the insertion point [target]. *)
Definition insertAllBefore (news : list Node) (target : nat) (b : Block)
  : Block :=
  rw_block (fun n => if Nat.eqb (n_id n) target then news ++ [n] else [n])
           (fun rs => rs) b.

(** Modelled from the spec: what [n->destroy()] does to the graph, the
    node leaves its block (and the graph).  This is the removal alone:
    it stands for the call where the caller has just redirected the
    uses of the output with [replaceAllUsesWith], or has found the
    output without uses.  Elsewhere the call is [Node_destroy] below,
    which carries the assertion that no output of the node is used. *)
Definition destroy (target : nat) (b : Block) : Block :=
  rw_block (fun n => if Nat.eqb (n_id n) target then [] else [n])
           (fun rs => rs) b.

(** Modelled from the spec: every value has a single producing node
    or is a block parameter. *)
Definition defines (v : Value) (n : Node) : bool :=
  existsb (fun o => Nat.eqb (fst o) v) (n_outputs n).

Definition producer (b : Block) (v : Value) : option Node :=
  find (defines v) (nodes_of_block b).

(** [v->node()->kind()]; a value no node produces is a block parameter,
    whose node has kind [prim::Param]. *)
Definition producer_kind (b : Block) (v : Value) : Symbol :=
  match producer b v with
  | Some n => n_kind n
  | None => prim_Param
  end.

Definition lookup_type (l : list (Value * Type_)) (v : Value)
  : option Type_ :=
  option_map snd (find (fun o => Nat.eqb (fst o) v) l).

Fixpoint params_of_node (n : Node) : list (Value * Type_) :=
  flat_map params_of_block (n_blocks n)
with params_of_block (b : Block) : list (Value * Type_) :=
  b_params b ++ flat_map params_of_node (b_nodes b).

(** Modelled from the spec: [v->type()], the type the producer (or
    the parameter list) gives the value. *)
Definition type_of (b : Block) (v : Value) : Type_ :=
  match producer b v with
  | Some n =>
      match lookup_type (n_outputs n) v with
      | Some t => t
      | None => OtherType
      end
  | None =>
      match lookup_type (params_of_block b) v with
      | Some t => t
      | None => OtherType
      end
  end.

(** Modelled from the spec: the uses of a value are the inputs of
    placed nodes and the block returns that name it. *)
Fixpoint returns_of_node (n : Node) : list Value :=
  flat_map returns_of_block (n_blocks n)
with returns_of_block (b : Block) : list Value :=
  b_returns b ++ flat_map returns_of_node (b_nodes b).

Definition count_value (v : Value) (l : list Value) : nat :=
  length (filter (Nat.eqb v) l).

Definition num_uses (b : Block) (v : Value) : nat :=
  count_value v (flat_map n_inputs (nodes_of_block b))
  + count_value v (returns_of_block b).

Definition hasUses (b : Block) (v : Value) : bool :=
  negb (Nat.eqb (num_uses b v) 0).

Definition find_node (b : Block) (i : nat) : option Node :=
  find (fun n => Nat.eqb (n_id n) i) (nodes_of_block b).

Definition count_kind (k : Symbol) (b : Block) : nat :=
  length (filter (fun n => Symbol_eqb (n_kind n) k) (nodes_of_block b)).

(** Modelled from the spec: [n->destroy()] with its assertion, a node
    is destroyed only when none of its outputs has a use left; the call
    fails on a node with a live use. *)
Definition Node_destroy (target : nat) (b : Block) : option Block :=
  match find_node b target with
  | Some node =>
      if existsb (fun o => hasUses b (fst o)) (n_outputs node) then None
      else Some (destroy target b)
  | None => None
  end.

End IR.

Import IR.

(* ------------------------------------------------------------------ *)
(** ** Collaborators

    The alias analysis, the dominance query of the IR, the iteration
    order of the hash containers and the list-mutation removal pass are
    not part of this file of the repository; the passes are
    parameterised over them. *)

Record Collaborators : Type := mkCollaborators {
  (** [AliasDb(graph).hasWriters(v)] *)
  hasWriters : Block -> Value -> bool;
  (** [AliasDb(graph).couldMoveBeforeTopologically(n, movePoint)] *)
  couldMoveBeforeTopologically : Block -> Node -> Node -> bool;
  (** [node->isDominatedBy(prev)] in the given graph *)
  isDominatedBy : Block -> Node -> Node -> bool;
  (** the order in which a [std::unordered_set<Node*>] holding the
      given nodes (listed in insertion order) is iterated *)
  set_order : list Node -> list Node;
  (** [RemoveListMutation(graph)] *)
  RemoveListMutation : Graph -> bool * Graph
}.

(** Failure of an internal assertion or of a checked access aborts the
    pass; [None] stands for that. *)
Definition bind {A B} (x : option A) (f : A -> option B) : option B :=
  match x with
  | Some a => f a
  | None => None
  end.

Notation "x <- e ;; k" := (bind e (fun x => k))
  (at level 61, e at next level, right associativity).

(** [node->output()]: the node must have exactly one output. *)
Definition output (n : Node) : option Value :=
  match n_outputs n with
  | [o] => Some (fst o)
  | _ => None
  end.

Definition output_type (n : Node) : option Type_ :=
  match n_outputs n with
  | [o] => Some (snd o)
  | _ => None
  end.

(** [node->input(i)], a checked access. *)
Definition input (n : Node) (i : nat) : option Value :=
  nth_error (n_inputs n) i.

(** Modelled from the spec: [graph->create(kind, inputs)], a node with
    one fresh output. *)
Definition create (next : nat) (k : Symbol) (ins : list Value)
           (t : Type_) : Node * nat :=
  (mkNode next k ins [(next, t)] None [], S next).

(** The type [Graph::create] gives a fresh output: a tensor about which
    nothing is known. *)
Definition dynamic_tensor : Type_ := Tensor (mkTensorType None false).

(** [equal(list1, list2)] on [ArrayRef<Value*>]. *)
Definition equal (list1 list2 : list Value) : bool :=
  Nat.eqb (length list1) (length list2) &&
  forallb (fun p => Nat.eqb (fst p) (snd p)) (combine list1 list2).

(* ------------------------------------------------------------------ *)
(** ** ConcatCommonInputsEliminator *)

Module Eliminator.

Record State : Type := mkState {
  next_unique : nat;
  (** [concated_outputs_], in insertion order *)
  concated_outputs_ : list Node;
  (** [concats_to_replace_], in insertion order.  [postprocess] goes
      through this hash map; each entry edits its own node and
      redirects its own output, so the order of the entries does not
      show in the result. *)
  concats_to_replace_ : list (Node * Node)
}.

Definition same_node (a b : Node) : bool := Nat.eqb (n_id a) (n_id b).

(** [std::unordered_set::insert] *)
Definition set_insert (n : Node) (s : list Node) : list Node :=
  if existsb (same_node n) s then s else s ++ [n].

(** [map[key] = value] *)
Fixpoint map_set (k v : Node) (m : list (Node * Node))
  : list (Node * Node) :=
  match m with
  | [] => [(k, v)]
  | (k', v') :: m' =>
      if same_node k k' then (k', v) :: m' else (k', v') :: map_set k v m'
  end.

(** [inputs.slice(0, inputs.size() - 1)] and [inputs.back()]; the slice
    is checked, so an empty input list aborts. *)
Definition split_dim (all_inputs : list Value)
  : option (list Value * Value) :=
  match all_inputs with
  | [] => None
  | _ => Some (removelast all_inputs, last all_inputs 0)
  end.

Section WithCollaborators.
Variable C : Collaborators.
  (** the graph the pass was started on: it is not mutated before
      [postprocess], and the alias database is built from it *)
Variable g : Block.

  (** One of the two search loops of [handleCat] over
      [concated_outputs_]: [wanted] is the prefix or the suffix of the
      current tensor inputs, [build] the inputs of the replacement. *)
Fixpoint search (node : Node) (wanted : list Value) (curr_dim : Value)
           (candidates : list Node) : option (option Node) :=
    match candidates with
    | [] => Some None
    | prev :: rest =>
        pd <- split_dim (n_inputs prev) ;;
        let '(prev_tensor_inputs, prev_dim) := pd in
        if equal wanted prev_tensor_inputs && Nat.eqb curr_dim prev_dim
        then
          if negb (isDominatedBy C g node prev)
          then search node wanted curr_dim rest
          else Some (Some prev)
        else search node wanted curr_dim rest
    end.

Definition record_replacement (st : State) (node : Node)
             (new_inputs : list Value) : option State :=
    t <- output_type node ;;
    let '(new_concat, next') :=
      create (next_unique st) prim_Concat new_inputs t in
    Some (mkState next' (concated_outputs_ st)
                  (map_set node new_concat (concats_to_replace_ st))).

Definition handleCat (st : State) (node : Node) : option State :=
    cd <- split_dim (n_inputs node) ;;
    let '(curr_tensor_inputs, curr_dim) := cd in
    out <- output node ;;
    let st1 :=
      if negb (hasWriters C g out)
      then mkState (next_unique st)
                   (set_insert node (concated_outputs_ st))
                   (concats_to_replace_ st)
      else st in
    if Nat.leb (length curr_tensor_inputs) 2 then Some st1
    else
      let curr_tensor_inputs_prefix := removelast curr_tensor_inputs in
      found <- search node curr_tensor_inputs_prefix curr_dim
                      (set_order C (concated_outputs_ st1)) ;;
      match found with
      | Some prev =>
          po <- output prev ;;
          record_replacement st1 node
            [po; last curr_tensor_inputs 0; curr_dim]
      | None =>
          let curr_tensor_inputs_suffix := tl curr_tensor_inputs in
          found <- search node curr_tensor_inputs_suffix curr_dim
                          (set_order C (concated_outputs_ st1)) ;;
          match found with
          | Some prev =>
              po <- output prev ;;
              record_replacement st1 node
                [hd 0 curr_tensor_inputs; po; curr_dim]
          | None => Some st1
          end
      end.

Fixpoint handleNode (n : Node) (st : State) {struct n} : option State :=
    st1 <- (if Symbol_eqb (n_kind n) prim_Concat
            then handleCat st n else Some st) ;;
    fold_left (fun acc b => s <- acc ;; handleBlock b s)
              (n_blocks n) (Some st1)
  with handleBlock (b : Block) (st : State) {struct b} : option State :=
    fold_left (fun acc n => s <- acc ;; handleNode n s)
              (b_nodes b) (Some st).
End WithCollaborators.

(** [postprocess]: the replacement is placed before the node it
    replaces, the uses are redirected and the node destroyed.
    A replacement that is not placed yet already holds uses of its
    inputs, so the redirections done before its turn have reached it:
    [redirected] is their composition. *)
Fixpoint postprocess_loop (pending : list (Node * Node))
         (redirected : Node -> Node) (b : Block) (changed : bool)
  : option (Block * bool) :=
  match pending with
  | [] => Some (b, changed)
  | (curr_node, new_node0) :: rest =>
      let new_node := redirected new_node0 in
      let b1 := insertBefore new_node (n_id curr_node) b in
      v <- output curr_node ;;
      w <- output new_node ;;
      let b2 := replaceAllUsesWith v w b1 in
      let b3 := destroy (n_id curr_node) b2 in
      postprocess_loop rest (fun n => subst_node v w (redirected n))
                       b3 true
  end.

Definition postprocess (b : Block) (st : State) : option (Block * bool) :=
  postprocess_loop (concats_to_replace_ st) (fun n => n) b false.

Definition run (C : Collaborators) (gr : Graph) : option (Graph * bool) :=
  st <- handleBlock C (g_block gr) (g_block gr)
                    (mkState (g_next gr) [] []) ;;
  res <- postprocess (g_block gr) st ;;
  Some (mkGraph (fst res) (next_unique st), snd res).

End Eliminator.

(** [EliminateConcatCommonInputs] *)
Definition EliminateConcatCommonInputs := Eliminator.run.

(* ------------------------------------------------------------------ *)
(** ** VariadicCatUpdater *)

Module Variadic.

Record State : Type := mkState {
  graph_ : Graph;
  (** [aliasDb_]: the graph the alias database was built from, once it
      has been asked for *)
  aliasDb_ : option Block
}.

(** [collectCatNodes], pushing onto [cat_nodes_]. *)
Fixpoint collectCatNodes_node (n : Node) (cat_nodes_ : list Node)
         {struct n} : list Node :=
  let cat_nodes_ :=
    if Symbol_eqb (n_kind n) aten_cat then cat_nodes_ ++ [n]
    else cat_nodes_ in
  fold_left (fun acc b => collectCatNodes b acc) (n_blocks n) cat_nodes_
with collectCatNodes (b : Block) (cat_nodes_ : list Node)
     {struct b} : list Node :=
  fold_left (fun acc n => collectCatNodes_node n acc) (b_nodes b)
            cat_nodes_.

Definition getOrCreateAliasDb (st : State) : Block * State :=
  match aliasDb_ st with
  | Some db => (db, st)
  | None =>
      let db := g_block (graph_ st) in
      (db, mkState (graph_ st) (Some db))
  end.

(** [n->hasUses()]: some output of the node is used. *)
Definition node_hasUses (b : Block) (n : Node) : bool :=
  existsb (fun o => hasUses b (fst o)) (n_outputs n).

Section WithCollaborators.
Variable C : Collaborators.

Definition replaceWithVariadicCat (st : State) (cat0 : Node)
    : option (State * bool) :=
    (* the vector holds pointers: the node is read as it is now *)
    cat <- find_node (g_block (graph_ st)) (n_id cat0) ;;
    in0 <- input cat 0 ;;
    if negb (Symbol_eqb (producer_kind (g_block (graph_ st)) in0)
                        prim_ListConstruct)
    then Some (st, false)
    else
      list <- producer (g_block (graph_ st)) in0 ;;
      let '(db, st) := getOrCreateAliasDb st in
      if negb (couldMoveBeforeTopologically C db list cat)
      then Some (st, false)
      else
        in1 <- input cat 1 ;;
        let inputs := n_inputs list ++ [in1] in
        let '(var_cat, next') :=
          create (g_next (graph_ st)) prim_Concat inputs dynamic_tensor in
        let b1 := insertBefore var_cat (n_id cat) (g_block (graph_ st)) in
        v <- output cat ;;
        w <- output var_cat ;;
        let b2 := replaceAllUsesWith v w b1 in
        let b3 := destroy (n_id cat) b2 in
        let b4 := if negb (node_hasUses b3 list)
                  then destroy (n_id list) b3 else b3 in
        Some (mkState (mkGraph b4 next') (aliasDb_ st), true).

  (** The loop of [run]: [changed = changed || replaceWithVariadicCat(c)]. *)
Fixpoint run_loop (cat_nodes_ : list Node) (st : State) (changed : bool)
    : option (State * bool) :=
    match cat_nodes_ with
    | [] => Some (st, changed)
    | c :: rest =>
        r <- (if changed then Some (st, true)
              else replaceWithVariadicCat st c) ;;
        run_loop rest (fst r) (snd r)
    end.

Definition run (gr : Graph) : option (Graph * bool) :=
    let cat_nodes_ := collectCatNodes (g_block gr) [] in
    r <- run_loop cat_nodes_ (mkState gr None) false ;;
    Some (graph_ (fst r), snd r).
End WithCollaborators.

End Variadic.

(** [UseVariadicCat] *)
Definition UseVariadicCat := Variadic.run.

(* ------------------------------------------------------------------ *)
(** ** RemoveListMutationAndUseVariadicCat *)

Inductive outcome (A : Type) : Type :=
| Done (a : A)
| Aborted
| OutOfFuel.
Arguments Done {A} a.
Arguments Aborted {A}.
Arguments OutOfFuel {A}.

Section Driver.
Variable C : Collaborators.

  (** The body of the [while] loop: one round, giving the graph and
      [changed_in_last_iter]. *)
Definition round (gr : Graph) : option (Graph * bool) :=
    let '(changed_in_last_iter, gr1) := RemoveListMutation C gr in
    if changed_in_last_iter then Some (gr1, true)
    else UseVariadicCat C gr1.

Fixpoint driver_loop (fuel : nat) (gr : Graph)
           (changed_in_last_iter changed : bool) : outcome (Graph * bool) :=
    if changed_in_last_iter then
      match fuel with
      | O => OutOfFuel
      | S fuel' =>
          match round gr with
          | None => Aborted
          | Some (gr', changed_in_last_iter') =>
              driver_loop fuel' gr' changed_in_last_iter'
                          (changed || changed_in_last_iter')
          end
      end
    else Done (gr, changed).

Definition RemoveListMutationAndUseVariadicCat (fuel : nat) (gr : Graph)
    : outcome (Graph * bool) :=
    driver_loop fuel gr true false.
End Driver.

(* ------------------------------------------------------------------ *)
(** ** ConcatExpander *)

Module Expander.

Record State : Type := mkState {
  graph_ : Graph;
  aliasDb_ : option Block;
  nodes_to_remove_ : list Node;
  replace_uses_with_ : list (Value * Value);
  copies_added_ : list Node;
  slices_added_ : list Node
}.

Definition getOrCreateAliasDb (st : State) : Block * State :=
  match aliasDb_ st with
  | Some db => (db, st)
  | None =>
      let db := g_block (graph_ st) in
      (db, mkState (graph_ st) (Some db) (nodes_to_remove_ st)
                   (replace_uses_with_ st) (copies_added_ st)
                   (slices_added_ st))
  end.

(** Modelled from the spec: [TensorType::isComplete] ([jit_type.h]); a
    known shape has complete, concrete sizes per axis. *)
Definition isComplete (t : TensorType) : bool :=
  tt_rest_complete t &&
  match tt_sizes t with
  | Some l => forallb (fun o => match o with Some _ => true | None => false end) l
  | None => false
  end.

(** Modelled from the spec: [TensorType::dim], the rank if known. *)
Definition dim (t : TensorType) : option nat :=
  option_map (@length _) (tt_sizes t).

Definition shapeIsKnown (b : Block) (v : Value) : bool :=
  match type_of b v with
  | Tensor t =>
      if negb (isComplete t) then false
      else
        match dim t with
        | Some 0 => false
        | _ => true
        end
  | _ => true
  end.

Definition allShapesAreKnown (b : Block) (node : Node) : bool :=
  forallb (shapeIsKnown b) (n_inputs node) &&
  forallb (fun o => shapeIsKnown b (fst o)) (n_outputs node).

(** Modelled from the spec: [constant_as<int64_t>] is declared in
    [ir/constants.h]; the spec asks for the axis to be a compile-time
    constant integer, which is a value produced by a [prim::Constant]
    node holding an integer. *)
Definition constant_as (b : Block) (v : Value) : option Z :=
  match producer b v with
  | Some n =>
      if Symbol_eqb (n_kind n) prim_Constant then
        match n_attr n with
        | Some (IV_Int z) => Some z
        | _ => None
        end
      else None
  | None => None
  end.

(** Conversion of a 64-bit result to [int]. *)
Definition to_int (z : Z) : Z :=
  ((z + 2147483648) mod 4294967296 - 2147483648)%Z.

(** Modelled from the spec: [sizes[i]] of a [VaryingShape]
    ([jit_type.h]), dereferenced; the extent of an operand is read from
    its own known shape.  The index is a [size_t] and the access is
    checked: outside the shape, or on an unknown size, there is no
    extent and the pass aborts. *)
Definition size_at (sizes : list (option Z)) (i : Z) : option Z :=
  o <- nth_error sizes (Z.to_nat (i mod 18446744073709551616)) ;; o.

(** Nodes created and placed at the insertion point, in order. *)
Record Builder : Type := mkBuilder {
  bl_next : nat;
  bl_emitted : list Node
}.

Definition emit (k : Symbol) (ins : list Value) (t : Type_)
           (a : option IValue) (bl : Builder) : Node * Builder :=
  let n := mkNode (bl_next bl) k ins [(bl_next bl, t)] a [] in
  (n, mkBuilder (S (bl_next bl)) (bl_emitted bl ++ [n])).

(** [graph_->insertConstant(val)] *)
Definition insertConstant (val : IValue) (bl : Builder) : Value * Builder :=
  let t := match val with IV_None => NoneType | IV_Int _ => IntType end in
  let '(n, bl') := emit prim_Constant [] t (Some val) bl in
  (n_id n, bl').

Definition size_constant (o : option Z) : IValue :=
  match o with
  | Some z => IV_Int z
  | None => IV_None
  end.

Fixpoint insert_size_constants (sizes : list (option Z)) (bl : Builder)
  : list Value * Builder :=
  match sizes with
  | [] => ([], bl)
  | s :: rest =>
      let '(v, bl1) := insertConstant (size_constant s) bl in
      let '(vs, bl2) := insert_size_constants rest bl1 in
      (v :: vs, bl2)
  end.

(** Result of the loop over the inputs of the list: the builder and the
    slices and copies added. *)
Record Emitted : Type := mkEmitted {
  em_builder : Builder;
  em_slices : list Node;
  em_copies : list Node
}.

Section ExpandLoop.
Variable b : Block.
Variables cat_out_value cat_dim one : Value.
Variable cat_dim_value : Z.

Fixpoint expand_inputs (cat_inps : list Value) (start_idx : Z)
           (start : Value) (em : Emitted) : option Emitted :=
    match cat_inps with
    | [] => Some em
    | cat_inp :: rest =>
        match type_of b cat_inp with
        | Tensor cat_inp_tensor_type =>
            sizes <- tt_sizes cat_inp_tensor_type ;;
            sz <- size_at sizes cat_dim_value ;;
            let end_idx := to_int (start_idx + sz) in
            let '(end_, bl1) :=
              insertConstant (IV_Int end_idx) (em_builder em) in
            let '(slice, bl2) :=
              emit aten_slice [cat_out_value; cat_dim; start; end_; one]
                   dynamic_tensor None bl1 in
            let '(copy, bl3) :=
              emit aten_copy_ [n_id slice; cat_inp] dynamic_tensor None
                   bl2 in
            expand_inputs rest end_idx end_
              (mkEmitted bl3 (em_slices em ++ [slice])
                         (em_copies em ++ [copy]))
        | _ => None
        end
    end.
End ExpandLoop.

Definition set_insert (n : Node) (s : list Node) : list Node :=
  if existsb (fun m => Nat.eqb (n_id m) (n_id n)) s then s else s ++ [n].

Fixpoint map_set (k v : Value) (m : list (Value * Value))
  : list (Value * Value) :=
  match m with
  | [] => [(k, v)]
  | (k', v') :: m' =>
      if Nat.eqb k k' then (k', v) :: m' else (k', v') :: map_set k v m'
  end.

Section WithCollaborators.
Variable C : Collaborators.

Definition expandCat (st0 : State) (node : Node) : option State :=
    in0 <- input node 0 ;;
    let '(db, st) := getOrCreateAliasDb st0 in
    let b := g_block (graph_ st) in
    if hasWriters C db in0 then Some st
    else if negb (Symbol_eqb (producer_kind b in0) prim_ListConstruct)
    then Some st
    else if negb (allShapesAreKnown b node) then Some st
    else
      cat_inp_list <- producer b in0 ;;
      if negb (forallb (shapeIsKnown b) (n_inputs cat_inp_list))
      then Some st
      else
        in1 <- input node 1 ;;
        match constant_as b in1 with
        | None => Some st
        | Some cat_dim_value =>
            let cat_dim := in1 in
            let bl := mkBuilder (g_next (graph_ st)) [] in
            let '(none, bl) := insertConstant IV_None bl in
            let '(one, bl) := insertConstant (IV_Int 1) bl in
            out <- output node ;;
            match type_of b out with
            | Tensor tensortype =>
                tensortype_sizes <- tt_sizes tensortype ;;
                let '(cat_out_size, bl) :=
                  insert_size_constants tensortype_sizes bl in
                let '(cat_out_size_list, bl) :=
                  emit prim_ListConstruct cat_out_size (ListType IntType)
                       None bl in
                let '(cat_out_empty, bl) :=
                  emit aten_empty
                       [n_id cat_out_size_list; none; none; none; none; none]
                       dynamic_tensor None bl in
                let cat_out_value := n_id cat_out_empty in
                let start_idx := 0%Z in
                let '(start, bl) := insertConstant (IV_Int start_idx) bl in
                em <- expand_inputs b cat_out_value cat_dim one
                        cat_dim_value (n_inputs cat_inp_list) start_idx
                        start
                        (mkEmitted bl (slices_added_ st)
                                   (copies_added_ st)) ;;
                let b' := insertAllBefore (bl_emitted (em_builder em))
                                          (n_id node) b in
                Some (mkState
                        (mkGraph b' (bl_next (em_builder em)))
                        (aliasDb_ st)
                        (set_insert node (nodes_to_remove_ st))
                        (map_set out cat_out_value (replace_uses_with_ st))
                        (em_copies em) (em_slices em))
            | _ => None
            end
        end.

Fixpoint handleNode (n : Node) (st : State) {struct n} : option State :=
    st1 <- (if Symbol_eqb (n_kind n) aten_cat
            then expandCat st n else Some st) ;;
    fold_left (fun acc b => s <- acc ;; handleBlock b s)
              (n_blocks n) (Some st1)
  with handleBlock (b : Block) (st : State) {struct b} : option State :=
    fold_left (fun acc n => s <- acc ;; handleNode n s)
              (b_nodes b) (Some st).
End WithCollaborators.

(** [removeCatNodeFromGraph] *)
Definition removeCatNodeFromGraph (b : Block) (n0 : Node) : option Block :=
  n <- find_node b (n_id n0) ;;
  if negb (Symbol_eqb (n_kind n) aten_cat) then None
  else
    inp_list <- input n 0 ;;
    let list_node := producer b inp_list in
    b1 <- Node_destroy (n_id n) b ;;
    if negb (hasUses b1 inp_list) then
      match list_node with
      | Some l => Some (destroy (n_id l) b1)
      | None => None
      end
    else Some b1.

Definition cleanupExpandedCatOps (st : State) : option Block :=
  let b1 := fold_left (fun b p => replaceAllUsesWith (fst p) (snd p) b)
                      (replace_uses_with_ st) (g_block (graph_ st)) in
  fold_left (fun acc n => b <- acc ;; removeCatNodeFromGraph b n)
            (nodes_to_remove_ st) (Some b1).

(** [Node::moveBefore] *)
Definition node_moveBefore (n : nat) (before : nat) (b : Block)
  : option Block :=
  node <- find_node b n ;;
  Some (insertBefore node before (destroy n b)).

(** [ConcatExpander::moveBefore]: the nodes the node depends on are
    moved first.  The recursion follows the inputs; [fuel] bounds its
    depth. *)
Fixpoint moveBefore (fuel : nat) (n : nat) (before : nat) (b : Block)
  : option Block :=
  match fuel with
  | O => None
  | S fuel' =>
      node <- find_node b n ;;
      b1 <- fold_left
              (fun acc inp =>
                 bb <- acc ;;
                 p <- producer bb inp ;;
                 moveBefore fuel' (n_id p) before bb)
              (n_inputs node) (Some b) ;;
      node_moveBefore n before b1
  end.

(** One iteration of the loop of [reuseBuffersInCopies]. *)
Definition reuse_step (fuel : nat) (b : Block) (copy0 : Node)
  : option Block :=
  copy <- find_node b (n_id copy0) ;;
  src <- input copy 1 ;;
  dst <- input copy 0 ;;
  if negb (Symbol_eqb (producer_kind b src) aten_empty) then Some b
  else
    src_node <- producer b src ;;
    dst_node <- producer b dst ;;
    b1 <- moveBefore fuel (n_id dst_node) (n_id src_node) b ;;
    let b2 := replaceAllUsesWith src dst b1 in
    let b3 := destroy (n_id src_node) b2 in
    Node_destroy (n_id copy) b3.

Definition reuseBuffersInCopies (fuel : nat) (copies : list Node)
           (b : Block) : option Block :=
  fold_left (fun acc copy => bb <- acc ;; reuse_step fuel bb copy)
            copies (Some b).

Definition run (C : Collaborators) (fuel : nat) (gr : Graph)
  : option Graph :=
  st <- handleBlock C (g_block gr)
          (mkState gr None [] [] [] []) ;;
  b1 <- cleanupExpandedCatOps st ;;
  b2 <- reuseBuffersInCopies fuel (copies_added_ st) b1 ;;
  Some (mkGraph b2 (g_next (graph_ st))).

End Expander.

(** [ExpandConcatAndEliminateRedundancy] *)
Definition ExpandConcatAndEliminateRedundancy := Expander.run.

(* ------------------------------------------------------------------ *)
(** ** Example graphs and collaborators *)

Module Examples.

Definition position (i : nat) (ns : list Node) : option nat :=
  (fix go (l : list Node) (k : nat) : option nat :=
     match l with
     | [] => None
     | n :: r => if Nat.eqb (n_id n) i then Some k else go r (S k)
     end) ns 0.

(** Dominance inside one block: the dominator comes first. *)
Definition flat_dominated (b : Block) (node prev : Node) : bool :=
  match position (n_id prev) (b_nodes b), position (n_id node) (b_nodes b) with
  | Some p, Some q => Nat.ltb p q
  | _, _ => false
  end.

(** A graph without mutation: nothing has writers, every move is
    legal, list-mutation removal finds nothing to do.  [ord] is the
    iteration order of the hash set. *)
Definition quiet (ord : list Node -> list Node) : Collaborators :=
  mkCollaborators (fun _ _ => false) (fun _ _ _ => true) flat_dominated
                  ord (fun g => (false, g)).

Definition shape (l : list Z) : Type_ :=
  Tensor (mkTensorType (Some (map (@Some Z) l)) true).

Definition constant (i : nat) (z : Z) : Node :=
  mkNode i prim_Constant [] [(i, IntType)] (Some (IV_Int z)) [].

Definition concat (i : nat) (ins : list Value) : Node :=
  mkNode i prim_Concat ins [(i, dynamic_tensor)] None [].

Definition cat (i : nat) (ins : list Value) (t : Type_) : Node :=
  mkNode i aten_cat ins [(i, t)] None [].

Definition list_construct (i : nat) (ins : list Value) : Node :=
  mkNode i prim_ListConstruct ins [(i, ListType dynamic_tensor)] None [].

Definition four_inputs : list (Value * Type_) :=
  [(0, shape [2; 3]%Z); (1, shape [2; 4]%Z); (2, shape [2; 5]%Z);
   (3, shape [2; 6]%Z)].

(** [%11 = Concat(%0, %1, dim)], [%12 = Concat(%0, %1, %2, dim)],
    [%13 = Concat(%11, %2, %3, dim)]. *)
Definition chained_concats : Graph :=
  mkGraph (mkBlock four_inputs
             [constant 10 1; concat 11 [0; 1; 10]; concat 12 [0; 1; 2; 10];
              concat 13 [11; 2; 3; 10]]
             [12; 13])
          20.

(** Two identical candidates before a concat they both prefix. *)
Definition twin_candidates : Graph :=
  mkGraph (mkBlock four_inputs
             [constant 10 1; concat 11 [0; 1; 10]; concat 12 [0; 1; 10];
              concat 13 [0; 1; 2; 10]]
             [11; 12; 13])
          20.

(** [cat([b, c])] before [cat([a, b, c])]. *)
Definition suffix_concats : Graph :=
  mkGraph (mkBlock four_inputs
             [constant 10 1; concat 11 [1; 2; 10]; concat 12 [0; 1; 2; 10]]
             [12])
          20.

(** [%11 = Concat(%0, %1, dim)], [%12 = Concat(%0, %1, %2, dim)],
    [%13 = Concat(%0, %1, %2, %3, dim)]: each concat is a prefix of the
    next one. *)
Definition prefix_chain : Graph :=
  mkGraph (mkBlock four_inputs
             [constant 10 1; concat 11 [0; 1; 10]; concat 12 [0; 1; 2; 10];
              concat 13 [0; 1; 2; 3; 10]]
             [12; 13])
          20.

(** A two-operand concat that reads the result of a concat the
    eliminator replaces. *)
Definition small_after_chain : Graph :=
  mkGraph (mkBlock four_inputs
             [constant 10 1; concat 11 [0; 1; 10]; concat 12 [0; 1; 2; 10];
              concat 14 [12; 3; 10]]
             [14])
          20.

(** Two list-form concatenations, each of its own constructed list. *)
Definition two_cats : Graph :=
  mkGraph (mkBlock four_inputs
             [constant 10 1;
              list_construct 11 [0; 1]; cat 12 [11; 10] (shape [2; 7]%Z);
              list_construct 13 [2; 3]; cat 14 [13; 10] (shape [2; 11]%Z)]
             [12; 14])
          20.

(** A concatenation whose result feeds a second one and is also a graph
    output. *)
Definition nested_cats : Graph :=
  mkGraph (mkBlock four_inputs
             [constant 10 1;
              list_construct 11 [0; 1]; cat 12 [11; 10] (shape [2; 7]%Z);
              list_construct 13 [12; 2]; cat 14 [13; 10] (shape [2; 12]%Z)]
             [12; 14])
          20.

(** One concatenation along axis 1 of three tensors. *)
Definition three_way_cat : Graph :=
  mkGraph (mkBlock four_inputs
             [constant 10 1;
              list_construct 11 [0; 1; 2];
              cat 12 [11; 10] (shape [2; 12]%Z)]
             [12])
          20.

(** Two one-dimensional tensors of 2^31 elements each. *)
Definition huge_cat : Graph :=
  mkGraph (mkBlock [(0, shape [2147483648]%Z); (1, shape [2147483648]%Z)]
             [constant 10 0;
              list_construct 11 [0; 1];
              cat 12 [11; 10] (shape [4294967296]%Z)]
             [12])
          20.

(** What a test looks at: identity, kind, inputs and payload of the
    nodes of the top-level block, and the block returns. *)
Definition summary (b : Block)
  : list (nat * Symbol * list Value * option IValue) * list Value :=
  (map (fun n => (n_id n, n_kind n, n_inputs n, n_attr n)) (b_nodes b),
   b_returns b).

(** [chained_concats] after one run of the eliminator. *)
Definition chained_concats_once : Graph :=
  Eval vm_compute in
    match EliminateConcatCommonInputs (quiet (fun l => l)) chained_concats with
    | Some r => fst r
    | None => chained_concats
    end.

(** [two_cats] after one run of the variadic-cat updater. *)
Definition two_cats_once : Graph :=
  Eval vm_compute in
    match UseVariadicCat (quiet (fun l => l)) two_cats with
    | Some r => fst r
    | None => two_cats
    end.

(** A concatenation whose axis is a graph input. *)
Definition cat_with_dynamic_axis : Graph :=
  mkGraph (mkBlock (four_inputs ++ [(4, IntType)])
             [list_construct 11 [0; 1];
              cat 12 [11; 4] (shape [2; 7]%Z)]
             [12])
          20.

(** [nested_cats] once both concats are expanded and the uses of their
    results redirected ([handleBlock], then [cleanupExpandedCatOps]). *)
Definition nested_expanded : Block :=
  Eval vm_compute in
    match
      (st <- Expander.handleBlock (quiet (fun l => l)) (g_block nested_cats)
               (Expander.mkState nested_cats None [] [] [] []) ;;
       Expander.cleanupExpandedCatOps st)
    with
    | Some b => b
    | None => g_block nested_cats
    end.

(** A concatenation of a list that is a graph input. *)
Definition cat_of_list_input : Graph :=
  mkGraph (mkBlock [(0, ListType dynamic_tensor)]
             [constant 10 1; cat 12 [0; 10] dynamic_tensor]
             [12])
          20.

(** Collaborators of a graph in which no list construction can be
    moved: something mutates every list before its use. *)
Definition mutated : Collaborators :=
  mkCollaborators (fun _ _ => false) (fun _ _ _ => false) flat_dominated
                  (fun l => l) (fun g => (false, g)).

(** A concatenation of a list that holds a tensor and an integer. *)
Definition cat_of_mixed_list : Graph :=
  mkGraph (mkBlock (four_inputs ++ [(4, IntType)])
             [constant 10 1; list_construct 11 [0; 4];
              cat 12 [11; 10] (shape [2; 7]%Z)]
             [12])
          20.

(** The state [handleBlock] of the expander leaves on [three_way_cat]
    and on [nested_cats]. *)
Definition three_way_handled : Expander.State :=
  Eval vm_compute in
    match Expander.handleBlock (quiet (fun l => l)) (g_block three_way_cat)
            (Expander.mkState three_way_cat None [] [] [] []) with
    | Some st => st
    | None => Expander.mkState three_way_cat None [] [] [] []
    end.

Definition nested_handled : Expander.State :=
  Eval vm_compute in
    match Expander.handleBlock (quiet (fun l => l)) (g_block nested_cats)
            (Expander.mkState nested_cats None [] [] [] []) with
    | Some st => st
    | None => Expander.mkState nested_cats None [] [] [] []
    end.

(** [three_way_cat] expanded, with the uses of the result of the concat
    redirected to the buffer: the graph in which
    [cleanupExpandedCatOps] removes the concat. *)
Definition three_way_redirected : Block :=
  Eval vm_compute in
    fold_left (fun b p => replaceAllUsesWith (fst p) (snd p) b)
              (Expander.replace_uses_with_ three_way_handled)
              (g_block (Expander.graph_ three_way_handled)).

(** A node that mutates a list, for the example below. *)
Definition list_append (i : nat) (ins : list Value) : Node :=
  mkNode i (other_kind 0) ins [] None [].

(** A list-mutation removal that removes one mutation per call: the
    first node of the kind of [list_append], if there is one. *)
Definition remove_one_append (gr : Graph) : bool * Graph :=
  match find (fun n => Symbol_eqb (n_kind n) (other_kind 0))
             (nodes_of_block (g_block gr)) with
  | Some n => (true, mkGraph (destroy (n_id n) (g_block gr)) (g_next gr))
  | None => (false, gr)
  end.

Definition tidy : Collaborators :=
  mkCollaborators (fun _ _ => false) (fun _ _ _ => true)
                  flat_dominated (fun l => l) remove_one_append.

(** A list that is appended to before it is concatenated. *)
Definition appended_list : Graph :=
  mkGraph (mkBlock four_inputs
             [constant 10 1; list_construct 11 [0; 1];
              list_append 15 [11; 2];
              cat 12 [11; 10] (shape [2; 7]%Z)]
             [12])
          20.

(** The state of the expander on [nested_cats] once the first concat
    is expanded. *)
Definition nested_first_expanded : Expander.State :=
  Eval vm_compute in
    match Expander.expandCat (quiet (fun l => l))
            (Expander.mkState nested_cats None [] [] [] [])
            (cat 12 [11; 10] (shape [2; 7]%Z)) with
    | Some st => st
    | None => Expander.mkState nested_cats None [] [] [] []
    end.

(** A concatenation along the last axis, given as [-1]. *)
Definition cat_on_last_axis : Graph :=
  mkGraph (mkBlock four_inputs
             [constant 10 (-1); list_construct 11 [0; 1];
              cat 12 [11; 10] (shape [2; 7]%Z)]
             [12])
          20.

End Examples.

(* ------------------------------------------------------------------ *)
(** ** Notions used to state the properties *)

Module Notions.

(** Two nodes that differ at most in the inputs they read and in what
    their nested blocks contain. *)
Definition same_shell (n n' : Node) : Prop :=
  n_id n' = n_id n /\ n_kind n' = n_kind n /\ n_outputs n' = n_outputs n /\
  length (n_inputs n') = length (n_inputs n).

(** Nodes named in [ids] have no nested blocks. *)
Definition leaves (ids : list nat) (m : Node) : Prop :=
  In (n_id m) ids -> n_blocks m = [].

(** The nodes for which a substitution is recorded. *)
Definition keys (pending : list (Node * Node)) : list nat :=
  map (fun p => n_id (fst p)) pending.

(** What [handleBlock] records: the keys are variadic concats of the
    graph with more than two tensor operands, the replacements are
    nodes without blocks. *)
Definition recorded_ok (g : Block) (p : Node * Node) : Prop :=
  (In (fst p) (nodes_of_block g) /\ n_kind (fst p) = prim_Concat /\
   2 < length (removelast (n_inputs (fst p)))) /\
  n_blocks (snd p) = [].

(** The test the search loops of [handleCat] apply to a candidate. *)
Definition candidate_ok (C : Collaborators) (g : Block) (node : Node)
           (wanted : list Value) (curr_dim : Value) (prev : Node) : bool :=
  equal wanted (removelast (n_inputs prev)) &&
  Nat.eqb curr_dim (last (n_inputs prev) 0) &&
  isDominatedBy C g node prev.

(** The replacement [handleCat] creates. *)
Definition replacement (next : nat) (new_inputs : list Value) (t : Type_)
  : Node :=
  mkNode next prim_Concat new_inputs [(next, t)] None [].

(** A recorded candidate is a variadic concat as [handleCat] met it:
    it has inputs (the axis at least) and one output. *)
Definition cand_wf (c : Node) : Prop :=
  n_inputs c <> [] /\ exists o, n_outputs c = [o].

(** The candidates the search loops of [handleCat] iterate over, once
    the node has been recorded itself (unless its output has writers). *)
Definition candidates_seen (C : Collaborators) (g : Block)
           (st : Eliminator.State) (node : Node) (out : Value)
  : list Node :=
  set_order C
    (if negb (hasWriters C g out)
     then Eliminator.set_insert node (Eliminator.concated_outputs_ st)
     else Eliminator.concated_outputs_ st).

Definition output_or_0 (n : Node) : Value :=
  match output n with
  | Some o => o
  | None => 0
  end.

(** The inputs of the replacement, if any: the first candidate, in the
    order of iteration, that passes the prefix test; failing that, the
    first that passes the suffix test. *)
Definition chosen_inputs (C : Collaborators) (g : Block) (node : Node)
           (cands : list Node) : option (list Value) :=
  let tensors := removelast (n_inputs node) in
  let curr_dim := last (n_inputs node) 0 in
  match find (candidate_ok C g node (removelast tensors) curr_dim) cands with
  | Some prev => Some [output_or_0 prev; last tensors 0; curr_dim]
  | None =>
      match find (candidate_ok C g node (tl tensors) curr_dim) cands with
      | Some prev => Some [hd 0 tensors; output_or_0 prev; curr_dim]
      | None => None
      end
  end.

(** A recorded candidate whose tensor operands are [wanted], on the
    axis [curr_dim], and that dominates [node]. *)
Definition dominating_match (C : Collaborators) (g : Block)
           (st : Eliminator.State) (node : Node) (wanted : list Value)
           (curr_dim : Value) (prev : Node) : Prop :=
  In prev (Eliminator.concated_outputs_ st) /\
  removelast (n_inputs prev) = wanted /\
  last (n_inputs prev) 0 = curr_dim /\
  isDominatedBy C g node prev = true.

(** Number of nodes of kind [k] in a list of nodes. *)
Definition count_in (k : Symbol) (l : list Node) : nat :=
  length (filter (fun n => Symbol_eqb (n_kind n) k) l).

(** Number of list-form concatenations in a graph. *)
Definition num_cat (gr : Graph) : nat := count_kind aten_cat (g_block gr).

(** The rounds of the driver's loop from a graph to the graph it stops
    on, with what each round reported; a round that reports no change is
    the last one. *)
Inductive Rounds (C : Collaborators) : Graph -> list bool -> Graph -> Prop :=
| Rounds_last gr gr' :
    round C gr = Some (gr', false) -> Rounds C gr [false] gr'
| Rounds_more gr gr1 flags gr' :
    round C gr = Some (gr1, true) -> Rounds C gr1 flags gr' ->
    Rounds C gr (true :: flags) gr'.

(** The shape of a tensor value is unknown (its type is not complete)
    or the tensor has rank 0. *)
Definition unknown_or_scalar (b : Block) (v : Value) : Prop :=
  exists t, type_of b v = Tensor t /\
            (Expander.isComplete t = false \/ Expander.dim t = Some 0).

(** The deferred edits and the graph of two expander states agree. *)
Definition same_edits (st st' : Expander.State) : Prop :=
  Expander.graph_ st' = Expander.graph_ st /\
  Expander.nodes_to_remove_ st' = Expander.nodes_to_remove_ st /\
  Expander.replace_uses_with_ st' = Expander.replace_uses_with_ st /\
  Expander.copies_added_ st' = Expander.copies_added_ st /\
  Expander.slices_added_ st' = Expander.slices_added_ st.

(** *** The expansion as the specification describes it *)

(** Extent of an operand along the axis, from its own known shape. *)
Definition axis_extent (b : Block) (axis : Z) (operand : Value)
  : option Z :=
  match type_of b operand with
  | Tensor t => sizes <- tt_sizes t ;; Expander.size_at sizes axis
  | _ => None
  end.

(** The ranges [[offset, offset + extent)] of the operands: the running
    offset starts at [start] and advances by each extent. *)
Fixpoint ranges (start : Z) (extents : list Z) : list (Z * Z) :=
  match extents with
  | [] => []
  | e :: rest => (start, start + e)%Z :: ranges (start + e) rest
  end.

Fixpoint total (extents : list Z) : Z :=
  match extents with
  | [] => 0%Z
  | e :: rest => (e + total rest)%Z
  end.

Definition constant_node (id : nat) (val : IValue) : Node :=
  mkNode id prim_Constant []
         [(id, match val with IV_None => NoneType | IV_Int _ => IntType end)]
         (Some val) [].

Definition slice_node (id : nat) (buffer axis start stop step : Value)
  : Node :=
  mkNode id aten_slice [buffer; axis; start; stop; step]
         [(id, dynamic_tensor)] None [].

Definition copy_node (id : nat) (destination source : Value) : Node :=
  mkNode id aten_copy_ [destination; source] [(id, dynamic_tensor)] None [].

(** For each operand in order: the constant holding the end of its
    range, the slice of the buffer from the constant holding the start
    of its range (the end of the range before) to it, and the copy of
    the operand into the slice. *)
Fixpoint spec_operands (next : nat) (buffer axis step start : Value)
         (operands : list Value) (rs : list (Z * Z))
  : list (Node * Node * Node) :=
  match operands, rs with
  | x :: operands', (lo, hi) :: rs' =>
      (constant_node next (IV_Int hi),
       slice_node (S next) buffer axis start next step,
       copy_node (S (S next)) (S next) x)
        :: spec_operands (S (S (S next))) buffer axis step next operands' rs'
  | _, _ => []
  end.

Definition spec_size_constants (next : nat) (sizes : list (option Z))
  : list Node :=
  map (fun p => constant_node (fst p) (Expander.size_constant (snd p)))
      (combine (seq next (length sizes)) sizes).

(** The nodes of the expansion, numbered from [next]: the constants
    [None] and [1], the constants of the output sizes and their list,
    the allocation of the buffer, the constant [0] the running offset
    starts at, then the nodes of the operands. *)
Record Expansion : Type := mkExpansion {
  x_nodes : list Node;
  x_buffer : Node;
  x_slices : list Node;
  x_copies : list Node;
  x_next : nat
}.

Definition spec_expansion (next : nat) (axis : Value)
           (out_sizes : list (option Z)) (operands : list Value)
           (extents : list Z) : Expansion :=
  let k := length out_sizes in
  let none := next in
  let one := S next in
  let size_list :=
    mkNode (next + 2 + k) prim_ListConstruct (seq (next + 2) k)
           [(next + 2 + k, ListType IntType)] None [] in
  let buffer :=
    mkNode (next + 3 + k) aten_empty
           [n_id size_list; none; none; none; none; none]
           [(next + 3 + k, dynamic_tensor)] None [] in
  let start := next + 4 + k in
  let ops :=
    spec_operands (next + 5 + k) (n_id buffer) axis one start operands
                  (ranges 0 extents) in
  mkExpansion
    ([constant_node none IV_None; constant_node one (IV_Int 1)]
       ++ spec_size_constants (next + 2) out_sizes
       ++ [size_list; buffer; constant_node start (IV_Int 0)]
       ++ flat_map (fun t => [fst (fst t); snd (fst t); snd t]) ops)
    buffer
    (map (fun t => snd (fst t)) ops)
    (map (fun t => snd t) ops)
    (next + 5 + k + 3 * length operands).

(** The integer a value holds, if a constant among [nodes] produces
    it. *)
Definition int_in (nodes : list Node) (v : Value) : option Z :=
  match find (defines v) nodes with
  | Some n =>
      if Symbol_eqb (n_kind n) prim_Constant then
        match n_attr n with
        | Some (IV_Int z) => Some z
        | _ => None
        end
      else None
  | None => None
  end.

(** What a slice node views: buffer, axis, and the integers its start,
    end and step inputs hold. *)
Definition view_of (nodes : list Node) (s : Node)
  : option (Value * Value * Z * Z * Z) :=
  match n_inputs s with
  | [buffer; axis; start; stop; step] =>
      lo <- int_in nodes start ;;
      hi <- int_in nodes stop ;;
      k <- int_in nodes step ;;
      Some (buffer, axis, lo, hi, k)
  | _ => None
  end.

(** The node has one output, numbered like the node. *)
Definition own_output (n : Node) : Prop :=
  map (@fst Value Type_) (n_outputs n) = [n_id n].

Definition slice_or_copy (n : Node) : bool :=
  Symbol_eqb (n_kind n) aten_slice || Symbol_eqb (n_kind n) aten_copy_.

(** The nodes of the operands in the order they are emitted. *)
Definition flat (ops : list (Node * Node * Node)) : list Node :=
  flat_map (fun t => [fst (fst t); snd (fst t); snd t]) ops.

(** *** Notions for the further properties *)

Definition is_kind (k : Symbol) (n : Node) : bool :=
  Symbol_eqb (n_kind n) k.

(** The tensor operands of a variadic concat: its inputs but the
    axis. *)
Definition tensor_operands (n : Node) : list Value :=
  removelast (n_inputs n).

(** A node as its schema gives it: a variadic concat has the axis as
    an input at least and one output; a list-form concat has the list
    and the axis as inputs and one output. *)
Definition concat_wf (n : Node) : Prop :=
  n_inputs n <> [] /\ exists o, n_outputs n = [o].

Definition cat_wf (n : Node) : Prop :=
  (exists l a, n_inputs n = [l; a]) /\ exists o, n_outputs n = [o].

(** What the eliminator puts in the place of a concat: a variadic
    concat of two tensors on the axis of the node replaced, with its
    type, and without nested blocks. *)
Definition binary_replacement (k v : Node) : Prop :=
  n_kind v = prim_Concat /\
  length (tensor_operands v) = 2 /\
  n_blocks v = [] /\
  last (n_inputs v) 0 = last (n_inputs k) 0 /\
  (exists t, n_outputs v = [(n_id v, t)]) /\
  map (@snd Value Type_) (n_outputs v) = map (@snd Value Type_) (n_outputs k).

(** No placed node reads the value and no block returns it. *)
Definition unused (v : Value) (b : Block) : Prop :=
  (forall x, In x (nodes_of_block b) -> ~ In v (n_inputs x)) /\
  ~ In v (returns_of_block b).

(** A list-form concat the updater can promote: its list is produced
    by a [prim::ListConstruct] that can be moved before it. *)
Definition promotable (C : Collaborators) (b : Block) (c : Node) : Prop :=
  exists l a lst,
    n_inputs c = [l; a] /\ producer b l = Some lst /\
    n_kind lst = prim_ListConstruct /\
    couldMoveBeforeTopologically C b lst c = true.

(** The state of the updater of list-form concats as long as it has
    changed nothing: the graph is the one it started from and the alias
    information, if computed, is that of this graph. *)
Definition untouched (gr : Graph) (st : Variadic.State) : Prop :=
  Variadic.graph_ st = gr /\
  (Variadic.aliasDb_ st = None \/ Variadic.aliasDb_ st = Some (g_block gr)).

(** A list-form concat the expander does not expand: one of its checks
    fails. *)
Definition ineligible (C : Collaborators) (b : Block) (node : Node) : Prop :=
  exists lst axis,
    n_inputs node = [lst; axis] /\
    (hasWriters C b lst = true \/
     producer_kind b lst <> prim_ListConstruct \/
     (exists o, In o (n_outputs node) /\ unknown_or_scalar b (fst o)) \/
     (exists l operand, producer b lst = Some l /\
                        In operand (n_inputs l) /\
                        unknown_or_scalar b operand) \/
     Expander.constant_as b axis = None).

(** The state of the expander as long as it has expanded nothing. *)
Definition idle (gr : Graph) (st : Expander.State) : Prop :=
  Expander.graph_ st = gr /\
  (Expander.aliasDb_ st = None \/
   Expander.aliasDb_ st = Some (g_block gr)) /\
  Expander.nodes_to_remove_ st = [] /\
  Expander.replace_uses_with_ st = [] /\
  Expander.copies_added_ st = [] /\
  Expander.slices_added_ st = [].

(** *** Notions for the reuse of buffers *)

Definition leaf (n : Node) : bool :=
  match n_blocks n with
  | [] => true
  | _ => false
  end.

(** No node of the block owns a nested block. *)
Definition flat_block (b : Block) : Prop := forallb leaf (b_nodes b) = true.

(** The nodes placed before the node named [t], in program order. *)
Fixpoint nodes_before (t : nat) (ns : list Node) : list Node :=
  match ns with
  | [] => []
  | n :: rest => if Nat.eqb (n_id n) t then [] else n :: nodes_before t rest
  end.

(** Every value has a single producer. *)
Definition single_producers (b : Block) : Prop :=
  NoDup (flat_map (fun n => map (@fst Value Type_) (n_outputs n))
                  (nodes_of_block b)).

(** [moveBefore] reaches the node named [n] and everything it depends
    on within [fuel] nested calls, every value met has a producer, and
    the node named [before] is not met. *)
Fixpoint movable (fuel : nat) (b : Block) (before n : nat) : bool :=
  match fuel with
  | O => false
  | S fuel' =>
      negb (Nat.eqb n before) &&
      match find_node b n with
      | Some node =>
          forallb (fun inp =>
                     match producer b inp with
                     | Some p => movable fuel' b before (n_id p)
                     | None => false
                     end)
                  (n_inputs node)
      | None => false
      end
  end.

(** What the node named [n] depends on: the node itself and, through
    the producers of its inputs, what they depend on. *)
Inductive needs (b : Block) : nat -> Node -> Prop :=
| needs_self n node :
    find_node b n = Some node -> needs b n node
| needs_input n node inp p d :
    find_node b n = Some node -> In inp (n_inputs node) ->
    producer b inp = Some p -> needs b (n_id p) d -> needs b n d.

(** Two blocks hold the same nodes, in some order, with the same
    parameters and returns. *)
Definition same_nodes (b bb : Block) : Prop :=
  b_params bb = b_params b /\ b_returns bb = b_returns b /\
  Permutation (b_nodes b) (b_nodes bb).

(** On a block without nested blocks: the nodes left when the node
    named [t] goes, and the nodes once [new] is placed before the node
    named [t]. *)
Definition drop (t : nat) (ns : list Node) : list Node :=
  filter (fun n => negb (Nat.eqb (n_id n) t)) ns.

Definition place (new : Node) (t : nat) (ns : list Node) : list Node :=
  flat_map (fun n => if Nat.eqb (n_id n) t then [new; n] else [n]) ns.

(** No number occurs twice. *)
Fixpoint distinct (l : list nat) : bool :=
  match l with
  | [] => true
  | x :: rest => negb (existsb (Nat.eqb x) rest) && distinct rest
  end.

(** What the redirections of [postprocess] make of a node and of a
    value: each recorded pair redirects the output of its node to the
    output of its replacement, in the order of the record. *)
Definition redirect_all (pending : list (Node * Node)) (n : Node) : Node :=
  fold_left (fun m p => subst_node (output_or_0 (fst p))
                                   (output_or_0 (snd p)) m)
            pending n.

Definition redirected_value (pending : list (Node * Node)) (x : Value)
  : Value :=
  fold_left (fun y p => replace_value (output_or_0 (fst p))
                                      (output_or_0 (snd p)) y)
            pending x.

(** A recorded pair as [postprocess] expects it: the node has one
    output and is older than [next]; the replacement was created at or
    after [next], has its own one output and no nested blocks. *)
Definition pair_ok (next : nat) (p : Node * Node) : Prop :=
  (exists ko t, n_outputs (fst p) = [(ko, t)] /\ ko < next) /\
  n_id (fst p) < next /\
  (exists t, n_outputs (snd p) = [(n_id (snd p), t)]) /\
  next <= n_id (snd p) /\ n_blocks (snd p) = [].

(** A redirection changes the inputs of a node only. *)
Definition inputs_only (red : Node -> Node) : Prop :=
  forall n, n_id (red n) = n_id n /\ n_blocks (red n) = n_blocks n /\
            n_outputs (red n) = n_outputs n.

(** The replacement [v] recorded for the concat [k] is what a candidate
    among [cands] justifies: a two-operand variadic concat on the axis
    of [k], of the output of a dominating candidate on the same axis
    and the last operand of [k] (the candidate has the operands of [k]
    but the last), or of the first operand of [k] and the output of the
    candidate (the candidate has the operands of [k] but the first). *)
Definition justified (C : Collaborators) (g : Block) (cands : list Node)
           (k v : Node) : Prop :=
  exists prev po t,
    In prev cands /\ isDominatedBy C g k prev = true /\
    output prev = Some po /\
    last (n_inputs prev) 0 = last (n_inputs k) 0 /\
    n_kind v = prim_Concat /\ output_type k = Some t /\
    n_outputs v = [(n_id v, t)] /\ n_blocks v = [] /\
    let tensors := tensor_operands k in
    let dim := last (n_inputs k) 0 in
    (tensor_operands prev = removelast tensors /\
     n_inputs v = [po; last tensors 0; dim]) \/
    (tensor_operands prev = tl tensors /\
     n_inputs v = [hd 0 tensors; po; dim]).

(** A graph as the eliminator expects it: distinct node identities
    below the counter of the graph; variadic concats without nested
    blocks, with the axis as an input at least and with one output,
    below the counter too; two variadic concats do not share their
    output. *)
Definition eliminator_wf (gr : Graph) : Prop :=
  NoDup (map n_id (nodes_of_block (g_block gr))) /\
  (forall n, In n (nodes_of_block (g_block gr)) -> n_id n < g_next gr) /\
  (forall n, In n (nodes_of_block (g_block gr)) -> n_kind n = prim_Concat ->
             n_blocks n = [] /\ n_inputs n <> [] /\
             exists o t, n_outputs n = [(o, t)] /\ o < g_next gr) /\
  (forall n m, In n (nodes_of_block (g_block gr)) ->
               In m (nodes_of_block (g_block gr)) ->
               n_kind n = prim_Concat -> n_kind m = prim_Concat ->
               output n = output m -> n = m).

(** One step of the traversal of the eliminator: [handleCat] on the
    next variadic concat, unless an earlier call has aborted. *)
Definition visit_concat (C : Collaborators) (g : Block)
  : option Eliminator.State -> Node -> option Eliminator.State :=
  fun acc n => s <- acc ;; Eliminator.handleCat C g s n.

(** The invariant of the traversal of the eliminator: the candidates
    are well formed, the counter has not gone down, no node is recorded
    twice, and every recorded pair is a variadic concat of the graph
    with more than two tensor operands and a replacement, created by
    the pass, that a recorded candidate justifies. *)
Definition recorded_justified (C : Collaborators) (g : Block) (next : nat)
           (s : Eliminator.State) : Prop :=
  Forall cand_wf (Eliminator.concated_outputs_ s) /\
  next <= Eliminator.next_unique s /\
  NoDup (keys (Eliminator.concats_to_replace_ s)) /\
  forall k v, In (k, v) (Eliminator.concats_to_replace_ s) ->
              In k (nodes_of_block g) /\ n_kind k = prim_Concat /\
              2 < length (tensor_operands k) /\ next <= n_id v /\
              justified C g (Eliminator.concated_outputs_ s) k v.

(** The pass has replaced [node] by [v], recorded in [pairs], between
    [gr] and [gr']: the node is gone; the replacement is in the graph,
    reading what the redirections of the pass leave of its inputs; the
    output of the node is redirected to the output of the replacement
    and has no use left; every other node without nested blocks is
    still there, with its inputs redirected. *)
Definition replaced_by (gr gr' : Graph) (pairs : list (Node * Node))
           (node v : Node) : Prop :=
  In (node, v) pairs /\
  find_node (g_block gr') (n_id node) = None /\
  In (redirect_all pairs v) (nodes_of_block (g_block gr')) /\
  redirected_value pairs (output_or_0 node) = n_id v /\
  num_uses (g_block gr') (output_or_0 node) = 0 /\
  (forall y, In y (nodes_of_block (g_block gr)) -> n_blocks y = [] ->
             ~ In (n_id y) (keys pairs) ->
             In (redirect_all pairs y) (nodes_of_block (g_block gr'))).

(** A graph as the updater of list-form concats expects it: the nodes
    are named below the counter of the graph, and a node that carries
    the name of a list-form concat has its schema, a list and an axis as
    inputs and one output. *)
Definition promoter_wf (gr : Graph) : Prop :=
  (forall n, In n (nodes_of_block (g_block gr)) -> n_id n < g_next gr) /\
  (forall c x, In c (nodes_of_block (g_block gr)) ->
               In x (nodes_of_block (g_block gr)) ->
               n_kind c = aten_cat -> n_id x = n_id c -> cat_wf x).

(** What the edits of the updater keep of a node: its name is below
    [next]; a list-form concat carries one of the names [ids]; a node
    that carries one of them has the schema of a list-form concat. *)
Definition promoter_node_ok (next : nat) (ids : nat -> Prop) (x : Node)
  : Prop :=
  n_id x < next /\ (n_kind x = aten_cat -> ids (n_id x)) /\
  (ids (n_id x) -> cat_wf x).

(** The names of the list-form concats of a graph. *)
Definition cat_ids (gr : Graph) (i : nat) : Prop :=
  exists c, In c (nodes_of_block (g_block gr)) /\ n_kind c = aten_cat /\
            n_id c = i.

(** What a rewriting makes of a node it keeps: the inputs are mapped by
    [h], the nested blocks are rewritten. *)
Definition rewritten (f : Node -> list Node) (r : list Value -> list Value)
           (h : list Value -> list Value) (n : Node) : Node :=
  mkNode (n_id n) (n_kind n) (h (n_inputs n)) (n_outputs n) (n_attr n)
         (map (rw_block f r) (n_blocks n)).

(** [x'] is [x] with its inputs mapped by [h] (and, below it, whatever
    the rewriting made of its nested blocks). *)
Definition mapped (h : list Value -> list Value) (x x' : Node) : Prop :=
  n_id x' = n_id x /\ n_kind x' = n_kind x /\ n_outputs x' = n_outputs x /\
  n_attr x' = n_attr x /\ n_inputs x' = h (n_inputs x) /\
  (n_blocks x = [] -> n_blocks x' = []).

(** No two nodes of the block carry the same name; no two nodes define
    the same value. *)
Definition unique_ids (b : Block) : Prop :=
  forall n m, In n (nodes_of_block b) -> In m (nodes_of_block b) ->
              n_id n = n_id m -> n = m.

Definition ssa (b : Block) : Prop :=
  forall n m v, In n (nodes_of_block b) -> In m (nodes_of_block b) ->
                defines v n = true -> defines v m = true -> n = m.

(** What a rewriting gives for a node: the nodes [pre] places before
    it, then the node itself if [keep] holds of its name. *)
Definition edit_image (f : Node -> list Node) (r : list Value -> list Value)
           (pre : nat -> list Node) (keep : nat -> bool)
           (h : list Value -> list Value) (n : Node) : list Node :=
  pre (n_id n) ++ (if keep (n_id n) then [rewritten f r h n] else []).

(** What the redirections of [cleanupExpandedCatOps] make of a value:
    each pair redirects its first value to its second, in order. *)
Definition rewired (P : list (Value * Value)) (x : Value) : Value :=
  fold_left (fun y p => replace_value (fst p) (snd p) y) P x.

(** A redirection recorded by the expander, in the graph: its first
    value is defined by a list-form concat, its second by an
    allocation. *)
Definition redirection (b : Block) (p : Value * Value) : Prop :=
  (exists c, In c (nodes_of_block b) /\ n_kind c = aten_cat /\
             defines (fst p) c = true) /\
  (exists e, In e (nodes_of_block b) /\ n_kind e = aten_empty /\
             defines (snd p) e = true).

(** A list-form concat the expander has recorded for removal, in the
    graph: the node that carries its name has no nested blocks, reads a
    list and an axis and has one output; its list is the one output of
    a list construction without nested blocks. *)
Definition recorded_cat (b : Block) (n : Node) (o : Value) : Prop :=
  exists n' l a t L lt,
    find_node b (n_id n) = Some n' /\ n_blocks n' = [] /\
    n_kind n' = aten_cat /\ n_inputs n' = [l; a] /\
    n_outputs n' = [(o, t)] /\
    producer b l = Some L /\ n_blocks L = [] /\
    n_kind L = prim_ListConstruct /\ n_outputs L = [(l, lt)].

(** The deferred edits of the expander, as [cleanupExpandedCatOps]
    expects them in the graph they were recorded for. *)
Definition pending_ok (b : Block) (P : list (Value * Value))
           (R : list Node) : Prop :=
  unique_ids b /\ ssa b /\
  NoDup (map (@fst Value Value) P) /\
  (forall p, In p P -> redirection b p) /\
  NoDup (map n_id R) /\
  (forall n, In n R -> exists o u, In (o, u) P /\ recorded_cat b n o).

(** The nodes of the block and the values they define are named below
    [next]. *)
Definition names_below (next : nat) (b : Block) : Prop :=
  forall m, In m (nodes_of_block b) ->
            n_id m < next /\ forall o, In o (n_outputs m) -> fst o < next.

End Notions.

(* ================================================================== *)
(** * Properties *)

Import Notions.

Lemma Symbol_eqb_eq (a b : Symbol) : Symbol_eqb a b = true <-> a = b.
Proof.
  destruct a, b; simpl; split; intro H; try reflexivity; try discriminate.
  - apply Nat.eqb_eq in H. now subst.
  - injection H as ->. apply Nat.eqb_refl.
Qed.

Lemma equal_eq (l1 l2 : list Value) : equal l1 l2 = true <-> l1 = l2.
Proof.
  unfold equal. revert l2.
  induction l1 as [|a l1 IH]; intros [|c l2]; simpl; split; intro H;
    try reflexivity; try discriminate.
  - apply andb_prop in H as [Hl H]. apply andb_prop in H as [Hac H].
    apply Nat.eqb_eq in Hac. subst c. f_equal.
    apply IH. rewrite Hl. exact H.
  - injection H as -> ->.
    destruct (IH l2) as [_ IH2]. specialize (IH2 eq_refl).
    apply andb_prop in IH2 as [H1 H2].
    rewrite !Nat.eqb_refl, H2. reflexivity.
Qed.

Lemma fold_bind_none {A S : Type} (f : A -> S -> option S) (l : list A) :
  fold_left (fun acc a => s <- acc ;; f a s) l None = None.
Proof. induction l; simpl; auto. Qed.

Lemma fold_bind_id {A S : Type} (f : A -> S -> option S) (l : list A) (s : S) :
  Forall (fun a => forall s', f a s' = Some s') l ->
  fold_left (fun acc a => s <- acc ;; f a s) l (Some s) = Some s.
Proof.
  induction 1 as [|a l Ha _ IH]; simpl; [reflexivity|].
  rewrite Ha. exact IH.
Qed.

(** A relation that every step respects is respected by the fold. *)
Lemma fold_bind_rel {A S : Type} (R : S -> S -> Prop)
      (f : A -> S -> option S) (l : list A) :
  (forall s, R s s) ->
  (forall s1 s2 s3, R s1 s2 -> R s2 s3 -> R s1 s3) ->
  Forall (fun a => forall s s', f a s = Some s' -> R s s') l ->
  forall s s',
    fold_left (fun acc a => s <- acc ;; f a s) l (Some s) = Some s' ->
    R s s'.
Proof.
  intros Hrefl Htrans. induction 1 as [|a l Ha _ IH]; simpl; intros s s' H.
  - injection H as <-. apply Hrefl.
  - destruct (f a s) as [s1|] eqn:E.
    + apply Htrans with s1; [now apply Ha | now apply IH].
    + simpl in H. rewrite fold_bind_none in H. discriminate.
Qed.

(* ------------------------------------------------------------------ *)
(** ** The common-input eliminator *)

Module EliminatorFacts.
Import Eliminator.

Lemma map_set_not_nil (k v : Node) m : map_set k v m <> [].
Proof. destruct m as [|[k' v'] m]; simpl; [|destruct (same_node k k')]; discriminate. Qed.

Lemma map_set_keys (k v : Node) m x :
  In x (map fst (map_set k v m)) -> In x (map fst m) \/ x = k.
Proof.
  induction m as [|[k' v'] m IH]; simpl.
  - intros [<-|[]]. now right.
  - destruct (same_node k k'); simpl.
    + intros [<-|H]; left; auto.
    + intros [<-|H]; [left; now left|].
      destruct (IH H) as [H'|H']; [left; now right | now right].
Qed.

Section Facts.
Variable C : Collaborators.
Variable g : Block.

  (** What a call of [handleCat] can do to the state. *)
Lemma handleCat_cases st node st' :
    handleCat C g st node = Some st' ->
    (concated_outputs_ st' = concated_outputs_ st \/
     concated_outputs_ st' = set_insert node (concated_outputs_ st)) /\
    ((concats_to_replace_ st' = concats_to_replace_ st /\
      next_unique st' = next_unique st) \/
     (2 < length (removelast (n_inputs node)) /\
      exists new_concat,
        concats_to_replace_ st' =
          map_set node new_concat (concats_to_replace_ st) /\
        n_kind new_concat = prim_Concat /\
        length (n_inputs new_concat) = 3 /\
        n_blocks new_concat = [])).
  Proof.
    unfold handleCat, split_dim, bind, record_replacement, create.
    destruct (n_inputs node) as [|i0 ins] eqn:Eins; [discriminate|].
    destruct (output node) as [out|]; [|discriminate].
    set (st1 := if negb (hasWriters C g out) then _ else st).
    assert (Hc : (concated_outputs_ st1 = concated_outputs_ st \/
                  concated_outputs_ st1 =
                    set_insert node (concated_outputs_ st)) /\
                 concats_to_replace_ st1 = concats_to_replace_ st /\
                 next_unique st1 = next_unique st).
    { subst st1. destruct (negb (hasWriters C g out)); simpl; auto. }
    clearbody st1. destruct Hc as (Hc & Hr & Hn).
    destruct (Nat.leb (length (removelast (i0 :: ins))) 2) eqn:Elen.
    - intros [= <-]. split; [exact Hc|]. left. split; assumption.
    - apply Nat.leb_gt in Elen.
      destruct (search _ _ _ _ _ _) as [[prev|]|]; try discriminate.
      + destruct (output prev); [|discriminate].
        destruct (output_type node); [|discriminate].
        intros [= <-]. simpl. split; [exact Hc|]. right.
        split; [exact Elen|]. eexists. rewrite Hr. repeat split.
      + destruct (search _ _ _ _ _ _) as [[prev|]|]; try discriminate.
        * destruct (output prev); [|discriminate].
          destruct (output_type node); [|discriminate].
          intros [= <-]. simpl. split; [exact Hc|]. right.
          split; [exact Elen|]. eexists. rewrite Hr. repeat split.
        * intros [= <-]. split; [exact Hc|]. left. split; assumption.
  Qed.

Lemma handleNode_eq n st :
    handleNode C g n st =
    (st1 <- (if Symbol_eqb (n_kind n) prim_Concat
             then handleCat C g st n else Some st) ;;
     fold_left (fun acc b => s <- acc ;; handleBlock C g b s)
               (n_blocks n) (Some st1)).
  Proof. destruct n; reflexivity. Qed.

Lemma handleBlock_eq b st :
    handleBlock C g b st =
    fold_left (fun acc n => s <- acc ;; handleNode C g n s)
              (b_nodes b) (Some st).
  Proof. destruct b; reflexivity. Qed.

  (** A relation between states that [handleCat] respects on the
      variadic concats of a block is respected by [handleBlock]. *)
Lemma handleBlock_rel (R : State -> State -> Prop) :
    (forall s, R s s) ->
    (forall s1 s2 s3, R s1 s2 -> R s2 s3 -> R s1 s3) ->
    forall b,
      (forall n s s', In n (nodes_of_block b) ->
                      n_kind n = prim_Concat ->
                      handleCat C g s n = Some s' -> R s s') ->
      forall st st', handleBlock C g b st = Some st' -> R st st'.
  Proof.
    intros Hrefl Htrans b.
    pattern b.
    apply Block_tree_ind with
      (P := fun n =>
              (forall m s s', In m (nodes_of_node n) ->
                              n_kind m = prim_Concat ->
                              handleCat C g s m = Some s' -> R s s') ->
              forall st st', handleNode C g n st = Some st' -> R st st');
      clear b.
    - intros i k ins outs a bs IH Hstep st st'.
      rewrite handleNode_eq. cbn [n_kind n_blocks].
      assert (Hbs : forall st1 st2,
                 fold_left (fun acc b => s <- acc ;; handleBlock C g b s)
                           bs (Some st1) = Some st2 -> R st1 st2).
      { apply fold_bind_rel; auto.
        rewrite Forall_forall in *. intros b Hb s s'.
        apply IH; auto. intros m s0 s0' Hm. apply Hstep. right.
        apply in_flat_map. eauto. }
      destruct (Symbol_eqb k prim_Concat) eqn:Ek.
      + destruct (handleCat C g st _) as [st1|] eqn:E1;
          unfold bind; [|discriminate].
        intros H. apply Htrans with st1; [|now apply Hbs].
        apply (Hstep _ st st1 (or_introl eq_refl)); auto.
        now apply Symbol_eqb_eq.
      + unfold bind. apply Hbs.
    - intros ps ns rs IH Hstep st st'. rewrite handleBlock_eq.
      apply fold_bind_rel; auto.
      rewrite Forall_forall in *. intros n Hn s s'.
      apply IH; auto. intros m s0 s0' Hm. apply Hstep.
      apply in_flat_map. eauto.
  Qed.

  (** Without a variadic concat the traversal touches nothing. *)
Lemma handleBlock_no_concat b st :
    (forall n, In n (nodes_of_block b) -> n_kind n <> prim_Concat) ->
    handleBlock C g b st = Some st.
  Proof.
    revert st. pattern b.
    apply Block_tree_ind with
      (P := fun n => forall st,
                (forall m, In m (nodes_of_node n) ->
                           n_kind m <> prim_Concat) ->
                handleNode C g n st = Some st);
      clear b.
    - intros i k ins outs a bs IH st Hno.
      rewrite handleNode_eq. cbn [n_kind n_blocks].
      destruct (Symbol_eqb k prim_Concat) eqn:Ek.
      + apply Symbol_eqb_eq in Ek. exfalso.
        apply (Hno _ (or_introl eq_refl)). exact Ek.
      + unfold bind at 1. apply fold_bind_id.
        rewrite Forall_forall in *. intros b Hb s. apply IH; auto.
        intros m Hm. apply Hno. right. apply in_flat_map. eauto.
    - intros ps ns rs IH st Hno. rewrite handleBlock_eq.
      apply fold_bind_id.
      rewrite Forall_forall in *. intros n Hn s. apply IH; auto.
      intros m Hm. apply Hno. apply in_flat_map. eauto.
  Qed.
End Facts.

End EliminatorFacts.

(* ------------------------------------------------------------------ *)
(** ** Rewriting the tree *)

Module RewriteFacts.


Lemma same_shell_refl n : same_shell n n.
Proof. repeat split. Qed.

Lemma same_shell_trans a b c : same_shell a b -> same_shell b c -> same_shell a c.
Proof.
  intros (H1 & H2 & H3 & H4) (G1 & G2 & G3 & G4).
  repeat split; congruence.
Qed.

Lemma nodes_of_node_self n : In n (nodes_of_node n).
Proof. destruct n. left. reflexivity. Qed.

Lemma nodes_of_node_nested n b x :
  In b (n_blocks n) -> In x (nodes_of_block b) -> In x (nodes_of_node n).
Proof.
  intros Hb Hx. destruct n. right. apply in_flat_map. eauto.
Qed.

Lemma nodes_of_block_in b n x :
  In n (b_nodes b) -> In x (nodes_of_node n) -> In x (nodes_of_block b).
Proof.
  intros Hn Hx. destruct b. apply in_flat_map. eauto.
Qed.

Lemma nodes_of_node_inv n x :
  In x (nodes_of_node n) ->
  x = n \/ exists b, In b (n_blocks n) /\ In x (nodes_of_block b).
Proof.
  destruct n. intros [<-|H]; [now left|right].
  apply in_flat_map in H. exact H.
Qed.

Lemma nodes_of_block_inv b x :
  In x (nodes_of_block b) ->
  exists n, In n (b_nodes b) /\ In x (nodes_of_node n).
Proof. destruct b. intros H. apply in_flat_map in H. exact H. Qed.

Section Rw.
Variable f : Node -> list Node.
Variable r : list Value -> list Value.

Lemma rw_node_eq n :
    rw_node f r n =
    f (mkNode (n_id n) (n_kind n) (n_inputs n) (n_outputs n) (n_attr n)
              (map (rw_block f r) (n_blocks n))).
  Proof. destruct n; reflexivity. Qed.

Lemma rw_block_eq b :
    rw_block f r b =
    mkBlock (b_params b) (flat_map (rw_node f r) (b_nodes b))
            (r (b_returns b)).
  Proof. destruct b; reflexivity. Qed.

  (** Nodes other than the [gone] ones survive a rewriting that keeps
      their shell and blocks, if the [gone] ones have no nested
      blocks. *)
Section Keeps.
Variable gone : Node -> Prop.
Hypothesis f_keeps : forall m,
        ~ gone m ->
        exists m', In m' (f m) /\ same_shell m m' /\
                   n_blocks m' = n_blocks m.
Hypothesis gone_shell : forall i k ins ins' outs a a' bs bs',
        gone (mkNode i k ins outs a bs) -> gone (mkNode i k ins' outs a' bs').

Lemma rw_keeps b :
      (forall m, In m (nodes_of_block b) -> gone m -> n_blocks m = []) ->
      forall x, In x (nodes_of_block b) -> ~ gone x ->
      exists x', In x' (nodes_of_block (rw_block f r b)) /\ same_shell x x'.
    Proof.
      pattern b.
      apply Block_tree_ind with
        (P := fun n =>
                (forall m, In m (nodes_of_node n) -> gone m ->
                           n_blocks m = []) ->
                forall x, In x (nodes_of_node n) -> ~ gone x ->
                exists x', In x' (flat_map nodes_of_node (rw_node f r n)) /\
                           same_shell x x');
        clear b.
      - intros i k ins outs a bs IH Hleaf x Hx Hng.
        rewrite rw_node_eq. cbn [n_id n_kind n_inputs n_outputs n_attr n_blocks].
        set (n := mkNode i k ins outs a bs) in *.
        set (n1 := mkNode i k ins outs a (map (rw_block f r) bs)).
        assert (Hgn : ~ gone n -> ~ gone n1).
        { intros Hn Hg. apply Hn. revert Hg. apply gone_shell. }
        apply nodes_of_node_inv in Hx as [->|(b & Hb & Hx)].
        + destruct (f_keeps (Hgn Hng)) as (m' & Hin & Hs & _).
          exists m'. split.
          * apply in_flat_map. exists m'. split; [exact Hin|].
            apply nodes_of_node_self.
          * apply same_shell_trans with n1; [repeat split | exact Hs].
        + assert (Hn : ~ gone n).
          { intros Hg. specialize (Hleaf n (nodes_of_node_self n) Hg).
            simpl in Hleaf. subst bs. destruct Hb. }
          destruct (f_keeps (Hgn Hn)) as (m' & Hin & _ & Hbl).
          rewrite Forall_forall in IH.
          destruct (IH b Hb) with (x := x) as (x' & Hx' & Hs); auto.
          { intros m Hm. apply Hleaf.
            apply nodes_of_node_nested with b; assumption. }
          exists x'. split; [|exact Hs].
          apply in_flat_map. exists m'. split; [exact Hin|].
          apply nodes_of_node_nested with (rw_block f r b); [|exact Hx'].
          rewrite Hbl. simpl. apply in_map. exact Hb.
      - intros ps ns rs IH Hleaf x Hx Hng.
        rewrite rw_block_eq. cbn [b_nodes b_params b_returns].
        apply nodes_of_block_inv in Hx as (n & Hn & Hx).
        rewrite Forall_forall in IH.
        destruct (IH n Hn) with (x := x) as (x' & Hx' & Hs); auto.
        { intros m Hm. apply Hleaf.
          apply nodes_of_block_in with n; assumption. }
        exists x'. split; [|exact Hs].
        cbn [nodes_of_block b_nodes].
        apply in_flat_map in Hx' as (y & Hy & Hx').
        apply in_flat_map. exists y. split; [|exact Hx'].
        apply in_flat_map. eauto.
    Qed.
End Keeps.

  (** A property of nodes that does not look into the nested blocks
      beyond their number, and that [f] preserves, holds of all nodes
      after the rewriting. *)
Section Forall.
Variable Pn : Node -> Prop.
Hypothesis Pn_blocks : forall i k ins outs a bs bs',
        length bs = length bs' ->
        Pn (mkNode i k ins outs a bs) -> Pn (mkNode i k ins outs a bs').
Hypothesis f_Pn : forall m,
        Pn m -> forall m', In m' (f m) ->
        Pn m' /\
        forall x, In x (nodes_of_node m') ->
                  x = m' \/ exists b, In b (n_blocks m) /\
                                      In x (nodes_of_block b).

Lemma rw_forall b :
      (forall m, In m (nodes_of_block b) -> Pn m) ->
      forall x, In x (nodes_of_block (rw_block f r b)) -> Pn x.
    Proof.
      pattern b.
      apply Block_tree_ind with
        (P := fun n =>
                (forall m, In m (nodes_of_node n) -> Pn m) ->
                forall x, In x (flat_map nodes_of_node (rw_node f r n)) ->
                          Pn x);
        clear b.
      - intros i k ins outs a bs IH Hall x Hx.
        rewrite rw_node_eq in Hx.
        cbn [n_id n_kind n_inputs n_outputs n_attr n_blocks] in Hx.
        set (n := mkNode i k ins outs a bs) in *.
        set (n1 := mkNode i k ins outs a (map (rw_block f r) bs)) in *.
        assert (Hn1 : Pn n1).
        { apply Pn_blocks with bs; [now rewrite length_map|].
          apply Hall. apply nodes_of_node_self. }
        apply in_flat_map in Hx as (m' & Hm' & Hx).
        destruct (f_Pn Hn1 _ Hm') as (HP & Hsub).
        destruct (Hsub _ Hx) as [->|(b' & Hb' & Hxb)]; [exact HP|].
        simpl in Hb'. apply in_map_iff in Hb' as (b0 & <- & Hb0).
        rewrite Forall_forall in IH. apply (IH b0 Hb0); [|exact Hxb].
        intros m Hm. apply Hall.
        apply nodes_of_node_nested with b0; assumption.
      - intros ps ns rs IH Hall x Hx.
        rewrite rw_block_eq in Hx. cbn [nodes_of_block b_nodes] in Hx.
        apply in_flat_map in Hx as (y & Hy & Hx).
        apply in_flat_map in Hy as (n & Hn & Hy).
        rewrite Forall_forall in IH. apply (IH n Hn).
        + intros m Hm. apply Hall.
          apply nodes_of_block_in with n; assumption.
        + apply in_flat_map. eauto.
    Qed.
End Forall.
End Rw.

End RewriteFacts.

Module GraphEdits.
Import RewriteFacts.


Lemma leaves_blocks ids i k ins outs a (bs bs' : list Block) :
  length bs = length bs' ->
  leaves ids (mkNode i k ins outs a bs) -> leaves ids (mkNode i k ins outs a bs').
Proof.
  unfold leaves. simpl. intros Hl H Hi. specialize (H Hi). subst bs.
  destruct bs'; [reflexivity | discriminate].
Qed.

Lemma leaf_nodes n x : n_blocks n = [] -> In x (nodes_of_node n) -> x = n.
Proof.
  intros Hb Hx. apply nodes_of_node_inv in Hx as [->|(b & Hb' & _)]; auto.
  rewrite Hb in Hb'. destruct Hb'.
Qed.

Lemma insertBefore_leaves ids new t b :
  n_blocks new = [] ->
  (forall m, In m (nodes_of_block b) -> leaves ids m) ->
  forall x, In x (nodes_of_block (insertBefore new t b)) -> leaves ids x.
Proof.
  intros Hnew. unfold insertBefore.
  apply rw_forall; [apply leaves_blocks|].
  intros m Hm m' Hin.
  destruct (Nat.eqb (n_id m) t); simpl in Hin.
  - destruct Hin as [<-|[<-|[]]].
    + split; [intros _; exact Hnew|].
      intros x Hx. left. now apply leaf_nodes.
    + split; [exact Hm|]. intros x Hx. now apply nodes_of_node_inv.
  - destruct Hin as [<-|[]].
    split; [exact Hm|]. intros x Hx. now apply nodes_of_node_inv.
Qed.

Lemma replaceAllUsesWith_leaves ids v w b :
  (forall m, In m (nodes_of_block b) -> leaves ids m) ->
  forall x, In x (nodes_of_block (replaceAllUsesWith v w b)) -> leaves ids x.
Proof.
  unfold replaceAllUsesWith.
  apply rw_forall; [apply leaves_blocks|].
  intros m Hm m' [<-|[]]. split; [exact Hm|].
  intros x Hx. apply nodes_of_node_inv in Hx as [->|Hx]; [now left|].
  right. exact Hx.
Qed.

Lemma destroy_leaves ids t b :
  (forall m, In m (nodes_of_block b) -> leaves ids m) ->
  forall x, In x (nodes_of_block (destroy t b)) -> leaves ids x.
Proof.
  unfold destroy.
  apply rw_forall; [apply leaves_blocks|].
  intros m Hm m' Hin. destruct (Nat.eqb (n_id m) t); simpl in Hin;
    [destruct Hin|].
  destruct Hin as [<-|[]]. split; [exact Hm|].
  intros x Hx. now apply nodes_of_node_inv.
Qed.

Lemma insertBefore_keeps new t b x :
  In x (nodes_of_block b) ->
  exists x', In x' (nodes_of_block (insertBefore new t b)) /\ same_shell x x'.
Proof.
  intros Hx. unfold insertBefore.
  apply rw_keeps with (gone := fun _ => False); auto.
  - intros m _. exists m. repeat split.
    destruct (Nat.eqb (n_id m) t); simpl; auto.
  - intros m _ [].
Qed.

Lemma replaceAllUsesWith_keeps v w b x :
  In x (nodes_of_block b) ->
  exists x', In x' (nodes_of_block (replaceAllUsesWith v w b)) /\
             same_shell x x'.
Proof.
  intros Hx. unfold replaceAllUsesWith.
  apply rw_keeps with (gone := fun _ => False); auto.
  - intros m _. exists (subst_node v w m). split; [now left|].
    split; [|reflexivity]. repeat split. simpl. apply length_map.
  - intros m _ [].
Qed.

Lemma destroy_keeps t b x :
  (forall m, In m (nodes_of_block b) -> n_id m = t -> n_blocks m = []) ->
  In x (nodes_of_block b) -> n_id x <> t ->
  exists x', In x' (nodes_of_block (destroy t b)) /\ same_shell x x'.
Proof.
  intros Hleaf Hx Hne. unfold destroy.
  apply rw_keeps with (gone := fun m => n_id m = t); auto.
  intros m Hm. exists m. repeat split.
  destruct (Nat.eqb (n_id m) t) eqn:E; [|now left].
  apply Nat.eqb_eq in E. contradiction.
Qed.

End GraphEdits.

Module EliminatorPass.
Import Eliminator EliminatorFacts RewriteFacts GraphEdits.


(** A node that is not the key of a recorded substitution is still
    there after [postprocess]. *)
Lemma postprocess_loop_keeps pending :
  forall redirected b changed b' changed' x,
    (forall p, In p pending -> n_blocks (snd p) = []) ->
    (forall n, n_blocks (redirected n) = n_blocks n) ->
    (forall m, In m (nodes_of_block b) -> leaves (keys pending) m) ->
    In x (nodes_of_block b) -> ~ In (n_id x) (keys pending) ->
    postprocess_loop pending redirected b changed = Some (b', changed') ->
    exists x', In x' (nodes_of_block b') /\ same_shell x x'.
Proof.
  induction pending as [|[curr new0] rest IH];
    intros redirected b changed b' changed' x Hnew Hred Hleaf Hx Hnk; simpl.
  - intros [= <- <-]. exists x. split; [exact Hx | apply same_shell_refl].
  - unfold bind.
    destruct (output curr) as [v|]; [|discriminate].
    destruct (output (redirected new0)) as [w|]; [|discriminate].
    intros Hloop.
    assert (Hnb : n_blocks (redirected new0) = []).
    { rewrite Hred. apply (Hnew (curr, new0)). now left. }
    set (b1 := insertBefore (redirected new0) (n_id curr) b) in *.
    set (b2 := replaceAllUsesWith v w b1) in *.
    set (b3 := destroy (n_id curr) b2) in *.
    assert (Hl2 : forall m, In m (nodes_of_block b2) ->
                            leaves (keys ((curr, new0) :: rest)) m).
    { apply replaceAllUsesWith_leaves.
      apply insertBefore_leaves; assumption. }
    destruct (@insertBefore_keeps (redirected new0) (n_id curr) b x Hx)
      as (x1 & Hx1 & Hs1).
    destruct (@replaceAllUsesWith_keeps v w b1 x1 Hx1) as (x2 & Hx2 & Hs2).
    assert (Hid2 : n_id x2 = n_id x).
    { destruct Hs1 as (E1 & _), Hs2 as (E2 & _). congruence. }
    destruct (@destroy_keeps (n_id curr) b2 x2) as (x3 & Hx3 & Hs3).
    { intros m Hm Hid. apply (Hl2 m Hm : In _ _ -> _). left. simpl.
      now rewrite Hid. }
    { exact Hx2. }
    { rewrite Hid2. intros E. apply Hnk. left. simpl. now rewrite E. }
    destruct (IH (fun n => subst_node v w (redirected n)) b3 true b'
                 changed' x3) as (x' & Hx' & Hs').
    { intros p Hp. apply Hnew. now right. }
    { intros n. simpl. apply Hred. }
    { intros m Hm Hi.
      apply (@destroy_leaves (keys ((curr, new0) :: rest))
               (n_id curr) b2 Hl2 m Hm : In _ _ -> _).
      now right. }
    { exact Hx3. }
    { destruct Hs3 as (E3 & _). rewrite E3, Hid2.
      intros Hi. apply Hnk. now right. }
    { exact Hloop. }
    exists x'. split; [exact Hx'|].
    eapply same_shell_trans; [exact Hs1|].
    eapply same_shell_trans; [exact Hs2|].
    eapply same_shell_trans; [exact Hs3|exact Hs'].
Qed.


Lemma map_set_recorded_ok g k v m :
  recorded_ok g (k, v) -> Forall (recorded_ok g) m ->
  Forall (recorded_ok g) (map_set k v m).
Proof.
  intros Hkv. induction 1 as [|[k' v'] m Hp Hm IH]; simpl.
  - constructor; [exact Hkv | constructor].
  - destruct (same_node k k').
    + constructor; [|exact Hm]. split; [apply Hp | apply Hkv].
    + constructor; [exact Hp | exact IH].
Qed.

Lemma handleBlock_recorded_ok C g st st' :
  handleBlock C g g st = Some st' ->
  Forall (recorded_ok g) (concats_to_replace_ st) ->
  Forall (recorded_ok g) (concats_to_replace_ st').
Proof.
  apply (@handleBlock_rel C g
           (fun s s' => Forall (recorded_ok g) (concats_to_replace_ s) ->
                        Forall (recorded_ok g) (concats_to_replace_ s')));
    auto.
  intros n s s' Hn Hk Hcat Hok.
  destruct (handleCat_cases _ _ _ _ Hcat)
    as (_ & [(Hr & _)|(Hlen & new & Hr & _ & _ & Hbl)]); rewrite Hr; auto.
  apply map_set_recorded_ok; [|exact Hok].
  repeat split; assumption.
Qed.

(** Nothing recorded means nothing created. *)
Lemma handleBlock_nothing_recorded C g b st st' :
  handleBlock C g b st = Some st' ->
  concats_to_replace_ st' = [] ->
  concats_to_replace_ st = [] /\ next_unique st' = next_unique st.
Proof.
  apply (@handleBlock_rel C g
           (fun s s' => concats_to_replace_ s' = [] ->
                        concats_to_replace_ s = [] /\
                        next_unique s' = next_unique s)); auto.
  - intros s1 s2 s3 H12 H23 H3. destruct (H23 H3) as (H2 & E23).
    destruct (H12 H2) as (H1 & E12). split; congruence.
  - intros n s s' _ _ Hcat Hnil.
    destruct (handleCat_cases _ _ _ _ Hcat)
      as (_ & [(Hr & Hn)|(_ & new & Hr & _)]).
    + split; congruence.
    + rewrite Hr in Hnil. exfalso. revert Hnil. apply map_set_not_nil.
Qed.

Lemma postprocess_loop_changed pending :
  forall redirected b changed b' changed',
    postprocess_loop pending redirected b changed = Some (b', changed') ->
    changed' = match pending with [] => changed | _ => true end.
Proof.
  induction pending as [|[curr new0] rest IH]; simpl;
    intros redirected b changed b' changed'.
  - now intros [= _ <-].
  - unfold bind. destruct (output curr); [|discriminate].
    destruct (output (redirected new0)); [|discriminate].
    intros H. apply IH in H. destruct rest; exact H.
Qed.

(** The candidates [handleBlock] records are well formed. *)
Lemma handleCat_candidate_wf C g st node st' :
  handleCat C g st node = Some st' -> cand_wf node.
Proof.
  unfold handleCat, split_dim, bind, output.
  destruct (n_inputs node) as [|i0 ins] eqn:Eins; [discriminate|].
  destruct (n_outputs node) as [|o [|o' os]] eqn:Eouts; try discriminate.
  intros _. split; [rewrite Eins; discriminate | eauto].
Qed.

Lemma set_insert_wf node cands :
  cand_wf node -> Forall cand_wf cands ->
  Forall cand_wf (set_insert node cands).
Proof.
  intros Hn Hc. unfold set_insert.
  destruct (existsb (same_node node) cands); [exact Hc|].
  apply Forall_app. split; [exact Hc|]. now constructor.
Qed.

Lemma handleBlock_candidates_wf C g b st st' :
  handleBlock C g b st = Some st' ->
  Forall cand_wf (concated_outputs_ st) ->
  Forall cand_wf (concated_outputs_ st').
Proof.
  apply (@handleBlock_rel C g
           (fun s s' => Forall cand_wf (concated_outputs_ s) ->
                        Forall cand_wf (concated_outputs_ s'))); auto.
  intros n s s' _ _ Hcat Hwf.
  destruct (handleCat_cases _ _ _ _ Hcat) as ([E|E] & _); rewrite E; auto.
  apply set_insert_wf; [|exact Hwf].
  now apply handleCat_candidate_wf with C g s s'.
Qed.

End EliminatorPass.

Module EliminatorSearch.
Import Eliminator EliminatorFacts.

Lemma set_insert_in n s x : In x (set_insert n s) -> In x s \/ x = n.
Proof.
  unfold set_insert. destruct (existsb (same_node n) s); [now left|].
  intros H. apply in_app_or in H as [H|[<-|[]]]; auto.
Qed.

Lemma set_insert_incl n s x : In x s -> In x (set_insert n s).
Proof.
  unfold set_insert. destruct (existsb (same_node n) s); [auto|].
  intros H. apply in_or_app. now left.
Qed.

Lemma split_dim_wf ins :
  ins <> [] -> split_dim ins = Some (removelast ins, last ins 0).
Proof. destruct ins; [congruence | reflexivity]. Qed.

Lemma output_wf c o : n_outputs c = [o] -> output c = Some (fst o).
Proof. unfold output. now intros ->. Qed.

Section Search.
Variable C : Collaborators.
Variable g : Block.

  (** The search loop returns the first candidate, in the order it is
      given them, that passes the test. *)
Lemma search_find node wanted curr_dim cands :
    Forall cand_wf cands ->
    search C g node wanted curr_dim cands =
    Some (find (candidate_ok C g node wanted curr_dim) cands).
  Proof.
    induction 1 as [|prev rest (Hins & _) _ IH]; simpl; [reflexivity|].
    rewrite (split_dim_wf Hins). unfold bind, candidate_ok.
    destruct (equal wanted (removelast (n_inputs prev)) &&
              Nat.eqb curr_dim (last (n_inputs prev) 0)); simpl.
    - destruct (isDominatedBy C g node prev); simpl; [reflexivity|exact IH].
    - exact IH.
  Qed.

  (** [handleCat] on a concat of more than two tensors. *)
Lemma handleCat_chosen st node out t :
    (forall l x, In x (set_order C l) -> In x l) ->
    Forall cand_wf (concated_outputs_ st) ->
    n_outputs node = [(out, t)] ->
    2 < length (removelast (n_inputs node)) ->
    exists st',
      handleCat C g st node = Some st' /\
      concats_to_replace_ st' =
        match chosen_inputs C g node (candidates_seen C g st node out) with
        | Some new_inputs =>
            map_set node (replacement (next_unique st) new_inputs t)
                    (concats_to_replace_ st)
        | None => concats_to_replace_ st
        end.
  Proof.
    intros Hord Hwf Hout Hlen.
    assert (Hins : n_inputs node <> []).
    { intros E. rewrite E in Hlen. simpl in Hlen. lia. }
    assert (Hwf1 : Forall cand_wf (candidates_seen C g st node out)).
    { apply Forall_forall. intros x Hx. unfold candidates_seen in Hx.
      apply Hord in Hx. rewrite Forall_forall in Hwf.
      destruct (negb (hasWriters C g out)); [|now apply Hwf].
      apply set_insert_in in Hx as [Hx| ->]; [now apply Hwf|].
      split; [exact Hins | eauto]. }
    unfold handleCat. rewrite (split_dim_wf Hins).
    unfold bind at 1. rewrite (output_wf _ Hout). unfold bind at 1.
    cbn [fst].
    apply Nat.leb_gt in Hlen. rewrite Hlen.
    unfold chosen_inputs. cbv zeta.
    assert (Ec : set_order C
                   (concated_outputs_
                      (if negb (hasWriters C g out)
                       then mkState (next_unique st)
                              (set_insert node (concated_outputs_ st))
                              (concats_to_replace_ st)
                       else st)) = candidates_seen C g st node out).
    { unfold candidates_seen. now destruct (negb (hasWriters C g out)). }
    rewrite Ec, !search_find by exact Hwf1. unfold bind at 1.
    assert (Hst1 : forall new_inputs,
               exists st',
                 record_replacement
                   (if negb (hasWriters C g out)
                    then mkState (next_unique st)
                           (set_insert node (concated_outputs_ st))
                           (concats_to_replace_ st)
                    else st) node new_inputs = Some st' /\
                 concats_to_replace_ st' =
                   map_set node (replacement (next_unique st) new_inputs t)
                           (concats_to_replace_ st)).
    { intros new_inputs. unfold record_replacement, output_type, create.
      rewrite Hout. unfold bind. cbn [snd].
      destruct (negb (hasWriters C g out)); eexists; split; reflexivity. }
    assert (Hpo : forall prev, In prev (candidates_seen C g st node out) ->
                               output prev = Some (output_or_0 prev)).
    { intros prev Hp. rewrite Forall_forall in Hwf1.
      destruct (Hwf1 prev Hp) as (_ & o & Ho).
      unfold output_or_0. now rewrite (output_wf _ Ho). }
    destruct (find _ (candidates_seen C g st node out)) as [prev|] eqn:Ep.
    - apply find_some in Ep as (Hin & _).
      destruct (Hst1 [output_or_0 prev; last (removelast (n_inputs node)) 0;
                      last (n_inputs node) 0]) as (st' & E1 & E2).
      exists st'. rewrite (Hpo prev Hin). unfold bind. now split.
    - unfold bind at 1.
      destruct (find (candidate_ok C g node (tl (removelast (n_inputs node)))
                        (last (n_inputs node) 0))
                     (candidates_seen C g st node out)) as [prev|] eqn:Es.
      + apply find_some in Es as (Hin & _).
        destruct (Hst1 [hd 0 (removelast (n_inputs node)); output_or_0 prev;
                        last (n_inputs node) 0]) as (st' & E1 & E2).
        exists st'. rewrite (Hpo prev Hin). unfold bind. now split.
      + eexists. split; [reflexivity|].
        now destruct (negb (hasWriters C g out)).
  Qed.
End Search.

End EliminatorSearch.

(* ================================================================== *)
(** * The eliminator: what it rewrites and what it leaves alone *)

Lemma NoDup_map_inj {A B : Type} (f : A -> B) (l : list A) (a b : A) :
  NoDup (map f l) -> In a l -> In b l -> f a = f b -> a = b.
Proof.
  induction l as [|x l IH]; simpl; [intros _ []|].
  intros Hnd Ha Hb E. inversion Hnd as [|? ? Hnotin Hnd']; subst.
  destruct Ha as [->|Ha], Hb as [->|Hb]; auto.
  - exfalso. apply Hnotin. rewrite E. now apply in_map.
  - exfalso. apply Hnotin. rewrite <- E. now apply in_map.
Qed.

(** C10: the common-input eliminator looks at variadic concats
    ([prim::Concat]) only.  On a graph without such a node -- in
    particular one whose concatenations are all in the list form
    [aten::cat] -- [EliminateConcatCommonInputs] returns [false] and the
    graph is the one it was given. *)
Theorem eliminate_ignores_list_form (C : Collaborators) (gr : Graph) :
  (forall n, In n (nodes_of_block (g_block gr)) -> n_kind n <> prim_Concat) ->
  EliminateConcatCommonInputs C gr = Some (gr, false).
Proof.
  intros Hno. unfold EliminateConcatCommonInputs, Eliminator.run.
  rewrite EliminatorFacts.handleBlock_no_concat by exact Hno.
  destruct gr. reflexivity.
Qed.

Lemma eliminate_ignores_list_form_witness :
  (forall n, In n (nodes_of_block (g_block Examples.two_cats)) ->
             n_kind n <> prim_Concat) /\
  EliminateConcatCommonInputs (Examples.quiet (fun l => l)) Examples.two_cats
  = Some (Examples.two_cats, false).
Proof.
  assert (H : forall n, In n (nodes_of_block (g_block Examples.two_cats)) ->
                        n_kind n <> prim_Concat).
  { intros n Hn. simpl in Hn.
    repeat (destruct Hn as [<-|Hn]; [discriminate|]). destruct Hn. }
  split; [exact H|].
  apply (eliminate_ignores_list_form (Examples.quiet (fun l => l))
           Examples.two_cats H).
Defined.

Lemma find_first {A : Type} (p : A -> bool) (l : list A) (x : A) :
  In x l -> p x = true -> exists y, find p l = Some y.
Proof.
  induction l as [|a l IH]; simpl; [intros []|].
  intros [->|Hx] Hp.
  - rewrite Hp. eauto.
  - destruct (p a); eauto.
Qed.

Lemma candidate_ok_spec C g node wanted curr_dim prev :
  candidate_ok C g node wanted curr_dim prev = true <->
  removelast (n_inputs prev) = wanted /\
  last (n_inputs prev) 0 = curr_dim /\
  isDominatedBy C g node prev = true.
Proof.
  unfold candidate_ok. rewrite !andb_true_iff, equal_eq, Nat.eqb_eq.
  intuition congruence.
Qed.

Lemma removelast_shorter {A : Type} (l : list A) :
  l <> [] -> removelast l <> l.
Proof.
  intros Hl E. apply (f_equal (@length A)) in E.
  rewrite removelast_firstn_len, length_firstn in E.
  destruct l; [congruence|]. simpl in E. lia.
Qed.

Lemma tl_shorter {A : Type} (l : list A) : l <> [] -> tl l <> l.
Proof.
  intros Hl E. apply (f_equal (@length A)) in E.
  destruct l; [congruence|]. simpl in E. lia.
Qed.

(** The first candidate that passes the test is a recorded one other
    than the node itself, whenever the wanted operands are not those of
    the node. *)
Lemma first_candidate_recorded C g st node out wanted curr_dim :
  (forall l x, In x (set_order C l) <-> In x l) ->
  wanted <> removelast (n_inputs node) ->
  (exists prev, dominating_match C g st node wanted curr_dim prev) ->
  exists prev,
    find (candidate_ok C g node wanted curr_dim)
         (candidates_seen C g st node out) = Some prev /\
    dominating_match C g st node wanted curr_dim prev.
Proof.
  intros Hord Hne (prev & Hin & Hm).
  destruct (@find_first _ (candidate_ok C g node wanted curr_dim)
              (candidates_seen C g st node out) prev) as (y & Hy).
  - unfold candidates_seen. apply (proj2 (Hord _ _)).
    destruct (negb (hasWriters C g out)); [|exact Hin].
    now apply EliminatorSearch.set_insert_incl.
  - now apply candidate_ok_spec.
  - exists y. split; [exact Hy|].
    apply find_some in Hy as (Hyin & Hok).
    apply candidate_ok_spec in Hok. split; [|exact Hok].
    unfold candidates_seen in Hyin. apply (proj1 (Hord _ _)) in Hyin.
    destruct (negb (hasWriters C g out)); [|exact Hyin].
    apply EliminatorSearch.set_insert_in in Hyin as [H| ->]; [exact H|].
    destruct Hok as (E & _). congruence.
Qed.

Lemma no_candidate C g st node out wanted curr_dim :
  (forall l x, In x (set_order C l) <-> In x l) ->
  wanted <> removelast (n_inputs node) ->
  (forall prev, ~ dominating_match C g st node wanted curr_dim prev) ->
  find (candidate_ok C g node wanted curr_dim)
       (candidates_seen C g st node out) = None.
Proof.
  intros Hord Hne Hnone.
  destruct (find _ _) as [y|] eqn:Hy; [|reflexivity].
  exfalso. apply find_some in Hy as (Hyin & Hok).
  apply candidate_ok_spec in Hok. apply (Hnone y). split; [|exact Hok].
  unfold candidates_seen in Hyin. apply (proj1 (Hord _ _)) in Hyin.
  destruct (negb (hasWriters C g out)); [|exact Hyin].
  apply EliminatorSearch.set_insert_in in Hyin as [H| ->]; [exact H|].
  destruct Hok as (E & _). congruence.
Qed.

Lemma recorded_output st prev :
  Forall cand_wf (Eliminator.concated_outputs_ st) ->
  In prev (Eliminator.concated_outputs_ st) ->
  output prev = Some (output_or_0 prev).
Proof.
  intros Hwf Hin. rewrite Forall_forall in Hwf.
  destruct (Hwf prev Hin) as (_ & o & Ho).
  unfold output_or_0. now rewrite (EliminatorSearch.output_wf _ Ho).
Qed.

(** [handleCat] on a variadic concat of more than two tensors.  If
    a recorded candidate on the same axis dominates the node and its
    tensor operands are the node's without the last one, the
    substitution recorded for the node is a concat of two tensors, the
    output of such a candidate and the node's last operand, on the same
    axis.  If there is no such candidate but one whose operands are the
    node's without the first one, the substitution is the concat of the
    node's first operand and the output of such a candidate. *)
Lemma handleCat_records_prefix_suffix
        (C : Collaborators) (g : Block) (st : Eliminator.State)
        (node : Node) (out : Value) (t : Type_) :
  (forall l x, In x (set_order C l) <-> In x l) ->
  Forall cand_wf (Eliminator.concated_outputs_ st) ->
  n_outputs node = [(out, t)] ->
  2 < length (removelast (n_inputs node)) ->
  let tensors := removelast (n_inputs node) in
  let curr_dim := last (n_inputs node) 0 in
  exists st',
    Eliminator.handleCat C g st node = Some st' /\
    ((exists prev,
         dominating_match C g st node (removelast tensors) curr_dim prev) ->
     exists prev po,
       dominating_match C g st node (removelast tensors) curr_dim prev /\
       output prev = Some po /\
       Eliminator.concats_to_replace_ st' =
         Eliminator.map_set node
           (replacement (Eliminator.next_unique st)
                        [po; last tensors 0; curr_dim] t)
           (Eliminator.concats_to_replace_ st)) /\
    ((forall prev,
         ~ dominating_match C g st node (removelast tensors) curr_dim prev) ->
     (exists prev, dominating_match C g st node (tl tensors) curr_dim prev) ->
     exists prev po,
       dominating_match C g st node (tl tensors) curr_dim prev /\
       output prev = Some po /\
       Eliminator.concats_to_replace_ st' =
         Eliminator.map_set node
           (replacement (Eliminator.next_unique st)
                        [hd 0 tensors; po; curr_dim] t)
           (Eliminator.concats_to_replace_ st)).
Proof.
  intros Hord Hwf Hout Hlen tensors curr_dim.
  assert (Hne : tensors <> []).
  { intros E. subst tensors. rewrite E in Hlen. simpl in Hlen. lia. }
  destruct (@EliminatorSearch.handleCat_chosen C g st node out t)
    as (st' & Hcat & Hrepl); auto.
  { intros l x. apply Hord. }
  exists st'. split; [exact Hcat|]. unfold chosen_inputs in Hrepl.
  fold tensors curr_dim in Hrepl. split.
  - intros Hex.
    destruct (@first_candidate_recorded C g st node out
                (removelast tensors) curr_dim Hord
                (removelast_shorter Hne) Hex) as (prev & Hfind & Hdm).
    rewrite Hfind in Hrepl. exists prev, (output_or_0 prev).
    repeat split; try apply Hdm; [|exact Hrepl].
    apply recorded_output with st; [exact Hwf | apply Hdm].
  - intros Hnone Hex.
    rewrite (@no_candidate C g st node out (removelast tensors) curr_dim
               Hord (removelast_shorter Hne) Hnone) in Hrepl.
    destruct (@first_candidate_recorded C g st node out
                (tl tensors) curr_dim Hord (tl_shorter Hne) Hex)
      as (prev & Hfind & Hdm).
    rewrite Hfind in Hrepl. exists prev, (output_or_0 prev).
    repeat split; try apply Hdm; [|exact Hrepl].
    apply recorded_output with st; [exact Hwf | apply Hdm].
Qed.

Lemma find_at {A : Type} (p : A -> bool) (before : list A) (x : A)
      (after : list A) :
  (forall y, In y before -> p y = false) -> p x = true ->
  find p (before ++ x :: after) = Some x.
Proof.
  induction before as [|a l IH]; simpl; intros Hb Hx.
  - now rewrite Hx.
  - rewrite (Hb a (or_introl eq_refl)). apply IH; auto.
Qed.

Lemma find_none_all {A : Type} (p : A -> bool) (l : list A) :
  (forall y, In y l -> p y = false) -> find p l = None.
Proof.
  induction l as [|a l IH]; simpl; intros H; [reflexivity|].
  rewrite (H a (or_introl eq_refl)). apply IH. auto.
Qed.

(** C5 (amended): among the recorded candidates that match and
    dominate, the one used is the first in the order in which the hash
    set of candidates is iterated ([set_order], which need not be the
    order of collection); a candidate passing the prefix test is used
    even if a candidate before it passes the suffix test, and the suffix
    test is used only if no candidate passes the prefix test. *)
Theorem first_in_iteration_order_wins
        (C : Collaborators) (g : Block) (st : Eliminator.State)
        (node : Node) (out : Value) (t : Type_) :
  (forall l x, In x (set_order C l) -> In x l) ->
  Forall cand_wf (Eliminator.concated_outputs_ st) ->
  n_outputs node = [(out, t)] ->
  2 < length (removelast (n_inputs node)) ->
  let tensors := removelast (n_inputs node) in
  let curr_dim := last (n_inputs node) 0 in
  let cands := candidates_seen C g st node out in
  let prefix_ok := candidate_ok C g node (removelast tensors) curr_dim in
  let suffix_ok := candidate_ok C g node (tl tensors) curr_dim in
  exists st',
    Eliminator.handleCat C g st node = Some st' /\
    (forall before prev after,
        cands = before ++ prev :: after ->
        (forall x, In x before -> prefix_ok x = false) ->
        prefix_ok prev = true ->
        Eliminator.concats_to_replace_ st' =
          Eliminator.map_set node
            (replacement (Eliminator.next_unique st)
                         [output_or_0 prev; last tensors 0; curr_dim] t)
            (Eliminator.concats_to_replace_ st)) /\
    (forall before prev after,
        cands = before ++ prev :: after ->
        (forall x, In x cands -> prefix_ok x = false) ->
        (forall x, In x before -> suffix_ok x = false) ->
        suffix_ok prev = true ->
        Eliminator.concats_to_replace_ st' =
          Eliminator.map_set node
            (replacement (Eliminator.next_unique st)
                         [hd 0 tensors; output_or_0 prev; curr_dim] t)
            (Eliminator.concats_to_replace_ st)) /\
    ((forall x, In x cands -> prefix_ok x = false /\ suffix_ok x = false) ->
     Eliminator.concats_to_replace_ st' = Eliminator.concats_to_replace_ st).
Proof.
  intros Hord Hwf Hout Hlen tensors curr_dim cands prefix_ok suffix_ok.
  destruct (@EliminatorSearch.handleCat_chosen C g st node out t)
    as (st' & Hcat & Hrepl); auto.
  exists st'. split; [exact Hcat|]. unfold chosen_inputs in Hrepl.
  fold tensors curr_dim cands prefix_ok suffix_ok in Hrepl.
  repeat split.
  - intros before prev after E Hb Hp.
    rewrite E, (find_at prefix_ok before prev after Hb Hp) in Hrepl.
    exact Hrepl.
  - intros before prev after E Hnone Hb Hs.
    rewrite (find_none_all prefix_ok cands Hnone) in Hrepl.
    rewrite E, (find_at suffix_ok before prev after Hb Hs) in Hrepl.
    exact Hrepl.
  - intros Hnone.
    rewrite (find_none_all prefix_ok cands) in Hrepl
      by (intros x Hx; apply (Hnone x Hx)).
    rewrite (find_none_all suffix_ok cands) in Hrepl
      by (intros x Hx; apply (Hnone x Hx)).
    exact Hrepl.
Qed.

Lemma first_in_iteration_order_wins_witness :
  let C := Examples.quiet (@rev Node) in
  let g := g_block Examples.twin_candidates in
  let st := Eliminator.mkState 20 [Examples.concat 11 [0; 1; 10];
                                   Examples.concat 12 [0; 1; 10]] [] in
  let node := Examples.concat 13 [0; 1; 2; 10] in
  exists st',
    Eliminator.handleCat C g st node = Some st' /\
    Eliminator.concats_to_replace_ st' =
      [(node, replacement 20 [12; 2; 10] dynamic_tensor)].
Proof.
  intros C g st node.
  destruct (@first_in_iteration_order_wins C g st node 13 dynamic_tensor)
    as (st' & Hcat & Hprefix & _).
  - intros l x Hx. now apply in_rev.
  - repeat constructor; simpl; solve [discriminate | eauto].
  - reflexivity.
  - simpl. lia.
  - exists st'. split; [exact Hcat|].
    apply (Hprefix [node] (Examples.concat 12 [0; 1; 10])
                   [Examples.concat 11 [0; 1; 10]]).
    + reflexivity.
    + intros x [<-|[]]. reflexivity.
    + reflexivity.
Defined.

(** C5 as stated fails: with a hash set that iterates its elements most
    recent first, [%11] and [%12] are collected in this order, both
    pass the prefix test for [%13] and dominate it, and the replacement
    reads [%12], not the first collected [%11]. *)
Lemma later_collected_candidate_wins :
  let C := Examples.quiet (@rev Node) in
  let g := g_block Examples.twin_candidates in
  let n11 := Examples.concat 11 [0; 1; 10] in
  let n12 := Examples.concat 12 [0; 1; 10] in
  let n13 := Examples.concat 13 [0; 1; 2; 10] in
  exists st,
    Eliminator.handleBlock C g g (Eliminator.mkState 20 [] []) = Some st /\
    Eliminator.concated_outputs_ st = [n11; n12; n13] /\
    candidate_ok C g n13 [0; 1] 10 n11 = true /\
    candidate_ok C g n13 [0; 1] 10 n12 = true /\
    Eliminator.concats_to_replace_ st =
      [(n13, replacement 20 [12; 2; 10] dynamic_tensor)] /\
    Eliminator.concats_to_replace_ st <>
      [(n13, replacement 20 [11; 2; 10] dynamic_tensor)].
Proof.
  intros C g n11 n12 n13. eexists. split; [reflexivity|].
  repeat split. discriminate.
Qed.

(* ================================================================== *)
(** * Counting nodes of a kind through the edits of the graph *)

Module CountFacts.
Import RewriteFacts.

Lemma flat_map_map {A B D : Type} (h : A -> B) (f : B -> list D) l :
  flat_map f (map h l) = flat_map (fun x => f (h x)) l.
Proof. induction l; simpl; congruence. Qed.

Lemma flat_map_flat_map {A B D : Type} (h : A -> list B) (f : B -> list D) l :
  flat_map f (flat_map h l) = flat_map (fun x => flat_map f (h x)) l.
Proof.
  induction l; simpl; [reflexivity|]. now rewrite flat_map_app, IHl.
Qed.

Section Count.
Variable k : Symbol.

Lemma count_in_app l l' :
    count_in k (l ++ l') = count_in k l + count_in k l'.
  Proof. unfold count_in. now rewrite filter_app, length_app. Qed.

Lemma count_in_pos l x :
    In x l -> n_kind x = k -> 0 < count_in k l.
  Proof.
    unfold count_in. intros Hx Hk.
    assert (H : In x (filter (fun n => Symbol_eqb (n_kind n) k) l)).
    { apply filter_In. split; [exact Hx|]. now apply Symbol_eqb_eq. }
    destruct (filter _ l); [destruct H | simpl; lia].
  Qed.

Lemma flat_map_count_le {A : Type} (f h : A -> list Node) l :
    Forall (fun x => count_in k (f x) <= count_in k (h x)) l ->
    count_in k (flat_map f l) <= count_in k (flat_map h l).
  Proof.
    induction 1; simpl; [lia|]. rewrite !count_in_app. lia.
  Qed.

Lemma flat_map_count_lt {A : Type} (f h : A -> list Node) l :
    Forall (fun x => count_in k (f x) <= count_in k (h x)) l ->
    Exists (fun x => count_in k (f x) < count_in k (h x)) l ->
    count_in k (flat_map f l) < count_in k (flat_map h l).
  Proof.
    induction 1 as [|x l Hx Hl IH]; intros Hex; inversion Hex; subst;
      simpl; rewrite !count_in_app.
    - pose proof (flat_map_count_le f h Hl). lia.
    - specialize (IH H0). lia.
  Qed.

Lemma count_nodes_of_node n :
    count_in k (nodes_of_node n) =
    (if Symbol_eqb (n_kind n) k then 1 else 0)
    + count_in k (flat_map nodes_of_block (n_blocks n)).
  Proof.
    destruct n as [i k' ins outs a bs]. unfold count_in.
    cbn [nodes_of_node filter n_kind n_blocks].
    destruct (Symbol_eqb k' k); reflexivity.
  Qed.

  (** A rewriting whose [f] never gives more nodes of kind [k] than the
      node it is given holds does not add such nodes. *)
Lemma rw_count_le f r :
    (forall m, count_in k (flat_map nodes_of_node (f m))
               <= count_in k (nodes_of_node m)) ->
    forall b, count_kind k (rw_block f r b) <= count_kind k b.
  Proof.
    intros Hf b. change (count_in k (nodes_of_block (rw_block f r b))
                         <= count_in k (nodes_of_block b)).
    pattern b.
    apply Block_tree_ind with
      (P := fun n => count_in k (flat_map nodes_of_node (rw_node f r n))
                     <= count_in k (nodes_of_node n)); clear b.
    - intros i k' ins outs a bs IH. rewrite rw_node_eq.
      etransitivity; [apply Hf|].
      rewrite !count_nodes_of_node. cbn [n_kind n_blocks].
      rewrite flat_map_map.
      pose proof (flat_map_count_le
                    (fun b => nodes_of_block (rw_block f r b))
                    nodes_of_block IH). lia.
    - intros ps ns rs IH. rewrite rw_block_eq.
      cbn [nodes_of_block b_nodes]. rewrite flat_map_flat_map.
      apply flat_map_count_le. exact IH.
  Qed.

  (** Destroying a node of kind [k] leaves fewer of them. *)
Lemma destroy_count t b :
    count_kind k (destroy t b) <= count_kind k b /\
    ((exists x, In x (nodes_of_block b) /\ n_id x = t /\ n_kind x = k) ->
     count_kind k (destroy t b) < count_kind k b).
  Proof.
    unfold destroy.
    set (fd := fun n : Node => if Nat.eqb (n_id n) t then [] else [n]).
    set (r := fun rs : list Value => rs).
    change (count_in k (nodes_of_block (rw_block fd r b))
            <= count_in k (nodes_of_block b) /\
            ((exists x, In x (nodes_of_block b) /\ n_id x = t /\ n_kind x = k) ->
             count_in k (nodes_of_block (rw_block fd r b))
             < count_in k (nodes_of_block b))).
    pattern b.
    apply Block_tree_ind with
      (P := fun n =>
              count_in k (flat_map nodes_of_node (rw_node fd r n))
              <= count_in k (nodes_of_node n) /\
              ((exists x, In x (nodes_of_node n) /\ n_id x = t /\
                          n_kind x = k) ->
               count_in k (flat_map nodes_of_node (rw_node fd r n))
               < count_in k (nodes_of_node n))); clear b.
    - intros i k' ins outs a bs IH. rewrite rw_node_eq.
      cbn [n_id n_kind n_inputs n_outputs n_attr n_blocks].
      unfold fd at 1 3. cbn [n_id].
      destruct (Nat.eqb i t) eqn:Ei.
      + simpl flat_map. split; [unfold count_in at 1; simpl; lia|].
        intros (x & Hx & _ & Hk). unfold count_in at 1. simpl length.
        now apply count_in_pos with x.
      + apply Nat.eqb_neq in Ei.
        cbn [flat_map]. rewrite app_nil_r, !count_nodes_of_node.
        cbn [n_kind n_blocks]. rewrite flat_map_map.
        assert (Hle : Forall (fun b => count_in k (nodes_of_block (rw_block fd r b))
                                       <= count_in k (nodes_of_block b)) bs).
        { eapply Forall_impl; [|exact IH]. intros b Hb. apply Hb. }
        split.
        * pose proof (flat_map_count_le _ _ Hle). lia.
        * intros (x & Hx & Hid & Hk).
          apply nodes_of_node_inv in Hx as [->|(b & Hb & Hx)];
            [simpl in Hid; congruence|].
          cbn [n_blocks] in Hb.
          assert (Hex : Exists (fun b => count_in k (nodes_of_block (rw_block fd r b))
                                         < count_in k (nodes_of_block b)) bs).
          { apply Exists_exists. exists b. split; [exact Hb|].
            rewrite Forall_forall in IH. apply (IH b Hb). eauto. }
          pose proof (flat_map_count_lt _ _ Hle Hex). lia.
    - intros ps ns rs IH. rewrite rw_block_eq.
      cbn [nodes_of_block b_nodes]. rewrite flat_map_flat_map.
      assert (Hle : Forall (fun n => count_in k (flat_map nodes_of_node (rw_node fd r n))
                                     <= count_in k (nodes_of_node n)) ns).
      { eapply Forall_impl; [|exact IH]. intros n Hn. apply Hn. }
      split; [now apply flat_map_count_le|].
      intros (x & Hx & Hid & Hk).
      apply in_flat_map in Hx as (n & Hn & Hx).
      apply flat_map_count_lt; [exact Hle|].
      apply Exists_exists. exists n. split; [exact Hn|].
      rewrite Forall_forall in IH. apply (IH n Hn). eauto.
  Qed.

Lemma insertBefore_count new t b :
    n_kind new <> k -> n_blocks new = [] ->
    count_kind k (insertBefore new t b) <= count_kind k b.
  Proof.
    intros Hk Hb. unfold insertBefore. apply rw_count_le.
    intros m. destruct (Nat.eqb (n_id m) t); cbn [flat_map];
      rewrite app_nil_r, ?count_in_app; [|lia].
    rewrite (count_nodes_of_node new), Hb.
    destruct (Symbol_eqb (n_kind new) k) eqn:E;
      [apply Symbol_eqb_eq in E; contradiction|].
    unfold count_in at 1. simpl. lia.
  Qed.

Lemma replaceAllUsesWith_count v w b :
    count_kind k (replaceAllUsesWith v w b) <= count_kind k b.
  Proof.
    unfold replaceAllUsesWith. apply rw_count_le.
    intros m. cbn [flat_map]. rewrite app_nil_r, !count_nodes_of_node.
    simpl. lia.
  Qed.
End Count.

End CountFacts.

(* ================================================================== *)
(** * The variadic-cat updater *)

Module VariadicFacts.
Import Variadic CountFacts.

Lemma find_node_some b i n :
  find_node b i = Some n -> n_id n = i /\ In n (nodes_of_block b).
Proof.
  unfold find_node. intros H. apply find_some in H as (Hin & Hid).
  apply Nat.eqb_eq in Hid. auto.
Qed.

Lemma fold_collect {A : Type} (F : A -> list Node -> list Node)
      (G : A -> list Node) (l : list A) :
  Forall (fun x => forall acc, F x acc = acc ++ G x) l ->
  forall acc,
    fold_left (fun acc x => F x acc) l acc = acc ++ flat_map G l.
Proof.
  induction 1 as [|x l Hx _ IH]; intros acc; simpl.
  - now rewrite app_nil_r.
  - rewrite Hx, IH, app_assoc. reflexivity.
Qed.

Lemma filter_flat_map {A B : Type} (p : B -> bool) (f : A -> list B) l :
  filter p (flat_map f l) = flat_map (fun x => filter p (f x)) l.
Proof.
  induction l; simpl; [reflexivity|]. now rewrite filter_app, IHl.
Qed.

(** [collectCatNodes] gathers the list-form concats in traversal
    order. *)
Lemma collectCatNodes_spec b acc :
  collectCatNodes b acc =
  acc ++ filter (fun n => Symbol_eqb (n_kind n) aten_cat) (nodes_of_block b).
Proof.
  revert acc. pattern b.
  apply Block_tree_ind with
    (P := fun n => forall acc,
              collectCatNodes_node n acc =
              acc ++ filter (fun n => Symbol_eqb (n_kind n) aten_cat)
                            (nodes_of_node n)); clear b.
  - intros i k ins outs a bs IH acc.
    cbn [collectCatNodes_node n_kind n_blocks].
    change (fold_left (fun acc b => collectCatNodes b acc) bs
              (if Symbol_eqb k aten_cat
               then acc ++ [mkNode i k ins outs a bs] else acc)
            = acc ++ filter (fun n => Symbol_eqb (n_kind n) aten_cat)
                            (mkNode i k ins outs a bs
                               :: flat_map nodes_of_block bs)).
    rewrite (fold_collect (fun b acc => collectCatNodes b acc)
               (fun b => filter (fun n => Symbol_eqb (n_kind n) aten_cat)
                                (nodes_of_block b)) IH).
    rewrite <- filter_flat_map. cbn [filter n_kind].
    destruct (Symbol_eqb k aten_cat); [|reflexivity].
    now rewrite <- app_assoc.
  - intros ps ns rs IH acc.
    change (fold_left (fun acc n => collectCatNodes_node n acc) ns acc
            = acc ++ filter (fun n => Symbol_eqb (n_kind n) aten_cat)
                            (flat_map nodes_of_node ns)).
    rewrite (fold_collect (fun n acc => collectCatNodes_node n acc)
               (fun n => filter (fun n => Symbol_eqb (n_kind n) aten_cat)
                                (nodes_of_node n)) IH).
    now rewrite <- filter_flat_map.
Qed.

Section Facts.
Variable C : Collaborators.

  (** A call either reports no change and leaves the graph as it was,
      or reports a change and leaves fewer list-form concats. *)
Lemma replaceWithVariadicCat_cases st c st' ch :
    replaceWithVariadicCat C st c = Some (st', ch) ->
    (ch = false /\ graph_ st' = graph_ st) \/
    (ch = true /\
     ((In c (nodes_of_block (g_block (graph_ st))) /\
       n_kind c = aten_cat) ->
      num_cat (graph_ st') < num_cat (graph_ st))).
  Proof.
    unfold replaceWithVariadicCat, bind.
    destruct (find_node (g_block (graph_ st)) (n_id c)) as [cat|] eqn:Ef;
      [|discriminate].
    apply find_node_some in Ef as (Hid & Hcin).
    destruct (input cat 0) as [in0|]; [|discriminate].
    destruct (negb (Symbol_eqb (producer_kind _ in0) prim_ListConstruct)).
    { intros [= <- <-]. left. auto. }
    destruct (producer (g_block (graph_ st)) in0) as [list|]; [|discriminate].
    assert (Hdb : graph_ (snd (getOrCreateAliasDb st)) = graph_ st).
    { unfold getOrCreateAliasDb. destruct (aliasDb_ st); reflexivity. }
    destruct (getOrCreateAliasDb st) as [db st1]. cbn [snd] in Hdb.
    destruct (negb (couldMoveBeforeTopologically C db list cat)).
    { intros [= <- <-]. left. auto. }
    destruct (input cat 1) as [in1|]; [|discriminate].
    unfold create. rewrite Hdb.
    set (var_cat := mkNode _ prim_Concat _ _ _ _).
    destruct (output cat) as [v|]; [|discriminate].
    destruct (output var_cat) as [w|]; [|discriminate].
    intros [= <- <-]. right. split; [reflexivity|].
    intros (Hc & Hk). unfold num_cat. cbn [graph_ g_block].
    set (b := g_block (graph_ st)) in *.
    set (b1 := insertBefore var_cat (n_id cat) b).
    set (b2 := replaceAllUsesWith v w b1).
    set (b3 := destroy (n_id cat) b2).
    assert (H1 : count_kind aten_cat b1 <= count_kind aten_cat b).
    { apply insertBefore_count; [discriminate | reflexivity]. }
    assert (H2 : count_kind aten_cat b2 <= count_kind aten_cat b1)
      by apply replaceAllUsesWith_count.
    assert (H3 : count_kind aten_cat b3 <= count_kind aten_cat b2)
      by apply destroy_count.
    assert (H4 : count_kind aten_cat (destroy (n_id list) b3)
                 <= count_kind aten_cat b3) by apply destroy_count.
    destruct (GraphEdits.insertBefore_keeps var_cat (n_id cat) b c Hc)
      as (c1 & Hc1 & Hs1).
    destruct (GraphEdits.replaceAllUsesWith_keeps v w b1 c1 Hc1)
      as (c2 & Hc2 & Hs2).
    assert (H3' : count_kind aten_cat b3 < count_kind aten_cat b2).
    { apply destroy_count. exists c2. split; [exact Hc2|].
      destruct Hs1 as (I1 & K1 & _), Hs2 as (I2 & K2 & _).
      split; congruence. }
    destruct (negb (node_hasUses b3 list)); lia.
  Qed.

Lemma run_loop_changed cats :
    forall st r, run_loop C cats st true = Some r -> r = (st, true).
  Proof.
    induction cats as [|c rest IH]; simpl; intros st r.
    - now intros [= <-].
    - apply IH.
  Qed.

Lemma run_loop_cases cats :
    forall st st' ch,
      (forall c, In c cats ->
                 In c (nodes_of_block (g_block (graph_ st))) /\
                 n_kind c = aten_cat) ->
      run_loop C cats st false = Some (st', ch) ->
      (ch = false /\ graph_ st' = graph_ st) \/
      (ch = true /\ num_cat (graph_ st') < num_cat (graph_ st)).
  Proof.
    induction cats as [|c rest IH]; simpl; intros st st' ch Hcats.
    - intros [= <- <-]. left. auto.
    - unfold bind.
      destruct (replaceWithVariadicCat C st c) as [[st1 ch1]|] eqn:E;
        [|discriminate].
      cbn [fst snd].
      destruct (replaceWithVariadicCat_cases _ _ E) as [(-> & Hg)|(-> & Hlt)].
      + intros Hloop. rewrite <- Hg. apply IH; [|exact Hloop].
        rewrite Hg. intros c' Hc'. apply Hcats. now right.
      + intros Hloop. apply run_loop_changed in Hloop.
        injection Hloop as <- <-. right. split; [reflexivity|].
        apply Hlt. apply Hcats. now left.
  Qed.
End Facts.

Lemma run_cases C gr gr' ch :
  UseVariadicCat C gr = Some (gr', ch) ->
  (ch = false /\ gr' = gr) \/ (ch = true /\ num_cat gr' < num_cat gr).
Proof.
  unfold UseVariadicCat, run, bind.
  destruct (run_loop C _ _ false) as [[st' ch']|] eqn:E; [|discriminate].
  cbn [fst snd]. intros [= <- <-].
  apply run_loop_cases in E; [exact E|].
  intros c Hc. rewrite collectCatNodes_spec in Hc. simpl in Hc.
  apply filter_In in Hc as (Hin & Hk). apply Symbol_eqb_eq in Hk. auto.
Qed.

End VariadicFacts.

(** C1: one run of the updater is meant to process every list-form
    concat it has collected.  The code does not: on a graph with two
    list-form concats, each of its own constructed list and with
    nothing in the way of moving the list, one run replaces the first
    and leaves the second as it was, because
    [changed = changed || replaceWithVariadicCat(c)] does not call
    [replaceWithVariadicCat] any more once [changed] is true.  The
    second concat is replaced by a second run only. *)
Theorem promoter_stops_after_first :
  let C := Examples.quiet (fun l => l) in
  Variadic.collectCatNodes (g_block Examples.two_cats) [] =
    [Examples.cat 12 [11; 10] (Examples.shape [2; 7]%Z);
     Examples.cat 14 [13; 10] (Examples.shape [2; 11]%Z)] /\
  UseVariadicCat C Examples.two_cats = Some (Examples.two_cats_once, true) /\
  Examples.summary (g_block Examples.two_cats_once) =
    ([(10, prim_Constant, [], Some (IV_Int 1));
      (20, prim_Concat, [0; 1; 10], None);
      (13, prim_ListConstruct, [2; 3], None);
      (14, aten_cat, [13; 10], None)],
     [20; 14]) /\
  producer_kind (g_block Examples.two_cats) 13 = prim_ListConstruct /\
  couldMoveBeforeTopologically C (g_block Examples.two_cats)
    (Examples.list_construct 13 [2; 3])
    (Examples.cat 14 [13; 10] (Examples.shape [2; 11]%Z)) = true /\
  exists gr'',
    UseVariadicCat C Examples.two_cats_once = Some (gr'', true) /\
    count_kind aten_cat (g_block gr'') = 0.
Proof.
  repeat split. eexists. split; reflexivity.
Qed.

(** C2 as stated fails for the eliminator: after a first run has
    replaced [%12 = Concat(%0, %1, %2)] by [%20 = Concat(%11, %2)], the
    concat [%13 = Concat(%11, %2, %3)] has [%20] as a prefix candidate
    and a second run rewrites it. *)
Lemma eliminate_twice_changes_again :
  let C := Examples.quiet (fun l => l) in
  EliminateConcatCommonInputs C Examples.chained_concats =
    Some (Examples.chained_concats_once, true) /\
  exists gr'',
    EliminateConcatCommonInputs C Examples.chained_concats_once =
      Some (gr'', true) /\
    gr'' <> Examples.chained_concats_once /\
    Examples.summary (g_block gr'') =
      ([(10, prim_Constant, [], Some (IV_Int 1));
        (11, prim_Concat, [0; 1; 10], None);
        (20, prim_Concat, [11; 2; 10], None);
        (21, prim_Concat, [20; 3; 10], None)],
       [20; 21]).
Proof.
  split; [reflexivity|]. eexists. split; [reflexivity|].
  split; [discriminate | reflexivity].
Qed.

(** C2 (amended): a run of [EliminateConcatCommonInputs] or of
    [UseVariadicCat] that returns [false] has left the graph as it was,
    and a second run on it returns [false] again, with the same
    graph. *)
Theorem second_call_on_unchanged_graph
        (C : Collaborators) (gr gr' : Graph) :
  (EliminateConcatCommonInputs C gr = Some (gr', false) ->
   gr' = gr /\ EliminateConcatCommonInputs C gr' = Some (gr', false)) /\
  (UseVariadicCat C gr = Some (gr', false) ->
   gr' = gr /\ UseVariadicCat C gr' = Some (gr', false)).
Proof.
  split.
  - intros Hrun.
    assert (E : gr' = gr); [|subst gr'; auto].
    unfold EliminateConcatCommonInputs, Eliminator.run, bind in Hrun.
    destruct (Eliminator.handleBlock C (g_block gr) (g_block gr) _)
      as [st|] eqn:Hb; [|discriminate].
    destruct (Eliminator.postprocess (g_block gr) st) as [[b' ch]|] eqn:Hp;
      [|discriminate].
    cbn [fst snd] in Hrun. injection Hrun as <- ->.
    unfold Eliminator.postprocess in Hp.
    pose proof (EliminatorPass.postprocess_loop_changed _ _ _ _ Hp) as Hch.
    destruct (Eliminator.concats_to_replace_ st) eqn:Hr; [|discriminate].
    simpl in Hp. injection Hp as <-.
    destruct (EliminatorPass.handleBlock_nothing_recorded _ _ _ _ Hb Hr)
      as (_ & ->).
    destruct gr; reflexivity.
  - intros Hrun.
    destruct (VariadicFacts.run_cases _ _ Hrun) as [(_ & ->)|(Hf & _)];
      [auto | discriminate].
Qed.

Lemma second_call_on_unchanged_graph_witness :
  let C := Examples.quiet (fun l => l) in
  EliminateConcatCommonInputs C Examples.two_cats
    = Some (Examples.two_cats, false) /\
  UseVariadicCat C Examples.chained_concats
    = Some (Examples.chained_concats, false).
Proof.
  intros C. split.
  - apply (proj1 (second_call_on_unchanged_graph C Examples.two_cats
                    Examples.two_cats)).
    reflexivity.
  - apply (proj2 (second_call_on_unchanged_graph C Examples.chained_concats
                    Examples.chained_concats)).
    reflexivity.
Defined.

(* ================================================================== *)
(** * The expander *)

Module ExpanderFacts.
Import Expander.

Lemma unknown_shape b v : unknown_or_scalar b v -> shapeIsKnown b v = false.
Proof.
  intros (t & Ht & H). unfold shapeIsKnown. rewrite Ht.
  destruct H as [H|H]; [now rewrite H|].
  destruct (negb (isComplete t)); [reflexivity|]. now rewrite H.
Qed.

Lemma getOrCreateAliasDb_same st :
  same_edits st (snd (getOrCreateAliasDb st)).
Proof.
  unfold getOrCreateAliasDb. destruct (aliasDb_ st); repeat split.
Qed.

End ExpanderFacts.

(** C7: a list-form concat [aten::cat(list, axis)] that fails a check
    of the expander is skipped: if the list has writers, or is not
    produced by a [prim::ListConstruct], or the output or an operand of
    the list is a tensor of unknown shape or of rank 0, or the axis is
    not a constant, then [expandCat] returns normally, and the graph
    (with its counter), the uses to redirect, the nodes to remove and
    the slices and copies added are what they were: nothing has been
    emitted. *)
Theorem expandCat_skips_ineligible
        (C : Collaborators) (st : Expander.State) (node : Node)
        (list axis : Value) :
  n_inputs node = [list; axis] ->
  let b := g_block (Expander.graph_ st) in
  let db := fst (Expander.getOrCreateAliasDb st) in
  (hasWriters C db list = true \/
   producer_kind b list <> prim_ListConstruct \/
   (exists o, In o (n_outputs node) /\ unknown_or_scalar b (fst o)) \/
   (exists l operand, producer b list = Some l /\
                      In operand (n_inputs l) /\
                      unknown_or_scalar b operand) \/
   Expander.constant_as b axis = None) ->
  exists st',
    Expander.expandCat C st node = Some st' /\ same_edits st st'.
Proof.
  intros Hins b db Hfail.
  pose proof (ExpanderFacts.getOrCreateAliasDb_same st) as Hsame.
  exists (snd (Expander.getOrCreateAliasDb st)). split; [|exact Hsame].
  unfold Expander.expandCat, input. rewrite Hins. cbn [nth_error bind].
  subst db. destruct (Expander.getOrCreateAliasDb st) as [db st1].
  cbn [fst snd] in *. destruct Hsame as (Hg & _). rewrite Hg. fold b.
  destruct (hasWriters C db list) eqn:Ew; [reflexivity|].
  destruct (Symbol_eqb (producer_kind b list) prim_ListConstruct) eqn:Ek;
    [|reflexivity]. cbn [negb].
  apply Symbol_eqb_eq in Ek.
  destruct (Expander.allShapesAreKnown b node) eqn:Ea; [|reflexivity].
  cbn [negb].
  destruct (producer b list) as [l|] eqn:Ep.
  2:{ unfold producer_kind in Ek. rewrite Ep in Ek. discriminate. }
  cbn [bind].
  destruct (forallb (Expander.shapeIsKnown b) (n_inputs l)) eqn:Eo;
    [|reflexivity]. cbn [negb bind].
  destruct (Expander.constant_as b axis) eqn:Ec; [|reflexivity].
  exfalso.
  destruct Hfail as [H|[H|[(o & Ho & Hu)|[(l' & x & Hl & Hx & Hu)|H]]]];
    try congruence.
  - unfold Expander.allShapesAreKnown in Ea.
    apply andb_prop in Ea as (_ & Ea).
    rewrite forallb_forall in Ea. specialize (Ea o Ho).
    rewrite (ExpanderFacts.unknown_shape Hu) in Ea. discriminate.
  - injection Hl as <-. rewrite forallb_forall in Eo.
    specialize (Eo x Hx).
    rewrite (ExpanderFacts.unknown_shape Hu) in Eo. discriminate.
Qed.

Lemma expandCat_skips_ineligible_witness :
  exists st',
    Expander.expandCat (Examples.quiet (fun l => l))
      (Expander.mkState Examples.cat_with_dynamic_axis None [] [] [] [])
      (Examples.cat 12 [11; 4] (Examples.shape [2; 7]%Z)) = Some st' /\
    same_edits
      (Expander.mkState Examples.cat_with_dynamic_axis None [] [] [] []) st'.
Proof.
  apply (@expandCat_skips_ineligible (Examples.quiet (fun l => l))
           (Expander.mkState Examples.cat_with_dynamic_axis None [] [] [] [])
           (Examples.cat 12 [11; 4] (Examples.shape [2; 7]%Z)) 11 4).
  - reflexivity.
  - right. right. right. right. reflexivity.
Defined.

Module ExpansionFacts.
Import Expander.

Lemma to_int_small z :
  (-2147483648 <= z < 2147483648)%Z -> to_int z = z.
Proof.
  intros H. unfold to_int. rewrite Z.mod_small; lia.
Qed.

Lemma total_nonneg exts : Forall (fun e => 0 <= e)%Z exts -> (0 <= total exts)%Z.
Proof. induction 1; simpl; lia. Qed.

(** The constants of the output sizes. *)
Lemma insert_size_constants_spec sizes :
  forall bl,
    insert_size_constants sizes bl =
    (seq (bl_next bl) (length sizes),
     mkBuilder (bl_next bl + length sizes)
               (bl_emitted bl ++ spec_size_constants (bl_next bl) sizes)).
Proof.
  unfold spec_size_constants.
  induction sizes as [|s rest IH]; intros bl; simpl.
  - rewrite Nat.add_0_r, app_nil_r. now destruct bl.
  - unfold insertConstant, emit. cbn [bl_next bl_emitted n_id].
    rewrite IH. cbn [bl_next bl_emitted].
    rewrite <- app_assoc, Nat.add_succ_r. reflexivity.
Qed.

Section Loop.
Variable b : Block.
Variables buffer axis one : Value.
Variable axis_value : Z.

(** The loop over the operands emits what the specification says. *)
Lemma expand_inputs_spec operands :
  forall extents start_idx start em,
    map (axis_extent b axis_value) operands = map (@Some Z) extents ->
    Forall (fun e => 0 <= e)%Z extents ->
    (0 <= start_idx)%Z ->
    (start_idx + total extents < 2147483648)%Z ->
    let next := bl_next (em_builder em) in
    let ops := spec_operands next buffer axis one start operands
                             (ranges start_idx extents) in
    expand_inputs b buffer axis one axis_value operands start_idx start em =
    Some (mkEmitted
            (mkBuilder (next + 3 * length operands)
                       (bl_emitted (em_builder em)
                          ++ flat_map (fun t => [fst (fst t); snd (fst t);
                                                 snd t]) ops))
            (em_slices em ++ map (fun t => snd (fst t)) ops)
            (em_copies em ++ map (fun t => snd t) ops)).
Proof.
  induction operands as [|x xs IH];
    intros [|e exts] start_idx start em Hext Hpos H0 Hlt;
    try discriminate; simpl.
  - rewrite Nat.add_0_r, !app_nil_r. destruct em as [[? ?] ? ?]. reflexivity.
  - simpl in Hext. injection Hext as Hx Hxs.
    inversion Hpos as [|? ? He Hexts]; subst.
    simpl in Hlt. pose proof (total_nonneg Hexts) as Ht.
    unfold axis_extent in Hx.
    destruct (type_of b x) as [t| | | |]; try discriminate.
    unfold bind in Hx |- *.
    destruct (tt_sizes t) as [sizes|]; [|discriminate].
    rewrite Hx. rewrite to_int_small by lia.
    unfold insertConstant, emit. cbn [bl_next bl_emitted n_id].
    rewrite (IH exts) by (auto; cbn [em_builder bl_next]; lia).
    cbn [em_builder bl_next bl_emitted em_slices em_copies].
    f_equal. f_equal.
    + f_equal; [lia|]. rewrite <- !app_assoc. reflexivity.
    + rewrite <- app_assoc. reflexivity.
    + rewrite <- app_assoc. reflexivity.
Qed.
End Loop.

End ExpansionFacts.

Module ExpandCatFacts.
Import Expander ExpansionFacts.

(** [expandCat] on a node that passes its checks, with the axis inside
    the rank of every operand and extents that fit an [int]. *)
Lemma expandCat_spec (C : Collaborators) (st : State) (node : Node)
      (lst axis out : Value) (ot : Type_) (l : Node) (axis_value : Z)
      (tensortype : TensorType) (out_sizes : list (option Z))
      (extents : list Z) :
  let b := g_block (graph_ st) in
  n_inputs node = [lst; axis] ->
  n_outputs node = [(out, ot)] ->
  hasWriters C (fst (getOrCreateAliasDb st)) lst = false ->
  producer b lst = Some l ->
  n_kind l = prim_ListConstruct ->
  allShapesAreKnown b node = true ->
  forallb (shapeIsKnown b) (n_inputs l) = true ->
  constant_as b axis = Some axis_value ->
  type_of b out = Tensor tensortype ->
  tt_sizes tensortype = Some out_sizes ->
  map (axis_extent b axis_value) (n_inputs l) = map (@Some Z) extents ->
  Forall (fun e => 0 <= e)%Z extents ->
  (total extents < 2147483648)%Z ->
  let X := spec_expansion (g_next (graph_ st)) axis out_sizes (n_inputs l)
                          extents in
  expandCat C st node =
  Some (mkState (mkGraph (insertAllBefore (x_nodes X) (n_id node) b)
                         (x_next X))
                (aliasDb_ (snd (getOrCreateAliasDb st)))
                (set_insert node (nodes_to_remove_ st))
                (map_set out (n_id (x_buffer X)) (replace_uses_with_ st))
                (copies_added_ st ++ x_copies X)
                (slices_added_ st ++ x_slices X)).
Proof.
  intros b Hins Houts Hw Hp Hk Ha Ho Hc Ht Hs Hext Hpos Hlt X.
  pose proof (ExpanderFacts.getOrCreateAliasDb_same st)
    as (Hg & Hrm & Hru & Hcp & Hsl).
  unfold expandCat, input. rewrite Hins. cbn [nth_error bind].
  destruct (getOrCreateAliasDb st) as [db st1]. cbn [fst snd] in *.
  rewrite Hg, Hrm, Hru, Hcp, Hsl. fold b. rewrite Hw.
  unfold producer_kind. rewrite Hp, Hk. cbn [Symbol_eqb negb].
  rewrite Ha. cbn [negb bind]. rewrite Ho. cbn [negb]. rewrite Hc.
  unfold insertConstant at 1 2, emit. cbn [bl_next bl_emitted n_id app].
  unfold output. rewrite Houts. cbn [fst bind]. rewrite Ht, Hs.
  cbn [bind]. rewrite insert_size_constants_spec.
  cbn [bl_next bl_emitted n_id app].
  unfold insertConstant, emit. cbn [bl_next bl_emitted n_id app].
  rewrite (@expand_inputs_spec b _ axis _ axis_value (n_inputs l) extents)
    by (auto; lia).
  cbn [bind em_builder bl_next bl_emitted em_slices em_copies].
  subst X. unfold spec_expansion.
  cbn [x_nodes x_next x_buffer x_slices x_copies n_id].
  replace (S (S (g_next (graph_ st)))) with (g_next (graph_ st) + 2) by lia.
  replace (S (S (S (g_next (graph_ st) + 2 + length out_sizes))))
    with (g_next (graph_ st) + 5 + length out_sizes) by lia.
  replace (S (S (g_next (graph_ st) + 2 + length out_sizes)))
    with (g_next (graph_ st) + 4 + length out_sizes) by lia.
  replace (S (g_next (graph_ st) + 2 + length out_sizes))
    with (g_next (graph_ st) + 3 + length out_sizes) by lia.
  repeat (rewrite <- app_assoc; cbn [app]).
  reflexivity.
Qed.

End ExpandCatFacts.

Module ExpansionShape.

Lemma defines_own n v : own_output n -> defines v n = Nat.eqb (n_id n) v.
Proof.
  unfold defines, own_output. destruct (n_outputs n) as [|[o t] [|o' os]];
    try discriminate.
  simpl. intros [= ->]. apply orb_false_r.
Qed.

Lemma find_by_id (E : list Node) (n : Node) :
  Forall own_output E -> NoDup (map n_id E) -> In n E ->
  find (defines (n_id n)) E = Some n.
Proof.
  induction E as [|m E IH]; simpl; [intros _ _ []|].
  intros Hown Hnd Hin. inversion Hown as [|? ? Hm Hown']; subst.
  inversion Hnd as [|? ? Hnotin Hnd']; subst.
  rewrite (defines_own _ Hm).
  destruct Hin as [->|Hin]; [now rewrite Nat.eqb_refl|].
  destruct (Nat.eqb (n_id m) (n_id n)) eqn:E'.
  - apply Nat.eqb_eq in E'. exfalso. apply Hnotin. rewrite E'.
    now apply in_map.
  - now apply IH.
Qed.

Lemma int_in_constant (E : list Node) (i : nat) (z : Z) :
  Forall own_output E -> NoDup (map n_id E) ->
  In (constant_node i (IV_Int z)) E ->
  int_in E i = Some z.
Proof.
  intros Hown Hnd Hin. unfold int_in.
  rewrite (@find_by_id E _ Hown Hnd Hin : find (defines i) E = _).
  reflexivity.
Qed.

(** *** The nodes of the operands *)

Section Operands.
Variables buffer axis step : Value.

Lemma spec_operands_length xs :
  forall next start rs,
    length rs = length xs ->
    length (spec_operands next buffer axis step start xs rs) = length xs.
Proof.
  induction xs as [|x xs IH]; intros next start [|[lo hi] rs] Hl;
    try discriminate; simpl; [reflexivity|].
  rewrite IH; auto.
Qed.

Lemma spec_operands_ids xs :
  forall next start rs,
    length rs = length xs ->
    map n_id (flat (spec_operands next buffer axis step start xs rs)) =
    seq next (3 * length xs).
Proof.
  induction xs as [|x xs IH]; intros next start [|[lo hi] rs] Hl;
    try discriminate; [reflexivity|].
  simpl in Hl. injection Hl as Hl.
  cbn [spec_operands flat flat_map map app fst snd n_id constant_node
       slice_node copy_node length].
  fold (flat (spec_operands (S (S (S next))) buffer axis step next xs rs)).
  rewrite (IH _ _ _ Hl).
  replace (3 * S (length xs)) with (S (S (S (3 * length xs)))) by lia.
  reflexivity.
Qed.

Lemma spec_operands_own xs :
  forall next start rs,
    Forall own_output (flat (spec_operands next buffer axis step start xs rs)).
Proof.
  induction xs as [|x xs IH]; intros next start [|[lo hi] rs];
    try constructor; simpl.
  - reflexivity.
  - constructor; [reflexivity|]. constructor; [reflexivity|]. apply IH.
Qed.

Lemma spec_operands_kinds xs :
  forall next start rs,
    count_in aten_empty
      (flat (spec_operands next buffer axis step start xs rs)) = 0 /\
    filter slice_or_copy
      (flat (spec_operands next buffer axis step start xs rs)) =
    flat_map (fun t => [snd (fst t); snd t])
             (spec_operands next buffer axis step start xs rs).
Proof.
  induction xs as [|x xs IH]; intros next start [|[lo hi] rs];
    try (split; reflexivity).
  destruct (IH (S (S (S next))) next rs) as (IH1 & IH2).
  split.
  - unfold count_in in *. simpl. exact IH1.
  - cbn [spec_operands flat flat_map app fst snd filter slice_or_copy
         n_kind constant_node slice_node copy_node Symbol_eqb orb].
    fold (flat (spec_operands (S (S (S next))) buffer axis step next xs rs)).
    now rewrite IH2.
Qed.

Lemma spec_operands_copies xs :
  forall next start rs,
    length rs = length xs ->
    let ops := spec_operands next buffer axis step start xs rs in
    map n_inputs (map (fun t => snd t) ops) =
    map (fun p => [n_id (fst p); snd p])
        (combine (map (fun t => snd (fst t)) ops) xs).
Proof.
  induction xs as [|x xs IH]; intros next start [|[lo hi] rs] Hl;
    try discriminate; [reflexivity|].
  simpl in Hl. injection Hl as Hl. simpl. f_equal. now apply IH.
Qed.

(** What the slices view, read back from the constants among [E]. *)
Lemma spec_operands_views (E : list Node) xs :
  forall next start exts lo,
    length exts = length xs ->
    int_in E start = Some lo ->
    int_in E step = Some 1%Z ->
    (forall i z,
        In (constant_node i (IV_Int z))
           (flat (spec_operands next buffer axis step start xs
                                (ranges lo exts))) ->
        int_in E i = Some z) ->
    map (view_of E)
        (map (fun t => snd (fst t))
             (spec_operands next buffer axis step start xs (ranges lo exts)))
    = map (fun r => Some (buffer, axis, fst r, snd r, 1%Z)) (ranges lo exts).
Proof.
  induction xs as [|x xs IH]; intros next start [|e exts] lo Hl Hs Hk Hc;
    try discriminate; [reflexivity|].
  simpl in Hl. injection Hl as Hl.
  cbn [ranges spec_operands map fst snd].
  assert (Hhi : int_in E next = Some (lo + e)%Z).
  { apply Hc. simpl. now left. }
  f_equal.
  - unfold view_of, slice_node. cbn [n_inputs].
    rewrite Hs, Hhi, Hk. reflexivity.
  - apply IH; auto. intros i z Hin. apply Hc.
    cbn [ranges spec_operands flat flat_map app fst snd].
    right. right. right. exact Hin.
Qed.
End Operands.

(** *** The ranges *)

Lemma ranges_length exts start : length (ranges start exts) = length exts.
Proof. revert start. induction exts; intros; simpl; auto. Qed.

Lemma total_firstn_S exts i e :
  nth_error exts i = Some e ->
  total (firstn (S i) exts) = (total (firstn i exts) + e)%Z.
Proof.
  revert i. induction exts as [|a exts IH]; intros [|i]; simpl;
    try discriminate.
  - intros [= ->]. lia.
  - intros H. specialize (IH i H). simpl in IH. rewrite IH. lia.
Qed.

(** The [i]-th range starts where the extents before it end and is as
    long as the [i]-th extent. *)
Lemma ranges_nth exts :
  forall start i r,
    nth_error (ranges start exts) i = Some r ->
    exists e, nth_error exts i = Some e /\
              fst r = (start + total (firstn i exts))%Z /\
              snd r = (fst r + e)%Z.
Proof.
  induction exts as [|a exts IH]; intros start [|i] r; simpl;
    try discriminate.
  - intros [= <-]. exists a. simpl. repeat split; lia.
  - intros H. destruct (IH _ _ _ H) as (e & He & Hlo & Hhi).
    exists e. repeat split; auto. rewrite Hlo. lia.
Qed.

End ExpansionShape.

Module ExpansionWhole.
Import ExpansionShape.

Ltac in_nodes eqn :=
  rewrite eqn;
  repeat first [ solve [simpl; auto 10] | apply in_or_app; right ].

Lemma spec_size_constants_ids next sizes :
  map n_id (spec_size_constants next sizes) = seq next (length sizes) /\
  Forall own_output (spec_size_constants next sizes) /\
  count_in aten_empty (spec_size_constants next sizes) = 0 /\
  filter slice_or_copy (spec_size_constants next sizes) = [].
Proof.
  unfold spec_size_constants. revert next.
  induction sizes as [|s sizes IH]; intros next; simpl.
  - repeat split. constructor.
  - destruct (IH (S next)) as (H1 & H2 & H3 & H4).
    repeat split; auto.
    + now rewrite H1.
    + constructor; [reflexivity | exact H2].
Qed.

Lemma spec_size_constants_in next (zs : list Z) i z :
  In (i, z) (combine (seq next (length zs)) zs) ->
  In (constant_node i (IV_Int z))
     (spec_size_constants next (map (@Some Z) zs)).
Proof.
  unfold spec_size_constants. rewrite length_map. revert next.
  induction zs as [|a zs IH]; intros next; simpl; [intros []|].
  intros [[= <- <-]|H]; [now left | right; now apply IH].
Qed.

Section Whole.
Variable next : nat.
Variable axis : Value.
Variable out_sizes : list (option Z).
Variable operands : list Value.
Variable extents : list Z.
Hypothesis Hlen : length extents = length operands.

Let X := spec_expansion next axis out_sizes operands extents.
Let k := length out_sizes.
Let ops :=
  spec_operands (next + 5 + k) (next + 3 + k) axis (S next) (next + 4 + k)
                operands (ranges 0 extents).

Lemma x_nodes_eq :
  x_nodes X =
  [constant_node next IV_None; constant_node (S next) (IV_Int 1)]
    ++ spec_size_constants (next + 2) out_sizes
    ++ [mkNode (next + 2 + k) prim_ListConstruct (seq (next + 2) k)
               [(next + 2 + k, ListType IntType)] None [];
        x_buffer X; constant_node (next + 4 + k) (IV_Int 0)]
    ++ flat ops.
Proof. reflexivity. Qed.

Lemma x_nodes_ids :
  map n_id (x_nodes X) = seq next (5 + k + 3 * length operands).
Proof.
  rewrite x_nodes_eq, !map_app.
  destruct (spec_size_constants_ids (next + 2) out_sizes) as (-> & _).
  unfold ops. rewrite spec_operands_ids
    by (now rewrite ranges_length).
  replace (5 + k + 3 * length operands)
    with (2 + (k + (3 + 3 * length operands))) by lia.
  rewrite (seq_app 2), (seq_app k), (seq_app 3). fold k.
  cbn [map seq app n_id constant_node x_buffer X spec_expansion].
  fold k.
  replace (next + 2 + k + 3) with (next + 5 + k) by lia.
  replace (S (next + 2 + k)) with (next + 3 + k) by lia.
  replace (S (next + 3 + k)) with (next + 4 + k) by lia.
  replace (S (S next)) with (next + 2) by lia.
  reflexivity.
Qed.

Lemma x_nodes_own : Forall own_output (x_nodes X).
Proof.
  rewrite x_nodes_eq.
  repeat (apply Forall_cons; [reflexivity|]).
  apply Forall_app. split;
    [apply (spec_size_constants_ids (next + 2) out_sizes)|].
  repeat (apply Forall_cons; [reflexivity|]).
  apply spec_operands_own.
Qed.

Lemma x_nodes_nodup : NoDup (map n_id (x_nodes X)).
Proof. rewrite x_nodes_ids. apply seq_NoDup. Qed.

Lemma x_int_in i z :
  In (constant_node i (IV_Int z)) (x_nodes X) -> int_in (x_nodes X) i = Some z.
Proof. apply int_in_constant; [apply x_nodes_own | apply x_nodes_nodup]. Qed.

(** One allocation. *)
Lemma x_one_buffer :
  count_in aten_empty (x_nodes X) = 1 /\ In (x_buffer X) (x_nodes X) /\
  n_kind (x_buffer X) = aten_empty.
Proof.
  split; [|split; [|reflexivity]].
  - rewrite x_nodes_eq. unfold count_in. cbn [app filter n_kind constant_node
      Symbol_eqb].
    rewrite filter_app. cbn [filter n_kind constant_node Symbol_eqb x_buffer
      X spec_expansion].
    rewrite !length_app. cbn [length].
    destruct (spec_size_constants_ids (next + 2) out_sizes)
      as (_ & _ & H0 & _).
    destruct (spec_operands_kinds (next + 3 + k) axis (S next) operands
                (next + 5 + k) (next + 4 + k) (ranges 0 extents))
      as (H1 & _).
    unfold count_in in H0, H1. fold ops in H1. rewrite H0.
    fold k. rewrite H1. reflexivity.
  - in_nodes x_nodes_eq.
Qed.

(** The slices and the copies alternate, operand after operand. *)
Lemma x_order :
  filter slice_or_copy (x_nodes X) =
  flat_map (fun p => [fst p; snd p]) (combine (x_slices X) (x_copies X)).
Proof.
  rewrite x_nodes_eq.
  cbn [app filter slice_or_copy n_kind constant_node Symbol_eqb orb].
  rewrite filter_app.
  destruct (spec_size_constants_ids (next + 2) out_sizes)
    as (_ & _ & _ & ->).
  cbn [app filter slice_or_copy n_kind constant_node Symbol_eqb orb
       x_buffer X spec_expansion].
  destruct (spec_operands_kinds (next + 3 + k) axis (S next) operands
              (next + 5 + k) (next + 4 + k) (ranges 0 extents))
    as (_ & H). fold ops in H. fold k. rewrite H.
  change (x_slices X) with (map (fun t => snd (fst t)) ops).
  change (x_copies X) with (map (fun t : Node * Node * Node => snd t) ops).
  clear. induction ops as [|t l IH]; simpl; [reflexivity|].
  now rewrite IH.
Qed.

(** The slices view the ranges of the operands, one after the other. *)
Lemma x_views :
  map (view_of (x_nodes X)) (x_slices X) =
  map (fun r => Some (n_id (x_buffer X), axis, fst r, snd r, 1%Z))
      (ranges 0 extents).
Proof.
  change (x_slices X) with (map (fun t => snd (fst t)) ops).
  unfold ops. apply spec_operands_views; auto.
  - apply x_int_in. in_nodes x_nodes_eq.
  - apply x_int_in. in_nodes x_nodes_eq.
  - intros i z Hin. apply x_int_in. in_nodes x_nodes_eq.
Qed.

Lemma x_copies_inputs :
  map n_inputs (x_copies X) =
  map (fun p => [n_id (fst p); snd p]) (combine (x_slices X) operands).
Proof.
  change (x_slices X) with (map (fun t => snd (fst t)) ops).
  change (x_copies X) with (map (fun t : Node * Node * Node => snd t) ops).
  apply spec_operands_copies. now rewrite ranges_length.
Qed.

Lemma x_counts :
  length (x_slices X) = length operands /\
  length (x_copies X) = length operands.
Proof.
  change (x_slices X) with (map (fun t => snd (fst t)) ops).
  change (x_copies X) with (map (fun t : Node * Node * Node => snd t) ops).
  rewrite !length_map. unfold ops.
  rewrite spec_operands_length by (now rewrite ranges_length). auto.
Qed.
End Whole.

(** The buffer is allocated with the sizes of the output shape. *)
Lemma x_sized next axis (out_shape : list Z) operands extents :
  length extents = length operands ->
  let X := spec_expansion next axis (map (@Some Z) out_shape) operands
                          extents in
  exists size_list,
    In size_list (x_nodes X) /\ n_kind size_list = prim_ListConstruct /\
    input (x_buffer X) 0 = Some (n_id size_list) /\
    map (int_in (x_nodes X)) (n_inputs size_list) = map (@Some Z) out_shape.
Proof.
  intros Hlen X.
  exists (mkNode (next + 2 + length (map (@Some Z) out_shape))
                 prim_ListConstruct
                 (seq (next + 2) (length (map (@Some Z) out_shape)))
                 [(next + 2 + length (map (@Some Z) out_shape),
                   ListType IntType)] None []).
  split; [|split; [reflexivity|split; [reflexivity|]]].
  - unfold X. in_nodes x_nodes_eq.
  - cbn [n_inputs]. rewrite length_map.
    assert (H : forall p, In p (combine (seq (next + 2) (length out_shape))
                                        out_shape) ->
                          int_in (x_nodes X) (fst p) = Some (snd p)).
    { intros [i z] Hp. apply x_int_in; [exact Hlen|].
      unfold X. rewrite x_nodes_eq. apply in_or_app. right.
      apply in_or_app. left. now apply spec_size_constants_in. }
    clearbody X. revert H. generalize (next + 2).
    induction out_shape as [|z zs IH]; intros n H; simpl; [reflexivity|].
    f_equal.
    + apply (H (n, z)). now left.
    + apply IH. intros p Hp. apply H. now right.
Qed.

End ExpansionWhole.

Module UseFacts.
Import RewriteFacts.

Section Out.
Variable f : Node -> list Node.
Variable r : list Value -> list Value.
Variable Pn : Node -> Prop.
Hypothesis f_out : forall m m',
    In m' (f m) ->
    Pn m' /\
    forall x, In x (nodes_of_node m') ->
              x = m' \/ exists b, In b (n_blocks m) /\ In x (nodes_of_block b).

(** A property that every node [f] gives has, whatever it was given,
    holds of all nodes after the rewriting. *)
Lemma rw_out b :
  forall x, In x (nodes_of_block (rw_block f r b)) -> Pn x.
Proof.
  pattern b.
  apply Block_tree_ind with
    (P := fun n => forall x,
              In x (flat_map nodes_of_node (rw_node f r n)) -> Pn x);
    clear b.
  - intros i k ins outs a bs IH x Hx. rewrite rw_node_eq in Hx.
    cbn [n_id n_kind n_inputs n_outputs n_attr n_blocks] in Hx.
    apply in_flat_map in Hx as (m' & Hm' & Hx).
    destruct (f_out _ _ Hm') as (HP & Hsub).
    destruct (Hsub _ Hx) as [->|(b' & Hb' & Hxb)]; [exact HP|].
    simpl in Hb'. apply in_map_iff in Hb' as (b0 & <- & Hb0).
    rewrite Forall_forall in IH. now apply (IH b0 Hb0).
  - intros ps ns rs IH x Hx.
    rewrite rw_block_eq in Hx. cbn [nodes_of_block b_nodes] in Hx.
    apply in_flat_map in Hx as (y & Hy & Hx).
    apply in_flat_map in Hy as (n & Hn & Hy).
    rewrite Forall_forall in IH. apply (IH n Hn).
    apply in_flat_map. eauto.
Qed.
End Out.

Lemma destroy_gone t b x :
  In x (nodes_of_block (destroy t b)) -> n_id x <> t.
Proof.
  unfold destroy. revert x.
  apply (@rw_out _ _ (fun x => n_id x <> t)). intros m m' Hin.
  destruct (Nat.eqb (n_id m) t) eqn:E; [destruct Hin|].
  destruct Hin as [<-|[]]. apply Nat.eqb_neq in E. split; [exact E|].
  intros y Hy. now apply nodes_of_node_inv.
Qed.

Lemma replace_value_neq v w x : v <> w -> replace_value v w x <> v.
Proof.
  unfold replace_value. intros Hvw.
  destruct (Nat.eqb x v) eqn:E; [congruence|].
  now apply Nat.eqb_neq in E.
Qed.

Lemma count_value_absent v l : ~ In v l -> count_value v l = 0.
Proof.
  unfold count_value. induction l as [|a l IH]; simpl; [reflexivity|].
  intros H. destruct (Nat.eqb v a) eqn:E.
  - apply Nat.eqb_eq in E. exfalso. apply H. now left.
  - apply IH. intros Hin. apply H. now right.
Qed.

Lemma replaceAllUsesWith_inputs v w b x :
  v <> w -> In x (nodes_of_block (replaceAllUsesWith v w b)) ->
  ~ In v (n_inputs x).
Proof.
  intros Hvw. unfold replaceAllUsesWith. revert x.
  apply (@rw_out _ _ (fun x => ~ In v (n_inputs x))).
  intros m m' [<-|[]]. split.
  - simpl. intros Hin. apply in_map_iff in Hin as (y & Hy & _).
    revert Hy. now apply replace_value_neq.
  - intros y Hy. apply nodes_of_node_inv in Hy as [->|Hy]; [now left|].
    right. exact Hy.
Qed.

Lemma replaceAllUsesWith_returns v w b :
  v <> w -> ~ In v (returns_of_block (replaceAllUsesWith v w b)).
Proof.
  intros Hvw. unfold replaceAllUsesWith.
  set (f := fun n => [subst_node v w n]).
  set (r := map (replace_value v w)).
  pattern b.
  apply Block_tree_ind with
    (P := fun n => ~ In v (flat_map returns_of_node (rw_node f r n)));
    clear b.
  - intros i k ins outs a bs IH. rewrite rw_node_eq. unfold f.
    cbn [flat_map subst_node n_id n_kind n_inputs n_outputs n_attr
         n_blocks returns_of_node].
    rewrite app_nil_r. intros Hin.
    apply in_flat_map in Hin as (b' & Hb' & Hin).
    apply in_map_iff in Hb' as (b0 & <- & Hb0).
    rewrite Forall_forall in IH. now apply (IH b0 Hb0).
  - intros ps ns rs IH. rewrite rw_block_eq.
    cbn [returns_of_block b_returns b_nodes]. intros Hin.
    apply in_app_or in Hin as [Hin|Hin].
    + unfold r in Hin. apply in_map_iff in Hin as (y & Hy & _).
      revert Hy. now apply replace_value_neq.
    + apply in_flat_map in Hin as (y & Hy & Hin).
      apply in_flat_map in Hy as (n & Hn & Hy).
      rewrite Forall_forall in IH. apply (IH n Hn).
      apply in_flat_map. eauto.
Qed.

(** After [v->replaceAllUsesWith(w)] nothing uses [v]. *)
Lemma replaceAllUsesWith_no_uses v w b :
  v <> w -> num_uses (replaceAllUsesWith v w b) v = 0.
Proof.
  intros Hvw. unfold num_uses.
  rewrite (count_value_absent v (returns_of_block _))
    by now apply replaceAllUsesWith_returns.
  rewrite count_value_absent; [reflexivity|].
  intros Hin. apply in_flat_map in Hin as (x & Hx & Hin).
  revert Hin. now apply replaceAllUsesWith_inputs with w b.
Qed.

End UseFacts.

Lemma ranges_last extents :
  forall start,
    extents <> [] ->
    snd (last (ranges start extents) (0, 0)%Z) = (start + total extents)%Z.
Proof.
  induction extents as [|e [|e' rest] IH]; intros start Hne;
    [congruence | simpl; lia |].
  change (ranges start (e :: e' :: rest))
    with ((start, start + e)%Z :: ranges (start + e) (e' :: rest)).
  change (last ((start, (start + e)%Z) :: ranges (start + e) (e' :: rest))
               (0, 0)%Z)
    with (last (ranges (start + e) (e' :: rest)) (0, 0)%Z).
  rewrite IH by discriminate. simpl. lia.
Qed.

Lemma ranges_prefix_sums extents i r :
  Forall (fun e => 0 <= e)%Z extents ->
  nth_error (ranges 0 extents) i = Some r ->
  exists e, nth_error extents i = Some e /\
            fst r = total (firstn i extents) /\
            snd r = total (firstn (S i) extents) /\
            (fst r <= snd r)%Z.
Proof.
  intros Hpos Hr.
  destruct (ExpansionShape.ranges_nth _ _ _ Hr) as (e & He & Hlo & Hhi).
  exists e. rewrite (ExpansionShape.total_firstn_S _ _ He).
  assert (0 <= e)%Z.
  { rewrite Forall_forall in Hpos. apply Hpos.
    now apply nth_error_In with i. }
  repeat split; auto; lia.
Qed.

(* ================================================================== *)
(** * Reuse of buffers *)

Module ReuseFacts.
Import RewriteFacts.

Lemma find_node_none b i :
  (forall x, In x (nodes_of_block b) -> n_id x <> i) -> find_node b i = None.
Proof.
  intros H. unfold find_node. apply find_none_all.
  intros y Hy. apply Nat.eqb_neq. now apply H.
Qed.

Lemma destroy_absent t b i :
  (forall m, In m (nodes_of_block b) -> n_id m <> i) ->
  forall x, In x (nodes_of_block (destroy t b)) -> n_id x <> i.
Proof.
  unfold destroy.
  apply (@rw_forall _ _ (fun x => n_id x <> i)); [auto|].
  intros m Hm m' Hin.
  destruct (Nat.eqb (n_id m) t); [destruct Hin|].
  destruct Hin as [<-|[]]. split; [exact Hm|].
  intros y Hy. now apply nodes_of_node_inv.
Qed.

End ReuseFacts.


(* ================================================================== *)
(** * The examples of the specification, end to end *)

(** [cat([a, b])] followed by [cat([a, b, c])]: the second becomes
    [cat([first, c])]. *)
Example prefix_example :
  option_map (fun r => (Examples.summary (g_block (fst r)), snd r))
    (EliminateConcatCommonInputs (Examples.quiet (fun l => l))
       (mkGraph (mkBlock Examples.four_inputs
                   [Examples.constant 10 1; Examples.concat 11 [0; 1; 10];
                    Examples.concat 12 [0; 1; 2; 10]]
                   [12])
                20))
  = Some ([(10, prim_Constant, [], Some (IV_Int 1));
           (11, prim_Concat, [0; 1; 10], None);
           (20, prim_Concat, [11; 2; 10], None)],
          [20], true).
Proof. vm_compute. reflexivity. Qed.

(** [cat([b, c])] followed by [cat([a, b, c])]: the second becomes
    [cat([a, first])]. *)
Example suffix_example :
  option_map (fun r => (Examples.summary (g_block (fst r)), snd r))
    (EliminateConcatCommonInputs (Examples.quiet (fun l => l))
       Examples.suffix_concats)
  = Some ([(10, prim_Constant, [], Some (IV_Int 1));
           (11, prim_Concat, [1; 2; 10], None);
           (20, prim_Concat, [0; 11; 10], None)],
          [20], true).
Proof. vm_compute. reflexivity. Qed.

(** Nested concats: after expansion and reuse of buffers one allocation
    is left. *)
Example buffer_fusion_example :
  option_map (fun gr => count_kind aten_empty (g_block gr))
    (ExpandConcatAndEliminateRedundancy (Examples.quiet (fun l => l)) 10
       Examples.nested_cats)
  = Some 1.
Proof. vm_compute. reflexivity. Qed.

(** With both concats promoted the driver has made two rounds of
    changes and a last one without. *)
Example driver_example :
  match RemoveListMutationAndUseVariadicCat (Examples.quiet (fun l => l)) 3
          Examples.two_cats with
  | Done r => Some (Examples.summary (g_block (fst r)), snd r)
  | _ => None
  end
  = Some ([(10, prim_Constant, [], Some (IV_Int 1));
           (20, prim_Concat, [0; 1; 10], None);
           (21, prim_Concat, [2; 3; 10], None)],
          [20; 21], true).
Proof. vm_compute. reflexivity. Qed.

(* ================================================================== *)
(** * Further properties of the passes *)

Module Traversal.

(** A fold that visits the elements of a list and, for each, folds
    over what it holds is a fold over the concatenation. *)
Lemma fold_bind_flat {A B S : Type} (F : option S -> B -> option S)
      (H : A -> S -> option S) (G : A -> list B) (l : list A) :
  (forall m, fold_left F m None = None) ->
  Forall (fun x => forall s, H x s = fold_left F (G x) (Some s)) l ->
  forall acc,
    fold_left (fun acc x => s <- acc ;; H x s) l acc =
    fold_left F (flat_map G l) acc.
Proof.
  intros Hnone. induction 1 as [|x l Hx _ IH]; intros acc; simpl;
    [reflexivity|].
  rewrite fold_left_app, IH. f_equal.
  destruct acc as [s|]; simpl; [apply Hx | now rewrite Hnone].
Qed.

Lemma filter_flat {A B : Type} (p : B -> bool) (f : A -> list B) l :
  filter p (flat_map f l) = flat_map (fun x => filter p (f x)) l.
Proof.
  induction l; simpl; [reflexivity|]. now rewrite filter_app, IHl.
Qed.

Section Visit.
Variable S : Type.
Variable k : Symbol.
Variable visit : S -> Node -> option S.
Variable handleNode : Node -> S -> option S.
Variable handleBlock : Block -> S -> option S.
Hypothesis handleNode_eq : forall n st,
    handleNode n st =
    (st1 <- (if Symbol_eqb (n_kind n) k then visit st n else Some st) ;;
     fold_left (fun acc b => s <- acc ;; handleBlock b s)
               (n_blocks n) (Some st1)).
Hypothesis handleBlock_eq : forall b st,
    handleBlock b st =
    fold_left (fun acc n => s <- acc ;; handleNode n s) (b_nodes b) (Some st).

Let F := fun (acc : option S) (n : Node) => s <- acc ;; visit s n.

Lemma F_none m : fold_left F m None = None.
Proof. induction m; simpl; auto. Qed.

(** A traversal of this shape calls [visit] on the nodes of kind [k]
    in the order of [nodes_of_block], nested blocks included. *)
Lemma traversal_is_fold b st :
  handleBlock b st =
  fold_left F (filter (is_kind k) (nodes_of_block b)) (Some st).
Proof.
  revert st. pattern b.
  apply Block_tree_ind with
    (P := fun n => forall st,
              handleNode n st =
              fold_left F (filter (is_kind k) (nodes_of_node n)) (Some st));
    clear b.
  - intros i k' ins outs a bs IH st. rewrite handleNode_eq.
    assert (Hbs : forall acc,
               fold_left (fun acc b => s <- acc ;; handleBlock b s) bs acc =
               fold_left F (filter (is_kind k) (flat_map nodes_of_block bs))
                         acc).
    { intros acc. rewrite filter_flat.
      apply (fold_bind_flat F handleBlock
               (fun b => filter (is_kind k) (nodes_of_block b)) F_none IH). }
    cbn [n_kind n_blocks nodes_of_node filter]. unfold is_kind at 1.
    cbn [n_kind].
    destruct (Symbol_eqb k' k); cbn [fold_left bind].
    + unfold F at 2. cbn [bind].
      destruct (visit st _); cbn [bind]; [apply Hbs|].
      now rewrite F_none.
    + apply Hbs.
  - intros ps ns rs IH st. rewrite handleBlock_eq.
    cbn [nodes_of_block b_nodes]. rewrite filter_flat.
    apply (fold_bind_flat F handleNode
             (fun n => filter (is_kind k) (nodes_of_node n)) F_none IH).
Qed.
End Visit.

End Traversal.

(** X1: [equal] holds exactly of equal lists of values: same length and
    the same values position by position; lists of different lengths
    are never equal. *)
Theorem equal_is_list_equality (list1 list2 : list Value) :
  (equal list1 list2 = true <-> list1 = list2) /\
  (length list1 <> length list2 -> equal list1 list2 = false).
Proof.
  split; [apply equal_eq|].
  intros Hlen. destruct (equal list1 list2) eqn:E; [|reflexivity].
  apply equal_eq in E. subst list2. now destruct Hlen.
Qed.

(** X2: the traversal of the eliminator calls [handleCat] on the
    variadic concats of the block, nested blocks included, each once
    and in program order; a failure stops it. *)
Theorem eliminator_visits_concats_in_order
        (C : Collaborators) (g b : Block) (st : Eliminator.State) :
  Eliminator.handleBlock C g b st =
  fold_left (fun acc n => s <- acc ;; Eliminator.handleCat C g s n)
            (filter (is_kind prim_Concat) (nodes_of_block b)) (Some st).
Proof.
  apply (Traversal.traversal_is_fold prim_Concat
           (Eliminator.handleCat C g) (Eliminator.handleNode C g)
           (Eliminator.handleBlock C g)).
  - apply EliminatorFacts.handleNode_eq.
  - apply EliminatorFacts.handleBlock_eq.
Qed.

Module ExpanderTraversal.
Import Expander.

Lemma expander_handleNode_eq C n st :
  handleNode C n st =
  (st1 <- (if Symbol_eqb (n_kind n) aten_cat
           then expandCat C st n else Some st) ;;
   fold_left (fun acc b => s <- acc ;; handleBlock C b s)
             (n_blocks n) (Some st1)).
Proof. destruct n; reflexivity. Qed.

Lemma expander_handleBlock_eq C b st :
  handleBlock C b st =
  fold_left (fun acc n => s <- acc ;; handleNode C n s)
            (b_nodes b) (Some st).
Proof. destruct b; reflexivity. Qed.

Lemma handleBlock_fold C b st :
  handleBlock C b st =
  fold_left (fun acc n => s <- acc ;; expandCat C s n)
            (filter (is_kind aten_cat) (nodes_of_block b)) (Some st).
Proof.
  apply (Traversal.traversal_is_fold aten_cat
           (expandCat C) (handleNode C) (handleBlock C)).
  - apply expander_handleNode_eq.
  - apply expander_handleBlock_eq.
Qed.

End ExpanderTraversal.

(** X3: [collectCatNodes] appends to [cat_nodes_] the list-form concats
    of the block, nested blocks included, in program order, and nothing
    else: a node is in the result exactly if it was in [cat_nodes_] or
    is an [aten::cat] node of the block. *)
Theorem collectCatNodes_collects_cats_in_order
        (b : Block) (cat_nodes_ : list Node) :
  Variadic.collectCatNodes b cat_nodes_ =
    cat_nodes_ ++ filter (is_kind aten_cat) (nodes_of_block b) /\
  forall c, In c (Variadic.collectCatNodes b cat_nodes_) <->
            In c cat_nodes_ \/
            (In c (nodes_of_block b) /\ n_kind c = aten_cat).
Proof.
  split; [apply VariadicFacts.collectCatNodes_spec|].
  intros c. rewrite VariadicFacts.collectCatNodes_spec, in_app_iff, filter_In.
  unfold is_kind. rewrite Symbol_eqb_eq. reflexivity.
Qed.

Module EliminatorMore.
Import Eliminator EliminatorFacts EliminatorSearch.

Lemma set_insert_has n s : exists c, In c (set_insert n s) /\ n_id c = n_id n.
Proof.
  unfold set_insert. destruct (existsb (same_node n) s) eqn:E.
  - apply existsb_exists in E as (c & Hc & Hid).
    apply Nat.eqb_eq in Hid. eauto.
  - exists n. split; [|reflexivity]. apply in_or_app. right. now left.
Qed.

(** What one call of [handleCat] does to the state. *)
Lemma handleCat_effect C g st node st' :
  handleCat C g st node = Some st' ->
  exists out,
    output node = Some out /\ n_inputs node <> [] /\
    concated_outputs_ st' =
      (if negb (hasWriters C g out)
       then set_insert node (concated_outputs_ st)
       else concated_outputs_ st) /\
    ((concats_to_replace_ st' = concats_to_replace_ st /\
      next_unique st' = next_unique st) \/
     (2 < length (tensor_operands node) /\
      exists new_inputs t,
        output_type node = Some t /\
        concats_to_replace_ st' =
          map_set node (replacement (next_unique st) new_inputs t)
                  (concats_to_replace_ st) /\
        next_unique st' = S (next_unique st) /\
        length new_inputs = 3 /\
        last new_inputs 0 = last (n_inputs node) 0)).
Proof.
  unfold handleCat, split_dim, bind, record_replacement, create,
    tensor_operands.
  destruct (n_inputs node) as [|i0 ins] eqn:Eins; [discriminate|].
  destruct (output node) as [out|]; [|discriminate].
  intros H. exists out. split; [reflexivity|]. split; [discriminate|].
  revert H.
  set (st1 := if negb (hasWriters C g out) then _ else st).
  assert (Hc : concated_outputs_ st1 =
               (if negb (hasWriters C g out)
                then set_insert node (concated_outputs_ st)
                else concated_outputs_ st) /\
               concats_to_replace_ st1 = concats_to_replace_ st /\
               next_unique st1 = next_unique st).
  { subst st1. destruct (negb (hasWriters C g out)); simpl; auto. }
  clearbody st1. destruct Hc as (Hc & Hr & Hn).
  destruct (Nat.leb (length (removelast (i0 :: ins))) 2) eqn:Elen.
  - intros [= <-]. split; [exact Hc|]. left. split; assumption.
  - apply Nat.leb_gt in Elen.
    destruct (search _ _ _ _ _ _) as [[prev|]|]; try discriminate.
    + destruct (output prev); [|discriminate].
      destruct (output_type node) as [t|]; [|discriminate].
      intros [= <-]. cbn [concated_outputs_ concats_to_replace_ next_unique].
      split; [exact Hc|]. right. split; [exact Elen|].
      eexists. exists t. rewrite Hr, Hn. repeat split.
    + destruct (search _ _ _ _ _ _) as [[prev|]|]; try discriminate.
      * destruct (output prev); [|discriminate].
        destruct (output_type node) as [t|]; [|discriminate].
        intros [= <-].
        cbn [concated_outputs_ concats_to_replace_ next_unique].
        split; [exact Hc|]. right. split; [exact Elen|].
        eexists. exists t. rewrite Hr, Hn. repeat split.
      * intros [= <-]. split; [exact Hc|]. left. split; assumption.
Qed.

(** A property of the state that every call of [handleCat] on a
    variadic concat of the block keeps is kept by the traversal. *)
Lemma handleBlock_invariant C g b (Inv : State -> Prop) :
  (forall n s s', In n (nodes_of_block b) -> n_kind n = prim_Concat ->
                  Inv s -> handleCat C g s n = Some s' -> Inv s') ->
  forall st st', Inv st -> handleBlock C g b st = Some st' -> Inv st'.
Proof.
  intros Hstep st st' Hinv Hb.
  refine (@handleBlock_rel C g (fun s s' => Inv s -> Inv s') _ _ b _
            st st' Hb Hinv); auto.
  intros n s s' Hn Hk Hcat Hs. eapply Hstep; eauto.
Qed.

End EliminatorMore.

(** X4: the candidates the eliminator records are exactly the variadic
    concats whose output has no writers.  After the traversal every
    recorded candidate is a [prim::Concat] node of the graph with an
    output that has no writers, and every [prim::Concat] node of the
    graph whose output has no writers is recorded. *)
Theorem candidates_are_the_writer_free_concats
        (C : Collaborators) (g : Block) (next : nat) (st : Eliminator.State) :
  Eliminator.handleBlock C g g (Eliminator.mkState next [] []) = Some st ->
  (forall c, In c (Eliminator.concated_outputs_ st) ->
             In c (nodes_of_block g) /\ n_kind c = prim_Concat /\
             exists o, output c = Some o /\ hasWriters C g o = false) /\
  (forall n o, In n (nodes_of_block g) -> n_kind n = prim_Concat ->
               output n = Some o -> hasWriters C g o = false ->
               exists c, In c (Eliminator.concated_outputs_ st) /\
                         n_id c = n_id n).
Proof.
  intros Hb. split.
  - pose (Inv := fun s : Eliminator.State =>
             forall c, In c (Eliminator.concated_outputs_ s) ->
                       In c (nodes_of_block g) /\ n_kind c = prim_Concat /\
                       exists o, output c = Some o /\
                                 hasWriters C g o = false).
    apply (@EliminatorMore.handleBlock_invariant C g g Inv) with (st := Eliminator.mkState next [] []) (st' := st);
      [|intros c []|exact Hb].
    intros n s s' Hn Hk Hs Hcat c Hc.
    destruct (EliminatorMore.handleCat_effect _ _ _ _ Hcat)
      as (out & Hout & _ & Hcands & _).
    rewrite Hcands in Hc.
    destruct (hasWriters C g out) eqn:Ew; cbn [negb] in Hc;
      [now apply Hs|].
    apply EliminatorSearch.set_insert_in in Hc as [Hc| ->];
      [now apply Hs|]. eauto.
  - rewrite eliminator_visits_concats_in_order in Hb.
    intros n o Hn Hk Ho Hw.
    assert (Hin : In n (filter (is_kind prim_Concat) (nodes_of_block g))).
    { apply filter_In. split; [exact Hn|]. now apply Symbol_eqb_eq. }
    revert Hb Hin. generalize (Eliminator.mkState next [] []).
    generalize (filter (is_kind prim_Concat) (nodes_of_block g)).
    intros L. induction L as [|m L IH]; intros s Hfold Hin; [destruct Hin|].
    simpl in Hfold.
    destruct (Eliminator.handleCat C g s m) as [s1|] eqn:Hcat;
      [|rewrite fold_bind_none in Hfold; discriminate].
    assert (Hmono : forall L s1 s2,
               fold_left (fun acc n => s <- acc ;; Eliminator.handleCat C g s n)
                         L (Some s1) = Some s2 ->
               forall c, In c (Eliminator.concated_outputs_ s1) ->
                         exists c', In c' (Eliminator.concated_outputs_ s2) /\
                                    n_id c' = n_id c).
    { clear. intros L. induction L as [|m L IH]; intros s1 s2 Hf c Hc.
      - injection Hf as <-. eauto.
      - simpl in Hf.
        destruct (Eliminator.handleCat C g s1 m) as [s|] eqn:Hcat;
          [|rewrite fold_bind_none in Hf; discriminate].
        apply (IH _ _ Hf).
        destruct (EliminatorMore.handleCat_effect _ _ _ _ Hcat)
          as (out & _ & _ & -> & _).
        destruct (negb (hasWriters C g out)); [|exact Hc].
        now apply EliminatorSearch.set_insert_incl. }
    destruct Hin as [->|Hin]; [|now apply (IH s1)].
    destruct (EliminatorMore.handleCat_effect _ _ _ _ Hcat)
      as (out & Hout & _ & Hcands & _).
    rewrite Ho in Hout. injection Hout as <-.
    rewrite Hw in Hcands. cbn [negb] in Hcands.
    destruct (EliminatorMore.set_insert_has n (Eliminator.concated_outputs_ s))
      as (c & Hc & Hid).
    rewrite <- Hcands in Hc.
    destruct (Hmono _ _ _ Hfold c Hc) as (c' & Hc' & Hid').
    exists c'. split; [exact Hc' | congruence].
Qed.

Lemma candidates_are_the_writer_free_concats_witness :
  let C := Examples.quiet (fun l => l) in
  let g := g_block Examples.chained_concats in
  exists st,
    Eliminator.handleBlock C g g (Eliminator.mkState 20 [] []) = Some st /\
    (forall c, In c (Eliminator.concated_outputs_ st) ->
               In c (nodes_of_block g) /\ n_kind c = prim_Concat /\
               exists o, output c = Some o /\ hasWriters C g o = false) /\
    (forall n o, In n (nodes_of_block g) -> n_kind n = prim_Concat ->
                 output n = Some o -> hasWriters C g o = false ->
                 exists c, In c (Eliminator.concated_outputs_ st) /\
                           n_id c = n_id n).
Proof.
  intros C g. eexists. split; [vm_compute; reflexivity|].
  apply (@candidates_are_the_writer_free_concats C g 20).
  vm_compute. reflexivity.
Defined.

Module EliminatorReplacements.
Import Eliminator.

Lemma map_set_in (n new : Node) m k v :
  In (k, v) (map_set n new m) ->
  In (k, v) m \/
  (v = new /\ (k = n \/ (same_node n k = true /\ In k (map fst m)))).
Proof.
  induction m as [|[k' v'] m IH]; simpl.
  - intros [[= <- <-]|[]]. right. auto.
  - destruct (same_node n k') eqn:E; simpl.
    + intros [[= <- <-]|H]; [|left; now right].
      right. split; [reflexivity|]. right. auto.
    + intros [H|H]; [left; now left|].
      destruct (IH H) as [H'|(-> & [->|(Hs & Hk)])]; auto.
      right. split; [reflexivity|]. right. auto.
Qed.

Lemma removelast_length3 (l : list Value) :
  length l = 3 -> length (removelast l) = 2.
Proof. destruct l as [|a [|b [|c [|d l]]]]; simpl; congruence. Qed.

End EliminatorReplacements.

(** X5: what the eliminator records for replacement.  On a graph with
    distinct node identities, every recorded pair is a
    [prim::Concat] node of the graph with more than two tensor operands
    and a fresh variadic concat of exactly two tensors on the same axis
    and with the same output type, numbered from the counter of the
    graph. *)
Theorem recorded_replacements_are_binary
        (C : Collaborators) (g : Block) (next : nat) (st : Eliminator.State) :
  NoDup (map n_id (nodes_of_block g)) ->
  Eliminator.handleBlock C g g (Eliminator.mkState next [] []) = Some st ->
  next <= Eliminator.next_unique st /\
  forall k v,
    In (k, v) (Eliminator.concats_to_replace_ st) ->
    In k (nodes_of_block g) /\ n_kind k = prim_Concat /\
    2 < length (tensor_operands k) /\
    binary_replacement k v /\
    next <= n_id v < Eliminator.next_unique st.
Proof.
  intros Hnd Hb.
  pose (Inv := fun s : Eliminator.State =>
           next <= Eliminator.next_unique s /\
           forall k v,
             In (k, v) (Eliminator.concats_to_replace_ s) ->
             In k (nodes_of_block g) /\ n_kind k = prim_Concat /\
             2 < length (tensor_operands k) /\
             binary_replacement k v /\
             next <= n_id v < Eliminator.next_unique s).
  apply (@EliminatorMore.handleBlock_invariant C g g Inv)
    with (st := Eliminator.mkState next [] []) (st' := st);
    [|split; [apply le_n | intros k v []]|exact Hb].
  intros n s s' Hn Hk (Hle & Hs) Hcat.
  destruct (EliminatorMore.handleCat_effect _ _ _ _ Hcat)
    as (out & Hout & Hins & _ & [(Hr & Hnx)|(Hbig & ins & t & Ht & Hr & Hnx
                                              & Hlen & Hlast)]).
  - split; [rewrite Hnx; exact Hle|]. rewrite Hr, Hnx. exact Hs.
  - split; [rewrite Hnx; lia|]. intros k v Hin. rewrite Hr in Hin.
    rewrite Hnx.
    apply EliminatorReplacements.map_set_in in Hin
      as [Hin|(-> & Hkey)].
    + destruct (Hs k v Hin) as (H1 & H2 & H3 & H4 & H5).
      split; [exact H1|]. split; [exact H2|]. split; [exact H3|].
      split; [exact H4 | lia].
    + assert (k = n) as ->.
      { destruct Hkey as [->|(Hsame & Hkin)]; [reflexivity|].
        apply in_map_iff in Hkin as ([k0 v0] & Hk0 & Hin0). simpl in Hk0.
        subst k0. destruct (Hs k v0 Hin0) as (Hkg & _).
        apply Nat.eqb_eq in Hsame.
        symmetry. eapply NoDup_map_inj; eauto. }
      split; [exact Hn|]. split; [exact Hk|]. split; [exact Hbig|].
      split; [|cbn [replacement n_id]; lia].
      unfold binary_replacement, replacement, tensor_operands.
      cbn [n_kind n_inputs n_blocks n_outputs n_id map snd].
      split; [reflexivity|].
      split; [now apply EliminatorReplacements.removelast_length3|].
      split; [reflexivity|]. split; [exact Hlast|].
      split; [eauto|].
      unfold output_type in Ht.
      destruct (n_outputs n) as [|[o t'] [|o' os]]; try discriminate.
      injection Ht as ->. reflexivity.
Qed.

Lemma recorded_replacements_are_binary_witness :
  let C := Examples.quiet (fun l => l) in
  let g := g_block Examples.chained_concats in
  exists st,
    Eliminator.handleBlock C g g (Eliminator.mkState 20 [] []) = Some st /\
    20 <= Eliminator.next_unique st /\
    forall k v,
      In (k, v) (Eliminator.concats_to_replace_ st) ->
      In k (nodes_of_block g) /\ n_kind k = prim_Concat /\
      2 < length (tensor_operands k) /\
      binary_replacement k v /\
      20 <= n_id v < Eliminator.next_unique st.
Proof.
  intros C g. eexists. split; [vm_compute; reflexivity|].
  apply (@recorded_replacements_are_binary C g 20).
  - simpl. repeat constructor; simpl; intuition discriminate.
  - vm_compute. reflexivity.
Defined.

Module EliminatorNoMatch.
Import Eliminator EliminatorSearch.

(** [handleCat] when neither search finds a candidate. *)
Lemma handleCat_none C g st node out t :
  (forall l x, In x (set_order C l) -> In x l) ->
  Forall cand_wf (concated_outputs_ st) ->
  n_outputs node = [(out, t)] ->
  2 < length (tensor_operands node) ->
  chosen_inputs C g node (candidates_seen C g st node out) = None ->
  handleCat C g st node =
  Some (mkState (next_unique st)
                (if negb (hasWriters C g out)
                 then set_insert node (concated_outputs_ st)
                 else concated_outputs_ st)
                (concats_to_replace_ st)).
Proof.
  unfold tensor_operands. intros Hord Hwf Hout Hlen Hnone.
  assert (Hins : n_inputs node <> []).
  { intros E. rewrite E in Hlen. simpl in Hlen. lia. }
  assert (Hwf1 : Forall cand_wf (candidates_seen C g st node out)).
  { apply Forall_forall. intros x Hx. unfold candidates_seen in Hx.
    apply Hord in Hx. rewrite Forall_forall in Hwf.
    destruct (negb (hasWriters C g out)); [|now apply Hwf].
    apply set_insert_in in Hx as [Hx| ->]; [now apply Hwf|].
    split; [exact Hins | eauto]. }
  unfold handleCat. rewrite (split_dim_wf Hins).
  unfold bind at 1. rewrite (output_wf _ Hout). unfold bind at 1.
  cbn [fst]. apply Nat.leb_gt in Hlen. rewrite Hlen.
  assert (Ec : set_order C
                 (concated_outputs_
                    (if negb (hasWriters C g out)
                     then mkState (next_unique st)
                            (set_insert node (concated_outputs_ st))
                            (concats_to_replace_ st)
                     else st)) = candidates_seen C g st node out).
  { unfold candidates_seen. now destruct (negb (hasWriters C g out)). }
  rewrite Ec, !search_find by exact Hwf1.
  unfold chosen_inputs in Hnone. cbv zeta in Hnone.
  destruct (find (candidate_ok C g node
                    (removelast (removelast (n_inputs node)))
                    (last (n_inputs node) 0))
                 (candidates_seen C g st node out)); [discriminate|].
  destruct (find (candidate_ok C g node (tl (removelast (n_inputs node)))
                    (last (n_inputs node) 0))
                 (candidates_seen C g st node out)); [discriminate|].
  cbn [bind]. destruct (negb (hasWriters C g out)); destruct st; reflexivity.
Qed.

End EliminatorNoMatch.

(** X6: a candidate that does not dominate the node is not used.  If
    no recorded candidate dominates a concat of more than two tensors,
    [handleCat] returns without recording a substitution and without
    creating a node, whatever the candidates' operands are. *)
Theorem no_dominating_candidate_no_rewrite
        (C : Collaborators) (g : Block) (st : Eliminator.State)
        (node : Node) (out : Value) (t : Type_) :
  (forall l x, In x (set_order C l) <-> In x l) ->
  Forall cand_wf (Eliminator.concated_outputs_ st) ->
  n_outputs node = [(out, t)] ->
  2 < length (tensor_operands node) ->
  (forall prev, In prev (Eliminator.concated_outputs_ st) ->
                isDominatedBy C g node prev = false) ->
  exists st',
    Eliminator.handleCat C g st node = Some st' /\
    Eliminator.concats_to_replace_ st' = Eliminator.concats_to_replace_ st /\
    Eliminator.next_unique st' = Eliminator.next_unique st.
Proof.
  intros Hord Hwf Hout Hlen Hdom.
  assert (Hne : removelast (n_inputs node) <> []).
  { intros E. unfold tensor_operands in Hlen. rewrite E in Hlen.
    simpl in Hlen. lia. }
  assert (Hno : forall wanted prev,
             ~ dominating_match C g st node wanted
                 (last (n_inputs node) 0) prev).
  { intros wanted prev (Hin & _ & _ & Hd).
    rewrite (Hdom prev Hin) in Hd. discriminate. }
  eexists. split.
  - apply (@EliminatorNoMatch.handleCat_none C g st node out t); auto.
    + intros l x. apply Hord.
    + unfold chosen_inputs. cbv zeta.
      rewrite (@no_candidate C g st node out _ _ Hord
                 (removelast_shorter Hne) (Hno _)).
      rewrite (@no_candidate C g st node out _ _ Hord
                 (tl_shorter Hne) (Hno _)).
      reflexivity.
  - split; reflexivity.
Qed.

Lemma no_dominating_candidate_no_rewrite_witness :
  let C := mkCollaborators (fun _ _ => false) (fun _ _ _ => true)
                           (fun _ _ _ => false) (fun l => l)
                           (fun g => (false, g)) in
  let g := g_block Examples.chained_concats in
  let st := Eliminator.mkState 20 [Examples.concat 11 [0; 1; 10]] [] in
  exists st',
    Eliminator.handleCat C g st (Examples.concat 12 [0; 1; 2; 10]) = Some st' /\
    Eliminator.concats_to_replace_ st' = [] /\
    Eliminator.next_unique st' = 20.
Proof.
  intros C g st.
  apply (@no_dominating_candidate_no_rewrite C g st
           (Examples.concat 12 [0; 1; 2; 10]) 12 dynamic_tensor).
  - intros l x. reflexivity.
  - repeat constructor; simpl; [discriminate | eauto].
  - reflexivity.
  - simpl. lia.
  - intros prev _. reflexivity.
Defined.

Module EliminatorSmall.
Import Eliminator EliminatorSearch.

Lemma handleCat_small C g st node :
  concat_wf node -> length (tensor_operands node) <= 2 ->
  exists st',
    handleCat C g st node = Some st' /\
    concats_to_replace_ st' = concats_to_replace_ st /\
    next_unique st' = next_unique st.
Proof.
  unfold tensor_operands. intros (Hins & o & Ho) Hlen.
  unfold handleCat. rewrite (split_dim_wf Hins). cbn [bind].
  rewrite (output_wf _ Ho). cbn [bind].
  apply Nat.leb_le in Hlen. rewrite Hlen.
  eexists. split; [reflexivity|].
  destruct (negb (hasWriters C g (fst o))); split; reflexivity.
Qed.

Lemma fold_small C g L :
  Forall (fun n => concat_wf n /\ length (tensor_operands n) <= 2) L ->
  forall st,
  exists st',
    fold_left (fun acc n => s <- acc ;; handleCat C g s n) L (Some st)
    = Some st' /\
    concats_to_replace_ st' = concats_to_replace_ st /\
    next_unique st' = next_unique st.
Proof.
  induction 1 as [|n L (Hwf & Hlen) _ IH]; intros st; simpl.
  - eauto.
  - destruct (handleCat_small C g st Hwf Hlen) as (s1 & -> & Hr & Hn).
    cbn [bind]. destruct (IH s1) as (st' & Hf & Hr' & Hn').
    exists st'. repeat split; congruence.
Qed.

End EliminatorSmall.

(** X7: on a graph whose variadic concats all have two tensor operands
    or fewer the eliminator records nothing: it returns [false] and the
    graph it was given, whatever the concats share. *)
Theorem eliminate_leaves_small_concats_alone
        (C : Collaborators) (gr : Graph) :
  (forall n, In n (nodes_of_block (g_block gr)) -> n_kind n = prim_Concat ->
             concat_wf n /\ length (tensor_operands n) <= 2) ->
  EliminateConcatCommonInputs C gr = Some (gr, false).
Proof.
  intros Hsmall. unfold EliminateConcatCommonInputs, Eliminator.run.
  rewrite eliminator_visits_concats_in_order.
  destruct (@EliminatorSmall.fold_small C (g_block gr)
              (filter (is_kind prim_Concat) (nodes_of_block (g_block gr))))
    with (st := Eliminator.mkState (g_next gr) [] [])
    as (st' & -> & Hr & Hn).
  { apply Forall_forall. intros n Hn. apply filter_In in Hn as (Hin & Hk).
    apply Hsmall; [exact Hin|]. now apply Symbol_eqb_eq. }
  cbn [bind]. unfold Eliminator.postprocess. rewrite Hr, Hn.
  cbn. destruct gr; reflexivity.
Qed.

Lemma eliminate_leaves_small_concats_alone_witness :
  let gr := mkGraph (mkBlock Examples.four_inputs
                       [Examples.constant 10 1; Examples.concat 11 [0; 1; 10];
                        Examples.concat 12 [0; 1; 10];
                        Examples.concat 13 [11; 12; 10]]
                       [13])
                    20 in
  EliminateConcatCommonInputs (Examples.quiet (fun l => l)) gr
  = Some (gr, false).
Proof.
  intros gr. apply eliminate_leaves_small_concats_alone.
  intros n Hn Hk. simpl in Hn.
  repeat (destruct Hn as [<-|Hn];
          [first [ discriminate Hk
                 | split; [split; [discriminate|eexists; reflexivity]
                          |unfold tensor_operands; simpl; lia] ]|]).
  destruct Hn.
Defined.

(** X8: the eliminator destroys nothing but variadic concats of more
    than two tensors.  On a graph with distinct node identities whose
    variadic concats own no nested blocks, a node of another kind, or a
    variadic concat of two tensors or fewer, is still in the result,
    with its kind, its outputs and as many inputs. *)
Theorem eliminate_destroys_only_large_concats
        (C : Collaborators) (gr gr' : Graph) (changed : bool) (x : Node) :
  NoDup (map n_id (nodes_of_block (g_block gr))) ->
  (forall n, In n (nodes_of_block (g_block gr)) ->
             n_kind n = prim_Concat -> n_blocks n = []) ->
  In x (nodes_of_block (g_block gr)) ->
  (n_kind x <> prim_Concat \/ length (tensor_operands x) <= 2) ->
  EliminateConcatCommonInputs C gr = Some (gr', changed) ->
  exists x', In x' (nodes_of_block (g_block gr')) /\ same_shell x x'.
Proof.
  intros Hnd Hleaf Hin Hother Hrun.
  unfold EliminateConcatCommonInputs, Eliminator.run in Hrun.
  destruct (Eliminator.handleBlock C (g_block gr) (g_block gr) _)
    as [st|] eqn:Hb; [|discriminate].
  unfold bind in Hrun.
  destruct (Eliminator.postprocess (g_block gr) st) as [[b' ch]|] eqn:Hp;
    [|discriminate].
  injection Hrun as <- <-. cbn [g_block fst].
  pose proof (@EliminatorPass.handleBlock_recorded_ok _ _ _ _ Hb
                (Forall_nil _)) as Hok.
  simpl in Hok. rewrite Forall_forall in Hok.
  assert (Hkeys : forall m, In m (nodes_of_block (g_block gr)) ->
                            In (n_id m) (keys (Eliminator.concats_to_replace_ st)) ->
                            n_kind m = prim_Concat /\
                            2 < length (removelast (n_inputs m))).
  { intros m Hm Hk. unfold keys in Hk.
    apply in_map_iff in Hk as (p & Hid & Hp').
    destruct (Hok p Hp') as ((Hpin & Hpk & Hpl) & _).
    assert (fst p = m) by (eapply NoDup_map_inj; eauto).
    subst m. auto. }
  unfold Eliminator.postprocess in Hp.
  eapply EliminatorPass.postprocess_loop_keeps with (x := x) in Hp; eauto.
  - intros p Hp'. apply (Hok p Hp').
  - intros m Hm Hk. apply Hleaf; [exact Hm|]. apply (Hkeys m Hm Hk).
  - intros Hk. destruct (Hkeys x Hin Hk) as (Hkind & Hbig).
    unfold tensor_operands in Hother. destruct Hother; [contradiction|lia].
Qed.

Lemma eliminate_destroys_only_large_concats_witness :
  exists x',
    In x' (nodes_of_block (g_block Examples.chained_concats_once)) /\
    same_shell (Examples.constant 10 1) x'.
Proof.
  apply (@eliminate_destroys_only_large_concats
           (Examples.quiet (fun l => l)) Examples.chained_concats
           Examples.chained_concats_once true (Examples.constant 10 1)).
  - simpl. repeat constructor; simpl; intuition discriminate.
  - intros n Hn _. simpl in Hn.
    repeat (destruct Hn as [<-|Hn]; [reflexivity|]). destruct Hn.
  - simpl. auto.
  - left. discriminate.
  - vm_compute. reflexivity.
Defined.

Module EliminatorGone.
Import Eliminator RewriteFacts.

(** No node is named [i]. *)
Lemma insertBefore_absent new t b i :
  n_id new <> i -> n_blocks new = [] ->
  (forall m, In m (nodes_of_block b) -> n_id m <> i) ->
  forall x, In x (nodes_of_block (insertBefore new t b)) -> n_id x <> i.
Proof.
  intros Hnew Hleaf. unfold insertBefore.
  apply (@rw_forall _ _ (fun x => n_id x <> i)); [auto|].
  intros m Hm m' Hin.
  destruct (Nat.eqb (n_id m) t); simpl in Hin.
  - destruct Hin as [<-|[<-|[]]].
    + split; [exact Hnew|]. intros y Hy. left.
      now apply GraphEdits.leaf_nodes.
    + split; [exact Hm|]. intros y Hy. now apply nodes_of_node_inv.
  - destruct Hin as [<-|[]]. split; [exact Hm|].
    intros y Hy. now apply nodes_of_node_inv.
Qed.

Lemma replaceAllUsesWith_absent v w b i :
  (forall m, In m (nodes_of_block b) -> n_id m <> i) ->
  forall x, In x (nodes_of_block (replaceAllUsesWith v w b)) -> n_id x <> i.
Proof.
  unfold replaceAllUsesWith.
  apply (@rw_forall _ _ (fun x => n_id x <> i)); [auto|].
  intros m Hm m' [<-|[]]. split; [exact Hm|].
  intros y Hy. apply nodes_of_node_inv in Hy as [->|Hy]; [now left|].
  right. exact Hy.
Qed.

(** A node for which a substitution is pending, or that is absent
    already, is absent after [postprocess], the replacements being
    named otherwise. *)
Lemma postprocess_loop_gone pending :
  forall redirected b changed b' changed' i,
    (forall p, In p pending -> n_id (snd p) <> i /\ n_blocks (snd p) = []) ->
    (forall n, n_id (redirected n) = n_id n /\
               n_blocks (redirected n) = n_blocks n) ->
    (In i (keys pending) \/
     forall m, In m (nodes_of_block b) -> n_id m <> i) ->
    postprocess_loop pending redirected b changed = Some (b', changed') ->
    forall x, In x (nodes_of_block b') -> n_id x <> i.
Proof.
  induction pending as [|[curr new0] rest IH];
    intros redirected b changed b' changed' i Hnew Hred Hi; simpl.
  - intros [= <- <-]. destruct Hi as [[]|Hi]. exact Hi.
  - unfold bind.
    destruct (output curr) as [v|]; [|discriminate].
    destruct (output (redirected new0)) as [w|]; [|discriminate].
    apply IH.
    + intros p Hp. apply Hnew. now right.
    + intros n. simpl. apply Hred.
    + destruct (Hnew (curr, new0) (or_introl eq_refl)) as (Hid & Hbl).
      destruct (Hred new0) as (Hrid & Hrbl).
      simpl in Hid, Hbl.
      destruct (Nat.eq_dec (n_id curr) i) as [E|E].
      * right. subst i. intros m. apply UseFacts.destroy_gone.
      * destruct Hi as [[Hi|Hi]|Hi]; [simpl in Hi; contradiction|now left|].
        right. apply ReuseFacts.destroy_absent.
        apply replaceAllUsesWith_absent.
        apply insertBefore_absent; [congruence|congruence|exact Hi].
Qed.

(** The replacements are numbered from the counter the traversal
    started with, their keys are nodes of the graph. *)
Lemma handleBlock_fresh C g next st :
  handleBlock C g g (mkState next [] []) = Some st ->
  forall k v, In (k, v) (concats_to_replace_ st) ->
              In k (nodes_of_block g) /\ next <= n_id v /\ n_blocks v = [].
Proof.
  intros Hb.
  pose (Inv := fun s : State =>
           next <= next_unique s /\
           forall k v, In (k, v) (concats_to_replace_ s) ->
                       In k (nodes_of_block g) /\ next <= n_id v /\
                       n_blocks v = []).
  apply (@EliminatorMore.handleBlock_invariant C g g Inv)
    with (st := mkState next [] []) (st' := st);
    [|split; [apply le_n | intros k v []]|exact Hb].
  intros n s s' Hn Hk (Hle & Hs) Hcat.
  destruct (EliminatorMore.handleCat_effect _ _ _ _ Hcat)
    as (out & _ & _ & _ & [(Hr & Hnx)|(_ & ins & t & _ & Hr & Hnx & _)]).
  - split; [rewrite Hnx; exact Hle|]. rewrite Hr. exact Hs.
  - split; [rewrite Hnx; lia|]. intros k v Hin. rewrite Hr in Hin.
    apply EliminatorReplacements.map_set_in in Hin as [Hin|(-> & Hkey)];
      [now apply Hs|].
    split; [|split; [exact Hle | reflexivity]].
    destruct Hkey as [->|(_ & Hkin)]; [exact Hn|].
    apply in_map_iff in Hkin as ([k0 v0] & Hk0 & Hin0). simpl in Hk0.
    subst k0. apply (Hs k v0 Hin0).
Qed.

End EliminatorGone.

(** X9: [postprocess] destroys every node it has a substitution for.
    On a graph whose node identities are below its counter, no node
    named like a replaced concat is left in the result. *)
Theorem replaced_concats_are_destroyed
        (C : Collaborators) (gr gr' : Graph) (changed : bool)
        (st : Eliminator.State) :
  (forall n, In n (nodes_of_block (g_block gr)) -> n_id n < g_next gr) ->
  Eliminator.handleBlock C (g_block gr) (g_block gr)
    (Eliminator.mkState (g_next gr) [] []) = Some st ->
  EliminateConcatCommonInputs C gr = Some (gr', changed) ->
  forall k v, In (k, v) (Eliminator.concats_to_replace_ st) ->
              find_node (g_block gr') (n_id k) = None.
Proof.
  intros Hfresh Hb Hrun k v Hkv.
  unfold EliminateConcatCommonInputs, Eliminator.run in Hrun.
  rewrite Hb in Hrun. cbn [bind] in Hrun.
  destruct (Eliminator.postprocess (g_block gr) st) as [[b' ch]|] eqn:Hp;
    [|discriminate].
  injection Hrun as <- <-. cbn [g_block fst].
  apply ReuseFacts.find_node_none.
  unfold Eliminator.postprocess in Hp.
  pose proof (EliminatorGone.handleBlock_fresh _ _ _ Hb) as Hfr.
  refine (@EliminatorGone.postprocess_loop_gone
            (Eliminator.concats_to_replace_ st) (fun n => n) (g_block gr)
            false b' ch (n_id k) _ _ _ Hp).
  - intros [k' v'] Hp'. destruct (Hfr k' v' Hp') as (_ & Hge & Hbl).
    destruct (Hfr k v Hkv) as (Hk & _). specialize (Hfresh k Hk).
    simpl. split; [lia | exact Hbl].
  - intros n. split; reflexivity.
  - left. unfold keys. apply in_map_iff. exists (k, v). auto.
Qed.

Lemma replaced_concats_are_destroyed_witness :
  find_node (g_block Examples.chained_concats_once) 12 = None.
Proof.
  destruct (Eliminator.handleBlock (Examples.quiet (fun l => l))
              (g_block Examples.chained_concats)
              (g_block Examples.chained_concats)
              (Eliminator.mkState 20 [] [])) as [st|] eqn:Hb;
    [|vm_compute in Hb; discriminate].
  apply (@replaced_concats_are_destroyed (Examples.quiet (fun l => l))
           Examples.chained_concats Examples.chained_concats_once true st)
    with (k := Examples.concat 12 [0; 1; 2; 10])
         (v := replacement 20 [11; 2; 10] dynamic_tensor).
  - intros n Hn. simpl in Hn.
    repeat (destruct Hn as [<-|Hn]; [simpl; lia|]). destruct Hn.
  - exact Hb.
  - vm_compute. reflexivity.
  - vm_compute in Hb. injection Hb as <-. simpl. now left.
Defined.

Module LeafEdits.
Import RewriteFacts.

Section Leaf.
Variable f : Node -> list Node.
Variable r : list Value -> list Value.
Variable gone : Node -> Prop.
Hypothesis f_keeps : forall m,
    ~ gone m -> exists m', In m' (f m) /\ n_blocks m' = n_blocks m.
Hypothesis gone_shell : forall i k ins ins' outs a a' bs bs',
    gone (mkNode i k ins outs a bs) -> gone (mkNode i k ins' outs a' bs').

(** What [f] gives for a node without nested blocks is in the
    rewritten block, if the nodes that go have no nested blocks. *)
Lemma rw_leaf b :
  (forall m, In m (nodes_of_block b) -> gone m -> n_blocks m = []) ->
  forall x y, In x (nodes_of_block b) -> n_blocks x = [] -> In y (f x) ->
              In y (nodes_of_block (rw_block f r b)).
Proof.
  pattern b.
  apply Block_tree_ind with
    (P := fun n =>
            (forall m, In m (nodes_of_node n) -> gone m -> n_blocks m = []) ->
            forall x y, In x (nodes_of_node n) -> n_blocks x = [] ->
                        In y (f x) ->
                        In y (flat_map nodes_of_node (rw_node f r n)));
    clear b.
  - intros i k ins outs a bs IH Hleaf x y Hx Hxb Hy.
    rewrite rw_node_eq.
    cbn [n_id n_kind n_inputs n_outputs n_attr n_blocks].
    set (n := mkNode i k ins outs a bs) in *.
    apply nodes_of_node_inv in Hx as [->|(b & Hb & Hx)].
    + simpl in Hxb. subst bs. simpl map.
      apply in_flat_map. exists y. split; [exact Hy|].
      apply nodes_of_node_self.
    + assert (Hn : ~ gone n).
      { intros Hg. specialize (Hleaf n (nodes_of_node_self n) Hg).
        simpl in Hleaf. subst bs. destruct Hb. }
      assert (Hn1 : ~ gone (mkNode i k ins outs a (map (rw_block f r) bs))).
      { intros Hg. apply Hn. revert Hg. apply gone_shell. }
      destruct (f_keeps Hn1) as (m' & Hin & Hbl).
      rewrite Forall_forall in IH.
      assert (Hyb : In y (nodes_of_block (rw_block f r b))).
      { apply (IH b Hb) with x; auto. intros m Hm. apply Hleaf.
        apply nodes_of_node_nested with b; assumption. }
      apply in_flat_map. exists m'. split; [exact Hin|].
      apply nodes_of_node_nested with (rw_block f r b); [|exact Hyb].
      rewrite Hbl. simpl. apply in_map. exact Hb.
  - intros ps ns rs IH Hleaf x y Hx Hxb Hy.
    rewrite rw_block_eq. cbn [nodes_of_block b_nodes].
    apply nodes_of_block_inv in Hx as (n & Hn & Hx).
    rewrite Forall_forall in IH.
    assert (Hyn : In y (flat_map nodes_of_node (rw_node f r n))).
    { apply (IH n Hn) with x; auto. intros m Hm. apply Hleaf.
      apply nodes_of_block_in with n; assumption. }
    apply in_flat_map in Hyn as (z & Hz & Hyz).
    apply in_flat_map. exists z. split; [|exact Hyz].
    apply in_flat_map. eauto.
Qed.
End Leaf.

Lemma insertBefore_places new t b x :
  In x (nodes_of_block b) -> n_blocks x = [] -> n_id x = t ->
  In new (nodes_of_block (insertBefore new t b)).
Proof.
  intros Hx Hxb Hid. unfold insertBefore.
  apply (@rw_leaf _ _ (fun _ => False)) with x; auto.
  - intros m _. exists m. split; [|reflexivity].
    destruct (Nat.eqb (n_id m) t); simpl; auto.
  - intros m _ [].
  - rewrite Hid, Nat.eqb_refl. now left.
Qed.

Lemma replaceAllUsesWith_maps v w b x :
  In x (nodes_of_block b) -> n_blocks x = [] ->
  In (subst_node v w x) (nodes_of_block (replaceAllUsesWith v w b)).
Proof.
  intros Hx Hxb. unfold replaceAllUsesWith.
  apply (@rw_leaf _ _ (fun _ => False)) with x; auto.
  - intros m _. exists (subst_node v w m). split; [now left | reflexivity].
  - intros m _ [].
  - now left.
Qed.

Lemma destroy_leaves_leaf t b x :
  (forall m, In m (nodes_of_block b) -> n_id m = t -> n_blocks m = []) ->
  In x (nodes_of_block b) -> n_blocks x = [] -> n_id x <> t ->
  In x (nodes_of_block (destroy t b)).
Proof.
  intros Hleaf Hx Hxb Hid. unfold destroy.
  apply (@rw_leaf _ _ (fun m => n_id m = t)) with x; auto.
  - intros m Hm. exists m. split; [|reflexivity].
    destruct (Nat.eqb (n_id m) t) eqn:E; [|now left].
    apply Nat.eqb_eq in E. contradiction.
  - apply Nat.eqb_neq in Hid. rewrite Hid. now left.
Qed.

(** *** Uses *)

Lemma unused_no_uses v b : unused v b -> num_uses b v = 0.
Proof.
  intros (Hin & Hret). unfold num_uses.
  rewrite (UseFacts.count_value_absent v (returns_of_block b) Hret).
  rewrite UseFacts.count_value_absent; [reflexivity|].
  intros H. apply in_flat_map in H as (x & Hx & H). exact (Hin x Hx H).
Qed.

Lemma replaceAllUsesWith_unused v w b :
  v <> w -> unused v (replaceAllUsesWith v w b).
Proof.
  intros Hvw. split.
  - intros x. now apply UseFacts.replaceAllUsesWith_inputs.
  - now apply UseFacts.replaceAllUsesWith_returns.
Qed.

Lemma destroy_returns t b v :
  In v (returns_of_block (destroy t b)) -> In v (returns_of_block b).
Proof.
  unfold destroy.
  set (f := fun n : Node => if Nat.eqb (n_id n) t then [] else [n]).
  set (r := fun rs : list Value => rs).
  pattern b.
  apply Block_tree_ind with
    (P := fun n => In v (flat_map returns_of_node (rw_node f r n)) ->
                   In v (returns_of_node n)); clear b.
  - intros i k ins outs a bs IH. rewrite rw_node_eq. unfold f at 1.
    cbn [n_id n_kind n_inputs n_outputs n_attr n_blocks].
    destruct (Nat.eqb i t); [intros []|].
    cbn [flat_map returns_of_node n_blocks]. rewrite app_nil_r.
    intros Hin. apply in_flat_map in Hin as (b' & Hb' & Hin).
    apply in_map_iff in Hb' as (b0 & <- & Hb0).
    rewrite Forall_forall in IH. apply in_flat_map. exists b0.
    split; [exact Hb0|]. now apply (IH b0 Hb0).
  - intros ps ns rs IH. rewrite rw_block_eq.
    cbn [returns_of_block b_returns b_nodes]. intros Hin.
    apply in_or_app. apply in_app_or in Hin as [Hin|Hin]; [now left|right].
    apply in_flat_map in Hin as (y & Hy & Hin).
    apply in_flat_map in Hy as (n & Hn & Hy).
    rewrite Forall_forall in IH. apply in_flat_map. exists n.
    split; [exact Hn|]. apply (IH n Hn). apply in_flat_map. eauto.
Qed.

Lemma destroy_unused t b v : unused v b -> unused v (destroy t b).
Proof.
  intros (Hin & Hret). split.
  - unfold destroy.
    apply (@rw_forall _ _ (fun x => ~ In v (n_inputs x))); [auto| |exact Hin].
    intros m Hm m' Hm'. destruct (Nat.eqb (n_id m) t); [destruct Hm'|].
    destruct Hm' as [<-|[]]. split; [exact Hm|].
    intros y Hy. now apply nodes_of_node_inv.
  - intros H. apply Hret. now apply destroy_returns with t.
Qed.

End LeafEdits.

Module VariadicMore.
Import Variadic.

Lemma getOrCreateAliasDb_graph st :
  graph_ (snd (getOrCreateAliasDb st)) = graph_ st /\
  aliasDb_ (snd (getOrCreateAliasDb st)) = Some (fst (getOrCreateAliasDb st)).
Proof. unfold getOrCreateAliasDb. destruct (aliasDb_ st) eqn:E; auto. Qed.

Lemma producer_kind_some b v n :
  producer b v = Some n -> producer_kind b v = n_kind n.
Proof. unfold producer_kind. now intros ->. Qed.

Lemma producer_kind_list b v :
  producer_kind b v = prim_ListConstruct ->
  exists n, producer b v = Some n /\ n_kind n = prim_ListConstruct.
Proof.
  unfold producer_kind. destruct (producer b v); [eauto | discriminate].
Qed.

Lemma find_node_unique b c :
  NoDup (map n_id (nodes_of_block b)) -> In c (nodes_of_block b) ->
  find_node b (n_id c) = Some c.
Proof.
  unfold find_node. generalize (nodes_of_block b). intros l.
  induction l as [|m l IH]; simpl; [intros _ []|].
  intros Hnd Hin. inversion Hnd as [|? ? Hnotin Hnd']; subst.
  destruct Hin as [->|Hin]; [now rewrite Nat.eqb_refl|].
  destruct (Nat.eqb (n_id m) (n_id c)) eqn:E; [|now apply IH].
  apply Nat.eqb_eq in E. exfalso. apply Hnotin. rewrite E. now apply in_map.
Qed.

End VariadicMore.

(** X10: a list-form concat is left alone when its list is not produced
    by a [prim::ListConstruct], or when the list construction cannot be
    moved to the position before it: [replaceWithVariadicCat] returns
    [false] and the graph is what it was. *)
Theorem replaceWithVariadicCat_skips
        (C : Collaborators) (st : Variadic.State) (c cat : Node)
        (l a : Value) :
  let b := g_block (Variadic.graph_ st) in
  find_node b (n_id c) = Some cat ->
  n_inputs cat = [l; a] ->
  (producer_kind b l <> prim_ListConstruct \/
   exists lst, producer b l = Some lst /\
               couldMoveBeforeTopologically C
                 (fst (Variadic.getOrCreateAliasDb st)) lst cat = false) ->
  exists st',
    Variadic.replaceWithVariadicCat C st c = Some (st', false) /\
    Variadic.graph_ st' = Variadic.graph_ st.
Proof.
  intros b Hfind Hins Hskip.
  unfold Variadic.replaceWithVariadicCat. fold b. rewrite Hfind.
  cbn [bind]. unfold input. rewrite Hins. cbn [nth_error bind].
  destruct (Symbol_eqb (producer_kind b l) prim_ListConstruct) eqn:Ek;
    cbn [negb]; [|eauto].
  apply Symbol_eqb_eq in Ek.
  destruct Hskip as [Hk|(lst & Hp & Hmove)]; [contradiction|].
  rewrite Hp. cbn [bind].
  destruct (VariadicMore.getOrCreateAliasDb_graph st) as (Hg & _).
  destruct (Variadic.getOrCreateAliasDb st) as [db st1].
  cbn [fst snd] in *. rewrite Hmove. cbn [negb]. eauto.
Qed.

Lemma replaceWithVariadicCat_skips_witness :
  (exists st',
      Variadic.replaceWithVariadicCat (Examples.quiet (fun l => l))
        (Variadic.mkState Examples.cat_of_list_input None)
        (Examples.cat 12 [0; 10] dynamic_tensor) = Some (st', false) /\
      Variadic.graph_ st' = Examples.cat_of_list_input) /\
  (exists st',
      Variadic.replaceWithVariadicCat Examples.mutated
        (Variadic.mkState Examples.two_cats None)
        (Examples.cat 12 [11; 10] (Examples.shape [2; 7]%Z))
      = Some (st', false) /\
      Variadic.graph_ st' = Examples.two_cats).
Proof.
  split.
  - apply (@replaceWithVariadicCat_skips (Examples.quiet (fun l => l))
             (Variadic.mkState Examples.cat_of_list_input None)
             (Examples.cat 12 [0; 10] dynamic_tensor)
             (Examples.cat 12 [0; 10] dynamic_tensor) 0 10).
    + reflexivity.
    + reflexivity.
    + left. vm_compute. discriminate.
  - apply (@replaceWithVariadicCat_skips Examples.mutated
             (Variadic.mkState Examples.two_cats None)
             (Examples.cat 12 [11; 10] (Examples.shape [2; 7]%Z))
             (Examples.cat 12 [11; 10] (Examples.shape [2; 7]%Z)) 11 10).
    + reflexivity.
    + reflexivity.
    + right. exists (Examples.list_construct 11 [0; 1]).
      split; reflexivity.
Defined.

Module VariadicPromote.

Lemma subst_node_id v w n :
  ~ In v (n_inputs n) -> subst_node v w n = n.
Proof.
  intros Hin. destruct n as [i k ins outs a bs]. unfold subst_node.
  cbn [n_id n_kind n_inputs n_outputs n_attr n_blocks] in *. f_equal.
  induction ins as [|x ins IH]; [reflexivity|].
  simpl. unfold replace_value at 1.
  destruct (Nat.eqb x v) eqn:E.
  - apply Nat.eqb_eq in E. exfalso. apply Hin. now left.
  - f_equal. apply IH. intros H. apply Hin. now right.
Qed.

End VariadicPromote.

(** X11: what a promotion does.  For a list-form concat whose list is
    produced by a [prim::ListConstruct] that can be moved before it,
    [replaceWithVariadicCat] returns [true]; a variadic concat reading
    the elements of the list and then the axis is in the graph, no node
    named like the concat is left, nothing uses the output of the
    concat any more, and the list construction is destroyed exactly
    when nothing uses it after that.  The identities of the graph are
    taken below its counter, and the concat and the list construction
    without nested blocks. *)
Theorem replaceWithVariadicCat_promotes
        (C : Collaborators) (st : Variadic.State) (c cat lst : Node)
        (l a out : Value) (t : Type_) :
  let b := g_block (Variadic.graph_ st) in
  let next := g_next (Variadic.graph_ st) in
  find_node b (n_id c) = Some cat ->
  n_inputs cat = [l; a] ->
  n_outputs cat = [(out, t)] ->
  producer b l = Some lst ->
  n_kind lst = prim_ListConstruct ->
  couldMoveBeforeTopologically C (fst (Variadic.getOrCreateAliasDb st))
                               lst cat = true ->
  out < next -> n_id cat < next -> n_id lst < next ->
  (forall m, In m (nodes_of_block b) -> leaves [n_id cat; n_id lst] m) ->
  let var_cat := mkNode next prim_Concat (n_inputs lst ++ [a])
                        [(next, dynamic_tensor)] None [] in
  let b3 := destroy (n_id cat)
              (replaceAllUsesWith out next
                 (insertBefore var_cat (n_id cat) b)) in
  exists st',
    Variadic.replaceWithVariadicCat C st c = Some (st', true) /\
    g_next (Variadic.graph_ st') = S next /\
    g_block (Variadic.graph_ st') =
      (if negb (Variadic.node_hasUses b3 lst)
       then destroy (n_id lst) b3 else b3) /\
    In (subst_node out next var_cat)
       (nodes_of_block (g_block (Variadic.graph_ st'))) /\
    (~ In out (n_inputs lst) -> a <> out ->
     In var_cat (nodes_of_block (g_block (Variadic.graph_ st')))) /\
    find_node (g_block (Variadic.graph_ st')) (n_id cat) = None /\
    num_uses (g_block (Variadic.graph_ st')) out = 0.
Proof.
  intros b next Hfind Hins Houts Hp Hk Hmove Hout Hcat Hlst Hleaf var_cat b3.
  destruct (VariadicFacts.find_node_some _ _ Hfind) as (Hid & Hcin).
  assert (Hrun : Variadic.replaceWithVariadicCat C st c =
                 Some (Variadic.mkState
                         (mkGraph (if negb (Variadic.node_hasUses b3 lst)
                                   then destroy (n_id lst) b3 else b3)
                                  (S next))
                         (Variadic.aliasDb_
                            (snd (Variadic.getOrCreateAliasDb st))),
                       true)).
  { unfold Variadic.replaceWithVariadicCat. fold b. rewrite Hfind.
    cbn [bind]. unfold input. rewrite Hins. cbn [nth_error bind].
    rewrite (VariadicMore.producer_kind_some _ _ Hp), Hk.
    cbn [Symbol_eqb negb]. rewrite Hp. cbn [bind].
    destruct (VariadicMore.getOrCreateAliasDb_graph st) as (Hg & _).
    destruct (Variadic.getOrCreateAliasDb st) as [db st1].
    cbn [fst snd] in *. rewrite Hmove. cbn [negb]. rewrite Hg.
    unfold create, output. rewrite Houts. cbn [n_outputs fst bind].
    reflexivity. }
  eexists. split; [exact Hrun|].
  cbn [Variadic.graph_ g_block g_next].
  split; [reflexivity|]. split; [reflexivity|].
  set (b1 := insertBefore var_cat (n_id cat) b) in *.
  set (b2 := replaceAllUsesWith out next b1) in *.
  assert (Hcleaf : n_blocks cat = []).
  { apply (Hleaf cat Hcin). now left. }
  assert (Hl2 : forall m, In m (nodes_of_block b2) ->
                          leaves [n_id cat; n_id lst] m).
  { apply GraphEdits.replaceAllUsesWith_leaves.
    apply GraphEdits.insertBefore_leaves; [reflexivity | exact Hleaf]. }
  assert (Hl3 : forall m, In m (nodes_of_block b3) ->
                          leaves [n_id cat; n_id lst] m).
  { now apply GraphEdits.destroy_leaves. }
  assert (Hv3 : In (subst_node out next var_cat) (nodes_of_block b3)).
  { apply LeafEdits.destroy_leaves_leaf.
    - intros m Hm Hmid. apply (Hl2 m Hm). left. now rewrite Hmid.
    - apply LeafEdits.replaceAllUsesWith_maps; [|reflexivity].
      apply LeafEdits.insertBefore_places with cat; auto.
    - reflexivity.
    - simpl. lia. }
  assert (Hg3 : forall x, In x (nodes_of_block b3) -> n_id x <> n_id cat).
  { intros x. apply UseFacts.destroy_gone. }
  assert (Hu3 : unused out b3).
  { apply LeafEdits.destroy_unused.
    apply LeafEdits.replaceAllUsesWith_unused. lia. }
  assert (Hplaced : In (subst_node out next var_cat)
                       (nodes_of_block
                          (if negb (Variadic.node_hasUses b3 lst)
                           then destroy (n_id lst) b3 else b3))).
  { destruct (negb (Variadic.node_hasUses b3 lst)); [|exact Hv3].
    apply LeafEdits.destroy_leaves_leaf; auto.
    - intros m Hm Hmid. apply (Hl3 m Hm). right. left. now rewrite Hmid.
    - simpl. lia. }
  split; [exact Hplaced|]. split; [|split].
  - intros Hnl Ha. rewrite VariadicPromote.subst_node_id in Hplaced;
      [exact Hplaced|].
    simpl. intros Hin. apply in_app_or in Hin as [Hin|[Hin|[]]];
      [contradiction | contradiction].
  - apply ReuseFacts.find_node_none.
    destruct (negb (Variadic.node_hasUses b3 lst)); [|exact Hg3].
    now apply ReuseFacts.destroy_absent.
  - apply LeafEdits.unused_no_uses.
    destruct (negb (Variadic.node_hasUses b3 lst)); [|exact Hu3].
    now apply LeafEdits.destroy_unused.
Qed.

Lemma replaceWithVariadicCat_promotes_witness :
  let st := Variadic.mkState Examples.two_cats None in
  exists st',
    Variadic.replaceWithVariadicCat (Examples.quiet (fun l => l)) st
      (Examples.cat 12 [11; 10] (Examples.shape [2; 7]%Z))
    = Some (st', true) /\
    In (Examples.concat 20 [0; 1; 10])
       (nodes_of_block (g_block (Variadic.graph_ st'))) /\
    find_node (g_block (Variadic.graph_ st')) 12 = None /\
    num_uses (g_block (Variadic.graph_ st')) 12 = 0.
Proof.
  intros st.
  destruct (@replaceWithVariadicCat_promotes (Examples.quiet (fun l => l)) st
              (Examples.cat 12 [11; 10] (Examples.shape [2; 7]%Z))
              (Examples.cat 12 [11; 10] (Examples.shape [2; 7]%Z))
              (Examples.list_construct 11 [0; 1]) 11 10 12
              (Examples.shape [2; 7]%Z))
    as (st' & Hrun & _ & _ & _ & Hin & Hgone & Huses);
    try reflexivity; try (simpl; lia).
  - intros m Hm _. simpl in Hm.
    repeat (destruct Hm as [<-|Hm]; [reflexivity|]). destruct Hm.
  - exists st'. split; [exact Hrun|]. split; [|split; assumption].
    apply Hin; simpl; [intuition discriminate | discriminate].
Defined.

(** X12: [UseVariadicCat] returns [true] only when it has removed a
    list-form concat: the graph it returns has strictly fewer
    [aten::cat] nodes than the graph it was given. *)
Theorem UseVariadicCat_true_removes_a_cat
        (C : Collaborators) (gr gr' : Graph) :
  UseVariadicCat C gr = Some (gr', true) ->
  num_cat gr' < num_cat gr.
Proof.
  intros Hrun.
  destruct (VariadicFacts.run_cases _ _ Hrun) as [(Hf & _)|(_ & Hlt)];
    [discriminate | exact Hlt].
Qed.

Lemma UseVariadicCat_true_removes_a_cat_witness :
  num_cat Examples.two_cats_once < num_cat Examples.two_cats.
Proof.
  apply (@UseVariadicCat_true_removes_a_cat (Examples.quiet (fun l => l))).
  vm_compute. reflexivity.
Defined.

Module VariadicDecides.
Import Variadic VariadicMore.

Lemma untouched_db gr st :
  untouched gr st ->
  fst (getOrCreateAliasDb st) = g_block gr /\
  untouched gr (snd (getOrCreateAliasDb st)).
Proof.
  intros (Hg & Hdb). unfold getOrCreateAliasDb, untouched.
  destruct Hdb as [E | E]; rewrite E; cbv zeta;
    cbn [fst snd graph_ aliasDb_]; rewrite ?Hg, ?E; auto.
Qed.

Lemma run_loop_after_change C cats st :
  run_loop C cats st true = Some (st, true).
Proof. induction cats; simpl; auto. Qed.

Section Decides.
Variable C : Collaborators.
Variable gr : Graph.
Hypothesis Hnd : NoDup (map n_id (nodes_of_block (g_block gr))).

Lemma replaceWithVariadicCat_decides st c :
  In c (nodes_of_block (g_block gr)) -> cat_wf c -> untouched gr st ->
  (promotable C (g_block gr) c /\
   exists st', replaceWithVariadicCat C st c = Some (st', true)) \/
  (~ promotable C (g_block gr) c /\
   exists st', replaceWithVariadicCat C st c = Some (st', false) /\
               untouched gr st').
Proof.
  intros Hin ((l & a & Hins) & (o & Houts)) Hst.
  pose proof Hst as (Hg & _).
  unfold replaceWithVariadicCat. rewrite Hg.
  rewrite (find_node_unique _ _ Hnd Hin). cbn [bind].
  unfold input. rewrite Hins. cbn [nth_error bind].
  destruct (Symbol_eqb (producer_kind (g_block gr) l) prim_ListConstruct)
    eqn:Ek; cbn [negb].
  - apply Symbol_eqb_eq in Ek.
    destruct (producer_kind_list _ _ Ek) as (lst & Hp & Hk).
    rewrite Hp. cbn [bind].
    destruct (untouched_db Hst) as (Hdb & Hst1).
    destruct (getOrCreateAliasDb st) as [db st1]. cbn [fst snd] in *.
    subst db.
    destruct (couldMoveBeforeTopologically C (g_block gr) lst c) eqn:Em;
      cbn [negb].
    + left. split; [exists l, a, lst; auto|].
      unfold create, output. rewrite Houts. cbn [bind n_outputs]. eauto.
    + right. split; [|eauto].
      intros (l' & a' & lst' & Hins' & Hp' & _ & Hm').
      rewrite Hins in Hins'. injection Hins' as <- <-.
      rewrite Hp in Hp'. injection Hp' as <-. congruence.
  - right. split; [|eauto].
    intros (l' & a' & lst' & Hins' & Hp' & Hk' & _).
    rewrite Hins in Hins'. injection Hins' as <- <-.
    rewrite (producer_kind_some _ _ Hp'), Hk' in Ek. discriminate.
Qed.

Lemma run_loop_decides cats :
  (forall c, In c cats -> In c (nodes_of_block (g_block gr)) /\ cat_wf c) ->
  forall st, untouched gr st ->
  exists st' ch,
    run_loop C cats st false = Some (st', ch) /\
    (ch = true <-> exists c, In c cats /\ promotable C (g_block gr) c).
Proof.
  induction cats as [|c rest IH]; intros Hcats st Hst; simpl.
  - exists st, false. split; [reflexivity|].
    split; [discriminate | intros (c & [] & _)].
  - destruct (Hcats c (or_introl eq_refl)) as (Hin & Hwf).
    destruct (replaceWithVariadicCat_decides Hin Hwf Hst)
      as [(Hp & st' & ->)|(Hnp & st' & -> & Hst')]; cbn [bind fst snd].
    + exists st', true. split; [apply run_loop_after_change|].
      split; [|reflexivity]. intros _. exists c. split; [now left|exact Hp].
    + destruct (IH (fun c' Hc' => Hcats c' (or_intror Hc')) st' Hst')
        as (st'' & ch & Hloop & Hiff).
      exists st'', ch. split; [exact Hloop|].
      rewrite Hiff. split.
      * intros (c' & Hc' & Hp'). exists c'. split; [now right|exact Hp'].
      * intros (c' & [<-|Hc'] & Hp'); [contradiction|eauto].
Qed.
End Decides.

End VariadicDecides.

(** X13: [UseVariadicCat] returns [true] exactly when the graph holds a
    list-form concat whose list is produced by a
    [prim::ListConstruct] that can be moved before it.  The graph is
    taken with distinct node identities and list-form concats with two
    inputs and one output; the pass then returns normally. *)
Theorem UseVariadicCat_true_iff_promotable
        (C : Collaborators) (gr : Graph) :
  NoDup (map n_id (nodes_of_block (g_block gr))) ->
  (forall c, In c (nodes_of_block (g_block gr)) -> n_kind c = aten_cat ->
             cat_wf c) ->
  exists gr' changed,
    UseVariadicCat C gr = Some (gr', changed) /\
    (changed = true <->
     exists c, In c (nodes_of_block (g_block gr)) /\ n_kind c = aten_cat /\
               promotable C (g_block gr) c).
Proof.
  intros Hnd Hwf. unfold UseVariadicCat, Variadic.run.
  rewrite VariadicFacts.collectCatNodes_spec. cbn [app].
  destruct (@VariadicDecides.run_loop_decides C gr Hnd
              (filter (fun n => Symbol_eqb (n_kind n) aten_cat)
                      (nodes_of_block (g_block gr))))
    with (st := Variadic.mkState gr None) as (st' & ch & -> & Hiff).
  - intros c Hc. apply filter_In in Hc as (Hin & Hk).
    apply Symbol_eqb_eq in Hk. auto.
  - split; [reflexivity | now left].
  - cbn [bind fst snd]. exists (Variadic.graph_ st'), ch.
    split; [reflexivity|]. rewrite Hiff. split.
    + intros (c & Hc & Hp). apply filter_In in Hc as (Hin & Hk).
      apply Symbol_eqb_eq in Hk. eauto.
    + intros (c & Hin & Hk & Hp). exists c. split; [|exact Hp].
      apply filter_In. split; [exact Hin|]. now apply Symbol_eqb_eq.
Qed.

Lemma UseVariadicCat_true_iff_promotable_witness :
  exists gr' changed,
    UseVariadicCat Examples.mutated Examples.two_cats = Some (gr', changed) /\
    (changed = true <->
     exists c, In c (nodes_of_block (g_block Examples.two_cats)) /\
               n_kind c = aten_cat /\
               promotable Examples.mutated (g_block Examples.two_cats) c).
Proof.
  apply UseVariadicCat_true_iff_promotable.
  - simpl. repeat constructor; simpl; intuition discriminate.
  - intros c Hc Hk. simpl in Hc.
    repeat (destruct Hc as [<-|Hc];
            [first [ discriminate Hk
                   | split; [do 2 eexists; reflexivity
                            | eexists; reflexivity] ]|]).
    destruct Hc.
Defined.

Module DriverFlag.

(** Once [changed] is set the driver never resets it. *)
Lemma driver_loop_keeps_changed C fuel :
  forall gr changed_in_last_iter gr' changed,
    driver_loop C fuel gr changed_in_last_iter true = Done (gr', changed) ->
    changed = true.
Proof.
  induction fuel as [|fuel IH]; intros gr cl gr' ch; simpl.
  - destruct cl; [discriminate | now intros [= _ <-]].
  - destruct cl; [|now intros [= _ <-]].
    destruct (round C gr) as [[g1 cl1]|]; [|discriminate].
    cbn [orb]. apply IH.
Qed.

Lemma round_false C gr gr' :
  round C gr = Some (gr', false) <->
  exists g1, RemoveListMutation C gr = (false, g1) /\
             UseVariadicCat C g1 = Some (gr', false).
Proof.
  unfold round. destruct (RemoveListMutation C gr) as [[|] g1]; split.
  - discriminate.
  - intros (g & [=] & _).
  - eauto.
  - now intros (g & [= <-] & H).
Qed.

End DriverFlag.

(** X14: [RemoveListMutationAndUseVariadicCat] returns [false] exactly
    when its first round changes nothing: the list-mutation removal
    reports no change and leaves a graph on which the promotion of
    list-form concats reports no change either; the loop then stops
    after that one round and the graph returned is the one the
    list-mutation removal left. *)
Theorem driver_false_iff_first_round_idle
        (C : Collaborators) (fuel : nat) (gr gr' : Graph) :
  RemoveListMutationAndUseVariadicCat C (S fuel) gr = Done (gr', false) <->
  RemoveListMutation C gr = (false, gr') /\
  UseVariadicCat C gr' = Some (gr', false).
Proof.
  unfold RemoveListMutationAndUseVariadicCat. cbn [driver_loop]. split.
  - destruct (round C gr) as [[g1 [|]]|] eqn:Er; [| |discriminate].
    + cbn [orb]. intros H.
      apply DriverFlag.driver_loop_keeps_changed in H. discriminate.
    + destruct fuel; cbn [driver_loop orb]; intros [= <-];
        apply DriverFlag.round_false in Er as (g & Hrlm & Huvc);
        destruct (VariadicFacts.run_cases _ _ Huvc) as [(_ & ->)|([=] & _)];
        auto.
  - intros (Hrlm & Huvc).
    assert (Er : round C gr = Some (gr', false))
      by (apply DriverFlag.round_false; eauto).
    rewrite Er. destruct fuel; reflexivity.
Qed.

Module ExpanderSkip.
Import Expander.

Lemma idle_db gr st :
  idle gr st ->
  fst (getOrCreateAliasDb st) = g_block gr /\
  idle gr (snd (getOrCreateAliasDb st)).
Proof.
  intros (Hg & Hdb & Hr & Hu & Hc & Hs). unfold getOrCreateAliasDb, idle.
  destruct Hdb as [E | E]; rewrite E; cbv zeta;
    cbn [fst snd graph_ aliasDb_ nodes_to_remove_ replace_uses_with_
         copies_added_ slices_added_];
    rewrite ?Hg, ?E; auto 10.
Qed.

(** A concat that fails a check leaves an idle expander idle. *)
Lemma expandCat_idle C gr st node :
  idle gr st -> ineligible C (g_block gr) node ->
  exists st', expandCat C st node = Some st' /\ idle gr st'.
Proof.
  intros Hidle (l & a & Hins & Hfail).
  destruct (idle_db Hidle) as (Hdb & Hst1).
  exists (snd (getOrCreateAliasDb st)). split; [|exact Hst1].
  unfold expandCat, input. rewrite Hins. cbn [nth_error bind].
  destruct (getOrCreateAliasDb st) as [db st1]. cbn [fst snd] in *.
  subst db. destruct Hst1 as (Hg1 & _). rewrite Hg1.
  set (b := g_block gr) in *.
  destruct (hasWriters C b l) eqn:Ew; [reflexivity|].
  destruct (Symbol_eqb (producer_kind b l) prim_ListConstruct) eqn:Ek;
    [|reflexivity]. cbn [negb].
  apply Symbol_eqb_eq in Ek.
  destruct (allShapesAreKnown b node) eqn:Ea; [|reflexivity].
  cbn [negb].
  destruct (producer b l) as [lc|] eqn:Ep.
  2:{ unfold producer_kind in Ek. rewrite Ep in Ek. discriminate. }
  cbn [bind].
  destruct (forallb (shapeIsKnown b) (n_inputs lc)) eqn:Eo;
    [|reflexivity]. cbn [negb bind].
  destruct (constant_as b a) eqn:Ec; [|reflexivity].
  exfalso.
  destruct Hfail as [H|[H|[(o & Ho & Hu)|[(l' & x & Hl & Hx & Hu)|H]]]];
    try congruence.
  - unfold allShapesAreKnown in Ea.
    apply andb_prop in Ea as (_ & Ea).
    rewrite forallb_forall in Ea. specialize (Ea o Ho).
    rewrite (ExpanderFacts.unknown_shape Hu) in Ea. discriminate.
  - injection Hl as <-. rewrite forallb_forall in Eo.
    specialize (Eo x Hx).
    rewrite (ExpanderFacts.unknown_shape Hu) in Eo. discriminate.
Qed.

Lemma fold_idle C gr cats :
  (forall c, In c cats -> ineligible C (g_block gr) c) ->
  forall st, idle gr st ->
  exists st',
    fold_left (fun acc n => s <- acc ;; expandCat C s n) cats (Some st)
      = Some st' /\ idle gr st'.
Proof.
  induction cats as [|c rest IH]; intros Hall st Hst; simpl.
  - eauto.
  - destruct (@expandCat_idle C gr st c Hst (Hall c (or_introl eq_refl)))
      as (st1 & -> & Hst1).
    apply IH; [|exact Hst1]. intros c' Hc'. apply Hall. now right.
Qed.

End ExpanderSkip.

(** X15: when every list-form concat of the graph fails one of the
    checks of [expandCat] (the list has writers, or is not produced by
    a [prim::ListConstruct], or an output or operand has an unknown
    shape or rank 0, or the axis is not a constant), in particular when
    the graph has no list-form concat,
    [ExpandConcatAndEliminateRedundancy] returns normally and leaves the
    graph exactly as it was. *)
Theorem expander_keeps_graph_without_eligible_cat
        (C : Collaborators) (fuel : nat) (gr : Graph) :
  (forall c, In c (nodes_of_block (g_block gr)) -> n_kind c = aten_cat ->
             ineligible C (g_block gr) c) ->
  ExpandConcatAndEliminateRedundancy C fuel gr = Some gr.
Proof.
  intros Hall. unfold ExpandConcatAndEliminateRedundancy, Expander.run.
  rewrite ExpanderTraversal.handleBlock_fold.
  destruct (@ExpanderSkip.fold_idle C gr
              (filter (is_kind aten_cat) (nodes_of_block (g_block gr))))
    with (st := Expander.mkState gr None [] [] [] [])
    as (st' & -> & Hg & _ & Hr & Hu & Hc & _).
  - intros c Hc. apply filter_In in Hc as (Hin & Hk).
    apply Symbol_eqb_eq in Hk. auto.
  - repeat split; auto.
  - cbn [bind]. unfold Expander.cleanupExpandedCatOps.
    rewrite Hr, Hu, Hc, Hg. cbn [fold_left bind].
    unfold Expander.reuseBuffersInCopies. cbn [fold_left bind].
    now destruct gr.
Qed.

Lemma expander_keeps_graph_without_eligible_cat_witness :
  ExpandConcatAndEliminateRedundancy (Examples.quiet (fun l => l)) 5
    Examples.cat_with_dynamic_axis = Some Examples.cat_with_dynamic_axis.
Proof.
  apply expander_keeps_graph_without_eligible_cat.
  intros c Hc Hk. simpl in Hc.
  destruct Hc as [<-|[<-|[]]]; [discriminate Hk|].
  exists 11, 4. split; [reflexivity|].
  right. right. right. right. reflexivity.
Defined.

Module ExpanderAbort.
Import Expander.

(** The loop over the operands stops with an error at an operand that
    is not a tensor, if not before. *)
Lemma expand_inputs_not_tensor b out dim_v one d operands x :
  In x operands -> (forall t, type_of b x <> Tensor t) ->
  forall start_idx start em,
    expand_inputs b out dim_v one d operands start_idx start em = None.
Proof.
  intros Hin Hx. induction operands as [|y rest IH]; [destruct Hin|].
  intros start_idx start em. simpl.
  destruct (type_of b y) as [t| | | | ] eqn:Ety; try reflexivity.
  destruct (tt_sizes t) as [sizes|]; [|reflexivity]. cbn [bind].
  destruct (size_at sizes d) as [sz|]; [|reflexivity]. cbn [bind].
  destruct Hin as [->|Hin]; [now apply Hx in Ety|].
  apply IH, Hin.
Qed.

End ExpanderAbort.

(** X16: [shapeIsKnown] accepts every value that is not a tensor, so a
    list-form concat can pass all the checks of [expandCat] although an
    element of its list is not a tensor; the assertion on the tensor
    type of the operand then fails and [expandCat] raises instead of
    returning. *)
Theorem expandCat_raises_on_non_tensor_operand
        (C : Collaborators) (st : Expander.State) (node lst : Node)
        (l axis x : Value) (d : Z) :
  let b := g_block (Expander.graph_ st) in
  n_inputs node = [l; axis] ->
  hasWriters C (fst (Expander.getOrCreateAliasDb st)) l = false ->
  producer b l = Some lst ->
  n_kind lst = prim_ListConstruct ->
  Expander.allShapesAreKnown b node = true ->
  Expander.constant_as b axis = Some d ->
  In x (n_inputs lst) ->
  (forall t, type_of b x <> Tensor t) ->
  (forall y, In y (n_inputs lst) -> y <> x ->
             Expander.shapeIsKnown b y = true) ->
  Expander.shapeIsKnown b x = true /\
  Expander.expandCat C st node = None.
Proof.
  intros b Hins Hw Hp Hk Ha Hd Hx Hnt Hrest.
  assert (Hkx : Expander.shapeIsKnown b x = true).
  { unfold Expander.shapeIsKnown.
    destruct (type_of b x) as [t| | | | ] eqn:E; try reflexivity.
    now elim (Hnt t). }
  split; [exact Hkx|].
  pose proof (ExpanderFacts.getOrCreateAliasDb_same st) as (Hg & _).
  unfold Expander.expandCat, input. rewrite Hins. cbn [nth_error bind].
  destruct (Expander.getOrCreateAliasDb st) as [db st1].
  cbn [fst snd] in *. rewrite Hg. fold b. rewrite Hw.
  rewrite (VariadicMore.producer_kind_some _ _ Hp), Hk.
  cbn [Symbol_eqb negb]. rewrite Ha. cbn [negb]. rewrite Hp. cbn [bind].
  assert (Hall : forallb (Expander.shapeIsKnown b) (n_inputs lst) = true).
  { apply forallb_forall. intros y Hy.
    destruct (Nat.eq_dec y x) as [->|Hne]; auto. }
  rewrite Hall. cbn [negb]. rewrite Hd.
  destruct (Expander.insertConstant IV_None _) as [none bl0].
  destruct (Expander.insertConstant (IV_Int 1) bl0) as [one bl1].
  destruct (output node) as [out|]; [|reflexivity]. cbn [bind].
  destruct (type_of b out) as [t| | | | ]; try reflexivity.
  destruct (tt_sizes t) as [sizes|]; [|reflexivity]. cbn [bind].
  destruct (Expander.insert_size_constants sizes bl1) as [cs bl2].
  destruct (Expander.emit prim_ListConstruct cs _ None bl2) as [sl bl3].
  destruct (Expander.emit aten_empty _ _ None bl3) as [em bl4].
  destruct (Expander.insertConstant (IV_Int 0) bl4) as [start bl5].
  now rewrite (@ExpanderAbort.expand_inputs_not_tensor b _ _ _ _ _ x Hx Hnt).
Qed.

Lemma expandCat_raises_on_non_tensor_operand_witness :
  Expander.shapeIsKnown (g_block Examples.cat_of_mixed_list) 4 = true /\
  Expander.expandCat (Examples.quiet (fun l => l))
    (Expander.mkState Examples.cat_of_mixed_list None [] [] [] [])
    (Examples.cat 12 [11; 10] (Examples.shape [2; 7]%Z)) = None.
Proof.
  apply (@expandCat_raises_on_non_tensor_operand
           (Examples.quiet (fun l => l))
           (Expander.mkState Examples.cat_of_mixed_list None [] [] [] [])
           (Examples.cat 12 [11; 10] (Examples.shape [2; 7]%Z))
           (Examples.list_construct 11 [0; 4]) 11 10 4 1%Z).
  - reflexivity.
  - reflexivity.
  - reflexivity.
  - reflexivity.
  - reflexivity.
  - reflexivity.
  - simpl. auto.
  - intros t. simpl. discriminate.
  - intros y Hy Hne. simpl in Hy. destruct Hy as [<-|[<-|[]]].
    + reflexivity.
    + now elim Hne.
Defined.

Module DestroyFacts.

Lemma Node_destroy_cases t b b' :
  Node_destroy t b = Some b' ->
  b' = destroy t b /\
  exists node, find_node b t = Some node /\
               forall o, In o (n_outputs node) -> num_uses b (fst o) = 0.
Proof.
  unfold Node_destroy. destruct (find_node b t) as [node|]; [|discriminate].
  destruct (existsb _ (n_outputs node)) eqn:E; [discriminate|].
  intros [= <-]. split; [reflexivity|]. exists node. split; [reflexivity|].
  intros o Ho.
  assert (H : hasUses b (fst o) = false).
  { destruct (hasUses b (fst o)) eqn:Hu; [|reflexivity].
    assert (Hex : existsb (fun o => hasUses b (fst o)) (n_outputs node) = true)
      by (apply existsb_exists; eauto).
    congruence. }
  unfold hasUses in H. apply negb_false_iff in H. now apply Nat.eqb_eq.
Qed.

Lemma Node_destroy_unused t b node :
  find_node b t = Some node ->
  (forall o, In o (n_outputs node) -> num_uses b (fst o) = 0) ->
  Node_destroy t b = Some (destroy t b).
Proof.
  intros Hf Hu. unfold Node_destroy. rewrite Hf.
  destruct (existsb _ (n_outputs node)) eqn:E; [|reflexivity].
  apply existsb_exists in E as (o & Ho & H). unfold hasUses in H.
  rewrite (Hu o Ho) in H. discriminate.
Qed.

Lemma Node_destroy_used t b node o :
  find_node b t = Some node -> In o (n_outputs node) ->
  num_uses b (fst o) <> 0 -> Node_destroy t b = None.
Proof.
  intros Hf Ho Hu. unfold Node_destroy. rewrite Hf.
  destruct (existsb _ (n_outputs node)) eqn:E; [reflexivity|].
  assert (H : hasUses b (fst o) = true).
  { unfold hasUses. apply negb_true_iff. now apply Nat.eqb_neq. }
  assert (Hex : existsb (fun o => hasUses b (fst o)) (n_outputs node) = true)
    by (apply existsb_exists; eauto).
  congruence.
Qed.

End DestroyFacts.



(** X18: [ConcatExpander::handleBlock] offers to [expandCat] exactly
    the [aten::cat] nodes of the block, nested blocks included, in
    program order, each with the state the previous ones left; an error
    raised by one of them ends the traversal. *)
Theorem expander_visits_cats_in_order
        (C : Collaborators) (b : Block) (st : Expander.State) :
  Expander.handleBlock C b st =
  fold_left (fun acc n => s <- acc ;; Expander.expandCat C s n)
            (filter (is_kind aten_cat) (nodes_of_block b)) (Some st).
Proof.
  apply (Traversal.traversal_is_fold aten_cat
           (Expander.expandCat C) (Expander.handleNode C)
           (Expander.handleBlock C)).
  - intros n s. destruct n; reflexivity.
  - intros b0 s. destruct b0; reflexivity.
Qed.

(** X19: [reuseBuffersInCopies] fuses nothing, and returns the graph as
    it is, when no write among the copies added has a source produced
    by an allocation ([aten::empty]). *)
Theorem reuseBuffersInCopies_keeps_graph_without_allocation_source
        (fuel : nat) (copies : list Node) (b : Block) :
  (forall copy0, In copy0 copies ->
     exists copy dst src,
       find_node b (n_id copy0) = Some copy /\
       n_inputs copy = [dst; src] /\
       producer_kind b src <> aten_empty) ->
  Expander.reuseBuffersInCopies fuel copies b = Some b.
Proof.
  unfold Expander.reuseBuffersInCopies.
  induction copies as [|c rest IH]; intros Hall; [reflexivity|].
  cbn [fold_left bind].
  destruct (Hall c (or_introl eq_refl)) as (copy & dst & src & Hf & Hi & Hk).
  assert (Hstep : Expander.reuse_step fuel b c = Some b).
  { unfold Expander.reuse_step, input. rewrite Hf. cbn [bind].
    rewrite Hi. cbn [nth_error bind].
    destruct (Symbol_eqb (producer_kind b src) aten_empty) eqn:E;
      [apply Symbol_eqb_eq in E; contradiction | reflexivity]. }
  rewrite Hstep. apply IH. intros c' Hc'. apply Hall. now right.
Qed.

Lemma reuseBuffersInCopies_keeps_graph_without_allocation_source_witness :
  Expander.reuseBuffersInCopies 5
    [mkNode 23 aten_copy_ [22; 0] [(23, dynamic_tensor)] None []]
    (mkBlock Examples.four_inputs
       [Examples.constant 10 1;
        mkNode 21 aten_empty [] [(21, dynamic_tensor)] None [];
        mkNode 22 aten_slice [21; 10; 10; 10; 10] [(22, dynamic_tensor)]
               None [];
        mkNode 23 aten_copy_ [22; 0] [(23, dynamic_tensor)] None []]
       [21])
  = Some
      (mkBlock Examples.four_inputs
         [Examples.constant 10 1;
          mkNode 21 aten_empty [] [(21, dynamic_tensor)] None [];
          mkNode 22 aten_slice [21; 10; 10; 10; 10] [(22, dynamic_tensor)]
                 None [];
          mkNode 23 aten_copy_ [22; 0] [(23, dynamic_tensor)] None []]
         [21]).
Proof.
  apply reuseBuffersInCopies_keeps_graph_without_allocation_source.
  intros copy0 [<-|[]].
  exists (mkNode 23 aten_copy_ [22; 0] [(23, dynamic_tensor)] None []), 22, 0.
  split; [reflexivity|]. split; [reflexivity|]. simpl. discriminate.
Defined.

Module CleanupFacts.
Import Expander.

(** What [removeCatNodeFromGraph] leaves: no node named as the one
    removed, and no node named [i] if there was none. *)
Lemma removeCatNodeFromGraph_absent b n0 b' :
  removeCatNodeFromGraph b n0 = Some b' ->
  (forall x, In x (nodes_of_block b') -> n_id x <> n_id n0) /\
  (forall i, (forall x, In x (nodes_of_block b) -> n_id x <> i) ->
             forall x, In x (nodes_of_block b') -> n_id x <> i).
Proof.
  unfold removeCatNodeFromGraph.
  destruct (find_node b (n_id n0)) as [n|] eqn:Hfind; [|discriminate].
  cbn [bind]. apply VariadicFacts.find_node_some in Hfind as (Hid & _).
  destruct (negb (Symbol_eqb (n_kind n) aten_cat)); [discriminate|].
  destruct (input n 0) as [l|]; [|discriminate]. cbn [bind].
  rewrite Hid.
  destruct (Node_destroy (n_id n0) b) as [b1|] eqn:Hd; [|discriminate].
  apply DestroyFacts.Node_destroy_cases in Hd as (-> & _). cbn [bind].
  assert (Hgone : forall x, In x (nodes_of_block (destroy (n_id n0) b)) ->
                            n_id x <> n_id n0)
    by (intros x Hx; exact (@UseFacts.destroy_gone _ _ _ Hx)).
  destruct (negb (hasUses (destroy (n_id n0) b) l)).
  - destruct (producer b l) as [lst|]; [|discriminate].
    intros [= <-]. split.
    + now apply ReuseFacts.destroy_absent.
    + intros i Hi. now do 2 apply ReuseFacts.destroy_absent.
  - intros [= <-]. split; [exact Hgone|].
    intros i Hi. now apply ReuseFacts.destroy_absent.
Qed.

Lemma remove_all_absent nodes :
  forall b b',
    fold_left (fun acc n => bb <- acc ;; removeCatNodeFromGraph bb n)
              nodes (Some b) = Some b' ->
    forall i,
      (In i (map n_id nodes) \/
       forall x, In x (nodes_of_block b) -> n_id x <> i) ->
      forall x, In x (nodes_of_block b') -> n_id x <> i.
Proof.
  induction nodes as [|n rest IH]; intros b b'; simpl.
  - intros [= <-] i [[]|H]. exact H.
  - destruct (removeCatNodeFromGraph b n) as [b1|] eqn:E.
    2:{ rewrite fold_bind_none. discriminate. }
    destruct (removeCatNodeFromGraph_absent _ _ E) as (Hn & Hkeep).
    intros Hfold i Hi. apply (IH _ _ Hfold).
    destruct Hi as [[<-|Hi]|Hi]; [right; exact Hn | now left |].
    right. now apply Hkeep.
Qed.

End CleanupFacts.

(** X20: when [cleanupExpandedCatOps] returns, none of the concats
    recorded in [nodes_to_remove_] is in the graph any more. *)
Theorem cleanupExpandedCatOps_removes_recorded
        (st : Expander.State) (b' : Block) (n : Node) :
  Expander.cleanupExpandedCatOps st = Some b' ->
  In n (Expander.nodes_to_remove_ st) ->
  find_node b' (n_id n) = None.
Proof.
  unfold Expander.cleanupExpandedCatOps. intros Hc Hn.
  apply ReuseFacts.find_node_none.
  apply (CleanupFacts.remove_all_absent _ _ Hc).
  left. now apply in_map.
Qed.

Lemma cleanupExpandedCatOps_removes_recorded_witness :
  find_node Examples.nested_expanded 12 = None.
Proof.
  apply (@cleanupExpandedCatOps_removes_recorded
           Examples.nested_handled Examples.nested_expanded
           (Examples.cat 12 [11; 10] (Examples.shape [2; 7]%Z))).
  - vm_compute. reflexivity.
  - vm_compute. auto.
Defined.

(** X21: [EliminateConcatCommonInputs] reports a change exactly when
    [handleBlock] recorded a replacement for some concat; the counter
    of fresh names of the graph returned is the one [handleBlock] left,
    and a run that reports no change returns the graph it was given. *)
Theorem eliminate_reports_change_iff_recorded
        (C : Collaborators) (gr gr' : Graph) (changed : bool)
        (st : Eliminator.State) :
  Eliminator.handleBlock C (g_block gr) (g_block gr)
    (Eliminator.mkState (g_next gr) [] []) = Some st ->
  EliminateConcatCommonInputs C gr = Some (gr', changed) ->
  (changed = true <-> Eliminator.concats_to_replace_ st <> []) /\
  g_next gr' = Eliminator.next_unique st /\
  (changed = false -> gr' = gr).
Proof.
  intros Hst. unfold EliminateConcatCommonInputs, Eliminator.run.
  rewrite Hst. cbn [bind]. unfold Eliminator.postprocess.
  destruct (Eliminator.postprocess_loop _ _ _ false) as [[b' ch]|] eqn:Hpost;
    [|discriminate].
  cbn [bind fst snd]. intros [= <- <-].
  pose proof (EliminatorPass.postprocess_loop_changed _ _ _ _ Hpost) as Hch.
  split; [|split; [reflexivity|]].
  - destruct (Eliminator.concats_to_replace_ st); subst ch.
    + split; [discriminate | now intros H].
    + split; [discriminate | reflexivity].
  - intros ->.
    destruct (Eliminator.concats_to_replace_ st) eqn:Hrec; [|discriminate].
    destruct (EliminatorPass.handleBlock_nothing_recorded _ _ _ _ Hst Hrec)
      as (_ & Hnext).
    simpl in Hpost. injection Hpost as <-. rewrite Hnext. cbn.
    now destruct gr.
Qed.

Lemma eliminate_reports_change_iff_recorded_witness :
  (true = true <->
   Eliminator.concats_to_replace_
     (match Eliminator.handleBlock (Examples.quiet (fun l => l))
              (g_block Examples.chained_concats)
              (g_block Examples.chained_concats)
              (Eliminator.mkState 20 [] []) with
      | Some st => st
      | None => Eliminator.mkState 20 [] []
      end) <> []) /\
  g_next Examples.chained_concats_once =
    Eliminator.next_unique
     (match Eliminator.handleBlock (Examples.quiet (fun l => l))
              (g_block Examples.chained_concats)
              (g_block Examples.chained_concats)
              (Eliminator.mkState 20 [] []) with
      | Some st => st
      | None => Eliminator.mkState 20 [] []
      end) /\
  (true = false -> Examples.chained_concats_once = Examples.chained_concats).
Proof.
  apply (@eliminate_reports_change_iff_recorded
           (Examples.quiet (fun l => l))
           Examples.chained_concats Examples.chained_concats_once true).
  - vm_compute. reflexivity.
  - vm_compute. reflexivity.
Defined.

Module ShapeFacts.
Import Expander.

Lemma shapeIsKnown_false b v :
  shapeIsKnown b v = false <-> unknown_or_scalar b v.
Proof.
  split; [|apply ExpanderFacts.unknown_shape].
  unfold shapeIsKnown, unknown_or_scalar.
  destruct (type_of b v) as [t| | | | ]; try discriminate.
  intros H. exists t. split; [reflexivity|].
  destruct (isComplete t); [right|now left]. cbn [negb] in H.
  destruct (dim t) as [[|r]|]; [reflexivity | discriminate | discriminate].
Qed.

Lemma forallb_false {A : Type} (p : A -> bool) (l : list A) :
  forallb p l = false <-> exists x, In x l /\ p x = false.
Proof.
  induction l as [|a l IH]; simpl.
  - split; [discriminate | intros (x & [] & _)].
  - rewrite andb_false_iff, IH. split.
    + intros [H|(x & Hx & H)]; eauto.
    + intros (x & [<-|Hx] & H); eauto.
Qed.

End ShapeFacts.

(** X22: which shapes the expander takes as known.  [shapeIsKnown]
    rejects a value exactly when it is a tensor whose type is not
    complete or whose rank is 0, and so accepts every value that is not
    a tensor; [allShapesAreKnown] rejects a node exactly when one of
    its inputs or outputs is rejected. *)
Theorem shapes_known_unless_incomplete_or_scalar (b : Block) (node : Node) :
  (forall v, Expander.shapeIsKnown b v = false <-> unknown_or_scalar b v) /\
  (forall v, (forall t, type_of b v <> Tensor t) ->
             Expander.shapeIsKnown b v = true) /\
  (Expander.allShapesAreKnown b node = false <->
   (exists v, In v (n_inputs node) /\ unknown_or_scalar b v) \/
   (exists o, In o (n_outputs node) /\ unknown_or_scalar b (fst o))).
Proof.
  split; [intros v; apply ShapeFacts.shapeIsKnown_false|]. split.
  - intros v Hv. destruct (Expander.shapeIsKnown b v) eqn:E; [reflexivity|].
    apply ShapeFacts.shapeIsKnown_false in E as (t & Ht & _).
    now elim (Hv t).
  - unfold Expander.allShapesAreKnown.
    rewrite andb_false_iff, !ShapeFacts.forallb_false. split.
    + intros [(v & Hv & H)|(o & Ho & H)];
        apply ShapeFacts.shapeIsKnown_false in H; eauto.
    + intros [(v & Hv & H)|(o & Ho & H)];
        apply ShapeFacts.shapeIsKnown_false in H; eauto.
Qed.

(* ================================================================== *)
(** * Reuse of buffers: the move and the fusion *)

Unset Implicit Arguments.

Module FlatFacts.

Lemma leaf_blocks x : leaf x = true <-> n_blocks x = [].
Proof. unfold leaf. destruct (n_blocks x); split; congruence. Qed.

Lemma flat_leaf b x : flat_block b -> In x (b_nodes b) -> n_blocks x = [].
Proof.
  unfold flat_block. rewrite forallb_forall. intros H Hx.
  now apply leaf_blocks, H.
Qed.

Lemma rw_node_leaf f r n : n_blocks n = [] -> rw_node f r n = f n.
Proof. destruct n as [i k ins outs a bs]. simpl. now intros ->. Qed.

Lemma rw_flat f r b :
  flat_block b ->
  rw_block f r b = mkBlock (b_params b) (flat_map f (b_nodes b)) (r (b_returns b)).
Proof.
  intros Hflat. destruct b as [ps ns rs]. simpl. f_equal.
  assert (H : forall x, In x ns -> n_blocks x = [])
    by (intros x Hx; exact (flat_leaf _ x Hflat Hx)).
  clear Hflat. induction ns as [|n ns IH]; [reflexivity|]. simpl.
  rewrite rw_node_leaf by (apply H; now left).
  rewrite IH; [reflexivity|]. intros x Hx. apply H. now right.
Qed.

Lemma nodes_leaves ns :
  (forall x, In x ns -> n_blocks x = []) -> flat_map nodes_of_node ns = ns.
Proof.
  induction ns as [|n ns IH]; intros H; [reflexivity|]. simpl.
  pose proof (H _ (or_introl eq_refl)) as Hb.
  destruct n as [i k ins outs a bs]. simpl in *. subst bs. simpl.
  f_equal. apply IH. intros x Hx. apply H. now right.
Qed.

Lemma nodes_flat b : flat_block b -> nodes_of_block b = b_nodes b.
Proof.
  intros Hflat. destruct b as [ps ns rs]. simpl. apply nodes_leaves.
  intros x Hx. exact (flat_leaf _ x Hflat Hx).
Qed.

Lemma returns_flat b : flat_block b -> returns_of_block b = b_returns b.
Proof.
  intros Hflat. destruct b as [ps ns rs]. simpl.
  assert (H : forall x, In x ns -> n_blocks x = [])
    by (intros x Hx; exact (flat_leaf _ x Hflat Hx)).
  clear Hflat.
  assert (E : flat_map returns_of_node ns = []).
  { induction ns as [|n ns IH]; [reflexivity|]. simpl.
    pose proof (H _ (or_introl eq_refl)) as Hb.
    destruct n as [i k ins outs a bs]. simpl in *. subst bs. simpl.
    apply IH. intros x Hx. apply H. now right. }
  rewrite E. apply app_nil_r.
Qed.


Lemma destroy_flat t b :
  flat_block b ->
  destroy t b = mkBlock (b_params b) (drop t (b_nodes b)) (b_returns b).
Proof.
  intros Hflat. unfold destroy. rewrite rw_flat by exact Hflat.
  replace (flat_map (fun n => if Nat.eqb (n_id n) t then [] else [n])
                    (b_nodes b))
    with (drop t (b_nodes b)); [reflexivity|].
  unfold drop. induction (b_nodes b) as [|n ns IH]; [reflexivity|].
  simpl. destruct (Nat.eqb (n_id n) t); simpl; now rewrite IH.
Qed.

Lemma insertBefore_flat new t b :
  flat_block b ->
  insertBefore new t b =
  mkBlock (b_params b) (place new t (b_nodes b)) (b_returns b).
Proof. intros Hflat. unfold insertBefore. now rewrite rw_flat. Qed.

Lemma replaceAllUsesWith_flat v w b :
  flat_block b ->
  replaceAllUsesWith v w b =
  mkBlock (b_params b) (map (subst_node v w) (b_nodes b))
          (map (replace_value v w) (b_returns b)).
Proof.
  intros Hflat. unfold replaceAllUsesWith. rewrite rw_flat by exact Hflat.
  replace (flat_map (fun n => [subst_node v w n]) (b_nodes b))
    with (map (subst_node v w) (b_nodes b)); [reflexivity|].
  induction (b_nodes b) as [|n ns IH]; [reflexivity|].
  simpl. now rewrite IH.
Qed.

Lemma flat_forall ns ps rs :
  (forall x, In x ns -> n_blocks x = []) -> flat_block (mkBlock ps ns rs).
Proof.
  intros H. unfold flat_block. apply forallb_forall. intros x Hx.
  now apply leaf_blocks, H.
Qed.

Lemma drop_in t ns x : In x (drop t ns) <-> In x ns /\ n_id x <> t.
Proof.
  unfold drop. rewrite filter_In, negb_true_iff, Nat.eqb_neq. reflexivity.
Qed.

Lemma drop_absent t ns : ~ In t (map n_id ns) -> drop t ns = ns.
Proof.
  induction ns as [|n ns IH]; [reflexivity|]. simpl. intros H.
  destruct (Nat.eqb (n_id n) t) eqn:E.
  - apply Nat.eqb_eq in E. exfalso. apply H. now left.
  - simpl. f_equal. apply IH. intros Hin. apply H. now right.
Qed.

Lemma place_absent new t ns : ~ In t (map n_id ns) -> place new t ns = ns.
Proof.
  induction ns as [|n ns IH]; [reflexivity|]. simpl. intros H.
  destruct (Nat.eqb (n_id n) t) eqn:E.
  - apply Nat.eqb_eq in E. exfalso. apply H. now left.
  - simpl. f_equal. apply IH. intros Hin. apply H. now right.
Qed.

Lemma drop_perm ns N :
  NoDup (map n_id ns) -> In N ns ->
  Permutation ns (N :: drop (n_id N) ns).
Proof.
  induction ns as [|n ns IH]; [intros _ []|]. simpl.
  intros Hnd Hin. inversion Hnd as [|? ? Hnotin Hnd']; subst.
  destruct Hin as [->|Hin].
  - rewrite Nat.eqb_refl. simpl. now rewrite drop_absent.
  - destruct (Nat.eqb (n_id n) (n_id N)) eqn:E.
    + apply Nat.eqb_eq in E. exfalso. apply Hnotin. rewrite E.
      now apply in_map.
    + simpl. eapply perm_trans; [apply perm_skip, IH; assumption|].
      apply perm_swap.
Qed.

Lemma place_perm new t ns :
  NoDup (map n_id ns) -> In t (map n_id ns) ->
  Permutation (new :: ns) (place new t ns).
Proof.
  induction ns as [|n ns IH]; [intros _ []|]. simpl.
  intros Hnd Hin. inversion Hnd as [|? ? Hnotin Hnd']; subst.
  destruct (Nat.eqb (n_id n) t) eqn:E.
  - apply Nat.eqb_eq in E. subst t. simpl.
    fold (place new (n_id n) ns). now rewrite place_absent.
  - apply Nat.eqb_neq in E. destruct Hin as [Hin|Hin]; [contradiction|].
    simpl. fold (place new t ns).
    eapply perm_trans; [apply perm_swap|]. apply perm_skip. now apply IH.
Qed.

Lemma nodes_before_incl t ns x : In x (nodes_before t ns) -> In x ns.
Proof.
  induction ns as [|n ns IH]; simpl; [auto|].
  destruct (Nat.eqb (n_id n) t); [intros []|].
  intros [->|H]; auto.
Qed.

Lemma nodes_before_drop t x ns :
  x <> t -> nodes_before t (drop x ns) = drop x (nodes_before t ns).
Proof.
  intros Hne. induction ns as [|n ns IH]; [reflexivity|]. simpl.
  destruct (Nat.eqb (n_id n) x) eqn:Ex; simpl.
  - apply Nat.eqb_eq in Ex.
    destruct (Nat.eqb (n_id n) t) eqn:Et.
    + apply Nat.eqb_eq in Et. congruence.
    + simpl. apply Nat.eqb_eq in Ex. rewrite Ex. simpl. exact IH.
  - destruct (Nat.eqb (n_id n) t) eqn:Et; [reflexivity|].
    simpl. rewrite Ex. simpl. now rewrite IH.
Qed.

Lemma nodes_before_place new t ns :
  n_id new <> t -> In t (map n_id ns) ->
  nodes_before t (place new t ns) = nodes_before t ns ++ [new].
Proof.
  intros Hnew. induction ns as [|n ns IH]; [intros []|]. simpl.
  intros Hin. destruct (Nat.eqb (n_id n) t) eqn:E; simpl.
  - apply Nat.eqb_neq in Hnew. now rewrite Hnew, E.
  - rewrite E. fold (place new t ns). f_equal. apply IH.
    destruct Hin as [Hin|Hin]; [|exact Hin].
    apply Nat.eqb_neq in E. contradiction.
Qed.

End FlatFacts.

Module MoveFacts.
Import FlatFacts Expander.

Lemma find_perm {A : Type} (p : A -> bool) (l l' : list A) :
  Permutation l l' ->
  (forall y z, In y l -> In z l -> p y = true -> p z = true -> y = z) ->
  find p l' = find p l.
Proof.
  intros Hperm Huniq.
  destruct (find p l) as [x|] eqn:E.
  - apply find_some in E as (Hx & Hpx).
    destruct (find p l') as [y|] eqn:E'.
    + apply find_some in E' as (Hy & Hpy). f_equal.
      apply Huniq; auto. apply Permutation_in with l'; auto.
      now apply Permutation_sym.
    + exfalso. pose proof (find_none _ _ E' x) as H.
      rewrite H in Hpx; [discriminate|]. now apply Permutation_in with l.
  - apply find_none_all. intros y Hy. apply (find_none _ _ E).
    apply Permutation_in with l'; auto. now apply Permutation_sym.
Qed.

Lemma defines_in v n :
  defines v n = true <-> In v (map (@fst Value Type_) (n_outputs n)).
Proof.
  unfold defines. rewrite existsb_exists, in_map_iff. split.
  - intros (o & Ho & E). apply Nat.eqb_eq in E. eauto.
  - intros (o & E & Ho). exists o. split; [exact Ho|]. now apply Nat.eqb_eq.
Qed.

Lemma single_def v ns y z :
  NoDup (flat_map (fun n => map (@fst Value Type_) (n_outputs n)) ns) ->
  In y ns -> In z ns -> defines v y = true -> defines v z = true -> y = z.
Proof.
  rewrite !defines_in. induction ns as [|n ns IH]; [intros _ []|].
  simpl. intros Hnd Hy Hz Hvy Hvz.
  assert (Hcross : forall m, In m ns ->
             In v (map (@fst Value Type_) (n_outputs n)) ->
             In v (map (@fst Value Type_) (n_outputs m)) -> False).
  { intros m Hm H1 H2. apply NoDup_app_remove_l in Hnd as Hr.
    clear IH Hr. induction (map (@fst Value Type_) (n_outputs n))
      as [|a l IHl]; [destruct H1|].
    simpl in Hnd. inversion Hnd as [|? ? Hnotin Hnd']; subst.
    destruct H1 as [->|H1]; [|now apply IHl].
    apply Hnotin. apply in_or_app. right. apply in_flat_map. eauto. }
  destruct Hy as [->|Hy], Hz as [->|Hz]; auto.
  - exfalso. eauto.
  - exfalso. eauto.
  - apply IH; auto. now apply NoDup_app_remove_l in Hnd.
Qed.

Section Move.
Variable b : Block.
Variable t : nat.
Hypothesis Hflat : flat_block b.
Hypothesis Hnd : NoDup (map n_id (b_nodes b)).
Hypothesis Hssa : single_producers b.
Hypothesis Ht : In t (map n_id (b_nodes b)).

Lemma same_flat bb : same_nodes b bb -> flat_block bb.
Proof.
  intros (_ & _ & Hp). destruct bb as [ps ns rs]. apply flat_forall.
  intros x Hx. apply (flat_leaf b x Hflat).
  apply Permutation_in with ns; [now apply Permutation_sym|exact Hx].
Qed.

Lemma same_nd bb : same_nodes b bb -> NoDup (map n_id (b_nodes bb)).
Proof.
  intros (_ & _ & Hp).
  apply Permutation_NoDup with (map n_id (b_nodes b)); [|exact Hnd].
  now apply Permutation_map.
Qed.

Lemma same_t bb : same_nodes b bb -> In t (map n_id (b_nodes bb)).
Proof.
  intros (_ & _ & Hp).
  apply Permutation_in with (map n_id (b_nodes b)); [|exact Ht].
  now apply Permutation_map.
Qed.

Lemma same_find bb i : same_nodes b bb -> find_node bb i = find_node b i.
Proof.
  intros Hs. pose proof Hs as (_ & _ & Hp). unfold find_node.
  rewrite (nodes_flat _ (same_flat _ Hs)), (nodes_flat _ Hflat).
  apply find_perm; [exact Hp|].
  intros y z Hy Hz Ey Ez. apply Nat.eqb_eq in Ey, Ez.
  apply (NoDup_map_inj n_id (b_nodes b)); auto. congruence.
Qed.

Lemma same_producer bb v : same_nodes b bb -> producer bb v = producer b v.
Proof.
  intros Hs. pose proof Hs as (_ & _ & Hp). unfold producer.
  rewrite (nodes_flat _ (same_flat _ Hs)), (nodes_flat _ Hflat).
  apply find_perm; [exact Hp|].
  intros y z Hy Hz Ey Ez.
  apply (single_def v (b_nodes b)); auto.
  unfold single_producers in Hssa. now rewrite (nodes_flat _ Hflat) in Hssa.
Qed.

Lemma same_unique bb x n node :
  same_nodes b bb -> find_node b n = Some node ->
  In x (b_nodes bb) -> n_id x = n -> x = node.
Proof.
  intros (_ & _ & Hp) Hf Hx Hid.
  apply VariadicFacts.find_node_some in Hf as (Hidn & Hin).
  rewrite (nodes_flat _ Hflat) in Hin.
  apply (NoDup_map_inj n_id (b_nodes b)); auto; [|congruence].
  apply Permutation_in with (b_nodes bb); [now apply Permutation_sym|auto].
Qed.

Lemma node_moveBefore_ok bb n node :
  same_nodes b bb -> find_node b n = Some node -> n <> t ->
  exists bb',
    node_moveBefore n t bb = Some bb' /\ same_nodes b bb' /\
    nodes_before t (b_nodes bb') =
      drop n (nodes_before t (b_nodes bb)) ++ [node].
Proof.
  intros Hs Hf Hne. pose proof Hs as (Hps & Hrs & Hp).
  pose proof (same_flat _ Hs) as Hfl. pose proof (same_nd _ Hs) as Hndb.
  unfold node_moveBefore. rewrite (same_find _ n Hs), Hf. cbn [bind].
  pose proof (VariadicFacts.find_node_some _ _ Hf) as (Hid & Hin).
  rewrite (nodes_flat _ Hflat) in Hin.
  assert (Hinb : In node (b_nodes bb)) by (now apply Permutation_in with (b_nodes b)).
  rewrite (destroy_flat n _ Hfl).
  assert (Hfl1 : flat_block (mkBlock (b_params bb) (drop n (b_nodes bb))
                                     (b_returns bb))).
  { apply flat_forall. intros x Hx. apply drop_in in Hx as (Hx & _).
    exact (flat_leaf bb x Hfl Hx). }
  rewrite (insertBefore_flat node t _ Hfl1). cbn [b_params b_nodes b_returns].
  pose proof (drop_perm _ _ Hndb Hinb) as Hdrop. rewrite Hid in Hdrop.
  assert (Hnd1 : NoDup (map n_id (drop n (b_nodes bb)))).
  { assert (H : NoDup (map n_id (node :: drop n (b_nodes bb)))).
    { apply Permutation_NoDup with (map n_id (b_nodes bb)); [|exact Hndb].
      now apply Permutation_map. }
    now inversion H. }
  assert (Ht1 : In t (map n_id (drop n (b_nodes bb)))).
  { pose proof (same_t _ Hs) as Htb. apply in_map_iff in Htb as (B & HB & HinB).
    apply in_map_iff. exists B. split; [exact HB|].
    apply drop_in. split; [exact HinB|]. congruence. }
  eexists. split; [reflexivity|]. split.
  - split; [exact Hps|]. split; [exact Hrs|]. cbn [b_nodes].
    eapply perm_trans; [exact Hp|]. eapply perm_trans; [exact Hdrop|].
    now apply place_perm.
  - cbn [b_nodes]. rewrite nodes_before_place; [|congruence|exact Ht1].
    now rewrite nodes_before_drop.
Qed.

Section Inputs.
Variable fuel : nat.
Hypothesis IH : forall n bb,
    same_nodes b bb -> movable fuel b t n = true ->
    exists node bb',
      find_node b n = Some node /\
      moveBefore fuel n t bb = Some bb' /\ same_nodes b bb' /\
      (forall y, In y (nodes_before t (b_nodes bb)) ->
                 In y (nodes_before t (b_nodes bb'))) /\
      (forall d, needs b n d -> In d (nodes_before t (b_nodes bb'))) /\
      exists l, nodes_before t (b_nodes bb') = l ++ [node].

Lemma move_inputs inputs :
  forall bb,
    same_nodes b bb ->
    forallb (fun inp => match producer b inp with
                        | Some p => movable fuel b t (n_id p)
                        | None => false
                        end) inputs = true ->
    exists bb',
      fold_left (fun acc inp =>
                   x <- acc ;; p <- producer x inp ;;
                   moveBefore fuel (n_id p) t x)
                inputs (Some bb) = Some bb' /\
      same_nodes b bb' /\
      (forall y, In y (nodes_before t (b_nodes bb)) ->
                 In y (nodes_before t (b_nodes bb'))) /\
      (forall inp p d, In inp inputs -> producer b inp = Some p ->
                       needs b (n_id p) d ->
                       In d (nodes_before t (b_nodes bb'))).
Proof.
  induction inputs as [|inp rest IHl]; intros bb Hs Hall.
  - exists bb. simpl. split; [reflexivity|]. split; [exact Hs|].
    split; [auto|]. intros inp p d [].
  - simpl in Hall. apply andb_prop in Hall as (Hinp & Hrest).
    destruct (producer b inp) as [p|] eqn:Hp; [|discriminate].
    destruct (IH _ _ Hs Hinp) as (pn & bb1 & Hfp & Hmove & Hs1 & Hmono1 & Hneeds1 & _).
    destruct (IHl bb1 Hs1 Hrest) as (bb' & Hfold & Hs' & Hmono' & Hneeds').
    exists bb'. simpl. rewrite (same_producer _ inp Hs), Hp. cbn [bind].
    rewrite Hmove. split; [exact Hfold|]. split; [exact Hs'|]. split.
    + auto.
    + intros inp' p' d [<-|Hin] Hp' Hd.
      * rewrite Hp in Hp'. injection Hp' as <-. auto.
      * eauto.
Qed.
End Inputs.

Lemma moveBefore_ok fuel :
  forall n bb,
    same_nodes b bb -> movable fuel b t n = true ->
    exists node bb',
      find_node b n = Some node /\
      moveBefore fuel n t bb = Some bb' /\ same_nodes b bb' /\
      (forall y, In y (nodes_before t (b_nodes bb)) ->
                 In y (nodes_before t (b_nodes bb'))) /\
      (forall d, needs b n d -> In d (nodes_before t (b_nodes bb'))) /\
      exists l, nodes_before t (b_nodes bb') = l ++ [node].
Proof.
  induction fuel as [|fuel IH]; intros n bb Hs Hm; [discriminate|].
  simpl in Hm. apply andb_prop in Hm as (Hne & Hm).
  apply negb_true_iff, Nat.eqb_neq in Hne.
  destruct (find_node b n) as [node|] eqn:Hf; [|discriminate].
  destruct (move_inputs fuel IH (n_inputs node) bb Hs Hm)
    as (b1 & Hfold & Hs1 & Hmono1 & Hneeds1).
  destruct (node_moveBefore_ok b1 n node Hs1 Hf Hne) as (bb' & Hnm & Hs' & Hbefore).
  exists node, bb'. split; [reflexivity|]. split.
  { cbn [moveBefore]. rewrite (same_find _ n Hs), Hf. cbn [bind].
    rewrite Hfold. cbn [bind]. exact Hnm. }
  split; [exact Hs'|].
  assert (Hkeep : forall y, In y (nodes_before t (b_nodes b1)) ->
                            In y (nodes_before t (b_nodes bb'))).
  { intros y Hy. rewrite Hbefore. apply in_or_app.
    destruct (Nat.eq_dec (n_id y) n) as [E|E].
    - right. left. symmetry.
      apply (same_unique b1 y n node Hs1 Hf); [|exact E].
      now apply nodes_before_incl with t.
    - left. apply drop_in. auto. }
  split; [auto|]. split; [|eauto].
  intros d Hd. inversion Hd as [? node' Hf' | ? node' inp p ? Hf' Hinp Hp Hd']; subst.
  - rewrite Hf in Hf'. injection Hf' as <-. rewrite Hbefore.
    apply in_or_app. right. now left.
  - rewrite Hf in Hf'. injection Hf' as <-. eauto.
Qed.

End Move.
End MoveFacts.

Module ReuseStep.
Import FlatFacts MoveFacts Expander.

Lemma count_value_zero v l : count_value v l = 0 -> ~ In v l.
Proof.
  unfold count_value. induction l as [|a l IH]; simpl; [auto|].
  destruct (Nat.eqb v a) eqn:E; simpl; [discriminate|].
  intros H [->|Hin]; [|now apply IH].
  now rewrite Nat.eqb_refl in E.
Qed.

Lemma no_uses_unused v b : num_uses b v = 0 -> unused v b.
Proof.
  unfold num_uses. intros H. split.
  - intros x Hx Hin.
    apply (count_value_zero v (flat_map n_inputs (nodes_of_block b)));
      [lia|]. apply in_flat_map. eauto.
  - apply count_value_zero. lia.
Qed.

Lemma same_unused b bb v :
  flat_block b -> flat_block bb -> same_nodes b bb ->
  unused v b -> unused v bb.
Proof.
  intros Hfl Hflb (_ & Hrs & Hp) (Hin & Hret). split.
  - intros x Hx. apply Hin. rewrite (nodes_flat _ Hflb) in Hx.
    rewrite (nodes_flat _ Hfl).
    apply Permutation_in with (b_nodes bb); [now apply Permutation_sym|auto].
  - rewrite (returns_flat _ Hflb), Hrs, <- (returns_flat _ Hfl). exact Hret.
Qed.

Lemma replaceAllUsesWith_keeps_unused v w o b :
  flat_block b -> o <> w -> unused o b ->
  unused o (replaceAllUsesWith v w b).
Proof.
  intros Hfl How (Hin & Hret). rewrite (replaceAllUsesWith_flat v w b Hfl).
  assert (Hmap : forall l, ~ In o l -> ~ In o (map (replace_value v w) l)).
  { intros l Hl H. apply in_map_iff in H as (x & E & Hx).
    unfold replace_value in E. destruct (Nat.eqb x v); congruence. }
  assert (Hfl2 : flat_block (mkBlock (b_params b)
                               (map (subst_node v w) (b_nodes b))
                               (map (replace_value v w) (b_returns b)))).
  { apply flat_forall. intros x Hx. apply in_map_iff in Hx as (y & <- & Hy).
    simpl. exact (flat_leaf b y Hfl Hy). }
  split.
  - intros x Hx. rewrite (nodes_flat _ Hfl2) in Hx. cbn [b_nodes] in Hx.
    apply in_map_iff in Hx as (y & <- & Hy). simpl. apply Hmap.
    apply Hin. now rewrite (nodes_flat _ Hfl).
  - rewrite (returns_flat _ Hfl2). cbn [b_returns]. apply Hmap.
    now rewrite <- (returns_flat _ Hfl).
Qed.

Lemma find_drop i t l :
  i <> t ->
  find (fun n => Nat.eqb (n_id n) i) (drop t l) =
  find (fun n => Nat.eqb (n_id n) i) l.
Proof.
  intros Hne. induction l as [|n l IH]; [reflexivity|]. simpl.
  destruct (Nat.eqb (n_id n) t) eqn:Et; simpl.
  - apply Nat.eqb_eq in Et. rewrite IH.
    destruct (Nat.eqb (n_id n) i) eqn:Ei; [|reflexivity].
    apply Nat.eqb_eq in Ei. congruence.
  - destruct (Nat.eqb (n_id n) i); [reflexivity|exact IH].
Qed.

Lemma find_subst i v w l :
  find (fun n => Nat.eqb (n_id n) i) (map (subst_node v w) l) =
  option_map (subst_node v w) (find (fun n => Nat.eqb (n_id n) i) l).
Proof.
  induction l as [|n l IH]; [reflexivity|]. simpl.
  destruct (Nat.eqb (n_id n) i); [reflexivity|exact IH].
Qed.

Lemma replaceAllUsesWith_flat_nodes v w b :
  flat_block b ->
  b_nodes (replaceAllUsesWith v w b) = map (subst_node v w) (b_nodes b) /\
  flat_block (replaceAllUsesWith v w b).
Proof.
  intros Hfl. rewrite (replaceAllUsesWith_flat v w b Hfl).
  split; [reflexivity|]. apply flat_forall. intros x Hx.
  apply in_map_iff in Hx as (y & <- & Hy). simpl.
  exact (flat_leaf b y Hfl Hy).
Qed.

Lemma destroy_flat_nodes t b :
  flat_block b ->
  b_nodes (destroy t b) = drop t (b_nodes b) /\ flat_block (destroy t b).
Proof.
  intros Hfl. rewrite (destroy_flat t b Hfl).
  split; [reflexivity|]. apply flat_forall. intros x Hx.
  apply drop_in in Hx as (Hx & _). exact (flat_leaf b x Hfl Hx).
Qed.

End ReuseStep.


Module ListFacts.
Lemma distinct_NoDup l : distinct l = true -> NoDup l.
Proof.
  induction l as [|x l IH]; simpl; [constructor|].
  intros H. apply andb_prop in H as (Hx & Hl). constructor; [|auto].
  intros Hin. apply negb_true_iff in Hx.
  assert (E : existsb (Nat.eqb x) l = true).
  { apply existsb_exists. exists x. split; [exact Hin|apply Nat.eqb_refl]. }
  congruence.
Qed.
End ListFacts.


(* ================================================================== *)
(** * The eliminator, end to end *)

Module UnusedFacts.
Import RewriteFacts.

Section Returns.
Variable f : Node -> list Node.
Variable r : list Value -> list Value.
Variable o : Value.
Hypothesis f_returns : forall m,
    In o (flat_map returns_of_node (f m)) -> In o (returns_of_node m).
Hypothesis r_returns : forall rs, In o (r rs) -> In o rs.

Lemma rw_returns b :
  In o (returns_of_block (rw_block f r b)) -> In o (returns_of_block b).
Proof.
  pattern b.
  apply Block_tree_ind with
    (P := fun n => In o (flat_map returns_of_node (rw_node f r n)) ->
                   In o (returns_of_node n)); clear b.
  - intros i k ins outs a bs IH Hin. rewrite rw_node_eq in Hin.
    cbn [n_id n_kind n_inputs n_outputs n_attr n_blocks] in Hin.
    apply f_returns in Hin. cbn [returns_of_node n_blocks] in Hin |- *.
    apply in_flat_map in Hin as (b' & Hb' & Hin).
    apply in_map_iff in Hb' as (b0 & <- & Hb0).
    rewrite Forall_forall in IH. apply in_flat_map. exists b0.
    split; [exact Hb0|]. now apply (IH b0 Hb0).
  - intros ps ns rs IH. rewrite rw_block_eq.
    cbn [returns_of_block b_returns b_nodes]. intros Hin.
    apply in_or_app. apply in_app_or in Hin as [Hin|Hin]; [left; auto|right].
    apply in_flat_map in Hin as (y & Hy & Hin).
    apply in_flat_map in Hy as (n & Hn & Hy).
    rewrite Forall_forall in IH. apply in_flat_map. exists n.
    split; [exact Hn|]. apply (IH n Hn). apply in_flat_map. eauto.
Qed.
End Returns.

Lemma insertBefore_unused new t b o :
  n_blocks new = [] -> ~ In o (n_inputs new) ->
  unused o b -> unused o (insertBefore new t b).
Proof.
  intros Hleaf Hnew (Hin & Hret). split.
  - unfold insertBefore.
    apply (@rw_forall _ _ (fun x => ~ In o (n_inputs x))); [auto| |exact Hin].
    intros m Hm m' Hm'. destruct (Nat.eqb (n_id m) t); simpl in Hm'.
    + destruct Hm' as [<-|[<-|[]]].
      * split; [exact Hnew|]. intros x Hx. left.
        now apply GraphEdits.leaf_nodes.
      * split; [exact Hm|]. intros x Hx. now apply nodes_of_node_inv.
    + destruct Hm' as [<-|[]]. split; [exact Hm|].
      intros x Hx. now apply nodes_of_node_inv.
  - intros H. apply Hret. revert H. unfold insertBefore.
    apply rw_returns; [|auto]. intros m.
    destruct (Nat.eqb (n_id m) t); cbn [flat_map]; rewrite ?app_nil_r; auto.
    destruct new as [i k ins outs a bs]. simpl in Hleaf. subst bs.
    simpl. auto.
Qed.

Lemma replace_value_other v w o l :
  o <> w -> ~ In o l -> ~ In o (map (replace_value v w) l).
Proof.
  intros How Hl H. apply in_map_iff in H as (x & E & Hx).
  unfold replace_value in E. destruct (Nat.eqb x v); congruence.
Qed.

Lemma replaceAllUsesWith_other_unused v w b o :
  o <> w -> unused o b -> unused o (replaceAllUsesWith v w b).
Proof.
  intros How (Hin & Hret). split.
  - unfold replaceAllUsesWith.
    apply (@rw_forall _ _ (fun x => ~ In o (n_inputs x))); [auto| |exact Hin].
    intros m Hm m' [<-|[]]. split.
    + simpl. now apply replace_value_other.
    + intros x Hx. apply nodes_of_node_inv in Hx as [->|Hx]; [now left|].
      right. exact Hx.
  - unfold replaceAllUsesWith.
    set (f := fun n => [subst_node v w n]).
    set (r := map (replace_value v w)).
    revert Hret. clear Hin. pattern b.
    apply Block_tree_ind with
      (P := fun n => ~ In o (returns_of_node n) ->
                     ~ In o (flat_map returns_of_node (rw_node f r n)));
      clear b.
    + intros i k ins outs a bs IH Hn. rewrite rw_node_eq. unfold f.
      cbn [flat_map subst_node n_id n_kind n_inputs n_outputs n_attr
           n_blocks returns_of_node] in *.
      rewrite app_nil_r. intros H.
      apply in_flat_map in H as (b' & Hb' & H).
      apply in_map_iff in Hb' as (b0 & <- & Hb0).
      rewrite Forall_forall in IH. apply (IH b0 Hb0); [|exact H].
      intros H0. apply Hn. apply in_flat_map. eauto.
    + intros ps ns rs IH Hb. rewrite rw_block_eq.
      cbn [returns_of_block b_returns b_nodes] in *. intros H.
      apply in_app_or in H as [H|H].
      * revert H. apply replace_value_other; [exact How|].
        intros H. apply Hb. apply in_or_app. now left.
      * apply in_flat_map in H as (y & Hy & H).
        apply in_flat_map in Hy as (n & Hn & Hy).
        rewrite Forall_forall in IH. apply (IH n Hn).
        -- intros H0. apply Hb. apply in_or_app. right.
           apply in_flat_map. eauto.
        -- apply in_flat_map. eauto.
Qed.

Lemma subst_removes v w n : v <> w -> ~ In v (n_inputs (subst_node v w n)).
Proof.
  intros Hvw H. simpl in H. apply in_map_iff in H as (x & E & _).
  revert E. now apply UseFacts.replace_value_neq.
Qed.

Lemma insertBefore_leaf_keeps new t b y :
  In y (nodes_of_block b) -> n_blocks y = [] ->
  In y (nodes_of_block (insertBefore new t b)).
Proof.
  intros Hy Hyb. unfold insertBefore.
  apply (@LeafEdits.rw_leaf _ _ (fun _ => False)) with y; auto.
  - intros m _. exists m. split; [|reflexivity].
    destruct (Nat.eqb (n_id m) t); simpl; auto.
  - intros m _ [].
  - destruct (Nat.eqb (n_id y) t); simpl; auto.
Qed.

End UnusedFacts.

Module PostprocessFacts.
Import Eliminator RewriteFacts UnusedFacts.

Lemma subst_inputs_only v w red :
  inputs_only red -> inputs_only (fun n => subst_node v w (red n)).
Proof. intros H n. simpl. apply H. Qed.

Lemma redirect_all_inputs_only pending : inputs_only (redirect_all pending).
Proof.
  unfold redirect_all. induction pending as [|p rest IH] using rev_ind.
  - intros n. simpl. auto.
  - intros n. rewrite fold_left_app. simpl. apply IH.
Qed.

Lemma output_inputs_only red n : inputs_only red -> output (red n) = output n.
Proof. intros H. unfold output. now rewrite (proj2 (proj2 (H n))). Qed.

Lemma postprocess_loop_ext pending :
  forall r1 r2 b ch,
    (forall n, r1 n = r2 n) ->
    postprocess_loop pending r1 b ch = postprocess_loop pending r2 b ch.
Proof.
  induction pending as [|[curr new0] rest IH]; intros r1 r2 b ch E;
    [reflexivity|].
  simpl. rewrite (E new0). unfold bind.
  destruct (output curr) as [v|]; [|reflexivity].
  destruct (output (r2 new0)) as [w|]; [|reflexivity].
  apply IH. intros n. now rewrite E.
Qed.

Section Post.
Variable next : nat.

Lemma pair_outputs p :
  pair_ok next p ->
  output (fst p) = Some (output_or_0 (fst p)) /\
  output (snd p) = Some (output_or_0 (snd p)) /\
  output_or_0 (fst p) < next /\ output_or_0 (snd p) = n_id (snd p).
Proof.
  intros ((ko & t & Hk & Hlt) & _ & (t' & Hv) & _ & _).
  unfold output_or_0, output. rewrite Hk, Hv. simpl. auto.
Qed.

Lemma postprocess_loop_total pending :
  forall red b ch,
    inputs_only red -> Forall (pair_ok next) pending ->
    exists b',
      postprocess_loop pending red b ch =
      Some (b', match pending with [] => ch | _ => true end).
Proof.
  intros red b ch Hred Hok.
  assert (H : exists r, postprocess_loop pending red b ch = Some r).
  { revert red b ch Hred. induction Hok as [|[curr new0] rest Hp _ IH];
      intros red b ch Hred; simpl; [eauto|].
    destruct (pair_outputs _ Hp) as (Hc & Hn & _). simpl in Hc, Hn.
    rewrite Hc, (output_inputs_only red new0 Hred), Hn. cbn [bind].
    apply IH. now apply subst_inputs_only. }
  destruct H as ([b' ch'] & H). exists b'.
  now rewrite H, (EliminatorPass.postprocess_loop_changed _ _ _ _ H).
Qed.

Lemma leaves_incl ids ids' m :
  (forall i, In i ids' -> In i ids) -> leaves ids m -> leaves ids' m.
Proof. unfold leaves. auto. Qed.

Lemma postprocess_loop_leaf pending :
  forall red b ch b' ch' y,
    inputs_only red -> Forall (pair_ok next) pending ->
    (forall m, In m (nodes_of_block b) -> leaves (keys pending) m) ->
    In y (nodes_of_block b) -> n_blocks y = [] ->
    ~ In (n_id y) (keys pending) ->
    postprocess_loop pending red b ch = Some (b', ch') ->
    In (redirect_all pending y) (nodes_of_block b').
Proof.
  induction pending as [|[curr new0] rest IH];
    intros red b ch b' ch' y Hred Hok Hleaf Hy Hyb Hnk; simpl.
  - now intros [= <- <-].
  - inversion Hok as [|? ? Hp Hok']; subst.
    destruct (pair_outputs _ Hp) as (Hc & Hn & _). simpl in Hc, Hn.
    destruct Hp as (_ & _ & _ & _ & Hnb). simpl in Hnb.
    rewrite Hc, (output_inputs_only red new0 Hred), Hn. cbn [bind].
    set (v := output_or_0 curr). set (w := output_or_0 new0).
    set (new := red new0).
    assert (Hnewb : n_blocks new = []).
    { unfold new. now rewrite (proj1 (proj2 (Hred new0))). }
    set (b1 := insertBefore new (n_id curr) b).
    set (b2 := replaceAllUsesWith v w b1).
    assert (Hl2 : forall m, In m (nodes_of_block b2) ->
                            leaves (keys ((curr, new0) :: rest)) m).
    { apply GraphEdits.replaceAllUsesWith_leaves.
      now apply GraphEdits.insertBefore_leaves. }
    intros Hloop.
    apply (IH _ _ _ _ _ (subst_node v w y)
              (subst_inputs_only v w red Hred) Hok') in Hloop; auto.
    + intros m Hm.
      apply (leaves_incl (keys ((curr, new0) :: rest)));
        [intros i Hi; now right|].
      now apply (@GraphEdits.destroy_leaves _ (n_id curr) b2 Hl2).
    + apply LeafEdits.destroy_leaves_leaf.
      * intros m Hm Hid. apply (Hl2 m Hm). left. simpl. now rewrite Hid.
      * apply LeafEdits.replaceAllUsesWith_maps; [|exact Hyb].
        now apply insertBefore_leaf_keeps.
      * exact Hyb.
      * simpl. intros E. apply Hnk. left. simpl. now rewrite E.
    + simpl. intros Hi. apply Hnk. now right.
Qed.

Lemma postprocess_loop_places pending :
  forall done red b ch b' ch',
    (forall n, red n = redirect_all done n) ->
    Forall (pair_ok next) pending -> NoDup (keys pending) ->
    (forall i, In i (keys pending) ->
               exists x, In x (nodes_of_block b) /\ n_id x = i /\
                         n_blocks x = []) ->
    (forall m, In m (nodes_of_block b) -> leaves (keys pending) m) ->
    postprocess_loop pending red b ch = Some (b', ch') ->
    forall k v, In (k, v) pending ->
                In (redirect_all (done ++ pending) v) (nodes_of_block b').
Proof.
  induction pending as [|[curr new0] rest IH];
    intros done red b ch b' ch' Ered Hok Hnd Hkeys Hleaf Hloop k v Hin;
    [destruct Hin|].
  assert (Hred : inputs_only red).
  { intros n. rewrite Ered. apply redirect_all_inputs_only. }
  inversion Hok as [|? ? Hp Hok']; subst.
  inversion Hnd as [|? ? Hnotin Hnd']; subst.
  destruct (pair_outputs _ Hp) as (Hc & Hn & _ & Hw). simpl in Hc, Hn, Hw.
  destruct Hp as (_ & Hclt & _ & Hnge & Hnb). simpl in Hclt, Hnge, Hnb.
  simpl in Hloop.
  rewrite Hc, (output_inputs_only red new0 Hred), Hn in Hloop.
  cbn [bind] in Hloop.
  set (v0 := output_or_0 curr) in *. set (w0 := output_or_0 new0) in *.
  set (new := red new0) in *.
  assert (Hnewb : n_blocks new = []).
  { unfold new. now rewrite (proj1 (proj2 (Hred new0))). }
  assert (Hnewid : n_id new = n_id new0).
  { unfold new. now rewrite (proj1 (Hred new0)). }
  set (b1 := insertBefore new (n_id curr) b) in *.
  set (b2 := replaceAllUsesWith v0 w0 b1) in *.
  set (b3 := destroy (n_id curr) b2) in *.
  assert (Hl2 : forall m, In m (nodes_of_block b2) ->
                          leaves (keys ((curr, new0) :: rest)) m).
  { apply GraphEdits.replaceAllUsesWith_leaves.
    now apply GraphEdits.insertBefore_leaves. }
  assert (Hl3 : forall m, In m (nodes_of_block b3) -> leaves (keys rest) m).
  { intros m Hm.
    apply (leaves_incl (keys ((curr, new0) :: rest)));
      [intros i Hi; now right|].
    now apply (@GraphEdits.destroy_leaves _ (n_id curr) b2 Hl2). }
  assert (Hstay : forall y, In y (nodes_of_block b) -> n_blocks y = [] ->
                            n_id y <> n_id curr ->
                            In (subst_node v0 w0 y) (nodes_of_block b3)).
  { intros y Hy Hyb Hne. apply LeafEdits.destroy_leaves_leaf; auto.
    - intros m Hm Hid. apply (Hl2 m Hm). left. simpl. now rewrite Hid.
    - apply LeafEdits.replaceAllUsesWith_maps; [|exact Hyb].
      now apply insertBefore_leaf_keeps. }
  assert (Eapp : forall n,
             subst_node v0 w0 (red n)
             = redirect_all (done ++ [(curr, new0)]) n).
  { intros n. unfold redirect_all. rewrite fold_left_app. simpl.
    now rewrite Ered. }
  destruct Hin as [[= <- <-]|Hin].
  - (* the pair at hand *)
    assert (Hnew3 : In (subst_node v0 w0 new) (nodes_of_block b3)).
    { apply LeafEdits.destroy_leaves_leaf; auto.
      - intros m Hm Hid. apply (Hl2 m Hm). left. simpl. now rewrite Hid.
      - apply LeafEdits.replaceAllUsesWith_maps; [|exact Hnewb].
        destruct (Hkeys (n_id curr)) as (x & Hx & Hid & Hxb);
          [now left|].
        now apply LeafEdits.insertBefore_places with x.
      - simpl. rewrite Hnewid. lia. }
    apply (postprocess_loop_leaf rest _ b3 true b' ch'
             (subst_node v0 w0 new)
             (subst_inputs_only v0 w0 red Hred) Hok' Hl3 Hnew3) in Hloop.
    + replace (redirect_all (done ++ (curr, new0) :: rest) new0)
        with (redirect_all rest (subst_node v0 w0 new)); [exact Hloop|].
      unfold new. rewrite Ered. unfold redirect_all.
      now rewrite fold_left_app.
    + exact Hnewb.
    + simpl. rewrite Hnewid. intros Hi. unfold keys in Hi.
      apply in_map_iff in Hi as (p & Ep & Hp').
      rewrite Forall_forall in Hok'.
      destruct (Hok' p Hp') as (_ & Hlt & _). lia.
  - replace (done ++ (curr, new0) :: rest)
      with ((done ++ [(curr, new0)]) ++ rest)
      by (now rewrite <- app_assoc).
    rewrite (postprocess_loop_ext rest _
               (redirect_all (done ++ [(curr, new0)])) b3 true Eapp)
      in Hloop.
    apply (IH (done ++ [(curr, new0)])
              (redirect_all (done ++ [(curr, new0)])) b3 true b' ch')
      with (k := k); auto.
    intros i Hi. destruct (Hkeys i) as (x & Hx & Hid & Hxb); [now right|].
    exists (subst_node v0 w0 x). split; [|split; [exact Hid|exact Hxb]].
    apply Hstay; auto. rewrite Hid. intros E. apply Hnotin.
    now rewrite <- E.
Qed.

Lemma postprocess_loop_unused pending :
  forall red b ch b' ch' o,
    o < next -> inputs_only red -> Forall (pair_ok next) pending ->
    ((exists k v, In (k, v) pending /\ output k = Some o) \/
     (unused o b /\
      forall k v, In (k, v) pending -> ~ In o (n_inputs (red v)))) ->
    postprocess_loop pending red b ch = Some (b', ch') ->
    unused o b'.
Proof.
  induction pending as [|[curr new0] rest IH];
    intros red b ch b' ch' o Ho Hred Hok Hcase; simpl.
  - intros [= <- <-]. destruct Hcase as [(k & v & [] & _)|(H & _)]. exact H.
  - inversion Hok as [|? ? Hp Hok']; subst.
    destruct (pair_outputs _ Hp) as (Hc & Hn & Hvlt & Hw).
    simpl in Hc, Hn, Hvlt, Hw.
    destruct Hp as (_ & _ & _ & Hnge & Hnb). simpl in Hnge, Hnb.
    rewrite Hc, (output_inputs_only red new0 Hred), Hn. cbn [bind].
    set (v0 := output_or_0 curr) in *. set (w0 := output_or_0 new0) in *.
    assert (Hvw : v0 <> w0) by lia.
    assert (How : o <> w0) by lia.
    apply (IH _ _ _ b' ch' o Ho (subst_inputs_only v0 w0 red Hred) Hok').
    destruct (Nat.eq_dec o v0) as [->|Hov].
    + right. split.
      * apply LeafEdits.destroy_unused.
        now apply LeafEdits.replaceAllUsesWith_unused.
      * intros k v _. now apply subst_removes.
    + destruct Hcase as [(k & v & [[= <- <-]|Hin] & Hout)|(Hu & Hins)].
      * rewrite Hc in Hout. injection Hout as <-. contradiction.
      * left. eauto.
      * right. split.
        -- apply LeafEdits.destroy_unused.
           apply replaceAllUsesWith_other_unused; [exact How|].
           apply insertBefore_unused; auto.
           ++ now rewrite (proj1 (proj2 (Hred new0))).
           ++ apply (Hins curr new0). now left.
        -- intros k v Hin. simpl. apply replace_value_other; [exact How|].
           apply (Hins k v). now right.
Qed.

End Post.
End PostprocessFacts.

Module EliminatorJustified.
Import Eliminator EliminatorSearch.

Lemma handleCat_justifies C g st node st' :
  (forall l x, In x (set_order C l) -> In x l) ->
  Forall cand_wf (concated_outputs_ st) ->
  handleCat C g st node = Some st' ->
  Forall cand_wf (concated_outputs_ st') /\
  (forall x, In x (concated_outputs_ st) -> In x (concated_outputs_ st')) /\
  ((concats_to_replace_ st' = concats_to_replace_ st /\
    next_unique st' = next_unique st) \/
   (2 < length (tensor_operands node) /\
    exists v,
      concats_to_replace_ st' = map_set node v (concats_to_replace_ st) /\
      next_unique st' = S (next_unique st) /\
      n_id v = next_unique st /\
      justified C g (concated_outputs_ st') node v)).
Proof.
  intros Hord Hwf.
  unfold handleCat, split_dim, bind, record_replacement, create,
    tensor_operands.
  destruct (n_inputs node) as [|i0 ins] eqn:Eins; [discriminate|].
  destruct (output node) as [out|] eqn:Eout; [|discriminate].
  assert (Hnwf : cand_wf node).
  { split; [rewrite Eins; discriminate|]. unfold output in Eout.
    destruct (n_outputs node) as [|o [|o' os]]; try discriminate. eauto. }
  set (st1 := if negb (hasWriters C g out) then _ else st).
  assert (Hc : Forall cand_wf (concated_outputs_ st1) /\
               (forall x, In x (concated_outputs_ st) ->
                          In x (concated_outputs_ st1)) /\
               concats_to_replace_ st1 = concats_to_replace_ st /\
               next_unique st1 = next_unique st).
  { subst st1. destruct (negb (hasWriters C g out)); simpl; auto.
    split; [now apply EliminatorPass.set_insert_wf|].
    split; [intros x; apply set_insert_incl|auto]. }
  clearbody st1. destruct Hc as (Hwf1 & Hmono & Hr & Hn).
  assert (Hwfo : Forall cand_wf (set_order C (concated_outputs_ st1))).
  { apply Forall_forall. intros x Hx. apply Hord in Hx.
    rewrite Forall_forall in Hwf1. auto. }
  destruct (Nat.leb (length (removelast (i0 :: ins))) 2) eqn:Elen.
  { intros [= <-]. auto. }
  apply Nat.leb_gt in Elen.
  rewrite !(search_find C g node _ _ Hwfo). cbv beta iota.
  assert (Hfound : forall wanted prev,
             find (candidate_ok C g node wanted (last (i0 :: ins) 0))
                  (set_order C (concated_outputs_ st1)) = Some prev ->
             In prev (concated_outputs_ st1) /\
             removelast (n_inputs prev) = wanted /\
             last (n_inputs prev) 0 = last (i0 :: ins) 0 /\
             isDominatedBy C g node prev = true).
  { intros wanted prev Hf. apply find_some in Hf as (Hin & Hok).
    apply candidate_ok_spec in Hok. split; [now apply Hord|exact Hok]. }
  destruct (find (candidate_ok C g node (removelast (removelast (i0 :: ins)))
                              (last (i0 :: ins) 0))
                 (set_order C (concated_outputs_ st1))) as [prev|] eqn:Ep.
  - destruct (Hfound _ _ Ep) as (Hin & Hm & Hd & Hdom).
    destruct (output prev) as [po|] eqn:Epo; [|discriminate].
    destruct (output_type node) as [t|] eqn:Et; [|discriminate].
    cbn [bind]. intros H.
    apply (f_equal (fun o => match o with Some s => s | None => st end))
      in H. cbv beta iota in H. subst st'.
    cbn [concated_outputs_ concats_to_replace_ next_unique].
    split; [exact Hwf1|]. split; [exact Hmono|]. right.
    split; [exact Elen|]. eexists. rewrite Hr, Hn.
    split; [reflexivity|]. split; [reflexivity|]. split; [reflexivity|].
    exists prev, po, t. rewrite Eins. cbn [n_kind n_outputs n_blocks n_id
                                           n_inputs].
    repeat (split; [solve [auto]|]). left. unfold tensor_operands.
    rewrite Eins. auto.
  - destruct (find (candidate_ok C g node (tl (removelast (i0 :: ins)))
                                (last (i0 :: ins) 0))
                   (set_order C (concated_outputs_ st1))) as [prev|] eqn:Es.
    + destruct (Hfound _ _ Es) as (Hin & Hm & Hd & Hdom).
      destruct (output prev) as [po|] eqn:Epo; [|discriminate].
      destruct (output_type node) as [t|] eqn:Et; [|discriminate].
      cbn [bind]. intros H.
      apply (f_equal (fun o => match o with Some s => s | None => st end))
        in H. cbv beta iota in H. subst st'.
      cbn [concated_outputs_ concats_to_replace_ next_unique].
      split; [exact Hwf1|]. split; [exact Hmono|]. right.
      split; [exact Elen|]. eexists. rewrite Hr, Hn.
      split; [reflexivity|]. split; [reflexivity|]. split; [reflexivity|].
      exists prev, po, t. rewrite Eins.
      cbn [n_kind n_outputs n_blocks n_id n_inputs].
      repeat (split; [solve [auto]|]). right. unfold tensor_operands.
      rewrite Eins. auto.
    + intros [= <-]. auto.
Qed.


Lemma justified_mono C g cands cands' k v :
  (forall x, In x cands -> In x cands') ->
  justified C g cands k v -> justified C g cands' k v.
Proof.
  intros Hincl (prev & po & t & Hin & H). exists prev, po, t.
  split; [auto|exact H].
Qed.

Lemma map_set_key_ids n v m i :
  In i (keys (map_set n v m)) -> In i (keys m) \/ i = n_id n.
Proof.
  unfold keys. induction m as [|[k' v'] m IH]; simpl.
  - intros [<-|[]]. now right.
  - destruct (same_node n k'); simpl.
    + intros [<-|H]; left; auto.
    + intros [<-|H]; [left; now left|].
      destruct (IH H) as [H'|H']; [left; now right | now right].
Qed.

Lemma map_set_nodup n v m : NoDup (keys m) -> NoDup (keys (map_set n v m)).
Proof.
  unfold keys. induction m as [|[k' v'] m IH]; simpl.
  - intros _. constructor; [intros []|constructor].
  - intros Hnd. inversion Hnd as [|? ? Hnotin Hnd']; subst.
    destruct (same_node n k') eqn:E; simpl.
    + now constructor.
    + constructor; [|auto]. intros Hin.
      apply (map_set_key_ids n v m) in Hin as [Hin|Hin]; [contradiction|].
      unfold same_node in E. apply Nat.eqb_neq in E. congruence.
Qed.

Section Justified.
Variable C : Collaborators.
Variable g : Block.
Variable next : nat.
Hypothesis Hord : forall l x, In x (set_order C l) -> In x l.
Hypothesis Hnd : NoDup (map n_id (nodes_of_block g)).

Lemma handleBlock_justified st :
  handleBlock C g g (mkState next [] []) = Some st ->
  next <= next_unique st /\ NoDup (keys (concats_to_replace_ st)) /\
  forall k v, In (k, v) (concats_to_replace_ st) ->
              In k (nodes_of_block g) /\ n_kind k = prim_Concat /\
              2 < length (tensor_operands k) /\ next <= n_id v /\
              justified C g (concated_outputs_ st) k v.
Proof.
  intros Hb.
  pose (Inv := fun s : State =>
           Forall cand_wf (concated_outputs_ s) /\
           next <= next_unique s /\
           NoDup (keys (concats_to_replace_ s)) /\
           forall k v, In (k, v) (concats_to_replace_ s) ->
                       In k (nodes_of_block g) /\ n_kind k = prim_Concat /\
                       2 < length (tensor_operands k) /\ next <= n_id v /\
                       justified C g (concated_outputs_ s) k v).
  assert (H : Inv st).
  { apply (@EliminatorMore.handleBlock_invariant C g g Inv)
      with (st := mkState next [] []); [| |exact Hb].
    - intros n s s' Hn Hk (Hwf & Hle & Hkd & Hs) Hcat.
      destruct (handleCat_justifies C g s n s' Hord Hwf Hcat)
        as (Hwf' & Hmono & [(Hr & Hnx)|(Hlen & v & Hr & Hnx & Hid & Hj)]).
      + split; [exact Hwf'|]. split; [lia|]. rewrite Hr.
        split; [exact Hkd|]. intros k v Hin.
        destruct (Hs k v Hin) as (H1 & H2 & H3 & H4 & H5).
        repeat (split; [assumption|]).
        now apply (justified_mono C g (concated_outputs_ s)).
      + split; [exact Hwf'|]. split; [lia|]. rewrite Hr.
        split; [now apply map_set_nodup|]. intros k v0 Hin.
        apply EliminatorReplacements.map_set_in in Hin
          as [Hin|(-> & Hkey)].
        * destruct (Hs k v0 Hin) as (H1 & H2 & H3 & H4 & H5).
          repeat (split; [assumption|]).
          now apply (justified_mono C g (concated_outputs_ s)).
        * assert (k = n) as ->.
          { destruct Hkey as [->|(Hsame & Hkin)]; [reflexivity|].
            apply in_map_iff in Hkin as ([k0 v1] & Hk0 & Hin0).
            simpl in Hk0. subst k0.
            destruct (Hs k v1 Hin0) as (Hkg & _).
            apply (NoDup_map_inj n_id (nodes_of_block g)); auto.
            unfold same_node in Hsame. apply Nat.eqb_eq in Hsame.
            congruence. }
          repeat (split; [assumption|]). split; [lia|exact Hj].
    - split; [constructor|]. split; [apply le_n|].
      split; [constructor|]. intros k v []. }
  destruct H as (_ & H). exact H.
Qed.
End Justified.

End EliminatorJustified.

Module EliminatorApplied.
Import Eliminator EliminatorJustified PostprocessFacts.

Section Applied.
Variable C : Collaborators.
Variable gr : Graph.
Hypothesis Hord : forall l x, In x (set_order C l) -> In x l.
Hypothesis Hwf : eliminator_wf gr.

Lemma handleCat_recorded_justified n s s' :
  In n (nodes_of_block (g_block gr)) -> n_kind n = prim_Concat ->
  recorded_justified C (g_block gr) (g_next gr) s ->
  handleCat C (g_block gr) s n = Some s' ->
  recorded_justified C (g_block gr) (g_next gr) s'.
Proof.
  destruct Hwf as (Hnd & _ & _ & _).
  intros Hn Hk (Hcw & Hle & Hkd & Hs) Hcat.
  destruct (handleCat_justifies C _ s n s' Hord Hcw Hcat)
    as (Hwf' & Hmono & [(Hr & Hnx)|(Hlen & v & Hr & Hnx & Hid & Hj)]).
  - split; [exact Hwf'|]. split; [lia|]. rewrite Hr.
    split; [exact Hkd|]. intros k v Hin.
    destruct (Hs k v Hin) as (H1 & H2 & H3 & H4 & H5).
    repeat (split; [assumption|]).
    now apply (justified_mono C _ (concated_outputs_ s)).
  - split; [exact Hwf'|]. split; [lia|]. rewrite Hr.
    split; [now apply map_set_nodup|]. intros k v0 Hin.
    apply EliminatorReplacements.map_set_in in Hin as [Hin|(-> & Hkey)].
    + destruct (Hs k v0 Hin) as (H1 & H2 & H3 & H4 & H5).
      repeat (split; [assumption|]).
      now apply (justified_mono C _ (concated_outputs_ s)).
    + assert (k = n) as ->.
      { destruct Hkey as [->|(Hsame & Hkin)]; [reflexivity|].
        apply in_map_iff in Hkin as ([k0 v1] & Hk0 & Hin0).
        simpl in Hk0. subst k0.
        destruct (Hs k v1 Hin0) as (Hkg & _).
        apply (NoDup_map_inj n_id (nodes_of_block (g_block gr))); auto.
        unfold same_node in Hsame. apply Nat.eqb_eq in Hsame.
        congruence. }
      repeat (split; [assumption|]). split; [lia|exact Hj].
Qed.

Lemma step_none L : fold_left (visit_concat C (g_block gr)) L None = None.
Proof. induction L; simpl; auto. Qed.

Lemma fold_recorded_justified L :
  (forall n, In n L -> In n (nodes_of_block (g_block gr)) /\
                       n_kind n = prim_Concat) ->
  forall s s',
    recorded_justified C (g_block gr) (g_next gr) s ->
    fold_left (visit_concat C (g_block gr)) L (Some s) = Some s' ->
    recorded_justified C (g_block gr) (g_next gr) s'.
Proof.
  induction L as [|n L IH]; intros HL s s' Hs; simpl.
  - now intros [= <-].
  - destruct (handleCat C (g_block gr) s n) as [s1|] eqn:E.
    2:{ replace (visit_concat C (g_block gr) (Some s) n) with (@None State)
          by (unfold visit_concat; cbn [bind]; now rewrite E).
        rewrite step_none. discriminate. }
    replace (visit_concat C (g_block gr) (Some s) n) with (Some s1)
      by (unfold visit_concat; cbn [bind]; now rewrite E).
    apply IH; [intros m Hm; apply HL; now right|].
    destruct (HL n (or_introl eq_refl)) as (Hn & Hk).
    now apply (handleCat_recorded_justified n s s1).
Qed.

Lemma handleBlock_is_fold st0 :
  handleBlock C (g_block gr) (g_block gr) st0 =
  fold_left (visit_concat C (g_block gr))
            (filter (is_kind prim_Concat) (nodes_of_block (g_block gr)))
            (Some st0).
Proof.
  apply (@Traversal.traversal_is_fold _ prim_Concat
           (handleCat C (g_block gr)) (handleNode C (g_block gr))
           (handleBlock C (g_block gr))).
  - apply EliminatorFacts.handleNode_eq.
  - apply EliminatorFacts.handleBlock_eq.
Qed.

Lemma concats_in_graph n :
  In n (filter (is_kind prim_Concat) (nodes_of_block (g_block gr))) ->
  In n (nodes_of_block (g_block gr)) /\ n_kind n = prim_Concat.
Proof.
  intros H. apply filter_In in H as (Hin & Hk). split; [exact Hin|].
  now apply Symbol_eqb_eq.
Qed.

Lemma init_justified :
  recorded_justified C (g_block gr) (g_next gr) (mkState (g_next gr) [] []).
Proof.
  split; [constructor|]. split; [apply le_n|].
  split; [constructor|]. intros k v [].
Qed.

Lemma recorded_pairs_ok s :
  recorded_justified C (g_block gr) (g_next gr) s ->
  Forall (pair_ok (g_next gr)) (concats_to_replace_ s).
Proof.
  destruct Hwf as (_ & Hlt & Hcat & _). intros (_ & _ & _ & Hs).
  apply Forall_forall. intros [k v] Hin.
  destruct (Hs k v Hin) as (Hk & Hkind & _ & Hge & Hj).
  destruct (Hcat k Hk Hkind) as (_ & _ & o & t & Ho & Holt).
  destruct Hj as (prev & po & t' & _ & _ & _ & _ & _ & _ & Hvo & Hvb & _).
  repeat split; simpl; eauto.
Qed.

(** What the pass does with what the traversal recorded. *)
Lemma pass_applies st :
  handleBlock C (g_block gr) (g_block gr) (mkState (g_next gr) [] [])
  = Some st ->
  let pairs := concats_to_replace_ st in
  exists gr',
    EliminateConcatCommonInputs C gr =
      Some (gr', match pairs with [] => false | _ => true end) /\
    (forall node v, In (node, v) pairs ->
       find_node (g_block gr') (n_id node) = None /\
       In (redirect_all pairs v) (nodes_of_block (g_block gr')) /\
       num_uses (g_block gr') (output_or_0 node) = 0) /\
    (forall y, In y (nodes_of_block (g_block gr)) -> n_blocks y = [] ->
               ~ In (n_id y) (keys pairs) ->
               In (redirect_all pairs y) (nodes_of_block (g_block gr'))).
Proof.
  intros Hb pairs.
  assert (Hinv : recorded_justified C (g_block gr) (g_next gr) st).
  { rewrite handleBlock_is_fold in Hb.
    apply (fold_recorded_justified _ concats_in_graph _ _ init_justified Hb). }
  pose proof (recorded_pairs_ok st Hinv) as Hok. fold pairs in Hok.
  destruct Hinv as (_ & _ & Hkd & Hs). fold pairs in Hkd, Hs.
  destruct Hwf as (Hnd & Hlt & Hcat & _).
  assert (Hid : inputs_only (fun n : Node => n)) by (intros n; auto).
  destruct (postprocess_loop_total (g_next gr) pairs (fun n => n)
              (g_block gr) false Hid Hok) as (b' & Hloop).
  set (flag := match pairs with [] => false | _ => true end) in *.
  exists (mkGraph b' (next_unique st)). split.
  { unfold EliminateConcatCommonInputs, run. rewrite Hb. cbn [bind].
    unfold postprocess. fold pairs. rewrite Hloop. reflexivity. }
  assert (Hkey : forall i, In i (keys pairs) ->
                           exists k v, In (k, v) pairs /\ n_id k = i).
  { intros i Hi. unfold keys in Hi.
    apply in_map_iff in Hi as ([k v] & E & Hin). eauto. }
  assert (Hleaves : forall m, In m (nodes_of_block (g_block gr)) ->
                              leaves (keys pairs) m).
  { intros m Hm Hi. destruct (Hkey _ Hi) as (k & v & Hin & E).
    destruct (Hs k v Hin) as (Hk & Hkind & _).
    assert (k = m) as -> by (apply (NoDup_map_inj n_id _ _ _ Hnd); auto).
    apply (Hcat m Hm Hkind). }
  cbn [g_block]. split.
  - intros node v Hin.
    destruct (Hs node v Hin) as (Hk & Hkind & _ & Hge & _).
    split; [|split].
    + apply ReuseFacts.find_node_none.
      apply (@EliminatorGone.postprocess_loop_gone pairs (fun n => n)
               (g_block gr) false b' flag (n_id node)); auto.
      * intros p Hp. rewrite Forall_forall in Hok.
        destruct (Hok p Hp) as (_ & _ & _ & Hpge & Hpb).
        split; [|exact Hpb]. pose proof (Hlt node Hk). lia.
      * left. unfold keys. apply in_map_iff. exists (node, v). auto.
    + apply (postprocess_loop_places (g_next gr) pairs [] (fun n => n)
               (g_block gr) false b' flag) with (k := node); auto.
      intros i Hi. destruct (Hkey _ Hi) as (k & v' & Hin' & E).
      destruct (Hs k v' Hin') as (Hk' & Hkind' & _).
      exists k. split; [exact Hk'|]. split; [exact E|].
      apply (Hcat k Hk' Hkind').
    + apply LeafEdits.unused_no_uses.
      rewrite Forall_forall in Hok.
      destruct (pair_outputs _ _ (Hok _ Hin)) as (Ho & _ & Holt & _).
      simpl in Ho, Holt.
      apply (postprocess_loop_unused (g_next gr) pairs (fun n => n)
               (g_block gr) false b' flag); auto.
      * now apply Forall_forall.
      * left. eauto.
  - intros y Hy Hyb Hnk.
    apply (postprocess_loop_leaf (g_next gr) pairs (fun n => n)
             (g_block gr) false b' flag y); auto.
Qed.

End Applied.
End EliminatorApplied.

Module EliminatorReplaces.
Import Eliminator EliminatorJustified PostprocessFacts EliminatorApplied.

Lemma redirect_all_inputs pending : forall y,
  n_inputs (redirect_all pending y) =
  map (redirected_value pending) (n_inputs y).
Proof.
  induction pending as [|p pending IH]; intros y; simpl.
  - now rewrite map_id.
  - unfold redirect_all in IH. rewrite IH. simpl. rewrite map_map.
    reflexivity.
Qed.

Lemma redirected_fresh next pending : forall x,
  Forall (pair_ok next) pending -> next <= x ->
  redirected_value pending x = x.
Proof.
  induction pending as [|p pending IH]; intros x Hok Hx; simpl;
    [reflexivity|].
  inversion Hok as [|? ? Hp Hrest]; subst.
  destruct (pair_outputs next p Hp) as (Ho & _ & Holt & _).
  unfold replace_value.
  replace (Nat.eqb x (output_or_0 (fst p))) with false.
  - now apply IH.
  - symmetry. apply Nat.eqb_neq. unfold output_or_0. rewrite Ho. lia.
Qed.

Lemma redirected_key next pending : forall k v,
  Forall (pair_ok next) pending ->
  (forall k' v', In (k', v') pending -> n_id k' <> n_id k ->
                 output_or_0 k' <> output_or_0 k) ->
  NoDup (keys pending) ->
  In (k, v) pending ->
  redirected_value pending (output_or_0 k) = n_id v.
Proof.
  induction pending as [|p pending IH]; intros k v Hok Hdist Hnd Hin;
    [destruct Hin|].
  inversion Hok as [|? ? Hp Hrest]; subst.
  inversion Hnd as [|? ? Hnotin Hnd']; subst.
  simpl. destruct Hin as [->|Hin].
  - simpl. unfold replace_value. rewrite Nat.eqb_refl.
    destruct (pair_outputs next (k, v) Hp) as (_ & Hv & _ & Hge).
    simpl in Hv, Hge. rewrite Hge.
    apply (redirected_fresh next); auto.
    destruct Hp as (_ & _ & _ & H & _). exact H.
  - assert (Hne : n_id (fst p) <> n_id k).
    { intros E. apply Hnotin. rewrite E. unfold keys.
      apply in_map_iff. exists (k, v). auto. }
    unfold replace_value.
    replace (Nat.eqb (output_or_0 k) (output_or_0 (fst p))) with false.
    + apply IH; auto. intros k' v' Hin'. apply (Hdist k' v'). now right.
    + symmetry. apply Nat.eqb_neq. intros E.
      destruct p as [k' v']. apply (Hdist k' v'); auto. now left.
Qed.

Lemma map_set_other n v' m k v :
  In (k, v) m -> same_node n k = false -> In (k, v) (map_set n v' m).
Proof.
  induction m as [|[k0 v0] m IH]; simpl; [intros []|].
  intros [E|Hin] Hs.
  - injection E as -> ->. rewrite Hs. now left.
  - destruct (same_node n k0); [now right|]. right. now apply IH.
Qed.

Lemma map_set_self n v m :
  (forall k' v', In (k', v') m -> same_node n k' = true -> k' = n) ->
  In (n, v) (map_set n v m).
Proof.
  induction m as [|[k0 v0] m IH]; simpl; intros Hk; [now left|].
  destruct (same_node n k0) eqn:E.
  - left. f_equal. apply (Hk k0 v0); auto.
  - right. apply IH. intros k' v' Hin. apply (Hk k' v'). now right.
Qed.

Lemma filter_ids_nodup (p : Node -> bool) (l : list Node) :
  NoDup (map n_id l) -> NoDup (map n_id (filter p l)).
Proof.
  induction l as [|a l IH]; simpl; [constructor|].
  intros H. inversion H as [|? ? Hn Hd]; subst.
  destruct (p a); simpl; [constructor|]; auto.
  intros Hin. apply Hn. apply in_map_iff in Hin as (x & E & Hx).
  apply filter_In in Hx as (Hx & _). apply in_map_iff. eauto.
Qed.

Section Replaces.
Variable C : Collaborators.
Variable gr : Graph.
Hypothesis Hord : forall l x, In x (set_order C l) -> In x l.
Hypothesis Hwf : eliminator_wf gr.

Lemma handleCat_total n s :
  In n (nodes_of_block (g_block gr)) -> n_kind n = prim_Concat ->
  Forall cand_wf (concated_outputs_ s) ->
  exists s', handleCat C (g_block gr) s n = Some s'.
Proof.
  destruct Hwf as (_ & _ & Hcat & _). intros Hn Hk Hc.
  destruct (Hcat n Hn Hk) as (_ & Hins & o & t & Ho & _).
  destruct (Nat.le_gt_cases (length (tensor_operands n)) 2) as [Hl|Hl].
  - assert (Hcw : concat_wf n) by (split; eauto).
    destruct (@EliminatorSmall.handleCat_small C (g_block gr) s n Hcw Hl)
      as (s' & H & _). eauto.
  - destruct (@EliminatorSearch.handleCat_chosen C (g_block gr) s n o t
                Hord Hc Ho Hl) as (s' & H & _). eauto.
Qed.

Lemma fold_total L :
  (forall n, In n L -> In n (nodes_of_block (g_block gr)) /\
                       n_kind n = prim_Concat) ->
  forall s,
    recorded_justified C (g_block gr) (g_next gr) s ->
    exists s',
      fold_left (visit_concat C (g_block gr)) L (Some s) = Some s' /\
      recorded_justified C (g_block gr) (g_next gr) s'.
Proof.
  induction L as [|n L IH]; intros HL s Hs; cbn [fold_left]; [eauto|].
  destruct (HL n (or_introl eq_refl)) as (Hn & Hk).
  destruct (handleCat_total n s Hn Hk (proj1 Hs)) as (s1 & E).
  replace (visit_concat C (g_block gr) (Some s) n) with (Some s1)
    by (unfold visit_concat; cbn [bind]; now rewrite E).
  apply IH; [intros m Hm; apply HL; now right|].
  now apply (handleCat_recorded_justified C gr Hord Hwf n s s1).
Qed.

Lemma fold_keeps_pair node v L :
  (forall n, In n L -> n_id n <> n_id node) ->
  forall s s',
    In (node, v) (concats_to_replace_ s) ->
    fold_left (visit_concat C (g_block gr)) L (Some s) = Some s' ->
    In (node, v) (concats_to_replace_ s').
Proof.
  induction L as [|n L IH]; intros HL s s' Hin; cbn [fold_left].
  - now intros [= <-].
  - destruct (handleCat C (g_block gr) s n) as [s1|] eqn:E.
    2:{ replace (visit_concat C (g_block gr) (Some s) n) with (@None State)
          by (unfold visit_concat; cbn [bind]; now rewrite E).
        rewrite step_none. discriminate. }
    replace (visit_concat C (g_block gr) (Some s) n) with (Some s1)
      by (unfold visit_concat; cbn [bind]; now rewrite E).
    apply IH; [intros m Hm; apply HL; now right|].
    destruct (EliminatorFacts.handleCat_cases _ _ _ _ E)
      as (_ & [(-> & _)|(_ & nc & -> & _)]); [exact Hin|].
    apply map_set_other; [exact Hin|].
    unfold same_node. apply Nat.eqb_neq. apply HL. now left.
Qed.

End Replaces.
End EliminatorReplaces.

Module EliminatorWhole.
Import Eliminator EliminatorJustified PostprocessFacts EliminatorApplied
       EliminatorReplaces.

Lemma recorded_is_replaced C gr L1 L2 node st0 st1 v :
  (forall l x, In x (set_order C l) -> In x l) ->
  eliminator_wf gr ->
  filter (is_kind prim_Concat) (nodes_of_block (g_block gr))
  = L1 ++ node :: L2 ->
  fold_left (visit_concat C (g_block gr)) L1 (Some (mkState (g_next gr) [] []))
  = Some st0 ->
  handleCat C (g_block gr) st0 node = Some st1 ->
  exists st gr' changed,
    handleBlock C (g_block gr) (g_block gr) (mkState (g_next gr) [] [])
    = Some st /\
    EliminateConcatCommonInputs C gr = Some (gr', changed) /\
    (concats_to_replace_ st1 = map_set node v (concats_to_replace_ st0) ->
     changed = true /\ replaced_by gr gr' (concats_to_replace_ st) node v).
Proof.
  intros Hord Hwf Hfil Hf0 Hcat.
  assert (HL : forall n, In n (L1 ++ node :: L2) ->
                         In n (nodes_of_block (g_block gr)) /\
                         n_kind n = prim_Concat).
  { intros n Hn. rewrite <- Hfil in Hn. now apply concats_in_graph. }
  assert (Hinv0 : recorded_justified C (g_block gr) (g_next gr) st0).
  { apply (fold_recorded_justified C gr Hord Hwf L1) with
      (s := mkState (g_next gr) [] []); [|apply init_justified|exact Hf0].
    intros n Hn. apply HL. apply in_or_app. now left. }
  destruct (HL node) as (Hnode & Hkind);
    [apply in_or_app; right; now left|].
  pose proof (handleCat_recorded_justified C gr Hord Hwf node st0 st1
                Hnode Hkind Hinv0 Hcat) as Hinv1.
  destruct (fold_total C gr Hord Hwf L2) with (s := st1)
    as (st & Hf2 & Hinv); [|exact Hinv1|].
  { intros n Hn. apply HL. apply in_or_app. right. now right. }
  assert (Hb : handleBlock C (g_block gr) (g_block gr)
                           (mkState (g_next gr) [] []) = Some st).
  { rewrite handleBlock_is_fold, Hfil, fold_left_app, Hf0.
    cbn [fold_left].
    replace (visit_concat C (g_block gr) (Some st0) node) with (Some st1)
      by (unfold visit_concat; cbn [bind]; now rewrite Hcat).
    exact Hf2. }
  destruct (pass_applies C gr Hord Hwf st Hb) as (gr' & Hrun & Hpairs & Hleaf).
  exists st, gr', (match concats_to_replace_ st with
                   | [] => false | _ => true end).
  split; [exact Hb|]. split; [exact Hrun|]. intros Hrec.
  pose proof Hwf as (Hnd & Hlt & Hcw & Hdist).
  assert (Hin1 : In (node, v) (concats_to_replace_ st1)).
  { rewrite Hrec. apply map_set_self. intros k' v' Hk' Hs.
    destruct Hinv0 as (_ & _ & _ & H0). destruct (H0 k' v' Hk') as (Hkg & _).
    apply (NoDup_map_inj n_id _ _ _ Hnd); auto.
    unfold same_node in Hs. apply Nat.eqb_eq in Hs. congruence. }
  assert (Hin : In (node, v) (concats_to_replace_ st)).
  { apply (fold_keeps_pair C gr node v L2) with (s := st1); auto.
    pose proof (filter_ids_nodup (is_kind prim_Concat) _ Hnd) as Hfd.
    rewrite Hfil, map_app in Hfd. cbn [map] in Hfd.
    apply NoDup_remove_2 in Hfd. intros n Hn E. apply Hfd.
    apply in_or_app. right. rewrite <- E. now apply in_map. }
  split.
  { destruct (concats_to_replace_ st); [destruct Hin | reflexivity]. }
  destruct (Hpairs node v Hin) as (Hgone & Hplaced & Hunused).
  pose proof (recorded_pairs_ok C gr Hwf st Hinv) as Hok.
  repeat (split; [assumption|]). split; [|split; [assumption|exact Hleaf]].
  apply (redirected_key (g_next gr)); auto; [|apply Hinv].
  intros k' v' Hk' Hne E. apply Hne. f_equal.
  destruct Hinv as (_ & _ & _ & H1). destruct (H1 k' v' Hk') as (Hkg & Hkk & _).
  apply (Hdist k' node); auto.
  rewrite Forall_forall in Hok.
  destruct (pair_outputs _ _ (Hok _ Hk')) as (E1 & _).
  destruct (pair_outputs _ _ (Hok _ Hin)) as (E2 & _).
  simpl in E1, E2. now rewrite E1, E2, E.
Qed.

End EliminatorWhole.

(** [eliminator_wf] on a graph that is given in full. *)
Ltac closed_graph_wf :=
  split; [|split; [|split]];
  [ simpl; repeat constructor; simpl; intuition discriminate
  | let n := fresh "n" in let Hn := fresh "Hn" in
    intros n Hn; simpl in Hn;
    repeat (destruct Hn as [<-|Hn]; [simpl; lia|]); destruct Hn
  | let n := fresh "n" in let Hn := fresh "Hn" in let Hk := fresh "Hk" in
    intros n Hn Hk; simpl in Hn;
    repeat (destruct Hn as [<-|Hn];
            [first [discriminate Hk
                   | split; [reflexivity|]; split; [discriminate|];
                     eexists; eexists; split; [reflexivity|simpl; lia]]|]);
    destruct Hn
  | let n := fresh "n" in let m := fresh "m" in
    let Hn := fresh "Hn" in let Hm := fresh "Hm" in
    intros n m Hn Hm _ _; simpl in Hn, Hm;
    repeat (destruct Hn as [<-|Hn]);
    repeat (destruct Hm as [<-|Hm]);
    try reflexivity; try discriminate; try destruct Hn; try destruct Hm ].

(** C4 (amended): the eliminator on a graph as it expects it, for a
    variadic concat [node] of more than two tensor operands; [st0] is
    the state of the traversal when it reaches the node.  The traversal
    and the pass return.  If a candidate recorded in [st0], on the same
    axis, dominates the node and has the node's tensor operands without
    the last one, the pass reports a change and the node is replaced by
    a two-operand concat created with the inputs [output of such a
    candidate; last operand of the node; axis]: the node is gone, its
    output has no use left and is redirected to the output of the
    replacement, and the replacement is in the graph, where it reads
    its inputs as the redirections of the pass leave them (the output
    of a candidate that is replaced in the same run is read as the
    output of its replacement).  If there is no such candidate but one
    with the node's tensor operands without the first one, the same
    holds with the inputs [first operand; output of such a candidate;
    axis]. *)
Theorem eliminate_replaces_by_prefix_or_suffix
        (C : Collaborators) (gr : Graph) (L1 L2 : list Node)
        (node : Node) (out : Value) (t : Type_) :
  (forall l x, In x (set_order C l) <-> In x l) ->
  eliminator_wf gr ->
  filter (is_kind prim_Concat) (nodes_of_block (g_block gr))
  = L1 ++ node :: L2 ->
  n_outputs node = [(out, t)] ->
  2 < length (tensor_operands node) ->
  let g := g_block gr in
  let tensors := tensor_operands node in
  let curr_dim := last (n_inputs node) 0 in
  exists st0 st gr' changed,
    fold_left (visit_concat C g) L1 (Some (Eliminator.mkState (g_next gr) [] []))
    = Some st0 /\
    Eliminator.handleBlock C g g (Eliminator.mkState (g_next gr) [] [])
    = Some st /\
    EliminateConcatCommonInputs C gr = Some (gr', changed) /\
    ((exists prev,
         dominating_match C g st0 node (removelast tensors) curr_dim prev) ->
     exists prev po,
       dominating_match C g st0 node (removelast tensors) curr_dim prev /\
       output prev = Some po /\ changed = true /\
       replaced_by gr gr' (Eliminator.concats_to_replace_ st) node
         (replacement (Eliminator.next_unique st0)
                      [po; last tensors 0; curr_dim] t)) /\
    ((forall prev,
         ~ dominating_match C g st0 node (removelast tensors) curr_dim prev) ->
     (exists prev, dominating_match C g st0 node (tl tensors) curr_dim prev) ->
     exists prev po,
       dominating_match C g st0 node (tl tensors) curr_dim prev /\
       output prev = Some po /\ changed = true /\
       replaced_by gr gr' (Eliminator.concats_to_replace_ st) node
         (replacement (Eliminator.next_unique st0)
                      [hd 0 tensors; po; curr_dim] t)).
Proof.
  intros Hord Hwf Hfil Hout Hlen g tensors curr_dim.
  assert (HordI : forall l x, In x (set_order C l) -> In x l)
    by (intros l x; apply Hord).
  destruct (EliminatorReplaces.fold_total C gr HordI Hwf L1) with
    (s := Eliminator.mkState (g_next gr) [] []) as (st0 & Hf0 & Hinv0);
    [|apply EliminatorApplied.init_justified|].
  { intros n Hn. apply (EliminatorApplied.concats_in_graph gr). rewrite Hfil.
    apply in_or_app. now left. }
  destruct (@handleCat_records_prefix_suffix C g st0 node out t Hord (proj1 Hinv0)
              Hout Hlen) as (st1 & Hcat & Hpre & Hsuf).
  destruct (EliminatorWhole.recorded_is_replaced C gr L1 L2 node st0 st1
              (replacement (Eliminator.next_unique st0)
                 [output_or_0 node; 0; 0] t) HordI Hwf Hfil Hf0 Hcat)
    as (st & gr' & changed & Hb & Hrun & _).
  exists st0, st, gr', changed.
  split; [exact Hf0|]. split; [exact Hb|]. split; [exact Hrun|].
  split.
  - intros Hex. destruct (Hpre Hex) as (prev & po & Hdm & Hpo & Hrec).
    exists prev, po. split; [exact Hdm|]. split; [exact Hpo|].
    destruct (EliminatorWhole.recorded_is_replaced C gr L1 L2 node st0 st1
                (replacement (Eliminator.next_unique st0)
                   [po; last tensors 0; curr_dim] t)
                HordI Hwf Hfil Hf0 Hcat)
      as (st' & gr2 & ch2 & Hb' & Hrun' & Hr).
    fold g in Hb, Hb'. rewrite Hb in Hb'. injection Hb' as <-.
    rewrite Hrun in Hrun'. injection Hrun' as <- <-. now apply Hr.
  - intros Hno Hex. destruct (Hsuf Hno Hex) as (prev & po & Hdm & Hpo & Hrec).
    exists prev, po. split; [exact Hdm|]. split; [exact Hpo|].
    destruct (EliminatorWhole.recorded_is_replaced C gr L1 L2 node st0 st1
                (replacement (Eliminator.next_unique st0)
                   [hd 0 tensors; po; curr_dim] t)
                HordI Hwf Hfil Hf0 Hcat)
      as (st' & gr2 & ch2 & Hb' & Hrun' & Hr).
    fold g in Hb, Hb'. rewrite Hb in Hb'. injection Hb' as <-.
    rewrite Hrun in Hrun'. injection Hrun' as <- <-. now apply Hr.
Qed.

Lemma eliminate_replaces_by_prefix_or_suffix_witness :
  exists gr',
    EliminateConcatCommonInputs (Examples.quiet (fun l => l))
      Examples.chained_concats = Some (gr', true) /\
    replaced_by Examples.chained_concats gr'
      [(Examples.concat 12 [0; 1; 2; 10],
        replacement 20 [11; 2; 10] dynamic_tensor)]
      (Examples.concat 12 [0; 1; 2; 10])
      (replacement 20 [11; 2; 10] dynamic_tensor).
Proof.
  destruct (eliminate_replaces_by_prefix_or_suffix
              (Examples.quiet (fun l => l)) Examples.chained_concats
              [Examples.concat 11 [0; 1; 10]]
              [Examples.concat 13 [11; 2; 3; 10]]
              (Examples.concat 12 [0; 1; 2; 10]) 12 dynamic_tensor)
    as (st0 & st & gr' & changed & Hf0 & Hb & Hrun & Hpre & _).
  - intros l x. reflexivity.
  - closed_graph_wf.
  - reflexivity.
  - reflexivity.
  - simpl. lia.
  - vm_compute in Hf0. injection Hf0 as <-.
    vm_compute in Hb. injection Hb as <-.
    destruct Hpre as (prev & po & (Hin & _) & Hpo & Hch & Hrep).
    + exists (Examples.concat 11 [0; 1; 10]).
      repeat split. simpl. now left.
    + destruct Hin as [<-|[]]. injection Hpo as <-. subst changed.
      exists gr'. split; [exact Hrun | exact Hrep].
Defined.

(** C4 as stated fails: in [prefix_chain] the concat [%13] of four
    tensors has the dominating candidate [%12], on the same axis, with
    its operands but the last; [%12] is replaced in the same run by
    [%20], and after the pass no node reads [%12; %3; axis]: the
    replacement [%21] of [%13] reads [%20; %3; axis]. *)
Lemma eliminate_chain_reads_replacement :
  let C := Examples.quiet (fun l => l) in
  let g := g_block Examples.prefix_chain in
  let node := Examples.concat 13 [0; 1; 2; 3; 10] in
  let prev := Examples.concat 12 [0; 1; 2; 10] in
  exists st0 gr',
    fold_left (visit_concat C g) [Examples.concat 11 [0; 1; 10]; prev]
              (Some (Eliminator.mkState 20 [] [])) = Some st0 /\
    dominating_match C g st0 node [0; 1; 2] 10 prev /\
    output prev = Some 12 /\
    EliminateConcatCommonInputs C Examples.prefix_chain = Some (gr', true) /\
    (forall x, In x (nodes_of_block (g_block gr')) ->
               n_inputs x <> [12; 3; 10]) /\
    map (fun n => (n_id n, n_kind n, n_inputs n))
        (nodes_of_block (g_block gr')) =
      [(10, prim_Constant, []); (11, prim_Concat, [0; 1; 10]);
       (20, prim_Concat, [11; 2; 10]); (21, prim_Concat, [20; 3; 10])].
Proof.
  intros C g node prev. eexists. eexists.
  split; [vm_compute; reflexivity|].
  split; [repeat split; simpl; auto|].
  split; [reflexivity|].
  split; [vm_compute; reflexivity|].
  split; [|vm_compute; reflexivity].
  intros x Hx. simpl in Hx.
  repeat (destruct Hx as [<-|Hx]; [discriminate|]). destruct Hx.
Qed.

(* ------------------------------------------------------------------ *)
(** ** Concats the eliminator leaves in place *)

Module EliminatorKeeps.
Import Eliminator PostprocessFacts EliminatorApplied EliminatorReplaces.

Lemma redirected_other pending : forall x,
  (forall k v, In (k, v) pending -> output_or_0 k <> x) ->
  redirected_value pending x = x.
Proof.
  induction pending as [|[k v] pending IH]; intros x H; simpl;
    [reflexivity|].
  unfold replace_value.
  replace (Nat.eqb x (output_or_0 k)) with false.
  - apply IH. intros k' v' Hin. apply (H k' v'). now right.
  - symmetry. apply Nat.eqb_neq. intros E. apply (H k v); auto. now left.
Qed.

Lemma redirect_all_shell pending y : same_shell y (redirect_all pending y).
Proof.
  destruct (redirect_all_inputs_only pending y) as (Hid & _ & Hout).
  split; [exact Hid|]. split; [|split; [exact Hout|]].
  - unfold redirect_all. revert y Hid Hout.
    induction pending as [|p pending IH]; intros y _ _; [reflexivity|].
    simpl. rewrite IH; try apply (redirect_all_inputs_only pending).
    reflexivity.
  - rewrite redirect_all_inputs. apply length_map.
Qed.

Lemma pass_total C gr :
  (forall l x, In x (set_order C l) -> In x l) ->
  eliminator_wf gr ->
  exists st,
    handleBlock C (g_block gr) (g_block gr) (mkState (g_next gr) [] [])
    = Some st /\
    recorded_justified C (g_block gr) (g_next gr) st.
Proof.
  intros Hord Hwf.
  destruct (fold_total C gr Hord Hwf
              (filter (is_kind prim_Concat) (nodes_of_block (g_block gr)))
              (concats_in_graph gr) (mkState (g_next gr) [] [])
              (init_justified C gr)) as (st & Hf & Hinv).
  exists st. split; [|exact Hinv]. now rewrite handleBlock_is_fold.
Qed.

End EliminatorKeeps.

(** C9 (amended): the eliminator on a graph as it expects it, for a
    variadic concat [node] with two tensor operands or fewer.  Whatever
    candidates have been recorded, [handleCat] returns and records no
    substitution for the node.  The pass returns; the node is not among
    the nodes it replaces, and it is in the graph afterwards with its
    identity, its kind, its outputs and as many inputs as before; its
    output is not redirected.  Its inputs are read as the redirections
    of the pass leave them: an input that is the output of a replaced
    concat is now the output of the replacement. *)
Theorem eliminate_keeps_small_concats
        (C : Collaborators) (gr : Graph) (node : Node) :
  (forall l x, In x (set_order C l) -> In x l) ->
  eliminator_wf gr ->
  In node (nodes_of_block (g_block gr)) ->
  n_kind node = prim_Concat ->
  length (tensor_operands node) <= 2 ->
  (forall st, exists st',
      Eliminator.handleCat C (g_block gr) st node = Some st' /\
      Eliminator.concats_to_replace_ st' = Eliminator.concats_to_replace_ st /\
      Eliminator.next_unique st' = Eliminator.next_unique st) /\
  exists st gr' changed,
    Eliminator.handleBlock C (g_block gr) (g_block gr)
      (Eliminator.mkState (g_next gr) [] []) = Some st /\
    EliminateConcatCommonInputs C gr = Some (gr', changed) /\
    let pairs := Eliminator.concats_to_replace_ st in
    ~ In (n_id node) (keys pairs) /\
    In (redirect_all pairs node) (nodes_of_block (g_block gr')) /\
    same_shell node (redirect_all pairs node) /\
    redirected_value pairs (output_or_0 node) = output_or_0 node.
Proof.
  intros Hord Hwf Hin Hkind Hlen.
  pose proof Hwf as (Hnd & Hlt & Hcat & Hdist).
  destruct (Hcat node Hin Hkind) as (Hleaf & Hins & o & t & Ho & _).
  split.
  { intros st. apply EliminatorSmall.handleCat_small; [|exact Hlen].
    split; eauto. }
  destruct (EliminatorKeeps.pass_total C gr Hord Hwf) as (st & Hb & Hinv).
  destruct (EliminatorApplied.pass_applies C gr Hord Hwf st Hb)
    as (gr' & Hrun & _ & Hkeep).
  exists st, gr', (match Eliminator.concats_to_replace_ st with
                   | [] => false | _ => true end).
  split; [exact Hb|]. split; [exact Hrun|]. cbv zeta.
  destruct Hinv as (_ & _ & _ & Hrec).
  assert (Hkey : forall k v, In (k, v) (Eliminator.concats_to_replace_ st) ->
                             k <> node).
  { intros k v Hk ->. destruct (Hrec node v Hk) as (_ & _ & Hbig & _). lia. }
  assert (Hnk : ~ In (n_id node) (keys (Eliminator.concats_to_replace_ st))).
  { intros Hk. unfold keys in Hk.
    apply in_map_iff in Hk as ([k v] & E & Hk). simpl in E.
    apply (Hkey k v Hk). destruct (Hrec k v Hk) as (Hkg & _).
    apply (NoDup_map_inj n_id _ _ _ Hnd); auto. }
  split; [exact Hnk|]. split; [now apply Hkeep|].
  split; [apply EliminatorKeeps.redirect_all_shell|].
  apply EliminatorKeeps.redirected_other. intros k v Hk E.
  apply (Hkey k v Hk). destruct (Hrec k v Hk) as (Hkg & Hkk & _).
  apply (Hdist k node); auto.
  destruct (Hcat k Hkg Hkk) as (_ & _ & ko & kt & Hko & _).
  unfold output_or_0, output in E |- *. rewrite Hko, Ho in *. simpl in E.
  now rewrite E.
Qed.

Lemma eliminate_keeps_small_concats_witness :
  exists gr',
    EliminateConcatCommonInputs (Examples.quiet (fun l => l))
      Examples.small_after_chain = Some (gr', true) /\
    In (Examples.concat 14 [20; 3; 10]) (nodes_of_block (g_block gr')) /\
    same_shell (Examples.concat 14 [12; 3; 10])
               (Examples.concat 14 [20; 3; 10]).
Proof.
  destruct (eliminate_keeps_small_concats
              (Examples.quiet (fun l => l)) Examples.small_after_chain
              (Examples.concat 14 [12; 3; 10]))
    as (_ & st & gr' & changed & Hb & Hrun & _ & Hin & Hshell & _).
  - intros l x H. exact H.
  - closed_graph_wf.
  - simpl. auto.
  - reflexivity.
  - simpl. lia.
  - vm_compute in Hb. injection Hb as <-.
    assert (E : EliminateConcatCommonInputs (Examples.quiet (fun l => l))
                  Examples.small_after_chain
                = Some (gr', true)).
    { rewrite Hrun. f_equal. f_equal.
      vm_compute in Hrun. now injection Hrun as _ <-. }
    exists gr'. split; [exact E|]. split; [exact Hin | exact Hshell].
Defined.

(** C9 as stated fails: in [small_after_chain] the concat [%14] of two
    tensors reads [%12], which the pass replaces by [%20]; afterwards
    [%14] reads [%20].  The concat [%11] of two tensors had no consumer;
    afterwards the replacement [%20] reads it. *)
Lemma small_concat_is_rewired :
  let gr := Examples.small_after_chain in
  length (tensor_operands (Examples.concat 14 [12; 3; 10])) = 2 /\
  length (tensor_operands (Examples.concat 11 [0; 1; 10])) = 2 /\
  exists gr',
    EliminateConcatCommonInputs (Examples.quiet (fun l => l)) gr
    = Some (gr', true) /\
    find_node (g_block gr) 14 = Some (Examples.concat 14 [12; 3; 10]) /\
    find_node (g_block gr') 14 = Some (Examples.concat 14 [20; 3; 10]) /\
    num_uses (g_block gr) 11 = 0 /\
    num_uses (g_block gr') 11 = 1.
Proof.
  intros gr. split; [reflexivity|]. split; [reflexivity|].
  eexists. split; [vm_compute; reflexivity|].
  repeat split; vm_compute; reflexivity.
Qed.

(* ================================================================== *)
(** * The driver of the updater, to its fixpoint *)

Module PromoterWf.
Import Variadic RewriteFacts.

Section Edits.
Variable next : nat.
Variable ids : nat -> Prop.

Lemma ok_blocks i k ins outs a (bs bs' : list Block) :
  length bs = length bs' ->
  promoter_node_ok next ids (mkNode i k ins outs a bs) ->
  promoter_node_ok next ids (mkNode i k ins outs a bs').
Proof. intros _ H. exact H. Qed.

Lemma destroy_ok t b :
  (forall m, In m (nodes_of_block b) -> promoter_node_ok next ids m) ->
  forall x, In x (nodes_of_block (destroy t b)) -> promoter_node_ok next ids x.
Proof.
  unfold destroy. apply (@rw_forall _ _ (promoter_node_ok next ids)).
  - intros i k ins outs a bs bs'. apply ok_blocks.
  - intros m Hm m' Hm'. destruct (Nat.eqb (n_id m) t); [destruct Hm'|].
    destruct Hm' as [<-|[]]. split; [exact Hm|].
    intros y Hy. now apply nodes_of_node_inv.
Qed.

Lemma replaceAllUsesWith_ok v w b :
  (forall m, In m (nodes_of_block b) -> promoter_node_ok next ids m) ->
  forall x, In x (nodes_of_block (replaceAllUsesWith v w b)) ->
            promoter_node_ok next ids x.
Proof.
  unfold replaceAllUsesWith.
  apply (@rw_forall _ _ (promoter_node_ok next ids)).
  - intros i k ins outs a bs bs'. apply ok_blocks.
  - intros m (H1 & H2 & H3) m' [<-|[]]. split.
    + split; [exact H1|]. split; [exact H2|]. intros Hi.
      destruct (H3 Hi) as ((l & a & Hins) & Ho). split; [|exact Ho].
      simpl. rewrite Hins. simpl. eauto.
    + intros y Hy. apply nodes_of_node_inv in Hy. exact Hy.
Qed.

Lemma insertBefore_ok new t b :
  promoter_node_ok next ids new -> n_blocks new = [] ->
  (forall m, In m (nodes_of_block b) -> promoter_node_ok next ids m) ->
  forall x, In x (nodes_of_block (insertBefore new t b)) ->
            promoter_node_ok next ids x.
Proof.
  intros Hnew Hleaf. unfold insertBefore.
  apply (@rw_forall _ _ (promoter_node_ok next ids)).
  - intros i k ins outs a bs bs'. apply ok_blocks.
  - intros m Hm m' Hm'.
    assert (Hself : forall y, In y (nodes_of_node m) ->
              y = m \/ exists b0, In b0 (n_blocks m) /\
                                  In y (nodes_of_block b0))
      by (intros y; apply nodes_of_node_inv).
    destruct (Nat.eqb (n_id m) t).
    + destruct Hm' as [<-|[<-|[]]]; [|now split].
      split; [exact Hnew|]. intros y Hy. left.
      now apply GraphEdits.leaf_nodes.
    + destruct Hm' as [<-|[]]. now split.
Qed.

End Edits.

Lemma wf_nodes_ok gr next :
  promoter_wf gr -> g_next gr <= next ->
  forall m, In m (nodes_of_block (g_block gr)) ->
            promoter_node_ok next (cat_ids gr) m.
Proof.
  intros (Hlt & Hcat) Hle m Hm. split; [pose proof (Hlt m Hm); lia|].
  split.
  - intros Hk. exists m. auto.
  - intros (c & Hc & Hk & Hid). now apply (Hcat c m).
Qed.

Lemma nodes_ok_wf b next ids :
  (forall m, In m (nodes_of_block b) -> promoter_node_ok next ids m) ->
  promoter_wf (mkGraph b next).
Proof.
  intros H. split; [intros n Hn; apply (H n Hn)|].
  intros c x Hc Hx Hk Hid. simpl in Hc, Hx.
  destruct (H c Hc) as (_ & Hi & _). destruct (H x Hx) as (_ & _ & Hw).
  apply Hw. rewrite Hid. now apply Hi.
Qed.

Section Promote.
Variable C : Collaborators.

Lemma replaceWithVariadicCat_wf st c st' ch :
  promoter_wf (graph_ st) ->
  replaceWithVariadicCat C st c = Some (st', ch) ->
  promoter_wf (graph_ st').
Proof.
  intros Hwf. unfold replaceWithVariadicCat, bind.
  destruct (find_node (g_block (graph_ st)) (n_id c)) as [cat|];
    [|discriminate].
  destruct (input cat 0) as [in0|]; [|discriminate].
  destruct (negb (Symbol_eqb (producer_kind (g_block (graph_ st)) in0)
                             prim_ListConstruct)).
  { now intros [= <- <-]. }
  destruct (producer (g_block (graph_ st)) in0) as [lst|]; [|discriminate].
  assert (Hdb : graph_ (snd (getOrCreateAliasDb st)) = graph_ st).
  { unfold getOrCreateAliasDb. now destruct (aliasDb_ st). }
  destruct (getOrCreateAliasDb st) as [db st1]. cbn [snd] in Hdb.
  rewrite Hdb.
  destruct (negb (couldMoveBeforeTopologically C db lst cat)).
  { intros [= <- <-]. now rewrite Hdb. }
  destruct (input cat 1) as [in1|]; [|discriminate].
  unfold create.
  destruct (output cat) as [v|]; [|discriminate].
  destruct (output _) as [w|]; [|discriminate].
  intros [= <- <-]. cbn [graph_].
  set (next := g_next (graph_ st)).
  set (var_cat := mkNode next prim_Concat (n_inputs lst ++ [in1])
                         [(next, dynamic_tensor)] None []).
  assert (Hnew : promoter_node_ok (S next) (cat_ids (graph_ st)) var_cat).
  { split; [simpl; lia|]. split; [discriminate|].
    intros (c0 & Hc0 & _ & Hid). exfalso.
    pose proof (proj1 Hwf c0 Hc0). simpl in Hid. unfold next in Hid. lia. }
  apply nodes_ok_wf with (ids := cat_ids (graph_ st)).
  assert (H3 : forall m,
             In m (nodes_of_block
                     (destroy (n_id cat)
                        (replaceAllUsesWith v w
                           (insertBefore var_cat (n_id cat)
                                         (g_block (graph_ st)))))) ->
             promoter_node_ok (S next) (cat_ids (graph_ st)) m).
  { apply destroy_ok, replaceAllUsesWith_ok, insertBefore_ok;
      [exact Hnew | reflexivity|].
    apply wf_nodes_ok; [exact Hwf | unfold next; lia]. }
  destruct (negb (node_hasUses _ lst)); [now apply destroy_ok | exact H3].
Qed.

Lemma replaceWithVariadicCat_total st c :
  promoter_wf (graph_ st) ->
  In c (nodes_of_block (g_block (graph_ st))) -> n_kind c = aten_cat ->
  exists r, replaceWithVariadicCat C st c = Some r.
Proof.
  intros (_ & Hcat) Hc Hk. unfold replaceWithVariadicCat.
  destruct (@find_first _ (fun n => Nat.eqb (n_id n) (n_id c))
              (nodes_of_block (g_block (graph_ st))) c Hc
              (Nat.eqb_refl _)) as (x & Hx).
  unfold find_node. rewrite Hx. cbn [bind].
  apply find_some in Hx as (Hxin & Hxid). apply Nat.eqb_eq in Hxid.
  destruct (Hcat c x Hc Hxin Hk Hxid) as ((l & a & Hins) & (o & Ho)).
  unfold input. rewrite Hins. cbn [nth_error bind].
  destruct (Symbol_eqb (producer_kind (g_block (graph_ st)) l)
                       prim_ListConstruct) eqn:Ek; cbn [negb]; [|eauto].
  apply Symbol_eqb_eq in Ek.
  destruct (@VariadicMore.producer_kind_list _ _ Ek) as (lst & Hp & _).
  rewrite Hp. cbn [bind].
  destruct (getOrCreateAliasDb st) as [db st1].
  destruct (negb (couldMoveBeforeTopologically C db lst x)); [eauto|].
  unfold create, output. rewrite Ho. cbn [bind n_outputs]. eauto.
Qed.

Lemma run_loop_total cats :
  forall st,
    promoter_wf (graph_ st) ->
    (forall c, In c cats ->
               In c (nodes_of_block (g_block (graph_ st))) /\
               n_kind c = aten_cat) ->
    forall changed,
    exists st' ch,
      run_loop C cats st changed = Some (st', ch) /\
      promoter_wf (graph_ st').
Proof.
  induction cats as [|c rest IH]; intros st Hwf Hcats changed; simpl.
  - eauto.
  - destruct changed; cbn [bind fst snd].
    + destruct (IH st Hwf (fun c' H => Hcats c' (or_intror H)) true)
        as (st' & ch & E & Hwf'). eauto.
    + destruct (Hcats c (or_introl eq_refl)) as (Hc & Hk).
      destruct (replaceWithVariadicCat_total st c Hwf Hc Hk)
        as ([st1 ch1] & E).
      rewrite E. cbn [bind fst snd].
      pose proof (replaceWithVariadicCat_wf _ _ _ _ Hwf E) as Hwf1.
      destruct ch1.
      * rewrite VariadicDecides.run_loop_after_change. eauto.
      * destruct (@VariadicFacts.replaceWithVariadicCat_cases C st c st1
                    false E) as [(_ & Hg)|(Hch & _)]; [|discriminate].
        apply IH; [exact Hwf1|]. rewrite Hg.
        intros c' H'. apply Hcats. now right.
Qed.

Lemma UseVariadicCat_total gr :
  promoter_wf gr ->
  exists gr' ch, UseVariadicCat C gr = Some (gr', ch) /\ promoter_wf gr'.
Proof.
  intros Hwf. unfold UseVariadicCat, run.
  destruct (run_loop_total (collectCatNodes (g_block gr) [])
              (mkState gr None) Hwf) with (changed := false)
    as (st' & ch & E & Hwf').
  { intros c Hc. rewrite VariadicFacts.collectCatNodes_spec in Hc.
    simpl in Hc. apply filter_In in Hc as (Hin & Hk).
    split; [exact Hin | now apply Symbol_eqb_eq]. }
  rewrite E. cbn [bind fst snd]. eauto.
Qed.

End Promote.
End PromoterWf.

Module PromoterCount.
Import Variadic CountFacts.

Section Count.
Variable C : Collaborators.
Variable k : Symbol.
Hypothesis Hk : k <> prim_Concat.

Lemma replaceWithVariadicCat_count st c st' ch :
  replaceWithVariadicCat C st c = Some (st', ch) ->
  count_kind k (g_block (graph_ st')) <= count_kind k (g_block (graph_ st)).
Proof.
  unfold replaceWithVariadicCat, bind.
  destruct (find_node (g_block (graph_ st)) (n_id c)) as [cat|];
    [|discriminate].
  destruct (input cat 0) as [in0|]; [|discriminate].
  destruct (negb (Symbol_eqb (producer_kind (g_block (graph_ st)) in0)
                             prim_ListConstruct)).
  { now intros [= <- <-]. }
  destruct (producer (g_block (graph_ st)) in0) as [lst|]; [|discriminate].
  assert (Hdb : graph_ (snd (getOrCreateAliasDb st)) = graph_ st).
  { unfold getOrCreateAliasDb. now destruct (aliasDb_ st). }
  destruct (getOrCreateAliasDb st) as [db st1]. cbn [snd] in Hdb.
  rewrite Hdb.
  destruct (negb (couldMoveBeforeTopologically C db lst cat)).
  { intros [= <- <-]. now rewrite Hdb. }
  destruct (input cat 1) as [in1|]; [|discriminate].
  unfold create.
  destruct (output cat) as [v|]; [|discriminate].
  destruct (output _) as [w|]; [|discriminate].
  intros [= <- <-]. cbn [graph_ g_block].
  set (var_cat := mkNode _ prim_Concat _ _ None []).
  assert (H3 : count_kind k
                 (destroy (n_id cat)
                    (replaceAllUsesWith v w
                       (insertBefore var_cat (n_id cat)
                                     (g_block (graph_ st)))))
               <= count_kind k (g_block (graph_ st))).
  { etransitivity; [apply (@destroy_count k)|].
    etransitivity; [apply (@replaceAllUsesWith_count k)|].
    apply (@insertBefore_count k); [|reflexivity].
    simpl. congruence. }
  destruct (negb (node_hasUses _ lst)); [|exact H3].
  etransitivity; [apply (@destroy_count k) | exact H3].
Qed.

Lemma run_loop_count cats :
  forall st changed st' ch,
    run_loop C cats st changed = Some (st', ch) ->
    count_kind k (g_block (graph_ st')) <= count_kind k (g_block (graph_ st)).
Proof.
  induction cats as [|c rest IH]; intros st changed st' ch; simpl.
  - now intros [= <- <-].
  - destruct changed; cbn [bind fst snd]; [apply IH|].
    destruct (replaceWithVariadicCat C st c) as [[st1 ch1]|] eqn:E;
      [|discriminate].
    cbn [bind fst snd]. intros H. apply IH in H.
    pose proof (replaceWithVariadicCat_count _ _ _ _ E). lia.
Qed.

Lemma UseVariadicCat_count gr gr' ch :
  UseVariadicCat C gr = Some (gr', ch) ->
  count_kind k (g_block gr') <= count_kind k (g_block gr).
Proof.
  unfold UseVariadicCat, run.
  destruct (run_loop C _ _ false) as [[st' ch']|] eqn:E; [|discriminate].
  cbn [bind fst snd]. intros [= <- <-].
  apply (run_loop_count _ _ _ _ _ E).
Qed.

End Count.
End PromoterCount.

Module DriverEnds.

Section Ends.
Variable C : Collaborators.
  (** what the list-mutation removal is assumed to reduce *)
Variable mutations : Graph -> nat.
Hypothesis unchanged_when_false :
    forall g g', RemoveListMutation C g = (false, g') -> g' = g.
Hypothesis fewer_when_true :
    forall g g', RemoveListMutation C g = (true, g') ->
                 mutations g' + num_cat g' < mutations g + num_cat g.
Hypothesis promotion_adds_no_mutation :
    forall g g', UseVariadicCat C g = Some (g', true) ->
                 mutations g' <= mutations g.
Hypothesis removal_keeps_wf :
    forall g g' ch, promoter_wf g -> RemoveListMutation C g = (ch, g') ->
                    promoter_wf g'.

Lemma driver_loop_ends n :
  forall gr changed,
    promoter_wf gr ->
    mutations gr + num_cat gr <= n ->
    exists gr' flags,
      (forall fuel, S n <= fuel ->
         driver_loop C fuel gr true changed =
           Done (gr', changed || existsb (fun f => f) flags)) /\
      Rounds C gr flags gr' /\
      RemoveListMutation C gr' = (false, gr') /\
      UseVariadicCat C gr' = Some (gr', false).
Proof.
  induction n as [n IH] using lt_wf_ind. intros gr changed Hwf Hm.
  assert (Hnext : forall gr1,
             round C gr = Some (gr1, true) -> promoter_wf gr1 ->
             mutations gr1 + num_cat gr1 < mutations gr + num_cat gr ->
             exists gr' flags,
               (forall fuel, S n <= fuel ->
                  driver_loop C fuel gr true changed =
                    Done (gr', changed || existsb (fun f => f) flags)) /\
               Rounds C gr flags gr' /\
               RemoveListMutation C gr' = (false, gr') /\
               UseVariadicCat C gr' = Some (gr', false)).
  { intros gr1 Hround Hwf1 Hlt.
    destruct n as [|n']; [lia|].
    destruct (IH n' (Nat.lt_succ_diag_r n') gr1 (changed || true) Hwf1)
      as (gr' & flags & Hd & Hr & Hpost); [lia|].
    exists gr', (true :: flags). split; [|split].
    - intros fuel Hf. destruct fuel as [|fuel]; [lia|].
      cbn [driver_loop]. rewrite Hround. rewrite Hd by lia.
      simpl. now rewrite orb_true_r.
    - now apply Rounds_more with gr1.
    - exact Hpost. }
  destruct (RemoveListMutation C gr) as [[|] g1] eqn:Erlm.
  - apply (Hnext g1).
    + unfold round. now rewrite Erlm.
    + now apply (removal_keeps_wf gr g1 true).
    + now apply fewer_when_true.
  - pose proof (unchanged_when_false _ _ Erlm) as ->.
    destruct (PromoterWf.UseVariadicCat_total C gr Hwf)
      as (g2 & ch & Euvc & Hwf2).
    destruct (@VariadicFacts.run_cases C gr g2 ch Euvc)
      as [(-> & ->)|(-> & Hlt)].
    + exists gr, [false].
      assert (Hround : round C gr = Some (gr, false)).
      { unfold round. now rewrite Erlm. }
      split; [|split; [now apply Rounds_last | auto]].
      intros fuel Hf. destruct fuel as [|fuel]; [lia|].
      cbn [driver_loop]. rewrite Hround.
      destruct fuel; simpl; now rewrite !orb_false_r.
    + apply (Hnext g2); [|exact Hwf2|].
      * unfold round. now rewrite Erlm.
      * pose proof (promotion_adds_no_mutation _ _ Euvc). lia.
Qed.
End Ends.

End DriverEnds.

(** C8: the driver stops.  The list-mutation removal is taken with its
    contract: when it reports no change it has left the graph as it was;
    when it reports a change the number [mutations] of list mutations it
    can remove plus the number of list-form concats has decreased;
    variadic promotion adds no such mutation; and the removal keeps the
    graph as the updater expects it (list-form concats with their
    schema, nodes named below the counter).  Then on such a graph the
    loop ends, after one round more than that number at most, whatever
    fuel beyond that it is given: it returns a graph and a flag, the
    flag is [true] exactly when some round reported a change, and on
    the graph returned [RemoveListMutation] and [UseVariadicCat] both
    report no change and leave the graph as it is. *)
Theorem driver_reaches_fixpoint
        (C : Collaborators) (mutations : Graph -> nat) (gr : Graph) :
  (forall g g', RemoveListMutation C g = (false, g') -> g' = g) ->
  (forall g g', RemoveListMutation C g = (true, g') ->
                mutations g' + num_cat g' < mutations g + num_cat g) ->
  (forall g g', UseVariadicCat C g = Some (g', true) ->
                mutations g' <= mutations g) ->
  (forall g g' ch, promoter_wf g -> RemoveListMutation C g = (ch, g') ->
                   promoter_wf g') ->
  promoter_wf gr ->
  exists gr' changed flags,
    (forall fuel, S (mutations gr + num_cat gr) <= fuel ->
       RemoveListMutationAndUseVariadicCat C fuel gr = Done (gr', changed)) /\
    Rounds C gr flags gr' /\
    (changed = true <-> In true flags) /\
    RemoveListMutation C gr' = (false, gr') /\
    UseVariadicCat C gr' = Some (gr', false).
Proof.
  intros H1 H2 H3 H4 Hwf.
  destruct (DriverEnds.driver_loop_ends C mutations H1 H2 H3 H4
              (mutations gr + num_cat gr) gr false Hwf (le_n _))
    as (gr' & flags & Hd & Hr & Hpost).
  exists gr', (existsb (fun f => f) flags), flags.
  split; [exact Hd|]. split; [exact Hr|]. split; [|exact Hpost].
  split.
  - intros Hex. apply existsb_exists in Hex as (x & Hx & ->). exact Hx.
  - intros Hin. apply existsb_exists. exists true. auto.
Qed.

Lemma driver_reaches_fixpoint_witness :
  exists gr',
    RemoveListMutationAndUseVariadicCat Examples.tidy 3 Examples.appended_list
    = Done (gr', true) /\
    Examples.summary (g_block gr') =
      ([(10, prim_Constant, [], Some (IV_Int 1));
        (20, prim_Concat, [0; 1; 10], None)], [20]) /\
    Rounds Examples.tidy Examples.appended_list [true; true; false] gr' /\
    RemoveListMutation Examples.tidy gr' = (false, gr') /\
    UseVariadicCat Examples.tidy gr' = Some (gr', false).
Proof.
  destruct (driver_reaches_fixpoint Examples.tidy
              (fun g => count_kind (other_kind 0) (g_block g))
              Examples.appended_list)
    as (gr' & changed & flags & Hd & Hr & _ & Hpost).
  - intros g g'. cbn [RemoveListMutation Examples.tidy]. unfold Examples.remove_one_append.
    destruct (find _ _); [discriminate | now intros [= <-]].
  - intros g g'. cbn [RemoveListMutation Examples.tidy]. unfold Examples.remove_one_append.
    destruct (find _ _) as [n|] eqn:E; [|discriminate].
    intros [= <-]. apply find_some in E as (Hin & Hk).
    apply Symbol_eqb_eq in Hk. unfold num_cat. cbn [g_block].
    pose proof (proj1 (@CountFacts.destroy_count aten_cat (n_id n)
                         (g_block g))).
    pose proof (proj2 (@CountFacts.destroy_count (other_kind 0) (n_id n)
                         (g_block g))) as Hlt.
    assert (count_kind (other_kind 0) (destroy (n_id n) (g_block g))
            < count_kind (other_kind 0) (g_block g))
      by (apply Hlt; eauto).
    lia.
  - intros g g' H.
    apply (PromoterCount.UseVariadicCat_count Examples.tidy (other_kind 0)) in H;
      [exact H | discriminate].
  - intros g g' ch Hwf. cbn [RemoveListMutation Examples.tidy].
    unfold Examples.remove_one_append.
    destruct (find _ _) as [n|]; [|now intros [= _ <-]].
    intros [= _ <-].
    apply PromoterWf.nodes_ok_wf with (ids := cat_ids g).
    apply PromoterWf.destroy_ok. now apply PromoterWf.wf_nodes_ok.
  - split.
    + intros n Hn. simpl in Hn.
      repeat (destruct Hn as [<-|Hn]; [simpl; lia|]). destruct Hn.
    + intros c x Hc Hx Hk Hid. simpl in Hc, Hx.
      repeat (destruct Hc as [<-|Hc]; [try discriminate Hk|]);
        [|destruct Hc].
      repeat (destruct Hx as [<-|Hx]; [try discriminate Hid|]);
        [|destruct Hx].
      split; simpl; eauto.
  - specialize (Hd 3). 
    assert (E : RemoveListMutationAndUseVariadicCat Examples.tidy 3 Examples.appended_list
                = Done (gr', changed)) by (apply Hd; vm_compute; lia).
    vm_compute in E. injection E as <- <-.
    eexists. split; [vm_compute; reflexivity|].
    split; [vm_compute; reflexivity|].
    split; [|exact Hpost].
    eapply Rounds_more; [vm_compute; reflexivity|].
    eapply Rounds_more; [vm_compute; reflexivity|].
    apply Rounds_last. vm_compute. reflexivity.
Defined.

(* ================================================================== *)
(** * The expander: expansion and cleanup *)

(** ** The nodes of a rewritten block *)

Module EditShape.
Import RewriteFacts.

Lemma nodes_of_node_eq n :
  nodes_of_node n = n :: flat_map nodes_of_block (n_blocks n).
Proof. destruct n; reflexivity. Qed.

Lemma nodes_of_block_eq b :
  nodes_of_block b = flat_map nodes_of_node (b_nodes b).
Proof. destruct b; reflexivity. Qed.

Lemma flat_map_leaves l :
  (forall x, In x l -> n_blocks x = []) -> flat_map nodes_of_node l = l.
Proof.
  induction l as [|a l IH]; intros H; [reflexivity|]. simpl.
  rewrite nodes_of_node_eq, (H a (or_introl eq_refl)). simpl. f_equal.
  apply IH. intros x Hx. apply H. now right.
Qed.

Lemma flat_map_ext_in {A B : Type} (f g : A -> list B) (l : list A) :
  (forall a, In a l -> f a = g a) -> flat_map f l = flat_map g l.
Proof.
  induction l as [|a l IH]; intros H; [reflexivity|]. simpl.
  rewrite (H a (or_introl eq_refl)), IH; [reflexivity|].
  intros x Hx. apply H. now right.
Qed.

Lemma find_skip {A : Type} (p : A -> bool) (l tail : list A) :
  (forall x, In x l -> p x = false) -> find p (l ++ tail) = find p tail.
Proof.
  induction l as [|a l IH]; intros H; [reflexivity|]. simpl.
  rewrite (H a (or_introl eq_refl)). apply IH. intros x Hx. apply H.
  now right.
Qed.

(** A rewriting that places the nodes [pre i] before the node named
    [i], keeps the node, with its inputs mapped by [h], when [keep i]
    holds, and lets it go otherwise. *)
Section Shape.
Variable f : Node -> list Node.
Variable r : list Value -> list Value.
Variable pre : nat -> list Node.
Variable keep : nat -> bool.
Variable h : list Value -> list Value.
Hypothesis f_shape : forall n,
    f n = pre (n_id n) ++
          (if keep (n_id n)
           then [mkNode (n_id n) (n_kind n) (h (n_inputs n)) (n_outputs n)
                        (n_attr n) (n_blocks n)]
           else []).
Hypothesis pre_leaves : forall i x, In x (pre i) -> n_blocks x = [].

Let image := edit_image f r pre keep h.

Lemma nodes_shape b :
  (forall m, In m (nodes_of_block b) -> keep (n_id m) = false ->
             n_blocks m = []) ->
  nodes_of_block (rw_block f r b) = flat_map image (nodes_of_block b).
Proof.
  pattern b.
  apply Block_tree_ind with
    (P := fun n =>
            (forall m, In m (nodes_of_node n) -> keep (n_id m) = false ->
                       n_blocks m = []) ->
            flat_map nodes_of_node (rw_node f r n)
            = flat_map image (nodes_of_node n)); clear b.
  - intros i k ins outs a bs IH Hgone.
    rewrite rw_node_eq, f_shape.
    cbn [n_id n_kind n_inputs n_outputs n_attr n_blocks].
    rewrite flat_map_app, (flat_map_leaves (pre i)) by apply pre_leaves.
    cbn [nodes_of_node flat_map n_blocks]. fold nodes_of_block.
    unfold image, edit_image at 1. cbn [n_id]. rewrite <- app_assoc. f_equal.
    destruct (keep i) eqn:Ek.
    + cbn [flat_map app nodes_of_node n_blocks]. fold nodes_of_block.
      rewrite app_nil_r. unfold rewritten at 1.
      cbn [n_id n_kind n_inputs n_outputs n_attr n_blocks]. f_equal.
      rewrite CountFacts.flat_map_flat_map.
      assert (Hbs : forall b0, In b0 bs ->
                nodes_of_block (rw_block f r b0)
                = flat_map image (nodes_of_block b0)).
      { rewrite Forall_forall in IH. intros b0 Hb0. apply (IH b0 Hb0).
        intros m Hm. apply Hgone.
        apply nodes_of_node_nested with b0; assumption. }
      clear IH Hgone. induction bs as [|b0 bs IHbs]; [reflexivity|].
      simpl. rewrite (Hbs b0 (or_introl eq_refl)). f_equal.
      apply IHbs. intros b1 Hb1. apply Hbs. now right.
    + assert (bs = []) as ->.
      { apply (Hgone (mkNode i k ins outs a bs));
          [apply nodes_of_node_self | exact Ek]. }
      reflexivity.
  - intros ps ns rs IH Hgone. rewrite rw_block_eq.
    cbn [nodes_of_block b_nodes].
    rewrite !CountFacts.flat_map_flat_map. apply flat_map_ext_in. intros n Hn.
    rewrite Forall_forall in IH. apply (IH n Hn).
    intros m Hm. apply Hgone. apply in_flat_map. eauto.
Qed.

Lemma rewritten_leaf n :
  n_blocks n = [] ->
  rewritten f r h n =
  mkNode (n_id n) (n_kind n) (h (n_inputs n)) (n_outputs n) (n_attr n) [].
Proof. unfold rewritten. now intros ->. Qed.

(** The first node that passes a test the rewriting does not change. *)
Lemma find_shape (p : Node -> bool) b :
  (forall m, In m (nodes_of_block b) -> keep (n_id m) = false ->
             n_blocks m = []) ->
  (forall i x, In x (pre i) -> p x = false) ->
  (forall n, p (rewritten f r h n) = p n) ->
  (forall n, find p (nodes_of_block b) = Some n -> keep (n_id n) = true) ->
  find p (nodes_of_block (rw_block f r b))
  = option_map (rewritten f r h) (find p (nodes_of_block b)).
Proof.
  intros Hgone Hpre Hp Hkeep. rewrite (nodes_shape b Hgone).
  clear Hgone. induction (nodes_of_block b) as [|n l IH]; [reflexivity|].
  cbn [flat_map find]. unfold image, edit_image at 1.
  assert (Hpr : forall tail, find p (pre (n_id n) ++ tail) = find p tail).
  { intros tail. apply find_skip. apply Hpre. }
  rewrite <- app_assoc, Hpr. cbn [find] in Hkeep.
  destruct (p n) eqn:En.
  - rewrite (Hkeep n eq_refl). cbn [app find]. now rewrite Hp, En.
  - destruct (keep (n_id n)); cbn [app find]; [rewrite Hp, En|];
      apply IH; exact Hkeep.
Qed.

Lemma rewritten_mapped n : mapped h n (rewritten f r h n).
Proof.
  unfold mapped, rewritten. simpl. repeat split. now intros ->.
Qed.

Section On.
Variable b : Block.
Hypothesis gone_leaves :
  forall m, In m (nodes_of_block b) -> keep (n_id m) = false ->
            n_blocks m = [].

Lemma shape_in x' :
  In x' (nodes_of_block (rw_block f r b)) ->
  exists x, In x (nodes_of_block b) /\
            (In x' (pre (n_id x)) \/
             (keep (n_id x) = true /\ x' = rewritten f r h x)).
Proof.
  rewrite (nodes_shape b gone_leaves). intros H.
  apply in_flat_map in H as (x & Hx & H). exists x. split; [exact Hx|].
  unfold image, edit_image in H. apply in_app_or in H as [H|H]; [now left|right].
  destruct (keep (n_id x)); [|destruct H].
  destruct H as [<-|[]]. auto.
Qed.

Lemma shape_kept x :
  In x (nodes_of_block b) -> keep (n_id x) = true ->
  In (rewritten f r h x) (nodes_of_block (rw_block f r b)).
Proof.
  intros Hx Hk. rewrite (nodes_shape b gone_leaves).
  apply in_flat_map. exists x. split; [exact Hx|]. unfold image, edit_image.
  apply in_or_app. right. rewrite Hk. now left.
Qed.

Lemma shape_pre x y :
  In x (nodes_of_block b) -> In y (pre (n_id x)) ->
  In y (nodes_of_block (rw_block f r b)).
Proof.
  intros Hx Hy. rewrite (nodes_shape b gone_leaves).
  apply in_flat_map. exists x. split; [exact Hx|]. unfold image, edit_image.
  apply in_or_app. now left.
Qed.

Lemma shape_unique_ids :
  (forall x y i j, In x (pre i) -> In y (pre j) -> n_id x = n_id y -> x = y) ->
  (forall x i m, In x (pre i) -> In m (nodes_of_block b) ->
                 n_id x <> n_id m) ->
  unique_ids b -> unique_ids (rw_block f r b).
Proof.
  intros Hpp Hpf Hu x' y' Hx' Hy' E.
  apply shape_in in Hx' as (x & Hx & [Hpx|(_ & ->)]);
    apply shape_in in Hy' as (y & Hy & [Hpy|(_ & ->)]).
  - now apply (Hpp x' y' (n_id x) (n_id y)).
  - exfalso. simpl in E. now apply (Hpf x' (n_id x) y).
  - exfalso. simpl in E. symmetry in E. now apply (Hpf y' (n_id y) x).
  - simpl in E. now rewrite (Hu x y Hx Hy E).
Qed.

Lemma shape_ssa :
  (forall x y i j v, In x (pre i) -> In y (pre j) ->
                     defines v x = true -> defines v y = true -> x = y) ->
  (forall x i m v, In x (pre i) -> In m (nodes_of_block b) ->
                   defines v x = true -> defines v m = false) ->
  ssa b -> ssa (rw_block f r b).
Proof.
  intros Hpp Hpf Hs x' y' v Hx' Hy' Dx Dy.
  apply shape_in in Hx' as (x & Hx & [Hpx|(_ & ->)]);
    apply shape_in in Hy' as (y & Hy & [Hpy|(_ & ->)]).
  - now apply (Hpp x' y' (n_id x) (n_id y) v).
  - exfalso. unfold defines, rewritten in Dy. simpl in Dy.
    pose proof (Hpf x' (n_id x) y v Hpx Hy Dx) as H. unfold defines in H.
    congruence.
  - exfalso. unfold defines, rewritten in Dx. simpl in Dx.
    pose proof (Hpf y' (n_id y) x v Hpy Hx Dy) as H. unfold defines in H.
    congruence.
  - unfold defines, rewritten in Dx, Dy. simpl in Dx, Dy.
    now rewrite (Hs x y v Hx Hy Dx Dy).
Qed.

Lemma find_node_shape i :
  (forall j x, In x (pre j) -> n_id x <> i) -> keep i = true ->
  find_node (rw_block f r b) i
  = option_map (rewritten f r h) (find_node b i).
Proof.
  intros Hp Hk. unfold find_node. apply find_shape; auto.
  - intros j x Hx. apply Nat.eqb_neq. now apply (Hp j x).
  - intros n E. apply find_some in E as (_ & E).
    apply Nat.eqb_eq in E. now rewrite E.
Qed.

Lemma producer_shape v :
  (forall j x, In x (pre j) -> defines v x = false) ->
  (forall n, producer b v = Some n -> keep (n_id n) = true) ->
  producer (rw_block f r b) v
  = option_map (rewritten f r h) (producer b v).
Proof. intros Hp Hk. unfold producer. apply find_shape; auto. Qed.

End On.

End Shape.

End EditShape.

Module EditInstances.
Import RewriteFacts EditShape.

Lemma node_eta n :
  mkNode (n_id n) (n_kind n) (n_inputs n) (n_outputs n) (n_attr n)
         (n_blocks n) = n.
Proof. now destruct n. Qed.

Lemma mapped_leaf_id x x' :
  mapped (fun l => l) x x' -> n_blocks x = [] -> x' = x.
Proof.
  intros (H1 & H2 & H3 & H4 & H5 & H6) Hb. specialize (H6 Hb).
  destruct x, x'. simpl in *. congruence.
Qed.

Lemma mapped_trans h1 h2 h x y z :
  (forall l, h2 (h1 l) = h l) ->
  mapped h1 x y -> mapped h2 y z -> mapped h x z.
Proof.
  intros Hh (A1 & A2 & A3 & A4 & A5 & A6) (B1 & B2 & B3 & B4 & B5 & B6).
  unfold mapped. rewrite B1, B2, B3, B4, B5, A1, A2, A3, A4, A5, Hh.
  repeat split. auto.
Qed.

(** [replaceAllUsesWith] *)
Section Rauw.
Variables v w : Value.
Variable b : Block.

Let f := fun n : Node => [subst_node v w n].
Let r := map (replace_value v w).
Let h := map (replace_value v w).
Let pre := fun _ : nat => @nil Node.
Let keep := fun _ : nat => true.

Lemma rauw_f_shape : forall n,
    f n = pre (n_id n) ++
          (if keep (n_id n)
           then [mkNode (n_id n) (n_kind n) (h (n_inputs n)) (n_outputs n)
                        (n_attr n) (n_blocks n)]
           else []).
Proof. reflexivity. Qed.

Lemma rauw_pre_leaves : forall i x, In x (pre i) -> n_blocks x = [].
Proof. intros i x []. Qed.

Lemma rauw_gone : forall m, In m (nodes_of_block b) ->
                            keep (n_id m) = false -> n_blocks m = [].
Proof. intros m _ H. discriminate. Qed.

Lemma rauw_in x' :
  In x' (nodes_of_block (replaceAllUsesWith v w b)) ->
  exists x, In x (nodes_of_block b) /\ mapped h x x'.
Proof.
  intros H.
  destruct (shape_in f r pre keep h rauw_f_shape rauw_pre_leaves b
              rauw_gone x' H) as (x & Hx & [[]|(_ & ->)]).
  exists x. split; [exact Hx | apply rewritten_mapped].
Qed.

Lemma rauw_kept x :
  In x (nodes_of_block b) ->
  exists x', In x' (nodes_of_block (replaceAllUsesWith v w b)) /\
             mapped h x x'.
Proof.
  intros Hx. exists (rewritten f r h x). split; [|apply rewritten_mapped].
  apply (shape_kept f r pre keep h rauw_f_shape rauw_pre_leaves b
           rauw_gone x Hx eq_refl).
Qed.

Lemma rauw_unique_ids :
  unique_ids b -> unique_ids (replaceAllUsesWith v w b).
Proof.
  apply (shape_unique_ids f r pre keep h rauw_f_shape rauw_pre_leaves b
           rauw_gone).
  - intros x y i j [].
  - intros x i m [].
Qed.

Lemma rauw_ssa : ssa b -> ssa (replaceAllUsesWith v w b).
Proof.
  apply (shape_ssa f r pre keep h rauw_f_shape rauw_pre_leaves b rauw_gone).
  - intros x y i j u [].
  - intros x i m u [].
Qed.

Lemma rauw_find_node i x :
  find_node b i = Some x ->
  exists x', find_node (replaceAllUsesWith v w b) i = Some x' /\
             mapped h x x'.
Proof.
  intros H. exists (rewritten f r h x). split; [|apply rewritten_mapped].
  assert (E := find_node_shape f r pre keep h rauw_f_shape rauw_pre_leaves b
                 rauw_gone i (fun j y (Hy : In y (pre j)) =>
                                match Hy with end) eq_refl).
  rewrite H in E. exact E.
Qed.

Lemma rauw_producer u x :
  producer b u = Some x ->
  exists x', producer (replaceAllUsesWith v w b) u = Some x' /\
             mapped h x x'.
Proof.
  intros H. exists (rewritten f r h x). split; [|apply rewritten_mapped].
  assert (E := producer_shape f r pre keep h rauw_f_shape rauw_pre_leaves b
                 rauw_gone u (fun j y (Hy : In y (pre j)) =>
                                match Hy with end) (fun _ _ => eq_refl)).
  rewrite H in E. exact E.
Qed.

Lemma rauw_returns :
  b_returns (replaceAllUsesWith v w b) = map (replace_value v w) (b_returns b).
Proof. unfold replaceAllUsesWith. now rewrite rw_block_eq. Qed.

End Rauw.

(** [destroy] of a node without nested blocks *)
Section Destroy.
Variable t : nat.
Variable b : Block.
Hypothesis target_leaf :
  forall m, In m (nodes_of_block b) -> n_id m = t -> n_blocks m = [].

Let f := fun n : Node => if Nat.eqb (n_id n) t then [] else [n].
Let r := fun rs : list Value => rs.
Let h := fun l : list Value => l.
Let pre := fun _ : nat => @nil Node.
Let keep := fun i : nat => negb (Nat.eqb i t).

Lemma destroy_f_shape : forall n,
    f n = pre (n_id n) ++
          (if keep (n_id n)
           then [mkNode (n_id n) (n_kind n) (h (n_inputs n)) (n_outputs n)
                        (n_attr n) (n_blocks n)]
           else []).
Proof.
  intros n. unfold f, pre, keep, h. cbn [app]. rewrite node_eta.
  now destruct (Nat.eqb (n_id n) t).
Qed.

Lemma destroy_gone_leaves : forall m, In m (nodes_of_block b) ->
                                 keep (n_id m) = false -> n_blocks m = [].
Proof.
  intros m Hm H. apply target_leaf; [exact Hm|].
  unfold keep in H. apply negb_false_iff in H. now apply Nat.eqb_eq.
Qed.

Lemma keep_neq i : i <> t -> keep i = true.
Proof. intros H. unfold keep. apply negb_true_iff. now apply Nat.eqb_neq. Qed.

Lemma destroy_in x' :
  In x' (nodes_of_block (destroy t b)) ->
  exists x, In x (nodes_of_block b) /\ n_id x <> t /\ mapped h x x'.
Proof.
  intros H.
  destruct (shape_in f r pre keep h destroy_f_shape rauw_pre_leaves b
              destroy_gone_leaves x' H) as (x & Hx & [[]|(Hk & ->)]).
  exists x. split; [exact Hx|]. split; [|apply rewritten_mapped].
  unfold keep in Hk. apply negb_true_iff in Hk. now apply Nat.eqb_neq.
Qed.

Lemma destroy_kept x :
  In x (nodes_of_block b) -> n_id x <> t ->
  exists x', In x' (nodes_of_block (destroy t b)) /\ mapped h x x'.
Proof.
  intros Hx Hne. exists (rewritten f r h x).
  split; [|apply rewritten_mapped].
  apply (shape_kept f r pre keep h destroy_f_shape rauw_pre_leaves b
           destroy_gone_leaves x Hx (keep_neq _ Hne)).
Qed.

Lemma destroy_unique_ids : unique_ids b -> unique_ids (destroy t b).
Proof.
  apply (shape_unique_ids f r pre keep h destroy_f_shape rauw_pre_leaves b
           destroy_gone_leaves).
  - intros x y i j [].
  - intros x i m [].
Qed.

Lemma destroy_find_node i x :
  i <> t -> find_node b i = Some x ->
  exists x', find_node (destroy t b) i = Some x' /\ mapped h x x'.
Proof.
  intros Hne H. exists (rewritten f r h x).
  split; [|apply rewritten_mapped].
  assert (E := find_node_shape f r pre keep h destroy_f_shape
                 rauw_pre_leaves b destroy_gone_leaves i
                 (fun j y (Hy : In y (pre j)) => match Hy with end)
                 (keep_neq _ Hne)).
  rewrite H in E. exact E.
Qed.

Lemma destroy_producer u x :
  producer b u = Some x -> n_id x <> t ->
  exists x', producer (destroy t b) u = Some x' /\ mapped h x x'.
Proof.
  intros H Hne. exists (rewritten f r h x).
  split; [|apply rewritten_mapped].
  assert (Hk : forall n, producer b u = Some n -> keep (n_id n) = true).
  { intros n Hn. rewrite H in Hn. injection Hn as <-. now apply keep_neq. }
  assert (E := producer_shape f r pre keep h destroy_f_shape
                 rauw_pre_leaves b destroy_gone_leaves u
                 (fun j y (Hy : In y (pre j)) => match Hy with end) Hk).
  rewrite H in E. exact E.
Qed.

Lemma destroy_keeps_returns : b_returns (destroy t b) = b_returns b.
Proof. unfold destroy. now rewrite rw_block_eq. Qed.

End Destroy.

(** [insertAllBefore] of nodes without nested blocks *)
Section InsertAll.
Variable news : list Node.
Variable t : nat.
Variable b : Block.
Hypothesis news_leaves : forall x, In x news -> n_blocks x = [].

Let f := fun n : Node => if Nat.eqb (n_id n) t then news ++ [n] else [n].
Let r := fun rs : list Value => rs.
Let h := fun l : list Value => l.
Let pre := fun i : nat => if Nat.eqb i t then news else [].
Let keep := fun _ : nat => true.

Lemma insertAll_f_shape : forall n,
    f n = pre (n_id n) ++
          (if keep (n_id n)
           then [mkNode (n_id n) (n_kind n) (h (n_inputs n)) (n_outputs n)
                        (n_attr n) (n_blocks n)]
           else []).
Proof.
  intros n. unfold f, pre, keep, h. rewrite node_eta.
  now destruct (Nat.eqb (n_id n) t).
Qed.

Lemma insertAll_pre_leaves : forall i x, In x (pre i) -> n_blocks x = [].
Proof.
  intros i x. unfold pre. destruct (Nat.eqb i t); [apply news_leaves|].
  intros [].
Qed.

Lemma insertAll_gone : forall m, In m (nodes_of_block b) ->
                                 keep (n_id m) = false -> n_blocks m = [].
Proof. intros m _ H. discriminate. Qed.

Lemma pre_news i x : In x (pre i) -> In x news.
Proof. unfold pre. destruct (Nat.eqb i t); [auto | intros []]. Qed.

Lemma insertAll_in x' :
  In x' (nodes_of_block (insertAllBefore news t b)) ->
  In x' news \/ exists x, In x (nodes_of_block b) /\ mapped h x x'.
Proof.
  intros H.
  destruct (shape_in f r pre keep h insertAll_f_shape insertAll_pre_leaves b
              insertAll_gone x' H) as (x & Hx & [Hp|(_ & ->)]).
  - left. now apply pre_news with (n_id x).
  - right. exists x. split; [exact Hx | apply rewritten_mapped].
Qed.

Lemma insertAll_kept x :
  In x (nodes_of_block b) ->
  exists x', In x' (nodes_of_block (insertAllBefore news t b)) /\
             mapped h x x'.
Proof.
  intros Hx. exists (rewritten f r h x). split; [|apply rewritten_mapped].
  apply (shape_kept f r pre keep h insertAll_f_shape insertAll_pre_leaves b
           insertAll_gone x Hx eq_refl).
Qed.

Lemma insertAll_new m y :
  In m (nodes_of_block b) -> n_id m = t -> In y news ->
  In y (nodes_of_block (insertAllBefore news t b)).
Proof.
  intros Hm Hid Hy.
  apply (shape_pre f r pre keep h insertAll_f_shape insertAll_pre_leaves b
           insertAll_gone m y Hm).
  unfold pre. rewrite Hid, Nat.eqb_refl. exact Hy.
Qed.

Lemma insertAll_unique_ids :
  (forall x y, In x news -> In y news -> n_id x = n_id y -> x = y) ->
  (forall x m, In x news -> In m (nodes_of_block b) -> n_id x <> n_id m) ->
  unique_ids b -> unique_ids (insertAllBefore news t b).
Proof.
  intros Hnn Hnf.
  apply (shape_unique_ids f r pre keep h insertAll_f_shape
           insertAll_pre_leaves b insertAll_gone).
  - intros x y i j Hx Hy. apply Hnn; eapply pre_news; eauto.
  - intros x i m Hx. apply Hnf. eapply pre_news; eauto.
Qed.

Lemma insertAll_ssa :
  (forall x y u, In x news -> In y news -> defines u x = true ->
                 defines u y = true -> x = y) ->
  (forall x m u, In x news -> In m (nodes_of_block b) ->
                 defines u x = true -> defines u m = false) ->
  ssa b -> ssa (insertAllBefore news t b).
Proof.
  intros Hnn Hnf.
  apply (shape_ssa f r pre keep h insertAll_f_shape insertAll_pre_leaves b
           insertAll_gone).
  - intros x y i j u Hx Hy. apply Hnn; eapply pre_news; eauto.
  - intros x i m u Hx. apply Hnf. eapply pre_news; eauto.
Qed.

Lemma insertAll_find_node i x :
  (forall y, In y news -> n_id y <> i) -> find_node b i = Some x ->
  exists x', find_node (insertAllBefore news t b) i = Some x' /\
             mapped h x x'.
Proof.
  intros Hn H. exists (rewritten f r h x).
  split; [|apply rewritten_mapped].
  assert (Hp : forall j y, In y (pre j) -> n_id y <> i)
    by (intros j y Hy; apply Hn; eapply pre_news; eauto).
  assert (E := find_node_shape f r pre keep h insertAll_f_shape
                 insertAll_pre_leaves b insertAll_gone i Hp eq_refl).
  rewrite H in E. exact E.
Qed.

Lemma insertAll_producer u x :
  (forall y, In y news -> defines u y = false) -> producer b u = Some x ->
  exists x', producer (insertAllBefore news t b) u = Some x' /\
             mapped h x x'.
Proof.
  intros Hn H. exists (rewritten f r h x).
  split; [|apply rewritten_mapped].
  assert (Hp : forall j y, In y (pre j) -> defines u y = false)
    by (intros j y Hy; apply Hn; eapply pre_news; eauto).
  assert (E := producer_shape f r pre keep h insertAll_f_shape
                 insertAll_pre_leaves b insertAll_gone u Hp
                 (fun _ _ => eq_refl)).
  rewrite H in E. exact E.
Qed.

Lemma insertAll_returns :
  b_returns (insertAllBefore news t b) = b_returns b.
Proof. unfold insertAllBefore. now rewrite rw_block_eq. Qed.

End InsertAll.

End EditInstances.

(** ** The two loops of [cleanupExpandedCatOps] *)

Module RewiredFacts.

Lemma rewired_app P Q x : rewired (P ++ Q) x = rewired Q (rewired P x).
Proof. unfold rewired. apply fold_left_app. Qed.

Lemma rewired_other P : forall x,
  (forall p, In p P -> fst p <> x) -> rewired P x = x.
Proof.
  induction P as [|p P IH]; intros x H; [reflexivity|]. simpl.
  unfold replace_value.
  replace (Nat.eqb x (fst p)) with false.
  - apply IH. intros q Hq. apply H. now right.
  - symmetry. apply Nat.eqb_neq. intros E. apply (H p); auto. now left.
Qed.

Lemma rewired_key P : forall k v,
  NoDup (map (@fst Value Value) P) -> In (k, v) P ->
  (forall q, In q P -> fst q <> v) ->
  rewired P k = v.
Proof.
  induction P as [|p P IH]; intros k v Hnd Hin Hv; [destruct Hin|].
  inversion Hnd as [|? ? Hnotin Hnd']; subst. simpl.
  destruct Hin as [->|Hin].
  - simpl. unfold replace_value. rewrite Nat.eqb_refl.
    apply rewired_other. intros q Hq. apply Hv. now right.
  - unfold replace_value.
    replace (Nat.eqb k (fst p)) with false.
    + apply IH; auto. intros q Hq. apply Hv. now right.
    + symmetry. apply Nat.eqb_neq. intros E. apply Hnotin. rewrite <- E.
      apply in_map_iff. exists (k, v). auto.
Qed.

Lemma count_value_in v l : In v l -> count_value v l <> 0.
Proof.
  unfold count_value. induction l as [|a l IH]; [intros []|].
  simpl. intros [->|H].
  - rewrite Nat.eqb_refl. simpl. lia.
  - destruct (Nat.eqb v a); simpl; [lia | auto].
Qed.

Lemma uses_in b x v :
  In x (nodes_of_block b) -> In v (n_inputs x) -> hasUses b v = true.
Proof.
  intros Hx Hv. unfold hasUses, num_uses. apply negb_true_iff.
  apply Nat.eqb_neq.
  assert (count_value v (flat_map n_inputs (nodes_of_block b)) <> 0).
  { apply count_value_in. apply in_flat_map. eauto. }
  lia.
Qed.

End RewiredFacts.

Module CleanupPhases.
Import Expander EditInstances RewiredFacts.

(** No redirection sends a value to the source of another one. *)
Lemma redirection_apart b p q :
  ssa b -> redirection b p -> redirection b q -> fst p <> snd q.
Proof.
  intros Hs ((c & Hc & Hck & Hcd) & _) (_ & (e & He & Hek & Hed)) E.
  rewrite E in Hcd. rewrite (Hs c e _ Hc He Hcd Hed) in Hck. congruence.
Qed.

Lemma redirection_rauw v w b p :
  redirection b p -> redirection (replaceAllUsesWith v w b) p.
Proof.
  intros ((c & Hc & Hck & Hcd) & (e & He & Hek & Hed)).
  destruct (rauw_kept v w b c Hc) as (c' & Hc' & (_ & Hk & Ho & _)).
  destruct (rauw_kept v w b e He) as (e' & He' & (_ & Hk' & Ho' & _)).
  split; [exists c' | exists e']; (split; [assumption|]);
    unfold defines in *; split; congruence.
Qed.

(** The first loop of [cleanupExpandedCatOps]. *)
Lemma rauw_fold Q : forall b,
  unique_ids b -> ssa b -> (forall p, In p Q -> redirection b p) ->
  let B := fold_left (fun bb p => replaceAllUsesWith (fst p) (snd p) bb)
                     Q b in
  unique_ids B /\ ssa B /\
  (forall p, redirection b p -> redirection B p) /\
  (forall p, In p Q -> unused (fst p) B) /\
  b_returns B = map (rewired Q) (b_returns b) /\
  (forall x, In x (nodes_of_block b) ->
             exists x', In x' (nodes_of_block B) /\
                        mapped (map (rewired Q)) x x') /\
  (forall i x, find_node b i = Some x ->
               exists x', find_node B i = Some x' /\
                          mapped (map (rewired Q)) x x') /\
  (forall u x, producer b u = Some x ->
               exists x', producer B u = Some x' /\
                          mapped (map (rewired Q)) x x').
Proof.
  induction Q as [|p Q IH] using rev_ind; intros b Hu Hs Hred B.
  - subst B. simpl. split; [exact Hu|]. split; [exact Hs|].
    split; [auto|]. split; [intros p []|].
    assert (Hid : forall x, mapped (map (rewired [])) x x).
    { intros x. unfold mapped. repeat split; auto.
      unfold rewired. simpl. now rewrite map_id. }
    split; [unfold rewired; simpl; now rewrite map_id|].
    split; [eauto|]. split; eauto.
  - assert (HredQ : forall q, In q Q -> redirection b q).
    { intros q Hq. apply Hred. apply in_or_app. now left. }
    destruct (IH b Hu Hs HredQ) as (Hu1 & Hs1 & Hr1 & Hun1 & Hret1 & Hin1 &
                                    Hf1 & Hp1).
    set (B1 := fold_left (fun bb q => replaceAllUsesWith (fst q) (snd q) bb)
                         Q b) in *.
    assert (EB : B = replaceAllUsesWith (fst p) (snd p) B1).
    { subst B B1. now rewrite fold_left_app. }
    rewrite EB. clear EB B.
    assert (Hp : redirection B1 p).
    { apply Hr1, Hred. apply in_or_app. right. now left. }
    assert (Hcomp : forall l,
               map (replace_value (fst p) (snd p)) (map (rewired Q) l)
               = map (rewired (Q ++ [p])) l).
    { intros l. rewrite map_map. apply map_ext. intros y.
      now rewrite rewired_app. }
    split; [now apply rauw_unique_ids|]. split; [now apply rauw_ssa|].
    split; [intros q Hq; now apply redirection_rauw, Hr1|].
    split.
    { intros q Hq. apply in_app_or in Hq as [Hq|[<-|[]]].
      - apply UnusedFacts.replaceAllUsesWith_other_unused; [|now apply Hun1].
        apply (redirection_apart B1 q p Hs1); [apply Hr1, HredQ|]; auto.
      - apply LeafEdits.replaceAllUsesWith_unused.
        now apply (redirection_apart B1 p p Hs1). }
    split; [rewrite rauw_returns, Hret1; apply Hcomp|].
    split; [|split].
    + intros x Hx. destruct (Hin1 x Hx) as (x1 & Hx1 & Hm1).
      destruct (rauw_kept (fst p) (snd p) B1 x1 Hx1) as (x2 & Hx2 & Hm2).
      exists x2. split; [exact Hx2|].
      apply (mapped_trans _ _ _ x x1 x2 Hcomp Hm1 Hm2).
    + intros i x Hx. destruct (Hf1 i x Hx) as (x1 & Hx1 & Hm1).
      destruct (rauw_find_node (fst p) (snd p) B1 i x1 Hx1)
        as (x2 & Hx2 & Hm2).
      exists x2. split; [exact Hx2|].
      apply (mapped_trans _ _ _ x x1 x2 Hcomp Hm1 Hm2).
    + intros u x Hx. destruct (Hp1 u x Hx) as (x1 & Hx1 & Hm1).
      destruct (rauw_producer (fst p) (snd p) B1 u x1 Hx1)
        as (x2 & Hx2 & Hm2).
      exists x2. split; [exact Hx2|].
      apply (mapped_trans _ _ _ x x1 x2 Hcomp Hm1 Hm2).
Qed.

Lemma find_node_in b i x :
  find_node b i = Some x -> In x (nodes_of_block b) /\ n_id x = i.
Proof.
  unfold find_node. intros H. apply find_some in H as (Hin & E).
  split; [exact Hin|]. now apply Nat.eqb_eq.
Qed.

Lemma producer_in b u x :
  producer b u = Some x -> In x (nodes_of_block b) /\ defines u x = true.
Proof. unfold producer. intros H. now apply find_some in H. Qed.

Lemma recorded_cat_destroy t B m o :
  unique_ids B ->
  (forall x, In x (nodes_of_block B) -> n_id x = t -> n_blocks x = []) ->
  n_id m <> t ->
  (forall L l, producer B l = Some L -> n_kind L = prim_ListConstruct ->
               (exists n' a, find_node B (n_id m) = Some n' /\
                             n_inputs n' = [l; a]) ->
               n_id L <> t) ->
  recorded_cat B m o -> recorded_cat (destroy t B) m o.
Proof.
  intros Hu Hleaf Hne HL
         (n' & l & a & ty & L & lt & Hf & Hb & Hk & Hi & Ho & Hp & HLb &
          HLk & HLo).
  destruct (destroy_find_node t B Hleaf (n_id m) n' Hne Hf)
    as (n2 & Hf2 & Hm2).
  apply mapped_leaf_id in Hm2; [|exact Hb]. subst n2.
  assert (HLt : n_id L <> t) by (apply (HL L l); eauto).
  destruct (destroy_producer t B Hleaf l L Hp HLt) as (L2 & Hp2 & HmL).
  apply mapped_leaf_id in HmL; [|exact HLb]. subst L2.
  exists n', l, a, ty, L, lt. repeat split; assumption.
Qed.

(** One call of [removeCatNodeFromGraph] on a recorded concat whose
    output has no use left. *)
Lemma remove_step B n o :
  unique_ids B -> recorded_cat B n o -> unused o B ->
  exists B',
    removeCatNodeFromGraph B n = Some B' /\
    unique_ids B' /\ b_returns B' = b_returns B /\
    (forall v, unused v B -> unused v B') /\
    (forall x, In x (nodes_of_block B) ->
               (exists x', In x' (nodes_of_block B') /\
                           mapped (fun l => l) x x') \/
               ((n_kind x = aten_cat \/ n_kind x = prim_ListConstruct) /\
                forall y, In y (nodes_of_block B') -> n_id y <> n_id x)) /\
    (forall m o', n_id m <> n_id n -> recorded_cat B m o' ->
                  recorded_cat B' m o').
Proof.
  intros Hu Hrec Hun.
  pose proof Hrec as (n' & l & a & ty & L & lt & Hf & Hb & Hk & Hi & Ho &
                      Hp & HLb & HLk & HLo).
  destruct (find_node_in _ _ _ Hf) as (Hn'in & Hn'id).
  destruct (producer_in _ _ _ Hp) as (HLin & _).
  assert (Hleaf : forall x, In x (nodes_of_block B) -> n_id x = n_id n ->
                            n_blocks x = []).
  { intros x Hx E. rewrite (Hu x n' Hx Hn'in); [exact Hb | congruence]. }
  set (B1 := destroy (n_id n) B).
  assert (Hstep1 : Node_destroy (n_id n') B = Some B1).
  { rewrite Hn'id. apply DestroyFacts.Node_destroy_unused with n';
      [exact Hf|].
    intros o0 Ho0. rewrite Ho in Ho0. destruct Ho0 as [<-|[]].
    now apply LeafEdits.unused_no_uses. }
  assert (Hu1 : unique_ids B1) by (now apply destroy_unique_ids).
  assert (Hun1 : forall v, unused v B -> unused v B1)
    by (intros v; apply LeafEdits.destroy_unused).
  assert (Hkeep1 : forall x, In x (nodes_of_block B) ->
                             (exists x', In x' (nodes_of_block B1) /\
                                         mapped (fun l => l) x x') \/
                             (n_kind x = aten_cat /\
                              forall y, In y (nodes_of_block B1) ->
                                        n_id y <> n_id x)).
  { intros x Hx. destruct (Nat.eq_dec (n_id x) (n_id n)) as [E|Hne].
    - right. split; [rewrite (Hu x n' Hx Hn'in); congruence|].
      intros y Hy. rewrite E. exact (@UseFacts.destroy_gone _ _ _ Hy).
    - left. now apply destroy_kept. }
  assert (Hrec1 : forall m o', n_id m <> n_id n -> recorded_cat B m o' ->
                               recorded_cat B1 m o').
  { intros m o' Hne Hm. apply recorded_cat_destroy; auto.
    intros L0 l0 HpL0 HkL0 _ E.
    destruct (producer_in _ _ _ HpL0) as (HL0in & _).
    rewrite (Hu L0 n' HL0in Hn'in) in HkL0; congruence. }
  unfold removeCatNodeFromGraph. rewrite Hf. cbn [bind]. rewrite Hk.
  cbn [Symbol_eqb negb]. unfold input. rewrite Hi. cbn [nth_error bind].
  rewrite Hstep1. cbn [bind]. rewrite Hp.
  destruct (hasUses B1 l) eqn:Euse; cbn [negb].
  - exists B1. split; [reflexivity|]. split; [exact Hu1|].
    split; [apply destroy_keeps_returns|]. split; [exact Hun1|].
    split; [|exact Hrec1]. intros x Hx.
    destruct (Hkeep1 x Hx) as [H|(Hk1 & H)]; [now left | right; auto].
  - assert (Hleaf1 : forall x, In x (nodes_of_block B1) ->
                               n_id x = n_id L -> n_blocks x = []).
    { intros x Hx E.
      destruct (destroy_in (n_id n) B Hleaf x Hx) as (x0 & Hx0 & _ & Hm).
      destruct Hm as (Hid & _ & _ & _ & _ & Hbl). apply Hbl.
      rewrite (Hu x0 L Hx0 HLin); [exact HLb | congruence]. }
    exists (destroy (n_id L) B1). split; [reflexivity|].
    split; [now apply destroy_unique_ids|].
    split; [rewrite destroy_keeps_returns; apply destroy_keeps_returns|].
    split; [intros v Hv; now apply LeafEdits.destroy_unused, Hun1|].
    split.
    + intros x Hx.
      destruct (Hkeep1 x Hx) as [(x1 & Hx1 & Hm1)|(Hk1 & Habs)].
      * destruct (Nat.eq_dec (n_id x) (n_id L)) as [E|Hne].
        -- right. split; [right; rewrite (Hu x L Hx HLin); congruence|].
           intros y Hy. rewrite E.
           exact (@UseFacts.destroy_gone _ _ _ Hy).
        -- left.
           destruct (destroy_kept (n_id L) B1 Hleaf1 x1 Hx1)
             as (x2 & Hx2 & Hm2).
           { destruct Hm1 as (Hid & _). now rewrite Hid. }
           exists x2. split; [exact Hx2|].
           apply (mapped_trans _ _ _ x x1 x2 (fun _ => eq_refl) Hm1 Hm2).
      * right. split; [now left|].
        now apply ReuseFacts.destroy_absent.
    + intros m o' Hne Hm. pose proof (Hrec1 m o' Hne Hm) as Hm1.
      apply recorded_cat_destroy; auto.
      * destruct Hm as (m' & _ & _ & _ & _ & _ & Hfm & _ & Hkm & _).
        destruct (find_node_in _ _ _ Hfm) as (Hm'in & Hm'id).
        intros E. rewrite <- Hm'id in E.
        rewrite (Hu m' L Hm'in HLin E) in Hkm. congruence.
      * intros L0 l0 HpL0 HkL0 (m1 & a1 & Hfm1 & Him1) E.
        destruct Hm1 as (m1' & l1 & a1' & t1 & L1 & lt1 & Hf1 & _ & _ &
                         Hi1 & _ & Hp1 & HL1b & _ & HL1o).
        rewrite Hfm1 in Hf1. injection Hf1 as <-.
        rewrite Him1 in Hi1. injection Hi1 as <- <-.
        rewrite HpL0 in Hp1. injection Hp1 as <-.
        (* the list of [m] is the list of [n]: it is still read *)
        destruct (producer_in _ _ _ HpL0) as (HL0in & _).
        destruct (destroy_in (n_id n) B Hleaf L0 HL0in)
          as (L00 & HL00 & _ & HmL).
        assert (L00 = L).
        { apply (Hu L00 L HL00 HLin). destruct HmL as (Hid & _).
          congruence. }
        subst L00. destruct HmL as (_ & _ & HoL & _).
        rewrite HL1o, HLo in HoL. injection HoL as -> _.
        destruct (find_node_in _ _ _ Hfm1) as (Hm1in & _).
        assert (hasUses B1 l = true).
        { apply (uses_in B1 m1 l Hm1in). rewrite Him1. now left. }
        congruence.
Qed.

(** The second loop of [cleanupExpandedCatOps]. *)
Lemma removal_fold R : forall B,
  unique_ids B -> NoDup (map n_id R) ->
  (forall n, In n R -> exists o, recorded_cat B n o /\ unused o B) ->
  exists bf,
    fold_left (fun acc n => bb <- acc ;; removeCatNodeFromGraph bb n)
              R (Some B) = Some bf /\
    b_returns bf = b_returns B /\
    (forall v, unused v B -> unused v bf) /\
    (forall x, In x (nodes_of_block B) ->
               (exists x', In x' (nodes_of_block bf) /\
                           mapped (fun l => l) x x') \/
               ((n_kind x = aten_cat \/ n_kind x = prim_ListConstruct) /\
                forall y, In y (nodes_of_block bf) -> n_id y <> n_id x)).
Proof.
  induction R as [|n R IH]; intros B Hu Hnd HR.
  - exists B. split; [reflexivity|]. split; [reflexivity|].
    split; [auto|]. intros x Hx. left. exists x. split; [exact Hx|].
    unfold mapped. repeat split; auto.
  - inversion Hnd as [|? ? Hnotin Hnd']; subst.
    destruct (HR n (or_introl eq_refl)) as (o & Hrec & Hun).
    destruct (remove_step B n o Hu Hrec Hun)
      as (B1 & Hstep & Hu1 & Hret1 & Hun1 & Hkeep1 & Hrec1).
    destruct (IH B1 Hu1 Hnd') as (bf & Hfold & Hret & Hunf & Hkeep).
    { intros m Hm. destruct (HR m (or_intror Hm)) as (o' & Hr' & Hu').
      exists o'. split; [|now apply Hun1]. apply Hrec1; [|exact Hr'].
      intros E. apply Hnotin. rewrite <- E. now apply in_map. }
    exists bf. cbn [fold_left bind]. rewrite Hstep.
    split; [exact Hfold|]. split; [congruence|].
    split; [intros v Hv; now apply Hunf, Hun1|].
    intros x Hx.
    destruct (Hkeep1 x Hx) as [(x1 & Hx1 & Hm1)|(Hk1 & Habs)].
    + destruct (Hkeep x1 Hx1) as [(x2 & Hx2 & Hm2)|(Hk2 & Habs)].
      * left. exists x2. split; [exact Hx2|].
        apply (mapped_trans _ _ _ x x1 x2 (fun _ => eq_refl) Hm1 Hm2).
      * right. destruct Hm1 as (Hid & Hk & _). rewrite Hk, Hid in *. auto.
    + right. split; [exact Hk1|].
      apply (CleanupFacts.remove_all_absent _ _ Hfold). now right.
Qed.

End CleanupPhases.

Module CleanupWhole.
Import Expander EditInstances RewiredFacts CleanupPhases.

Lemma single_output_defines n o t : n_outputs n = [(o, t)] -> defines o n = true.
Proof. unfold defines. intros ->. simpl. now rewrite Nat.eqb_refl. Qed.

Lemma single_output_defined n o t v :
  n_outputs n = [(o, t)] -> defines v n = true -> v = o.
Proof.
  unfold defines. intros ->. simpl. rewrite orb_false_r.
  intros E. symmetry. now apply Nat.eqb_eq.
Qed.

(** A list is not the source of a redirection. *)
Lemma list_not_redirected b p L l lt :
  ssa b -> redirection b p -> In L (nodes_of_block b) ->
  n_kind L = prim_ListConstruct -> n_outputs L = [(l, lt)] -> fst p <> l.
Proof.
  intros Hs ((c & Hc & Hck & Hcd) & _) HL HLk HLo E.
  rewrite E in Hcd.
  rewrite (Hs c L l Hc HL Hcd (single_output_defines _ _ _ HLo)) in Hck.
  congruence.
Qed.

(** [cleanupExpandedCatOps] on deferred edits as the expander records
    them: it returns; the recorded concats are gone, the values
    redirected have no use left, and every node is either still there,
    reading what the redirections make of its inputs, or a list-form
    concat or list construction that is gone. *)
Lemma cleanup_pending st :
  let b := g_block (graph_ st) in
  let P := replace_uses_with_ st in
  pending_ok b P (nodes_to_remove_ st) ->
  exists bf,
    cleanupExpandedCatOps st = Some bf /\
    (forall n, In n (nodes_to_remove_ st) -> find_node bf (n_id n) = None) /\
    (forall p, In p P -> num_uses bf (fst p) = 0) /\
    b_returns bf = map (rewired P) (b_returns b) /\
    (forall x, In x (nodes_of_block b) ->
               (exists x', In x' (nodes_of_block bf) /\
                           mapped (map (rewired P)) x x') \/
               ((n_kind x = aten_cat \/ n_kind x = prim_ListConstruct) /\
                find_node bf (n_id x) = None)).
Proof.
  intros b P (Hu & Hs & HndP & Hred & HndR & HR).
  destruct (rauw_fold P b Hu Hs Hred)
    as (HuB & HsB & HredB & HunB & HretB & HinB & HfB & HpB).
  set (B := fold_left (fun bb p => replaceAllUsesWith (fst p) (snd p) bb)
                      P b) in *.
  destruct (removal_fold (nodes_to_remove_ st) B HuB HndR)
    as (bf & Hfold & Hret & Hun & Hkeep).
  { intros n Hn. destruct (HR n Hn) as (o & u & Hou & Hrec).
    exists o. split; [|apply (HunB (o, u) Hou)].
    destruct Hrec as (n' & l & a & ty & L & lt & Hf & Hb & Hk & Hi & Ho &
                      Hp & HLb & HLk & HLo).
    destruct (HfB _ _ Hf) as (n2 & Hf2 & (_ & Hk2 & Ho2 & _ & Hi2 & Hb2)).
    destruct (HpB _ _ Hp) as (L2 & Hp2 & (_ & HLk2 & HLo2 & _ & _ & HLb2)).
    destruct (producer_in _ _ _ Hp) as (HLin & _).
    assert (El : rewired P l = l).
    { apply rewired_other. intros p Hp0.
      apply (list_not_redirected b p L l lt); auto. }
    exists n2, l, (rewired P a), ty, L2, lt.
    rewrite Hi in Hi2. simpl in Hi2. rewrite El in Hi2.
    repeat split; auto; congruence. }
  exists bf. split; [exact Hfold|]. split; [|split; [|split]].
  - intros n Hn. apply ReuseFacts.find_node_none.
    apply (CleanupFacts.remove_all_absent _ _ Hfold). left.
    now apply in_map.
  - intros p Hp. apply LeafEdits.unused_no_uses. now apply Hun, HunB.
  - now rewrite Hret, HretB.
  - intros x Hx. destruct (HinB x Hx) as (x1 & Hx1 & Hm1).
    destruct (Hkeep x1 Hx1) as [(x2 & Hx2 & Hm2)|(Hk2 & Habs)].
    + left. exists x2. split; [exact Hx2|].
      apply (mapped_trans (map (rewired P)) (fun l => l) (map (rewired P))
               x x1 x2 (fun _ => eq_refl) Hm1 Hm2).
    + right. destruct Hm1 as (Hid & Hk & _). rewrite Hk, Hid in *.
      split; [exact Hk2|]. now apply ReuseFacts.find_node_none.
Qed.

(** *** The deferred edits after one more expansion *)

Lemma redirect_set_in k v P p :
  In p (map_set k v P) -> In p P \/ p = (k, v).
Proof.
  induction P as [|[k' v'] P IH]; simpl.
  - intros [<-|[]]. now right.
  - destruct (Nat.eqb k k') eqn:E.
    + apply Nat.eqb_eq in E. subst k'. intros [<-|H]; [now right|].
      left. now right.
    + intros [<-|H]; [left; now left|].
      destruct (IH H) as [Hin|E0]; [left; now right | now right].
Qed.

Lemma redirect_set_has k v P : In (k, v) (map_set k v P).
Proof.
  induction P as [|[k' v'] P IH]; simpl; [now left|].
  destruct (Nat.eqb k k') eqn:E.
  - apply Nat.eqb_eq in E. subst k'. now left.
  - now right.
Qed.

Lemma redirect_set_keys k v P x :
  In x (map (@fst Value Value) (map_set k v P)) <->
  x = k \/ In x (map (@fst Value Value) P).
Proof.
  induction P as [|[k' v'] P IH]; simpl.
  - intuition.
  - destruct (Nat.eqb k k') eqn:E; simpl.
    + apply Nat.eqb_eq in E. subst k'. intuition.
    + rewrite IH. intuition.
Qed.

Lemma redirect_set_nodup k v P :
  NoDup (map (@fst Value Value) P) ->
  NoDup (map (@fst Value Value) (map_set k v P)).
Proof.
  induction P as [|[k' v'] P IH]; simpl; intros H.
  - repeat constructor. intros [].
  - inversion H as [|? ? Hn Hd]; subst.
    destruct (Nat.eqb k k') eqn:E; simpl; [now constructor|].
    constructor; [|now apply IH].
    rewrite redirect_set_keys. intros [->|Hin]; [|contradiction].
    now rewrite Nat.eqb_refl in E.
Qed.

Lemma redirect_set_key_kept k v P o u :
  In (o, u) P -> exists u', In (o, u') (map_set k v P).
Proof.
  induction P as [|[k' v'] P IH]; simpl; [intros []|].
  destruct (Nat.eqb k k') eqn:E.
  - apply Nat.eqb_eq in E. subst k'. intros [[= <- <-]|H].
    + exists v. now left.
    + exists u. now right.
  - intros [[= <- <-]|H]; [exists v'; now left|].
    destruct (IH H) as (u' & Hu'). exists u'. now right.
Qed.

Lemma remove_set_in n s m : In m (set_insert n s) -> In m s \/ m = n.
Proof.
  unfold set_insert. destruct (existsb _ s); [now left|].
  intros H. apply in_app_or in H as [H|[<-|[]]]; auto.
Qed.

Lemma remove_set_nodup n s :
  NoDup (map n_id s) -> NoDup (map n_id (set_insert n s)).
Proof.
  unfold set_insert. destruct (existsb _ s) eqn:E; [auto|].
  intros H. rewrite map_app. simpl.
  apply NoDup_app; [exact H | repeat constructor; intros [] |].
  intros i Hi [<-|[]]. apply in_map_iff in Hi as (m & Hid & Hm).
  assert (existsb (fun m0 => Nat.eqb (n_id m0) (n_id n)) s = true).
  { apply existsb_exists. exists m. split; [exact Hm|].
    now apply Nat.eqb_eq. }
  congruence.
Qed.

Lemma own_output_defines x u :
  own_output x -> defines u x = Nat.eqb (n_id x) u.
Proof.
  unfold own_output, defines. destruct (n_outputs x) as [|o [|o' os]];
    try discriminate.
  simpl. intros [= <-]. now rewrite orb_false_r.
Qed.

Lemma defines_below next m u :
  (forall o, In o (n_outputs m) -> fst o < next) -> next <= u ->
  defines u m = false.
Proof.
  intros H Hu. destruct (defines u m) eqn:E; [|reflexivity].
  unfold defines in E.
  apply existsb_exists in E as (o & Ho & E). apply Nat.eqb_eq in E.
  exfalso. apply (Nat.lt_irrefl (fst o)).
  eapply Nat.lt_le_trans; [apply (H o Ho)|]. now rewrite E.
Qed.

Lemma defined_below next m u :
  (forall o, In o (n_outputs m) -> fst o < next) ->
  defines u m = true -> u < next.
Proof.
  intros H E. unfold defines in E.
  apply existsb_exists in E as (o & Ho & E). apply Nat.eqb_eq in E.
  subst u. now apply H.
Qed.

Lemma redirection_insertAll news t b p :
  (forall x, In x news -> n_blocks x = []) ->
  redirection b p -> redirection (insertAllBefore news t b) p.
Proof.
  intros Hl ((c & Hc & Hck & Hcd) & (e & He & Hek & Hed)).
  destruct (insertAll_kept news t b Hl c Hc) as (c' & Hc' & (_ & Hk & Ho & _)).
  destruct (insertAll_kept news t b Hl e He) as (e' & He' & (_ & Hk' & Ho' & _)).
  split; [exists c' | exists e']; (split; [assumption|]);
    unfold defines in *; split; congruence.
Qed.

(** The deferred edits recorded so far, and the one [expandCat]
    records, in the graph with the nodes it has emitted. *)
Lemma expansion_pending b next P R news node lst axis out ot l lt buffer :
  pending_ok b P R ->
  (forall m, In m (nodes_of_block b) ->
             n_id m < next /\ forall o, In o (n_outputs m) -> fst o < next) ->
  (forall x, In x news -> n_blocks x = []) ->
  (forall x, In x news -> next <= n_id x) ->
  Forall own_output news -> NoDup (map n_id news) ->
  In buffer news -> n_kind buffer = aten_empty ->
  find_node b (n_id node) = Some node -> n_blocks node = [] ->
  n_kind node = aten_cat -> n_inputs node = [lst; axis] ->
  n_outputs node = [(out, ot)] ->
  producer b lst = Some l -> n_blocks l = [] ->
  n_kind l = prim_ListConstruct -> n_outputs l = [(lst, lt)] ->
  pending_ok (insertAllBefore news (n_id node) b)
             (map_set out (n_id buffer) P) (set_insert node R).
Proof.
  intros (Hu & Hs & HndP & Hred & HndR & HR) Hlow Hleaves Hfresh Hown Hnd
         Hbuf Hbk Hf Hb Hk Hi Ho Hp Hlb Hlk Hlo.
  rewrite Forall_forall in Hown.
  destruct (find_node_in _ _ _ Hf) as (Hnode & _).
  set (b' := insertAllBefore news (n_id node) b).
  assert (Hnews_def : forall x u, In x news -> defines u x = true ->
                                  u = n_id x /\ next <= u).
  { intros x u Hx E. rewrite (own_output_defines x u (Hown x Hx)) in E.
    apply Nat.eqb_eq in E. subst u. split; [reflexivity|]. now apply Hfresh. }
  assert (Hnews_low : forall x u, In x news -> u < next ->
                                  defines u x = false).
  { intros x u Hx Hlt. destruct (defines u x) eqn:E; [|reflexivity].
    destruct (Hnews_def x u Hx E). lia. }
  assert (Hfind : forall i x, find_node b i = Some x -> n_blocks x = [] ->
                              find_node b' i = Some x).
  { intros i x Hfx Hbx.
    destruct (find_node_in _ _ _ Hfx) as (Hxin & Hxid).
    destruct (insertAll_find_node news (n_id node) b Hleaves i x)
      as (x' & Hx' & Hm); [|exact Hfx|].
    - intros y Hy E. pose proof (Hfresh y Hy).
      pose proof (proj1 (Hlow x Hxin)). lia.
    - apply mapped_leaf_id in Hm; [|exact Hbx]. now subst x'. }
  assert (Hprod : forall u x, producer b u = Some x -> n_blocks x = [] ->
                              producer b' u = Some x).
  { intros u x Hpx Hbx.
    destruct (producer_in _ _ _ Hpx) as (Hxin & Hxd).
    destruct (insertAll_producer news (n_id node) b Hleaves u x)
      as (x' & Hx' & Hm); [|exact Hpx|].
    - intros y Hy. apply Hnews_low; [exact Hy|].
      apply (defined_below next x u); [apply Hlow|]; assumption.
    - apply mapped_leaf_id in Hm; [|exact Hbx]. now subst x'. }
  split; [|split; [|split; [|split; [|split]]]].
  - apply insertAll_unique_ids; auto.
    + intros x y Hx Hy. now apply (NoDup_map_inj n_id news x y Hnd).
    + intros x m Hx Hm E. pose proof (Hfresh x Hx).
      pose proof (proj1 (Hlow m Hm)). lia.
  - apply insertAll_ssa; auto.
    + intros x y u Hx Hy Dx Dy.
      destruct (Hnews_def x u Hx Dx) as (-> & _).
      destruct (Hnews_def y _ Hy Dy) as (E & _).
      now apply (NoDup_map_inj n_id news x y Hnd).
    + intros x m u Hx Hm Dx. destruct (Hnews_def x u Hx Dx) as (_ & Hge).
      apply (defines_below next); [apply Hlow|]; assumption.
  - now apply redirect_set_nodup.
  - intros p Hpin. apply redirect_set_in in Hpin as [Hpin| ->].
    + apply redirection_insertAll; auto.
    + split.
      * destruct (insertAll_kept news (n_id node) b Hleaves node Hnode)
          as (c' & Hc' & (_ & Hck & Hco & _)).
        exists c'. split; [exact Hc'|]. split; [congruence|].
        unfold defines. rewrite Hco.
        apply (single_output_defines node out ot Ho).
      * exists buffer. split; [|split; [exact Hbk|]].
        -- now apply (insertAll_new news (n_id node) b Hleaves node).
        -- rewrite (own_output_defines _ _ (Hown buffer Hbuf)).
           apply Nat.eqb_refl.
  - now apply remove_set_nodup.
  - intros n Hn. apply remove_set_in in Hn as [Hn| ->].
    + destruct (HR n Hn) as (o & u & Hou & Hrec).
      destruct (redirect_set_key_kept out (n_id buffer) P o u Hou)
        as (u' & Hu').
      exists o, u'. split; [exact Hu'|].
      destruct Hrec as (n' & l0 & a0 & t0 & L0 & lt0 & Hf0 & Hb0 & Hk0 &
                        Hi0 & Ho0 & Hp0 & HLb0 & HLk0 & HLo0).
      exists n', l0, a0, t0, L0, lt0.
      repeat split; auto.
    + exists out, (n_id buffer). split; [apply redirect_set_has|].
      exists node, lst, axis, ot, l, lt. repeat split; auto.
Qed.

End CleanupWhole.

Module ExpansionPlain.

Lemma spec_operands_plain xs : forall next buffer axis step start rs x,
  In x (flat (spec_operands next buffer axis step start xs rs)) ->
  n_blocks x = [] /\ n_kind x <> aten_cat.
Proof.
  induction xs as [|a xs IH]; intros next buffer axis step start rs x;
    [intros []|].
  destruct rs as [|[lo hi] rs]; [intros []|].
  cbn [spec_operands flat flat_map fst snd app].
  intros [<-|[<-|[<-|H]]]; try (split; [reflexivity | discriminate]).
  now apply IH in H.
Qed.

Lemma x_nodes_plain next axis out_sizes operands extents x :
  In x (x_nodes (spec_expansion next axis out_sizes operands extents)) ->
  n_blocks x = [] /\ n_kind x <> aten_cat.
Proof.
  cbn [x_nodes spec_expansion]. intros H.
  apply in_app_or in H as [H|H].
  { destruct H as [<-|[<-|[]]]; split; (reflexivity || discriminate). }
  apply in_app_or in H as [H|H].
  { unfold spec_size_constants in H. apply in_map_iff in H as (p & <- & _).
    split; [reflexivity | discriminate]. }
  apply in_app_or in H as [H|H].
  { destruct H as [<-|[<-|[<-|[]]]]; split; (reflexivity || discriminate). }
  now apply spec_operands_plain in H.
Qed.

End ExpansionPlain.

Module ExpandCleanup.
Import Expander EditInstances RewiredFacts CleanupPhases CleanupWhole.

(** [cleanupExpandedCatOps] once [expandCat] has emitted [news] before
    [node] and recorded the redirection of its output to [buffer]. *)
Lemma cleanup_after_expansion st st' news node lst axis out ot l lt buffer :
  let b := g_block (graph_ st) in
  pending_ok b (replace_uses_with_ st) (nodes_to_remove_ st) ->
  names_below (g_next (graph_ st)) b ->
  (forall x, In x news -> n_blocks x = [] /\ n_kind x <> aten_cat) ->
  (forall x, In x news -> g_next (graph_ st) <= n_id x) ->
  Forall own_output news -> NoDup (map n_id news) ->
  In buffer news -> n_kind buffer = aten_empty ->
  find_node b (n_id node) = Some node -> n_blocks node = [] ->
  n_kind node = aten_cat -> n_inputs node = [lst; axis] ->
  n_outputs node = [(out, ot)] ->
  producer b lst = Some l -> n_blocks l = [] ->
  n_kind l = prim_ListConstruct -> n_outputs l = [(lst, lt)] ->
  g_block (graph_ st') = insertAllBefore news (n_id node) b ->
  replace_uses_with_ st' = map_set out (n_id buffer) (replace_uses_with_ st) ->
  nodes_to_remove_ st' = set_insert node (nodes_to_remove_ st) ->
  let P' := replace_uses_with_ st' in
  exists bf,
    cleanupExpandedCatOps st' = Some bf /\
    find_node bf (n_id node) = None /\
    num_uses bf out = 0 /\
    rewired P' out = n_id buffer /\
    rewired P' (n_id buffer) = n_id buffer /\
    b_returns bf = map (rewired P') (b_returns b) /\
    (forall x, In x (nodes_of_block b) \/ In x news ->
               (exists x', In x' (nodes_of_block bf) /\
                           mapped (map (rewired P')) x x') \/
               ((n_kind x = aten_cat \/ n_kind x = prim_ListConstruct) /\
                find_node bf (n_id x) = None)).
Proof.
  intros b Hpend Hlow Hplain Hfresh Hown Hnd Hbuf Hbk Hf Hb Hk Hi Ho Hp Hlb
         Hlk Hlo Hg HP HR P'.
  assert (Hleaves : forall x, In x news -> n_blocks x = [])
    by (intros x Hx; apply (Hplain x Hx)).
  pose proof (expansion_pending b (g_next (graph_ st)) _ _ news node lst axis
                out ot l lt buffer Hpend Hlow Hleaves Hfresh Hown Hnd Hbuf
                Hbk Hf Hb Hk Hi Ho Hp Hlb Hlk Hlo) as Hpend'.
  rewrite <- Hg, <- HP, <- HR in Hpend'.
  destruct (cleanup_pending st' Hpend')
    as (bf & Hrun & Hgone & Hunused & Hret & Hkeep).
  fold P' in Hunused, Hret, Hkeep.
  assert (HinP : In (out, n_id buffer) P').
  { unfold P'. rewrite HP. apply redirect_set_has. }
  assert (HinR : exists m, In m (nodes_to_remove_ st') /\
                           n_id m = n_id node).
  { rewrite HR. unfold set_insert.
    destruct (existsb _ (nodes_to_remove_ st)) eqn:E.
    - apply existsb_exists in E as (m & Hm & E). apply Nat.eqb_eq in E.
      eauto.
    - exists node. split; [|reflexivity]. apply in_or_app. right. now left. }
  destruct (find_node_in _ _ _ Hf) as (Hnode & _).
  exists bf. split; [exact Hrun|].
  split; [destruct HinR as (m & Hm & <-); now apply Hgone|].
  split; [apply (Hunused _ HinP)|].
  destruct Hpend' as (Hu' & Hs' & HndP' & Hred' & _).
  split.
  { apply rewired_key; [exact HndP' | exact HinP|].
    intros q Hq.
    apply (redirection_apart _ q (out, n_id buffer) Hs'); auto. }
  split.
  { apply rewired_other. intros q Hq.
    apply (redirection_apart _ q (out, n_id buffer) Hs'); auto. }
  split; [rewrite Hret, Hg; now rewrite insertAll_returns|].
  intros x [Hx|Hx].
  - destruct (insertAll_kept news (n_id node) b Hleaves x Hx)
      as (x1 & Hx1 & Hm1).
    rewrite <- Hg in Hx1.
    destruct (Hkeep x1 Hx1) as [(x2 & Hx2 & Hm2)|(Hk2 & Habs)].
    + left. exists x2. split; [exact Hx2|].
      apply (mapped_trans (fun l => l) (map (rewired P')) (map (rewired P'))
               x x1 x2 (fun _ => eq_refl) Hm1 Hm2).
    + right. destruct Hm1 as (Hid & Hk1 & _). rewrite Hk1, Hid in *. auto.
  - apply Hkeep. rewrite Hg.
    now apply (insertAll_new news (n_id node) b Hleaves node).
Qed.

End ExpandCleanup.

Module ExpandAxis.
Import Expander.

Lemma size_at_outside sizes i :
  (Z.of_nat (length sizes) <= i mod 18446744073709551616)%Z ->
  size_at sizes i = None.
Proof.
  intros H. unfold size_at.
  replace (nth_error sizes (Z.to_nat (i mod 18446744073709551616)))
    with (@None (option Z)); [reflexivity|].
  symmetry. apply nth_error_None. lia.
Qed.

(** [expandCat] raises, once the allocation is emitted, when the axis
    is not an index into the shape of the first operand. *)
Lemma expandCat_outside_rank (C : Collaborators) (st : State) (node : Node)
      (lst axis : Value) (l : Node) (d : Z) (x : Value) (rest : list Value)
      (t : TensorType) (sizes : list (option Z)) :
  let b := g_block (graph_ st) in
  n_inputs node = [lst; axis] ->
  hasWriters C (fst (getOrCreateAliasDb st)) lst = false ->
  producer b lst = Some l ->
  n_kind l = prim_ListConstruct ->
  allShapesAreKnown b node = true ->
  forallb (shapeIsKnown b) (n_inputs l) = true ->
  constant_as b axis = Some d ->
  n_inputs l = x :: rest ->
  type_of b x = Tensor t -> tt_sizes t = Some sizes ->
  size_at sizes d = None ->
  expandCat C st node = None.
Proof.
  intros b Hins Hw Hp Hk Ha Hall Hd Hl Hx Hs Hsz.
  pose proof (ExpanderFacts.getOrCreateAliasDb_same st) as (Hg & _).
  unfold expandCat, input. rewrite Hins. cbn [nth_error bind].
  destruct (getOrCreateAliasDb st) as [db st1].
  cbn [fst snd] in *. rewrite Hg. fold b. rewrite Hw.
  rewrite (VariadicMore.producer_kind_some _ _ Hp), Hk.
  cbn [Symbol_eqb negb]. rewrite Ha. cbn [negb]. rewrite Hp. cbn [bind].
  rewrite Hall. cbn [negb]. rewrite Hd.
  destruct (insertConstant IV_None _) as [none bl0].
  destruct (insertConstant (IV_Int 1) bl0) as [one bl1].
  destruct (output node) as [out|]; [|reflexivity]. cbn [bind].
  destruct (type_of b out) as [t0| | | | ]; try reflexivity.
  destruct (tt_sizes t0) as [sizes0|]; [|reflexivity]. cbn [bind].
  destruct (insert_size_constants sizes0 bl1) as [cs bl2].
  destruct (emit prim_ListConstruct cs _ None bl2) as [sl bl3].
  destruct (emit aten_empty _ _ None bl3) as [em bl4].
  destruct (insertConstant (IV_Int 0) bl4) as [start bl5].
  rewrite Hl. cbn [expand_inputs]. rewrite Hx, Hs. cbn [bind].
  now rewrite Hsz.
Qed.

End ExpandAxis.

Module WfFacts.

Lemma nodup_unique_ids b :
  NoDup (map n_id (nodes_of_block b)) -> unique_ids b.
Proof. intros H n m Hn Hm. now apply (NoDup_map_inj n_id _ n m H). Qed.

Lemma nodup_app_apart {A : Type} (l1 l2 : list A) a :
  NoDup (l1 ++ l2) -> In a l1 -> In a l2 -> False.
Proof.
  induction l1 as [|x l1 IH]; simpl; [intros _ []|].
  intros H [->|H1] H2; inversion H as [|? ? Hn Hd]; subst.
  - apply Hn. apply in_or_app. now right.
  - now apply IH.
Qed.

Lemma defined_among_outputs v n :
  defines v n = true -> In v (map (@fst Value Type_) (n_outputs n)).
Proof.
  unfold defines. intros H. apply existsb_exists in H as (o & Ho & E).
  apply Nat.eqb_eq in E. subst v. now apply in_map.
Qed.

Lemma nodup_ssa b :
  NoDup (flat_map (fun n => map (@fst Value Type_) (n_outputs n))
                  (nodes_of_block b)) ->
  ssa b.
Proof.
  unfold ssa. generalize (nodes_of_block b). intros l.
  induction l as [|a l IH]; intros Hnd n m v Hn Hm Dn Dm; [destruct Hn|].
  simpl in Hnd.
  assert (Hrest : forall x, In x l -> defines v x = true ->
                            In v (flat_map (fun n => map (@fst Value Type_)
                                                        (n_outputs n)) l)).
  { intros x Hx Dx. apply in_flat_map. exists x. split; [exact Hx|].
    now apply defined_among_outputs. }
  destruct Hn as [->|Hn]; destruct Hm as [->|Hm]; [reflexivity| | |].
  - exfalso. apply (nodup_app_apart _ _ v Hnd); [now apply defined_among_outputs|eauto].
  - exfalso. apply (nodup_app_apart _ _ v Hnd); [now apply defined_among_outputs|eauto].
  - apply (IH (NoDup_app_remove_l _ _ Hnd) n m v); assumption.
Qed.

End WfFacts.



